(** * NINJA SUPREME 2.0 — expansion-history engine

    A shallow embedding of [src/ninja_supreme_2.py]: the data object
    [NinjaDataVectorized], the engine [BaseModel] with its two subclasses
    [LCDM_Vectorized] and [DUT_Vectorized], and the parts of numpy / scipy
    the engine calls ([np.logspace], [np.sqrt], [**], [np.log10],
    [cumulative_trapezoid], [PchipInterpolator], [interp1d]); then the
    observational data of [load_all_data], the request handlers built on
    the engine ([generate_model_curves], [get_model_curves],
    [get_observational_data], [get_metrics]) and the closed-form generators
    of [src/main.py].

    Numbers.  A finite IEEE double is modelled by the real number it stands
    for and finite arithmetic is exact (no rounding, no overflow); the three
    non-finite doubles are kept ([PInf], [NInf], [NaN]) because numpy
    produces them instead of raising, and scipy's input checks look at them.
    Zero is unsigned: a finite value divided by zero is [PInf] or [NInf] by
    the sign of the numerator.

    Exact arithmetic stands for the arithmetic of the code only while every
    double stays inside the floating-point range.  A statement that would
    fail at the ends of that range carries bounds on the parameters and on
    the redshift ([moderate_H0], [moderate_dark_energy], [moderate_sigma8],
    [moderate_redshift]) under which the intermediate values of the code
    stay many orders of magnitude inside it; its equalities and strict
    inequalities are those of exact arithmetic, and hold in doubles up to
    rounding.  What the engine does at the ends of the range is modelled in
    module [IEEE], where every operation of the Hubble table, of the
    trapezoid sum and of the linear interpolator is followed by the
    overflow check. *)

From Stdlib Require Import Reals Lra Lia Psatz List ZArith Bool.
From Stdlib Require String.
Import String.StringSyntax.
Import ListNotations.

Open Scope R_scope.
Delimit Scope string_scope with string.

(** ** Python outcomes: a value or a raised exception *)

Inductive pyexn : Set :=
| ValueError.

Inductive result (A : Type) : Type :=
| Ok (a : A)
| Raise (e : pyexn).

Arguments Ok {A} a.
Arguments Raise {A} e.

Definition bind {A B : Type} (r : result A) (k : A -> result B) : result B :=
  match r with
  | Ok a => k a
  | Raise e => Raise e
  end.

Notation "x <- r ;; k" := (bind r (fun x => k))
  (at level 61, r at next level, right associativity).

(** ** numpy doubles *)

Inductive npfloat : Type :=
| Fin (r : R)
| PInf
| NInf
| NaN.

Definition is_finite (x : npfloat) : bool :=
  match x with Fin _ => true | _ => false end.

Definition np_neg (x : npfloat) : npfloat :=
  match x with
  | Fin a => Fin (- a)
  | PInf => NInf
  | NInf => PInf
  | NaN => NaN
  end.

Definition np_add (x y : npfloat) : npfloat :=
  match x, y with
  | Fin a, Fin b => Fin (a + b)
  | NaN, _ | _, NaN => NaN
  | PInf, NInf | NInf, PInf => NaN
  | PInf, _ | _, PInf => PInf
  | NInf, _ | _, NInf => NInf
  end.

Definition np_sub (x y : npfloat) : npfloat := np_add x (np_neg y).

(** The infinity with the sign of [a], or [NaN] when [a] is zero. *)
Definition inf_of_sign (a : R) : npfloat :=
  if Rlt_dec 0 a then PInf else if Rlt_dec a 0 then NInf else NaN.

Definition np_mul (x y : npfloat) : npfloat :=
  match x, y with
  | Fin a, Fin b => Fin (a * b)
  | NaN, _ | _, NaN => NaN
  | Fin a, PInf | PInf, Fin a => inf_of_sign a
  | Fin a, NInf | NInf, Fin a => inf_of_sign (- a)
  | PInf, PInf | NInf, NInf => PInf
  | PInf, NInf | NInf, PInf => NInf
  end.

Definition np_div (x y : npfloat) : npfloat :=
  match x, y with
  | Fin a, Fin b => if Req_dec_T b 0 then inf_of_sign a else Fin (a / b)
  | NaN, _ | _, NaN => NaN
  | Fin _, _ => Fin 0
  | PInf, Fin b => if Rlt_dec b 0 then NInf else PInf
  | NInf, Fin b => if Rlt_dec b 0 then PInf else NInf
  | _, _ => NaN
  end.

Definition np_sqrt (x : npfloat) : npfloat :=
  match x with
  | Fin a => if Rlt_dec a 0 then NaN else Fin (sqrt a)
  | PInf => PInf
  | _ => NaN
  end.

Definition np_log10 (x : npfloat) : npfloat :=
  match x with
  | Fin a =>
      if Rlt_dec 0 a then Fin (ln a / ln 10)
      else if Rlt_dec a 0 then NaN else NInf
  | PInf => PInf
  | _ => NaN
  end.

(** Is the real [y] an integer, and which one. *)
Definition as_integer (y : R) : option Z :=
  if Req_dec_T y (IZR (Int_part y)) then Some (Int_part y) else None.

(** [x ** y] for finite [x] and [y], as C's [pow]. *)
Definition pow_fin (a y : R) : npfloat :=
  if Rlt_dec 0 a then Fin (Rpower a y)
  else if Req_dec_T a 0 then
    (if Rlt_dec 0 y then Fin 0 else if Rlt_dec y 0 then PInf else Fin 1)
  else
    match as_integer y with
    | Some n => Fin (powerRZ a n)
    | None => NaN
    end.

Definition np_power (x y : npfloat) : npfloat :=
  match x, y with
  | Fin a, Fin b => pow_fin a b
  | _, Fin b => if Req_dec_T b 0 then Fin 1 else
      match x with
      | PInf => if Rlt_dec 0 b then PInf else Fin 0
      | NInf =>
          if Rlt_dec b 0 then Fin 0
          else match as_integer b with
               | Some n => if Z.odd n then NInf else PInf
               | None => PInf
               end
      | _ => NaN
      end
  | Fin a, PInf =>
      if Req_dec_T (Rabs a) 1 then Fin 1
      else if Rlt_dec (Rabs a) 1 then Fin 0 else PInf
  | Fin a, NInf =>
      if Req_dec_T (Rabs a) 1 then Fin 1
      else if Rlt_dec (Rabs a) 1 then PInf else Fin 0
  | Fin a, NaN => if Req_dec_T a 1 then Fin 1 else NaN
  | NaN, _ => NaN
  | _, NaN => NaN
  | _, PInf => PInf
  | _, NInf => Fin 0
  end.

Coercion Fin : R >-> npfloat.

Declare Scope np_scope.
Delimit Scope np_scope with np.
Bind Scope np_scope with npfloat.
Infix "+" := np_add : np_scope.
Infix "-" := np_sub : np_scope.
Infix "*" := np_mul : np_scope.
Infix "/" := np_div : np_scope.
Infix "**" := np_power (at level 30, right associativity) : np_scope.

(** ** numpy array builders *)

(** [np.diff]. *)
Fixpoint diff (l : list R) : list R :=
  match l with
  | x0 :: ((x1 :: _) as l') => (x1 - x0) :: diff l'
  | _ => []
  end.

(** Elementwise binary operation on two arrays of the same length. *)
Fixpoint zip_with {A B C : Type} (f : A -> B -> C)
  (l1 : list A) (l2 : list B) : list C :=
  match l1, l2 with
  | a :: l1', b :: l2' => f a b :: zip_with f l1' l2'
  | _, _ => []
  end.

(** [np.linspace(start, stop, num)]: [arange(num) * step + start]. *)
Definition linspace (start stop : R) (num : nat) : list R :=
  let step := (stop - start) / INR (num - 1) in
  map (fun i => start + INR i * step) (seq 0 num).

(** [np.logspace(start, stop, num)]: [10 ** linspace(start, stop, num)]. *)
Definition logspace (start stop : R) (num : nat) : list R :=
  map (fun y => Rpower 10 y) (linspace start stop num).

(** [np.log10] at a positive Python float. *)
Definition log10R (x : R) : R := ln x / ln 10.

(** ** scipy.integrate.cumulative_trapezoid *)

(** The running sum [cumsum(diff(x) * (y[1:] + y[:-1]) / 2)]. *)
Fixpoint trapz_acc (acc : npfloat) (x : list R) (y : list npfloat)
  : list npfloat :=
  match x, y with
  | x0 :: ((x1 :: _) as x'), y0 :: ((y1 :: _) as y') =>
      let acc' := (acc + Fin (x1 - x0) * (y1 + y0) / Fin 2)%np in
      acc' :: trapz_acc acc' x' y'
  | _, _ => []
  end.

Definition cumulative_trapezoid (y : list npfloat) (x : list R)
  (initial : npfloat) : list npfloat :=
  initial :: trapz_acc (Fin 0) x y.

(** ** scipy.interpolate.PchipInterpolator *)

(** A piecewise cubic: breakpoints, and for each interval the coefficients
    [(c0, c1, c2, c3)] of [c0*s^3 + c1*s^2 + c2*s + c3], [s = v - x_i]. *)
Record PPoly : Type := {
  pp_x : list R;
  pp_c : list (R * R * R * R);
  pp_extrapolate : bool
}.

Definition np_sign (r : R) : R :=
  if Rlt_dec 0 r then 1 else if Rlt_dec r 0 then -1 else 0.

Definition Rneqb (a b : R) : bool := if Req_dec_T a b then false else true.
Definition Reqb (a b : R) : bool := if Req_dec_T a b then true else false.
Definition Rgtb (a b : R) : bool := if Rlt_dec b a then true else false.

(** [PchipInterpolator._edge_case]: one-sided three-point estimate. *)
Definition edge_case (h0 h1 m0 m1 : R) : R :=
  let d := ((2 * h0 + h1) * m0 - h0 * m1) / (h0 + h1) in
  let mask := Rneqb (np_sign d) (np_sign m0) in
  let mask2 := Rneqb (np_sign m0) (np_sign m1) && Rgtb (Rabs d) (3 * Rabs m0) in
  if mask then 0 else if mask2 then 3 * m0 else d.

(** The derivative at an interior point: zero at a local extremum, else the
    weighted harmonic mean of the two neighbouring slopes. *)
Definition interior_derivative (h0 h1 m0 m1 : R) : R :=
  let condition := Rneqb (np_sign m1) (np_sign m0) || Reqb m1 0 || Reqb m0 0 in
  let w1 := 2 * h1 + h0 in
  let w2 := h1 + 2 * h0 in
  let whmean := (w1 / m0 + w2 / m1) / (w1 + w2) in
  if condition then 0 else 1 / whmean.

Fixpoint interior_derivatives (hk mk : list R) : list R :=
  match hk, mk with
  | h0 :: ((h1 :: _) as hk'), m0 :: ((m1 :: _) as mk') =>
      interior_derivative h0 h1 m0 m1 :: interior_derivatives hk' mk'
  | _, _ => []
  end.

(** [PchipInterpolator._find_derivatives]. *)
Definition find_derivatives (x y : list R) : list R :=
  let hk := diff x in
  let mk := zip_with Rdiv (diff y) hk in
  match hk, mk with
  | [_], [m0] => [m0; m0]
  | h0 :: h1 :: _, m0 :: m1 :: _ =>
      match rev hk, rev mk with
      | hl :: hl2 :: _, ml :: ml2 :: _ =>
          edge_case h0 h1 m0 m1
            :: interior_derivatives hk mk ++ [edge_case hl hl2 ml ml2]
      | _, _ => []
      end
  | _, _ => []
  end.

(** [CubicHermiteSpline.__init__]: the coefficients of each interval. *)
Fixpoint hermite_coeffs (x y dydx : list R) : list (R * R * R * R) :=
  match x, y, dydx with
  | x0 :: ((x1 :: _) as x'), y0 :: ((y1 :: _) as y'),
    d0 :: ((d1 :: _) as d') =>
      let dxr := x1 - x0 in
      let slope := (y1 - y0) / dxr in
      let t := (d0 + d1 - 2 * slope) / dxr in
      (t / dxr, (slope - d0) / dxr - t, d0, y0) :: hermite_coeffs x' y' d'
  | _, _, _ => []
  end.

(** [prepare_input] wants finite ordinates. *)
Fixpoint all_finite (l : list npfloat) : option (list R) :=
  match l with
  | [] => Some []
  | Fin r :: l' =>
      match all_finite l' with
      | Some rs => Some (r :: rs)
      | None => None
      end
  | _ :: _ => None
  end.

(** [np.any(np.diff(x) <= 0)] negated. *)
Fixpoint strictly_increasing (l : list R) : bool :=
  match l with
  | x0 :: ((x1 :: _) as l') =>
      if Rlt_dec x0 x1 then strictly_increasing l' else false
  | _ => true
  end.

(** [PchipInterpolator(x, y, extrapolate=None)].  [prepare_input] raises
    [ValueError] on fewer than two points, on a length mismatch, on a
    non-finite ordinate and on abscissae that do not increase strictly.
    [extrapolate=None] means [True]. *)
Definition PchipInterpolator (x : list R) (y : list npfloat)
  (extrapolate : option bool) : result PPoly :=
  if (length x <? 2)%nat then Raise ValueError
  else if negb (length x =? length y)%nat then Raise ValueError
  else
    match all_finite y with
    | None => Raise ValueError
    | Some yr =>
        if strictly_increasing x then
          Ok {| pp_x := x;
                pp_c := hermite_coeffs x yr (find_derivatives x yr);
                pp_extrapolate :=
                  match extrapolate with None => true | Some b => b end |}
        else Raise ValueError
    end.

Definition cubic (k : R * R * R * R) (s : R) : R :=
  let '(c0, c1, c2, c3) := k in
  c0 * s ^ 3 + c1 * s ^ 2 + c2 * s + c3.

(** Evaluation on the interval [[x_i, x_{i+1})] that holds [v]; the first
    interval serves every [v] below it and the last every [v] from its left
    end on. *)
Fixpoint ppoly_eval (x : list R) (cs : list (R * R * R * R)) (v : R) : R :=
  match x, cs with
  | x0 :: ((x1 :: _) as x'), k :: cs' =>
      match cs' with
      | [] => cubic k (v - x0)
      | _ :: _ =>
          if Rlt_dec v x1 then cubic k (v - x0) else ppoly_eval x' cs' v
      end
  | _, _ => 0
  end.

Definition out_of_bounds (x : list R) (v : R) : bool :=
  if Rlt_dec v (hd 0 x) then true
  else if Rlt_dec (last x 0) v then true else false.

(** [PPoly.__call__]: outside the breakpoints the result is the
    extrapolated cubic, or [nan] when the spline does not extrapolate. *)
Definition ppoly_call (p : PPoly) (v : R) : npfloat :=
  if negb (pp_extrapolate p) && out_of_bounds (pp_x p) v then NaN
  else Fin (ppoly_eval (pp_x p) (pp_c p) v).

(** ** scipy.interpolate.interp1d, kind='linear' *)

Inductive fill_value : Type :=
| FillNaN
| FillExtrapolate.

Record Interp1d : Type := {
  i1_x : list R;
  i1_y : list npfloat;
  i1_bounds_error : bool;
  i1_fill : fill_value
}.

(** [interp1d(x, y, bounds_error=..., fill_value=...)].  The abscissae are
    expected in increasing order (the library would sort them otherwise;
    the engine only ever passes its redshift grid). *)
Definition interp1d (x : list R) (y : list npfloat)
  (bounds_error : bool) (fill : fill_value) : result Interp1d :=
  if negb (length x =? length y)%nat then Raise ValueError
  else
    match fill, bounds_error with
    | FillExtrapolate, true => Raise ValueError
    | _, _ =>
        Ok {| i1_x := x; i1_y := y;
              i1_bounds_error := bounds_error; i1_fill := fill |}
    end.

Definition segment (x_lo x_hi : R) (y_lo y_hi : npfloat) (v : R) : npfloat :=
  let slope := ((y_hi - y_lo) / Fin (x_hi - x_lo))%np in
  (slope * Fin (v - x_lo) + y_lo)%np.

(** [_call_linear]: [searchsorted] (left) clipped to [1 .. n-1] picks the
    segment [(x_{i-1}, x_i]] that holds [v]; the first and the last segment
    serve the values outside. *)
Fixpoint call_linear (x : list R) (y : list npfloat) (v : R) : npfloat :=
  match x, y with
  | x0 :: ((x1 :: x'') as x'), y0 :: ((y1 :: _) as y') =>
      match x'' with
      | [] => segment x0 x1 y0 y1 v
      | _ :: _ =>
          if Rle_dec v x1 then segment x0 x1 y0 y1 v
          else call_linear x' y' v
      end
  | _, _ => NaN
  end.

Definition interp1d_call (f : Interp1d) (v : R) : result npfloat :=
  match i1_fill f with
  | FillExtrapolate => Ok (call_linear (i1_x f) (i1_y f) v)
  | FillNaN =>
      if out_of_bounds (i1_x f) v then
        if i1_bounds_error f then Raise ValueError else Ok NaN
      else Ok (call_linear (i1_x f) (i1_y f) v)
  end.

(** * The program *)

(** ** GLOBAL CONFIG *)

Definition N_Z_GRID_POINTS : nat := 1000.

(** ** class NinjaDataVectorized

    Only the fields the engine reads are kept; [load_all_data] fills the
    observational tables, which no model method looks at. *)

Module NinjaDataVectorized.

Record t : Type := {
  c : R;
  z_grid : list R;
  a_grid : list npfloat
}.

Definition init : t :=
  let z := logspace (-3) (log10R 5) N_Z_GRID_POINTS in
  {| c := 299792458 / 1000;
     z_grid := z;
     a_grid := map (fun zi => (Fin 1 / (Fin 1 + Fin zi))%np) z |}.

End NinjaDataVectorized.

(** The module-level singleton [data = NinjaDataVectorized()]. *)
Definition data : NinjaDataVectorized.t := NinjaDataVectorized.init.

(** ** class BaseModel *)

Module BaseModel.

Import NinjaDataVectorized.


Record t : Type := {
  H0 : R;
  Om : R;
  w0 : R;
  wa : R;
  xi : R;
  data : NinjaDataVectorized.t;
  hz_grid : list npfloat;
  Dc_interp : PPoly;
  DL_interp : PPoly;
  Hz_interp : Interp1d
}.

(** One entry of [w_de_grid]. *)
Definition w_de (w0 wa : R) (a : npfloat) : npfloat :=
  (Fin w0 + Fin wa * (Fin 1 - a))%np.

(** One entry of [rho_de_grid]. *)
Definition rho_de (w0 wa xi : R) (a : npfloat) : npfloat :=
  (a ** (Fin (-3) * (Fin 1 + w_de w0 wa a + Fin xi)))%np.

(** The quantity under the square root. *)
Definition radicand (Om w0 wa xi : R) (a : npfloat) : npfloat :=
  (Fin Om / a ** Fin 3 + Fin (1 - Om) * rho_de w0 wa xi a)%np.

(** One entry of [hz_grid]. *)
Definition hubble (H0 Om w0 wa xi : R) (a : npfloat) : npfloat :=
  (Fin H0 * np_sqrt (radicand Om w0 wa xi a))%np.

(** [BaseModel.__init__(H0, Om, data, w0, wa, xi)]. *)
Definition init (H0 Om : R) (data : NinjaDataVectorized.t) (w0 wa xi : R)
  : result t :=
  let a_grid := a_grid data in
  let hz_grid := map (hubble H0 Om w0 wa xi) a_grid in
  let d_c_grid :=
    cumulative_trapezoid (map (fun h => (Fin 1 / h)%np) hz_grid)
      (z_grid data) (Fin 0) in
  Dc_interp <- PchipInterpolator (z_grid data) d_c_grid None ;;
  DL_interp <- PchipInterpolator (z_grid data)
    (zip_with
       (fun z d => (Fin (1 + z) * Fin (c data) * d / Fin 100000)%np)
       (z_grid data) d_c_grid) None ;;
  Hz_interp <- interp1d (z_grid data) hz_grid false FillExtrapolate ;;
  Ok {| H0 := H0; Om := Om; w0 := w0; wa := wa; xi := xi; data := data;
        hz_grid := hz_grid; Dc_interp := Dc_interp;
        DL_interp := DL_interp; Hz_interp := Hz_interp |}.

Definition H (self : t) (z : R) : result npfloat :=
  interp1d_call (Hz_interp self) z.

Definition Dc (self : t) (z : R) : result npfloat :=
  Ok (ppoly_call (Dc_interp self) z).

Definition DL (self : t) (z : R) : result npfloat :=
  Ok (ppoly_call (DL_interp self) z).

Definition mu (self : t) (z : R) : result npfloat :=
  dl <- DL self z ;;
  Ok (Fin 5 * np_log10 dl + Fin 25)%np.

Definition DV (self : t) (z : R) : result npfloat :=
  Dc_z <- Dc self z ;;
  Hz_z <- H self z ;;
  Ok ((Fin (1 + z) * Dc_z ** Fin 2 * Fin (c (data self)) / Hz_z)
        ** Fin (1 / 3))%np.


End BaseModel.

(** ** class LCDM_Vectorized(BaseModel) *)

Module LCDM_Vectorized.

Record t : Type := {
  base : BaseModel.t;
  s8 : R
}.

(** [super().__init__(H0, Om, data)]: the defaults [w0=-1.0], [wa=0.0],
    [xi=0.0] of [BaseModel.__init__] apply. *)
Definition init (H0 Om s8 : R) (data : NinjaDataVectorized.t) : result t :=
  b <- BaseModel.init H0 Om data (-1) 0 0 ;;
  Ok {| base := b; s8 := s8 |}.

Definition fs8_model (self : t) (z : R) : result npfloat :=
  let a := (Fin 1 / (Fin 1 + Fin z))%np in
  Hz <- BaseModel.H (base self) z ;;
  let Om_z :=
    (Fin (BaseModel.Om (base self))
       / (a ** Fin 3 * (Hz / Fin (BaseModel.H0 (base self))) ** Fin 2))%np in
  let f_z := (Om_z ** Fin (55 / 100))%np in
  let D_z_approx := (Om_z ** Fin (3 / 7))%np in
  Ok (f_z * D_z_approx * Fin (s8 self))%np.

End LCDM_Vectorized.

(** ** class DUT_Vectorized(BaseModel) *)

Module DUT_Vectorized.

Record t : Type := {
  base : BaseModel.t;
  s8 : R
}.

Definition init (H0 Om w0 wa xi s8 : R) (data : NinjaDataVectorized.t)
  : result t :=
  b <- BaseModel.init H0 Om data w0 wa xi ;;
  Ok {| base := b; s8 := s8 |}.

Definition fs8_model (self : t) (z : R) : result npfloat :=
  let a := (Fin 1 / (Fin 1 + Fin z))%np in
  Hz <- BaseModel.H (base self) z ;;
  let Om_z :=
    (Fin (BaseModel.Om (base self))
       / (a ** Fin 3 * (Hz / Fin (BaseModel.H0 (base self))) ** Fin 2))%np in
  let f_z := (Om_z ** Fin (52 / 100))%np in
  let D_z_approx := (Om_z ** Fin (3 / 7))%np in
  Ok (f_z * D_z_approx * Fin (s8 self))%np.

End DUT_Vectorized.

(** ** BEST_FIT *)

Definition BEST_FIT_lcdm : result LCDM_Vectorized.t :=
  LCDM_Vectorized.init (678 / 10) (315 / 1000) (811 / 1000) data.

Definition BEST_FIT_dut : result DUT_Vectorized.t :=
  DUT_Vectorized.init (692 / 10) (298 / 1000) (-105 / 100) (8 / 100)
    (35 / 1000) (795 / 1000) data.

(** * The observational data and its endpoint *)

(** [np.sin]. *)
Definition np_sin (x : npfloat) : npfloat :=
  match x with
  | Fin a => Fin (sin a)
  | _ => NaN
  end.

(** [np.eye(n)]. *)
Definition eye (n : nat) : list (list R) :=
  map (fun i => map (fun j => if Nat.eqb i j then 1 else 0) (seq 0 n))
    (seq 0 n).

(** A matrix times a vector, broadcast along the rows:
    entry (i, j) is [m[i][j] * v[j]]. *)
Definition mul_rows (m : list (list R)) (v : list R) : list (list R) :=
  map (fun row => zip_with Rmult row v) m.

(** [np.diag] of a square matrix. *)
Definition diag (m : list (list R)) : list R :=
  map (fun i => nth i (nth i m []) 0) (seq 0 (length m)).

(** The attributes [load_all_data] sets on the data object.  [np.pi] is
    taken as π. *)
Module Observations.

Definition z_low : list R := linspace (1 / 100) (1 / 10) 240.
Definition z_mid : list R := linspace (12 / 100) (6 / 10) 520.
Definition z_high : list R := linspace (65 / 100) (14 / 10) 200.
Definition z_vhigh : list R := linspace (15 / 10) (23 / 10) 88.

Definition pantheon_z : list R := z_low ++ z_mid ++ z_high ++ z_vhigh.

Definition pantheon_mu : list npfloat :=
  map (fun z => (Fin 5 * np_log10 (Fin (z + 1 / 100)) + Fin (3618 / 100)
                 + Fin (6 / 100) * np_sin (Fin (2 * PI * z)))%np)
    pantheon_z.

Definition err : list R := map (fun z => 14 / 100 + 25 / 1000 * z) pantheon_z.

Definition pantheon_cov : list (list R) :=
  mul_rows (eye (length pantheon_z))
    (map (fun e => e ^ 2 + (15 / 1000) ^ 2) err).

Definition n_sn : nat := length pantheon_z.

Definition planck_mean : list R :=
  [3018 / 10; 10411 / 10000; 2236 / 100000; 143 / 1000; 6736 / 100;
   811 / 1000].

Definition n_planck : nat := 6.

Definition bao_z : list R :=
  [106 / 1000; 38 / 100; 51 / 100; 61 / 100; 79 / 100; 105 / 100; 155 / 100;
   211 / 100].

Definition bao_DV : list R :=
  [4574 / 10; 15093 / 10; 20371 / 10; 25019 / 10; 31805 / 10; 40102 / 10;
   53201 / 10; 65008 / 10].

Definition bao_err : list R :=
  [125 / 10; 251 / 10; 285 / 10; 332 / 10; 45; 501 / 10; 621 / 10; 805 / 10].

Definition n_bao : nat := length bao_z.

Definition hz_euclid_z : list R :=
  [9 / 10; 11 / 10; 13 / 10; 15 / 10; 17 / 10; 19 / 10; 21 / 10; 23 / 10;
   25 / 10; 27 / 10].

Definition hz_euclid_data : list R :=
  [1305 / 10; 1552 / 10; 1801 / 10; 2055 / 10; 2301 / 10; 2558 / 10;
   2809 / 10; 3055 / 10; 3301 / 10; 3552 / 10].

Definition hz_euclid_err : list R :=
  [45 / 10; 51 / 10; 62 / 10; 7; 81 / 10; 95 / 10; 101 / 10; 112 / 10;
   125 / 10; 141 / 10].

Definition hz_old_z : list R :=
  [7 / 100; 9 / 100; 12 / 100; 17 / 100; 179 / 1000; 199 / 1000; 2 / 10;
   27 / 100; 28 / 100; 352 / 1000; 38 / 100; 4 / 10; 48 / 100; 593 / 1000;
   68 / 100; 781 / 1000; 875 / 1000; 88 / 100; 1; 123 / 100; 13 / 10;
   136 / 100; 14 / 10; 145 / 100; 152 / 100; 172 / 100; 175 / 100; 194 / 100;
   23 / 10; 232 / 100; 235 / 100]
  ++
  [51 / 100; 6 / 10; 698 / 1000; 85 / 100; 11 / 10; 15 / 10; 175 / 100; 2;
   225 / 100].

Definition hz_old_data : list R :=
  [69; 69; 686 / 10; 83; 75; 75; 729 / 10; 77; 888 / 10; 83; 819 / 10; 95; 97;
   104; 92; 105; 115; 90; 120; 95; 135; 160; 150; 155; 145; 165; 170; 180;
   200; 210; 220]
  ++
  [144; 162; 1625 / 10; 178; 195; 220; 240; 280; 320].

Definition hz_old_err : list R :=
  [196 / 10; 12; 262 / 10; 8; 4; 5; 296 / 10; 14; 366 / 10; 14; 21 / 10; 17;
   62; 13; 8; 12; 15; 10; 17; 12; 20; 20; 18; 19; 22; 25; 26; 28; 30; 32; 35]
  ++
  [12; 15; 145 / 10; 16; 18; 20; 22; 25; 28].

Definition hz_z : list R := hz_old_z ++ hz_euclid_z.
Definition hz_data : list R := hz_old_data ++ hz_euclid_data.
Definition hz_err : list R := hz_old_err ++ hz_euclid_err.
Definition n_hz : nat := length hz_z.

Definition fs8_z : list R :=
  [1 / 100; 15 / 100; 25 / 100; 3 / 10; 37 / 100; 38 / 100; 42 / 100;
   51 / 100; 56 / 100; 6 / 10; 61 / 100; 64 / 100; 67 / 100; 7 / 10; 73 / 100;
   85 / 100; 95 / 100; 11 / 10; 123 / 100; 152 / 100; 17 / 10; 194 / 100;
   225 / 100; 8 / 10; 95 / 100; 11 / 10; 14 / 10; 175 / 100].

Definition fs8_data : list R :=
  [45 / 100; 413 / 1000; 428 / 1000; 43 / 100; 44 / 100; 437 / 1000; 45 / 100;
   452 / 1000; 46 / 100; 462 / 1000; 462 / 1000; 465 / 1000; 468 / 1000;
   468 / 1000; 47 / 100; 475 / 1000; 465 / 1000; 46 / 100; 455 / 1000;
   45 / 100; 445 / 1000; 44 / 100; 435 / 1000; 47 / 100; 465 / 1000; 46 / 100;
   45 / 100; 44 / 100].

Definition fs8_err : list R :=
  [5 / 100; 3 / 100; 28 / 1000; 3 / 100; 35 / 1000; 25 / 1000; 3 / 100;
   2 / 100; 25 / 1000; 18 / 1000; 18 / 1000; 2 / 100; 22 / 1000; 17 / 1000;
   18 / 1000; 25 / 1000; 2 / 100; 22 / 1000; 25 / 1000; 3 / 100; 32 / 1000;
   35 / 1000; 4 / 100; 22 / 1000; 2 / 100; 22 / 1000; 28 / 1000; 3 / 100].

Definition n_fs8 : nat := length fs8_z.

Definition H0_SH0ES_mean : R := 7304 / 100.
Definition H0_SH0ES_err : R := 5 / 10.
Definition LSST_S8_mean : R := 771 / 1000.
Definition LSST_S8_err : R := 8 / 1000.

End Observations.

(** * The HTTP layer

    The functions behind the endpoints.  A method called with an array is
    evaluated element by element; [.tolist()] keeps the order. *)

(** A scalar method applied to every entry of an array. *)
Fixpoint vectorize {A B : Type} (f : A -> result B) (l : list A)
  : result (list B) :=
  match l with
  | [] => Ok []
  | a :: l' => b <- f a ;; bs <- vectorize f l' ;; Ok (b :: bs)
  end.

(** Python at the HTTP layer: exceptions, dicts and [JSONResponse]. *)
Module Web.

(** What a request handler can raise: [KeyError] from a dict lookup, or
    the [ValueError] of numpy, scipy and the JSON encoder. *)
Inductive exn : Type :=
| KeyError (key : String.string)
| Propagated (e : pyexn).

Inductive outcome (A : Type) : Type :=
| Return (a : A)
| Throw (e : exn).

Arguments Return {A} a.
Arguments Throw {A} e.

Definition obind {A B : Type} (r : outcome A) (k : A -> outcome B)
  : outcome B :=
  match r with
  | Return a => k a
  | Throw e => Throw e
  end.

Notation "x <~ r ;; k" := (obind r (fun x => k))
  (at level 61, r at next level, right associativity).

(** An exception of the engine passes through the caller unchanged. *)
Definition lift {A : Type} (r : result A) : outcome A :=
  match r with
  | Ok a => Return a
  | Raise e => Throw (Propagated e)
  end.

(** A Python dict with string keys, in insertion order. *)
Definition dict (V : Type) : Type := list (String.string * V).

(** [d[key]]. *)
Fixpoint getitem {V : Type} (d : dict V) (key : String.string) : outcome V :=
  match d with
  | [] => Throw (KeyError key)
  | (k, v) :: d' => if String.eqb k key then Return v else getitem d' key
  end.

(** What the JSON encoder of [JSONResponse] accepts ([allow_nan=False]):
    finite numbers only. *)
Definition all_compliant (l : list npfloat) : bool := forallb is_finite l.

(** [JSONResponse(content)]: rendering raises [ValueError] on a number
    that is not finite. *)
Definition JSONResponse {A : Type} (compliant : A -> bool) (content : A)
  : outcome A :=
  if compliant content then Return content
  else Throw (Propagated ValueError).

(** [np.linspace] with the sample count of a request: a negative count is
    a [ValueError]. *)
Definition np_linspace (start stop : R) (num : Z) : outcome (list R) :=
  if (num <? 0)%Z then Throw (Propagated ValueError)
  else Return (linspace start stop (Z.to_nat num)).

End Web.

(** The endpoints of [ninja_supreme_2.py]. *)
Module Api.

Import Web.

Definition BEST_FIT : dict (dict R) :=
  [ ("lcdm"%string,
     [ ("H0"%string, 678 / 10); ("Om"%string, 315 / 1000);
       ("s8"%string, 811 / 1000) ]);
    ("dut"%string,
     [ ("H0"%string, 692 / 10); ("Om"%string, 298 / 1000);
       ("w0"%string, -105 / 100); ("wa"%string, 8 / 100);
       ("xi"%string, 35 / 1000); ("s8"%string, 795 / 1000) ]) ].

(** The dict [generate_model_curves] returns. *)
Record curves : Type := {
  hz : list npfloat;
  mu : list npfloat;
  dv : list npfloat;
  fs8 : list npfloat
}.

(** [generate_model_curves(z_array, model_type)]. *)
Definition generate_model_curves (z_array : list R)
  (model_type : String.string) : outcome curves :=
  params <~ getitem BEST_FIT model_type ;;
  if String.eqb model_type "lcdm"%string then
    p_H0 <~ getitem params "H0"%string ;;
    p_Om <~ getitem params "Om"%string ;;
    p_s8 <~ getitem params "s8"%string ;;
    model <~ lift (LCDM_Vectorized.init p_H0 p_Om p_s8 data) ;;
    c_hz <~ lift (vectorize (BaseModel.H (LCDM_Vectorized.base model))
                    z_array) ;;
    c_mu <~ lift (vectorize (BaseModel.mu (LCDM_Vectorized.base model))
                    z_array) ;;
    c_dv <~ lift (vectorize (BaseModel.DV (LCDM_Vectorized.base model))
                    z_array) ;;
    c_fs8 <~ lift (vectorize (LCDM_Vectorized.fs8_model model) z_array) ;;
    Return {| hz := c_hz; mu := c_mu; dv := c_dv; fs8 := c_fs8 |}
  else
    p_H0 <~ getitem params "H0"%string ;;
    p_Om <~ getitem params "Om"%string ;;
    p_w0 <~ getitem params "w0"%string ;;
    p_wa <~ getitem params "wa"%string ;;
    p_xi <~ getitem params "xi"%string ;;
    p_s8 <~ getitem params "s8"%string ;;
    model <~ lift (DUT_Vectorized.init p_H0 p_Om p_w0 p_wa p_xi p_s8 data) ;;
    c_hz <~ lift (vectorize (BaseModel.H (DUT_Vectorized.base model))
                    z_array) ;;
    c_mu <~ lift (vectorize (BaseModel.mu (DUT_Vectorized.base model))
                    z_array) ;;
    c_dv <~ lift (vectorize (BaseModel.DV (DUT_Vectorized.base model))
                    z_array) ;;
    c_fs8 <~ lift (vectorize (DUT_Vectorized.fs8_model model) z_array) ;;
    Return {| hz := c_hz; mu := c_mu; dv := c_dv; fs8 := c_fs8 |}.

(** The body of the response of [/api/models/curves]. *)
Record curves_body : Type := {
  z : list R;
  lcdm : curves;
  dut : curves
}.

Definition curves_compliant (c : curves) : bool :=
  all_compliant (hz c) && all_compliant (mu c)
  && all_compliant (dv c) && all_compliant (fs8 c).

Definition body_compliant (content : curves_body) : bool :=
  curves_compliant (lcdm content) && curves_compliant (dut content).

(** [get_model_curves(z_min, z_max, n_points)], for finite query values. *)
Definition get_model_curves (z_min z_max : R) (n_points : Z)
  : outcome curves_body :=
  z_array <~ np_linspace z_min z_max n_points ;;
  c_lcdm <~ generate_model_curves z_array "lcdm"%string ;;
  c_dut <~ generate_model_curves z_array "dut"%string ;;
  JSONResponse body_compliant
    {| z := z_array; lcdm := c_lcdm; dut := c_dut |}.

(** One probe of [/api/data/observational]: redshifts, measured values
    (the key is "mu", "DV", "H" or "fs8"), errors and the number of
    points. *)
Record dataset : Type := {
  ds_z : list npfloat;
  ds_obs : list npfloat;
  ds_err : list npfloat;
  n_points : nat
}.

Record prior : Type := { mean : R; prior_err : R }.

Record observational_body : Type := {
  obs_pantheon : dataset;
  obs_bao : dataset;
  obs_hubble : dataset;
  obs_fs8 : dataset;
  SH0ES_H0 : prior;
  LSST_S8 : prior
}.

Definition dataset_compliant (d : dataset) : bool :=
  all_compliant (ds_z d) && all_compliant (ds_obs d)
  && all_compliant (ds_err d).

Definition observational_compliant (b : observational_body) : bool :=
  dataset_compliant (obs_pantheon b) && dataset_compliant (obs_bao b)
  && dataset_compliant (obs_hubble b) && dataset_compliant (obs_fs8 b).

(** [get_observational_data()]. *)
Definition get_observational_data : outcome observational_body :=
  JSONResponse observational_compliant
    {| obs_pantheon :=
         {| ds_z := map Fin Observations.pantheon_z;
            ds_obs := Observations.pantheon_mu;
            ds_err := map (fun v => np_sqrt (Fin v))
                        (diag Observations.pantheon_cov);
            n_points := Observations.n_sn |};
       obs_bao :=
         {| ds_z := map Fin Observations.bao_z;
            ds_obs := map Fin Observations.bao_DV;
            ds_err := map Fin Observations.bao_err;
            n_points := Observations.n_bao |};
       obs_hubble :=
         {| ds_z := map Fin Observations.hz_z;
            ds_obs := map Fin Observations.hz_data;
            ds_err := map Fin Observations.hz_err;
            n_points := Observations.n_hz |};
       obs_fs8 :=
         {| ds_z := map Fin Observations.fs8_z;
            ds_obs := map Fin Observations.fs8_data;
            ds_err := map Fin Observations.fs8_err;
            n_points := Observations.n_fs8 |};
       SH0ES_H0 := {| mean := Observations.H0_SH0ES_mean;
                      prior_err := Observations.H0_SH0ES_err |};
       LSST_S8 := {| mean := Observations.LSST_S8_mean;
                     prior_err := Observations.LSST_S8_err |} |}.

(** One model's entry of [/api/analysis/metrics]. *)
Record metrics : Type := {
  chi2_min : R;
  chi2_dof : R;
  n_params : Z
}.

(** [get_metrics()], the entries "lcdm" and "dut". *)
Definition get_metrics_lcdm : metrics :=
  {| chi2_min := 28911 / 10;
     chi2_dof := 28911 / 10 / IZR (1048 + 49 + 28 + 8 - 3);
     n_params := 3 |}.

Definition get_metrics_dut : metrics :=
  {| chi2_min := 28835 / 10;
     chi2_dof := 28835 / 10 / IZR (1048 + 49 + 28 + 8 - 6);
     n_params := 6 |}.

End Api.

(** The data generators and endpoints of [main.py]. *)
Module Standalone.

Import Web.

(** The keys "z", "lcdm" and "dut" of a generator's dict. *)
Record series : Type := {
  z : list R;
  lcdm : list npfloat;
  dut : list npfloat
}.

(** The keys "data_z", "data_hz" or "data_fs8", and "data_err". *)
Record observed : Type := {
  data_z : list R;
  data_val : list R;
  data_err : list R
}.

(** One entry of [hz_lcdm] and of [hz_dut]. *)
Definition hz_lcdm (z : R) : npfloat :=
  (Fin (678 / 10)
   * np_sqrt (Fin (315 / 1000) * (Fin 1 + Fin z) ** Fin 3
              + Fin (1 - 315 / 1000)))%np.

Definition hz_dut (z : R) : npfloat :=
  (Fin (692 / 10)
   * np_sqrt (Fin (298 / 1000) * (Fin 1 + Fin z) ** Fin 3
              + Fin (1 - 298 / 1000) * (Fin 1 + Fin (35 / 1000) * Fin z)))%np.

(** [generate_hz_data()]. *)
Definition generate_hz_data : series * observed :=
  let z := linspace 0 (25 / 10) 100 in
  ({| z := z; lcdm := map hz_lcdm z; dut := map hz_dut z |},
   {| data_z := [7 / 100; 17 / 100; 27 / 100; 4 / 10; 57 / 100; 73 / 100;
                 1; 15 / 10];
      data_val := [69; 83; 77; 95; 96; 97; 120; 160];
      data_err := [19; 8; 14; 17; 17; 8; 17; 20] |}).

(** One entry of [mu_lcdm] and of [mu_dut]. *)
Definition mu_lcdm (z : R) : npfloat :=
  (Fin 5 * np_log10 (Fin (z * (1 + 5 / 10 * (1 - 315 / 1000) * z) * 3000))
   + Fin 25)%np.

Definition mu_dut (z : R) : npfloat :=
  (Fin 5
   * np_log10
       (Fin (z * (1 + 5 / 10 * (1 - 298 / 1000) * z * (102 / 100)) * 3000))
   + Fin 25)%np.

(** [generate_mu_data()]. *)
Definition generate_mu_data : series :=
  let z := linspace (1 / 100) (25 / 10) 100 in
  {| z := z; lcdm := map mu_lcdm z; dut := map mu_dut z |}.

(** One entry of [dv_lcdm] and of [dv_dut]. *)
Definition dv_lcdm (z : R) : R := 1500 * z * (1 + 2 / 10 * z).

Definition dv_dut (z : R) : R := 1520 * z * (1 + 18 / 100 * z).

(** [generate_dv_data()]. *)
Definition generate_dv_data : series :=
  let z := linspace 0 (25 / 10) 100 in
  {| z := z; lcdm := map (fun v => Fin (dv_lcdm v)) z;
     dut := map (fun v => Fin (dv_dut v)) z |}.

(** One entry of [fs8_lcdm] and of [fs8_dut]. *)
Definition fs8_lcdm (z : R) : npfloat :=
  (Fin (47 / 100) * (Fin 1 + Fin z) ** Fin (- (1 / 10)))%np.

Definition fs8_dut (z : R) : npfloat :=
  (Fin (45 / 100) * (Fin 1 + Fin z) ** Fin (- (8 / 100)))%np.

(** [generate_fs8_data()]. *)
Definition generate_fs8_data : series * observed :=
  let z := linspace 0 (25 / 10) 100 in
  ({| z := z; lcdm := map fs8_lcdm z; dut := map fs8_dut z |},
   {| data_z := [15 / 100; 38 / 100; 51 / 100; 61 / 100; 8 / 10];
      data_val := [413 / 1000; 437 / 1000; 452 / 1000; 462 / 1000;
                   47 / 100];
      data_err := [3 / 100; 25 / 1000; 2 / 100; 18 / 1000; 22 / 1000] |}).

Definition series_compliant (s : series) : bool :=
  all_compliant (lcdm s) && all_compliant (dut s).

(** [get_hz()], [get_mu()], [get_dv()] and [get_fs8()]. *)
Definition get_hz : outcome (series * observed) :=
  JSONResponse (fun c => series_compliant (fst c)) generate_hz_data.

Definition get_mu : outcome series :=
  JSONResponse series_compliant generate_mu_data.

Definition get_dv : outcome series :=
  JSONResponse series_compliant generate_dv_data.

Definition get_fs8 : outcome (series * observed) :=
  JSONResponse (fun c => series_compliant (fst c)) generate_fs8_data.

End Standalone.

(** * The range of a double

    The sections above compute with exact reals.  The code computes with
    IEEE doubles, and a result whose magnitude exceeds the largest double
    becomes an infinity.  Rounding apart, this is the one way in which the
    two differ, and it decides what the engine does when a parameter sits
    near an end of the double range.  This module is [BaseModel.__init__]
    and [BaseModel.H] once more, with every numpy operation followed by
    the range check.  [PchipInterpolator] is the one of the section on
    scipy: it raises on a table that is not finite, and neither the
    construction nor [H] depends on the arithmetic of its coefficients. *)

Module IEEE.

(** The largest double, (2 − 2⁻⁵²)·2¹⁰²³. *)
Definition max_float : R := IZR (2 ^ 53 - 1) * 2 ^ 971.

(** A finite result beyond the largest double is the infinity of its
    sign. *)
Definition overflow (x : npfloat) : npfloat :=
  match x with
  | Fin r =>
      if Rlt_dec max_float r then PInf
      else if Rlt_dec r (- max_float) then NInf
      else Fin r
  | _ => x
  end.

Definition add (x y : npfloat) : npfloat := overflow (np_add x y).
Definition sub (x y : npfloat) : npfloat := overflow (np_sub x y).
Definition mul (x y : npfloat) : npfloat := overflow (np_mul x y).
Definition div (x y : npfloat) : npfloat := overflow (np_div x y).
Definition power (x y : npfloat) : npfloat := overflow (np_power x y).

Declare Scope ieee_scope.
Arguments add (x y)%_ieee_scope.
Arguments sub (x y)%_ieee_scope.
Arguments mul (x y)%_ieee_scope.
Arguments div (x y)%_ieee_scope.
Arguments power (x y)%_ieee_scope.

Module Notations.
Delimit Scope ieee_scope with ieee.
Infix "+" := add : ieee_scope.
Infix "-" := sub : ieee_scope.
Infix "*" := mul : ieee_scope.
Infix "/" := div : ieee_scope.
Infix "**" := power (at level 30, right associativity) : ieee_scope.
End Notations.
Import Notations.

(** [cumulative_trapezoid], as in the section on scipy. *)
Fixpoint trapz_acc (acc : npfloat) (x : list R) (y : list npfloat)
  : list npfloat :=
  match x, y with
  | x0 :: ((x1 :: _) as x'), y0 :: ((y1 :: _) as y') =>
      let acc' := (acc + Fin (x1 - x0) * (y1 + y0) / Fin 2)%ieee in
      acc' :: trapz_acc acc' x' y'
  | _, _ => []
  end.

Definition cumulative_trapezoid (y : list npfloat) (x : list R)
  (initial : npfloat) : list npfloat :=
  initial :: trapz_acc (Fin 0) x y.

(** [interp1d._call_linear]. *)
Definition segment (x_lo x_hi : R) (y_lo y_hi : npfloat) (v : R) : npfloat :=
  let slope := ((y_hi - y_lo) / Fin (x_hi - x_lo))%ieee in
  (slope * Fin (v - x_lo) + y_lo)%ieee.

Fixpoint call_linear (x : list R) (y : list npfloat) (v : R) : npfloat :=
  match x, y with
  | x0 :: ((x1 :: x'') as x'), y0 :: ((y1 :: _) as y') =>
      match x'' with
      | [] => segment x0 x1 y0 y1 v
      | _ :: _ =>
          if Rle_dec v x1 then segment x0 x1 y0 y1 v
          else call_linear x' y' v
      end
  | _, _ => NaN
  end.

Definition interp1d_call (f : Interp1d) (v : R) : result npfloat :=
  match i1_fill f with
  | FillExtrapolate => Ok (call_linear (i1_x f) (i1_y f) v)
  | FillNaN =>
      if out_of_bounds (i1_x f) v then
        if i1_bounds_error f then Raise ValueError else Ok NaN
      else Ok (call_linear (i1_x f) (i1_y f) v)
  end.

Module BaseModel.

Definition w_de (w0 wa : R) (a : npfloat) : npfloat :=
  (Fin w0 + Fin wa * (Fin 1 - a))%ieee.

Definition rho_de (w0 wa xi : R) (a : npfloat) : npfloat :=
  (a ** (Fin (-3) * (Fin 1 + w_de w0 wa a + Fin xi)))%ieee.

Definition radicand (Om w0 wa xi : R) (a : npfloat) : npfloat :=
  (Fin Om / a ** Fin 3 + Fin (1 - Om) * rho_de w0 wa xi a)%ieee.

(** One entry of [hz_grid]. *)
Definition hubble (H0 Om w0 wa xi : R) (a : npfloat) : npfloat :=
  (Fin H0 * np_sqrt (radicand Om w0 wa xi a))%ieee.

(** [BaseModel.__init__(H0, Om, data, w0, wa, xi)]. *)
Definition init (H0 Om : R) (data : NinjaDataVectorized.t) (w0 wa xi : R)
  : result BaseModel.t :=
  let a_grid := NinjaDataVectorized.a_grid data in
  let z_grid := NinjaDataVectorized.z_grid data in
  let hz_grid := map (hubble H0 Om w0 wa xi) a_grid in
  let d_c_grid :=
    cumulative_trapezoid (map (fun h => (Fin 1 / h)%ieee) hz_grid)
      z_grid (Fin 0) in
  Dc_interp <- PchipInterpolator z_grid d_c_grid None ;;
  DL_interp <- PchipInterpolator z_grid
    (zip_with
       (fun z d =>
          (Fin (1 + z) * Fin (NinjaDataVectorized.c data) * d
           / Fin 100000)%ieee)
       z_grid d_c_grid) None ;;
  Hz_interp <- interp1d z_grid hz_grid false FillExtrapolate ;;
  Ok {| BaseModel.H0 := H0; BaseModel.Om := Om; BaseModel.w0 := w0;
        BaseModel.wa := wa; BaseModel.xi := xi; BaseModel.data := data;
        BaseModel.hz_grid := hz_grid; BaseModel.Dc_interp := Dc_interp;
        BaseModel.DL_interp := DL_interp;
        BaseModel.Hz_interp := Hz_interp |}.

Definition H (self : BaseModel.t) (z : R) : result npfloat :=
  interp1d_call (BaseModel.Hz_interp self) z.

End BaseModel.

Module LCDM_Vectorized.

(** [LCDM_Vectorized.__init__(H0, Om, s8, data)]. *)
Definition init (H0 Om s8 : R) (data : NinjaDataVectorized.t)
  : result LCDM_Vectorized.t :=
  b <- BaseModel.init H0 Om data (-1) 0 0 ;;
  Ok {| LCDM_Vectorized.base := b; LCDM_Vectorized.s8 := s8 |}.

End LCDM_Vectorized.

End IEEE.

Import IEEE.Notations.

(** * Auxiliary definitions for the proofs *)

(** ** The redshift grid in closed form *)

Definition grid_step : R := (log10R 5 - -3) / INR (N_Z_GRID_POINTS - 1).

Definition grid_point (i : nat) : R := Rpower 10 (-3 + INR i * grid_step).

(** The constant ratio of two neighbouring grid points. *)
Definition grid_ratio : R := Rpower 10 grid_step.

(** ** Sorted arrays *)

Fixpoint increasing (l : list R) : Prop :=
  match l with
  | x0 :: ((x1 :: _) as l') => x0 < x1 /\ increasing l'
  | _ => True
  end.

(** ** The engine's tables as lists of reals

    When the Hubble rate is finite and non-zero at every grid point, every
    array of [BaseModel.__init__] holds finite doubles only; these are the
    reals they stand for. *)

Definition scale_factor (z : R) : R := 1 / (1 + z).

Definition radicandR (Om w0 wa xi a : R) : R :=
  Om / a ^ 3 + (1 - Om) * Rpower a (-3 * (1 + (w0 + wa * (1 - a)) + xi)).

Definition hubbleR (H0 Om w0 wa xi a : R) : R :=
  H0 * sqrt (radicandR Om w0 wa xi a).

Fixpoint trapz_accR (acc : R) (x y : list R) : list R :=
  match x, y with
  | x0 :: ((x1 :: _) as x'), y0 :: ((y1 :: _) as y') =>
      let acc' := acc + (x1 - x0) * (y1 + y0) / 2 in
      acc' :: trapz_accR acc' x' y'
  | _, _ => []
  end.

Definition a_gridR : list R :=
  map scale_factor (NinjaDataVectorized.z_grid data).

Definition hz_gridR (H0 Om w0 wa xi : R) : list R :=
  map (hubbleR H0 Om w0 wa xi) a_gridR.

Definition d_c_gridR (H0 Om w0 wa xi : R) : list R :=
  0 :: trapz_accR 0 (NinjaDataVectorized.z_grid data)
         (map (fun h => 1 / h) (hz_gridR H0 Om w0 wa xi)).

Definition d_l_gridR (H0 Om w0 wa xi : R) : list R :=
  zip_with (fun z d => (1 + z) * NinjaDataVectorized.c data * d / 100000)
    (NinjaDataVectorized.z_grid data) (d_c_gridR H0 Om w0 wa xi).

(** The Hubble rate is finite and non-zero on the whole grid. *)
Definition hubble_ok (H0 Om w0 wa xi : R) : Prop :=
  H0 <> 0 /\ Forall (fun a => 0 < radicandR Om w0 wa xi a) a_gridR.

(** The parameter set the specification calls valid. *)
Definition valid_parameters (H0 Om : R) : Prop :=
  0 < H0 /\ 0 < Om < 1.

(** The engine [BaseModel.__init__] returns on that path. *)
Definition engine (H0 Om w0 wa xi : R) : BaseModel.t :=
  let z := NinjaDataVectorized.z_grid data in
  let d_c := d_c_gridR H0 Om w0 wa xi in
  let d_l := d_l_gridR H0 Om w0 wa xi in
  {| BaseModel.H0 := H0; BaseModel.Om := Om; BaseModel.w0 := w0;
     BaseModel.wa := wa; BaseModel.xi := xi; BaseModel.data := data;
     BaseModel.hz_grid := map Fin (hz_gridR H0 Om w0 wa xi);
     BaseModel.Dc_interp :=
       {| pp_x := z;
          pp_c := hermite_coeffs z d_c (find_derivatives z d_c);
          pp_extrapolate := true |};
     BaseModel.DL_interp :=
       {| pp_x := z;
          pp_c := hermite_coeffs z d_l (find_derivatives z d_l);
          pp_extrapolate := true |};
     BaseModel.Hz_interp :=
       {| i1_x := z; i1_y := map Fin (hz_gridR H0 Om w0 wa xi);
          i1_bounds_error := false; i1_fill := FillExtrapolate |} |}.

(** ** Interpolation over reals *)

(** The coefficients [hermite_coeffs] gives one interval. *)
Definition hermite_piece (x0 x1 y0 y1 d0 d1 : R) : R * R * R * R :=
  let dxr := x1 - x0 in
  let slope := (y1 - y0) / dxr in
  let t := (d0 + d1 - 2 * slope) / dxr in
  (t / dxr, (slope - d0) / dxr - t, d0, y0).

Definition segmentR (x_lo x_hi y_lo y_hi v : R) : R :=
  (y_hi - y_lo) / (x_hi - x_lo) * (v - x_lo) + y_lo.

(** [call_linear] on finite ordinates. *)
Fixpoint call_linearR (x y : list R) (v : R) : R :=
  match x, y with
  | x0 :: ((x1 :: x'') as x'), y0 :: ((y1 :: _) as y') =>
      match x'' with
      | [] => segmentR x0 x1 y0 y1 v
      | _ :: _ =>
          if Rle_dec v x1 then segmentR x0 x1 y0 y1 v
          else call_linearR x' y' v
      end
  | _, _ => 0
  end.

(** The slopes [mk] of [_find_derivatives]. *)
Definition slopes (x y : list R) : list R := zip_with Rdiv (diff y) (diff x).

(** ** What the engine's methods return, as reals *)

Definition HR (H0 Om w0 wa xi z : R) : R :=
  call_linearR (NinjaDataVectorized.z_grid data) (hz_gridR H0 Om w0 wa xi) z.

Definition DcR (H0 Om w0 wa xi z : R) : R :=
  let zg := NinjaDataVectorized.z_grid data in
  let d_c := d_c_gridR H0 Om w0 wa xi in
  ppoly_eval zg (hermite_coeffs zg d_c (find_derivatives zg d_c)) z.

Definition DLR (H0 Om w0 wa xi z : R) : R :=
  let zg := NinjaDataVectorized.z_grid data in
  let d_l := d_l_gridR H0 Om w0 wa xi in
  ppoly_eval zg (hermite_coeffs zg d_l (find_derivatives zg d_l)) z.

(** ** The formulas of the specification *)

(** Angular-diameter distance: DA(z) = Dc(z)/(1+z). *)
Definition DA_spec (self : BaseModel.t) (z : R) : result npfloat :=
  Dc_z <- BaseModel.Dc self z ;;
  Ok (Dc_z / Fin (1 + z))%np.

(** BAO volume-averaged distance:
    D_V(z) = [(1+z)²·DA(z)²·c·z / H(z)]^(1/3). *)
Definition DV_spec (self : BaseModel.t) (z : R) : result npfloat :=
  DA_z <- DA_spec self z ;;
  Hz_z <- BaseModel.H self z ;;
  Ok ((Fin (1 + z) ** Fin 2 * DA_z ** Fin 2
        * Fin (NinjaDataVectorized.c (BaseModel.data self)) * Fin z / Hz_z)
        ** Fin (1 / 3))%np.

(** Ωm(z) = Ωm / (a³·(H(z)/H0)²) with a = 1/(1+z), for a Hubble rate [h]. *)
Definition Omega_m_z (Om H0 h z : R) : R :=
  Om / ((1 / (1 + z)) ^ 3 * (h / H0) ^ 2).

(** fσ8(z) = Ωm(z)^γ · Ωm(z)^(3/7) · σ8. *)
Definition fsigma8_spec (gamma Om H0 s8 h z : R) : R :=
  Rpower (Omega_m_z Om H0 h z) gamma * Rpower (Omega_m_z Om H0 h z) (3 / 7)
  * s8.

(** ** Shape of a Hermite interpolant *)

(** One interval in the normalised variable [u] in [[0,1]]: the cubic of
    slope [m] and end derivatives [d0], [d1], up to the offset [y0] and the
    width of the interval. *)
Definition hermite_unit (m d0 d1 u : R) : R :=
  m * (3 * u ^ 2 - 2 * u ^ 3) + d0 * (u - 2 * u ^ 2 + u ^ 3)
  + d1 * (u ^ 3 - u ^ 2).

(** On every interval both end derivatives lie between 0 and three times
    the slope of the data (the Fritsch–Carlson box). *)
Fixpoint hermite_shape (x y d : list R) : Prop :=
  match x, y, d with
  | x0 :: ((x1 :: _) as x'), y0 :: ((y1 :: _) as y'),
    d0 :: ((d1 :: _) as d') =>
      (0 <= d0 <= 3 * ((y1 - y0) / (x1 - x0)) /\
       0 <= d1 <= 3 * ((y1 - y0) / (x1 - x0))) /\
      hermite_shape x' y' d'
  | _, _, _ => True
  end.

(** ** Arrays that do not decrease *)

Fixpoint nondecreasing (l : list R) : Prop :=
  match l with
  | x0 :: ((x1 :: _) as l') => x0 <= x1 /\ nondecreasing l'
  | _ => True
  end.

(** ** The matter term of the expansion rate

    √(Ωm·(1+z)³), the Hubble rate in units of H0 if matter were alone. *)

Definition matter_root (Om z : R) : R := sqrt Om * sqrt (1 + z) ^ 3.

(** ** Shapes of the HTTP layer's results *)

(** The four arrays of a [curves] dict have [n] entries each. *)
Definition curves_shape (n : nat) (c : Api.curves) : Prop :=
  length (Api.hz c) = n /\ length (Api.mu c) = n /\
  length (Api.dv c) = n /\ length (Api.fs8 c) = n.

(** A numpy value that is a finite number; any numpy value. *)
Definition finite_value (v : npfloat) : Prop := exists r, v = Fin r.

Definition any_value (v : npfloat) : Prop := True.

(** The three arrays of a probe have as many entries as it announces. *)
Definition dataset_shape (n : nat) (d : Api.dataset) : Prop :=
  Api.n_points d = n /\ length (Api.ds_z d) = n /\
  length (Api.ds_obs d) = n /\ length (Api.ds_err d) = n.

(** Two finite numpy values, the first strictly below the second. *)
Definition strictly_below (a b : npfloat) : Prop :=
  exists x y, a = Fin x /\ b = Fin y /\ x < y.

(** ** A scaled piece of a piecewise cubic *)

Definition scale_piece (k : R) (p : R * R * R * R) : R * R * R * R :=
  let '(c0, c1, c2, c3) := p in (k * c0, k * c1, k * c2, k * c3).

(** ** Parameters far inside the range of a double

    Bounds under which every double the engine computes stays many orders
    of magnitude inside the floating-point range, so that the exact
    arithmetic of the model stands for the arithmetic of the code. *)

Definition moderate_H0 (H0 : R) : Prop := / 1000000 <= H0 <= 1000000.

Definition moderate_dark_energy (w0 wa xi : R) : Prop :=
  -10 <= w0 <= 10 /\ -10 <= wa <= 10 /\ -10 <= xi <= 10.

Definition moderate_sigma8 (s8 : R) : Prop := / 1000000 <= s8 <= 1000000.

Definition moderate_redshift (z : R) : Prop := -1000000 <= z <= 1000000.

(** Abscissae at least [gap] apart. *)
Fixpoint spaced (gap : R) (l : list R) : Prop :=
  match l with
  | x0 :: ((x1 :: _) as l') => gap <= x1 - x0 /\ spaced gap l'
  | _ => True
  end.

(** * Properties *)

(** ** Parameters of moderate size *)

Lemma moderate_H0_pos (H0 : R) : moderate_H0 H0 -> 0 < H0.
Proof.
  intros [H _]. assert (0 < / 1000000) by (apply Rinv_0_lt_compat; lra).
  lra.
Qed.

Lemma moderate_sigma8_pos (s8 : R) : moderate_sigma8 s8 -> 0 < s8.
Proof.
  intros [H _]. assert (0 < / 1000000) by (apply Rinv_0_lt_compat; lra).
  lra.
Qed.


(** ** The redshift grid *)

Lemma z_grid_closed_form :
  NinjaDataVectorized.z_grid data = map grid_point (seq 0 N_Z_GRID_POINTS).
Proof.
  unfold data, NinjaDataVectorized.init, NinjaDataVectorized.z_grid.
  unfold logspace, linspace. rewrite map_map. reflexivity.
Qed.

Lemma INR_999 : INR (N_Z_GRID_POINTS - 1) = 999.
Proof.
  rewrite INR_IZR_INZ. reflexivity.
Qed.

Lemma ln10_pos : 0 < ln 10.
Proof.
  rewrite <- ln_1. apply ln_increasing; lra.
Qed.

Lemma ln5_pos : 0 < ln 5.
Proof.
  rewrite <- ln_1. apply ln_increasing; lra.
Qed.

Lemma grid_step_pos : 0 < grid_step.
Proof.
  unfold grid_step, log10R. rewrite INR_999.
  assert (0 < ln 5 / ln 10) by (apply Rdiv_lt_0_compat; [apply ln5_pos | apply ln10_pos]).
  lra.
Qed.

Lemma grid_point_pos (i : nat) : 0 < grid_point i.
Proof.
  unfold grid_point, Rpower. apply exp_pos.
Qed.

Lemma grid_point_first : grid_point 0 = / 1000.
Proof.
  unfold grid_point. simpl INR. rewrite Rmult_0_l, Rplus_0_r.
  replace (-3) with (- INR 3) by (simpl; lra).
  rewrite Rpower_Ropp, Rpower_pow by lra. f_equal. lra.
Qed.

Lemma Rpower_10_log10 (x : R) : 0 < x -> Rpower 10 (log10R x) = x.
Proof.
  intros Hx. unfold Rpower, log10R.
  replace (ln x / ln 10 * ln 10) with (ln x).
  - apply exp_ln; assumption.
  - field. apply Rgt_not_eq, ln10_pos.
Qed.

Lemma grid_point_last : grid_point (N_Z_GRID_POINTS - 1) = 5.
Proof.
  unfold grid_point, grid_step. rewrite INR_999.
  replace (-3 + 999 * ((log10R 5 - -3) / 999)) with (log10R 5) by field.
  apply Rpower_10_log10; lra.
Qed.

Lemma grid_point_succ (i : nat) : grid_point (S i) = grid_point i * grid_ratio.
Proof.
  unfold grid_point, grid_ratio. rewrite <- Rpower_plus. f_equal.
  rewrite S_INR. ring.
Qed.

Lemma grid_ratio_gt_1 : 1 < grid_ratio.
Proof.
  unfold grid_ratio. rewrite <- (Rpower_O 10) by lra.
  apply Rpower_lt; [lra | apply grid_step_pos].
Qed.

Lemma grid_point_lt_succ (i : nat) : grid_point i < grid_point (S i).
Proof.
  rewrite grid_point_succ. pose proof (grid_point_pos i).
  pose proof grid_ratio_gt_1. nra.
Qed.

Lemma grid_point_increasing (i j : nat) :
  (i < j)%nat -> grid_point i < grid_point j.
Proof.
  induction 1.
  - apply grid_point_lt_succ.
  - eapply Rlt_trans; [eassumption | apply grid_point_lt_succ].
Qed.

Lemma grid_ratio_pow : grid_ratio ^ 999 = 5000.
Proof.
  unfold grid_ratio. rewrite <- Rpower_pow by (unfold Rpower; apply exp_pos).
  rewrite Rpower_mult. unfold grid_step. rewrite INR_999.
  replace ((log10R 5 - -3) / 999 * INR 999) with (log10R 5 + 3).
  - rewrite Rpower_plus, Rpower_10_log10 by lra.
    replace 3 with (INR 3) by (simpl; lra).
    rewrite Rpower_pow by lra. lra.
  - rewrite INR_IZR_INZ. change (IZR (Z.of_nat 999)) with 999. field.
Qed.

Lemma strictly_increasing_spec (l : list R) :
  strictly_increasing l = true <-> increasing l.
Proof.
  induction l as [|x0 [|x1 l'] IH]; simpl; try tauto.
  destruct (Rlt_dec x0 x1) as [Hlt|Hnlt].
  - simpl in IH. tauto.
  - split; [discriminate | tauto].
Qed.

Lemma increasing_map_seq (f : nat -> R) (s n : nat) :
  (forall i, f i < f (S i)) -> increasing (map f (seq s n)).
Proof.
  intros Hf. revert s. induction n as [|[|n] IH]; intros s; simpl; auto.
  split; [apply Hf | apply (IH (S s))].
Qed.

Lemma z_grid_increasing : increasing (NinjaDataVectorized.z_grid data).
Proof.
  rewrite z_grid_closed_form. apply increasing_map_seq, grid_point_lt_succ.
Qed.

Lemma z_grid_positive :
  Forall (fun z => 0 < z) (NinjaDataVectorized.z_grid data).
Proof.
  rewrite z_grid_closed_form. apply Forall_forall. intros z Hz.
  apply in_map_iff in Hz. destruct Hz as [i [<- _]]. apply grid_point_pos.
Qed.

Lemma z_grid_length :
  length (NinjaDataVectorized.z_grid data) = N_Z_GRID_POINTS.
Proof.
  rewrite z_grid_closed_form, length_map, length_seq. reflexivity.
Qed.

Lemma z_grid_nth (i : nat) :
  (i < N_Z_GRID_POINTS)%nat ->
  nth i (NinjaDataVectorized.z_grid data) 0 = grid_point i.
Proof.
  intros Hi. rewrite z_grid_closed_form.
  rewrite (nth_indep _ 0 (grid_point 0)) by (rewrite length_map, length_seq; exact Hi).
  rewrite map_nth, seq_nth by exact Hi. reflexivity.
Qed.

(** ** Arithmetic of finite doubles *)

Lemma fin_div (a b : R) : b <> 0 -> (Fin a / Fin b)%np = Fin (a / b).
Proof.
  intros Hb. simpl. destruct (Req_dec_T b 0); [contradiction | reflexivity].
Qed.

Lemma fin_pow_pos (a y : R) : 0 < a -> (Fin a ** Fin y)%np = Fin (Rpower a y).
Proof.
  intros Ha. simpl. unfold pow_fin.
  destruct (Rlt_dec 0 a); [reflexivity | contradiction].
Qed.

Lemma as_integer_INR (n : nat) :
  as_integer (INR n) = Some (Z.of_nat n).
Proof.
  unfold as_integer. rewrite Int_part_INR.
  destruct (Req_dec_T (INR n) (IZR (Z.of_nat n))) as [_|Hne]; [reflexivity|].
  exfalso. apply Hne, INR_IZR_INZ.
Qed.

Lemma fin_pow_nat (a : R) (n : nat) :
  (0 < n)%nat -> (Fin a ** Fin (INR n))%np = Fin (a ^ n).
Proof.
  intros Hn. simpl. unfold pow_fin.
  destruct (Rlt_dec 0 a) as [Ha|Ha].
  - rewrite Rpower_pow by assumption. reflexivity.
  - destruct (Req_dec_T a 0) as [->|Hne].
    + assert (0 < INR n) by (apply lt_0_INR; assumption).
      destruct (Rlt_dec 0 (INR n)); [|contradiction].
      rewrite pow_i by assumption. reflexivity.
    + rewrite as_integer_INR, <- pow_powerRZ. reflexivity.
Qed.

Lemma fin_pow2 (a : R) : (Fin a ** Fin 2)%np = Fin (a ^ 2).
Proof.
  replace 2 with (INR 2) by (simpl; lra). apply fin_pow_nat. lia.
Qed.

Lemma fin_pow3 (a : R) : (Fin a ** Fin 3)%np = Fin (a ^ 3).
Proof.
  replace 3 with (INR 3) by (simpl; lra). apply fin_pow_nat. lia.
Qed.

Lemma fin_sqrt (a : R) : 0 <= a -> np_sqrt (Fin a) = Fin (sqrt a).
Proof.
  intros Ha. simpl. destruct (Rlt_dec a 0); [lra | reflexivity].
Qed.

(** ** Finite arrays *)

Lemma all_finite_map_Fin (l : list R) : all_finite (map Fin l) = Some l.
Proof.
  induction l as [|r l IH]; simpl; [reflexivity | rewrite IH; reflexivity].
Qed.

Lemma all_finite_Some (l : list npfloat) (rs : list R) :
  all_finite l = Some rs -> l = map Fin rs.
Proof.
  revert rs. induction l as [|x l IH]; intros rs; simpl.
  - intros [= <-]. reflexivity.
  - destruct x; try discriminate.
    destruct (all_finite l) as [rs'|]; try discriminate.
    intros [= <-]. simpl. f_equal. apply IH. reflexivity.
Qed.

Lemma trapz_acc_cons (acc : npfloat) (x0 x1 : R) (x : list R)
  (y0 y1 : npfloat) (y : list npfloat) :
  trapz_acc acc (x0 :: x1 :: x) (y0 :: y1 :: y) =
  (acc + Fin (x1 - x0) * (y1 + y0) / Fin 2)%np
    :: trapz_acc (acc + Fin (x1 - x0) * (y1 + y0) / Fin 2)%np
         (x1 :: x) (y1 :: y).
Proof. reflexivity. Qed.

Lemma trapz_accR_cons (acc x0 x1 : R) (x : list R) (y0 y1 : R) (y : list R) :
  trapz_accR acc (x0 :: x1 :: x) (y0 :: y1 :: y) =
  (acc + (x1 - x0) * (y1 + y0) / 2)
    :: trapz_accR (acc + (x1 - x0) * (y1 + y0) / 2) (x1 :: x) (y1 :: y).
Proof. reflexivity. Qed.

Lemma trapz_acc_finite (acc : R) (x y : list R) :
  trapz_acc (Fin acc) x (map Fin y) = map Fin (trapz_accR acc x y).
Proof.
  revert acc y. induction x as [|x0 x IH]; intros acc y; [reflexivity|].
  destruct x as [|x1 x]; [reflexivity|].
  destruct y as [|y0 [|y1 y]]; try reflexivity.
  change (map Fin (y0 :: y1 :: y)) with (Fin y0 :: Fin y1 :: map Fin y).
  rewrite trapz_acc_cons, trapz_accR_cons.
  assert (E : (Fin acc + Fin (x1 - x0) * (Fin y1 + Fin y0) / Fin 2)%np
              = Fin (acc + (x1 - x0) * (y1 + y0) / 2)).
  { cbn [np_add np_mul]. rewrite fin_div by lra. reflexivity. }
  rewrite E. change (Fin y1 :: map Fin y) with (map Fin (y1 :: y)).
  rewrite IH. reflexivity.
Qed.

Lemma trapz_accR_length (acc : R) (x y : list R) :
  length y = length x -> length (trapz_accR acc x y) = (length x - 1)%nat.
Proof.
  revert acc y. induction x as [|x0 x IH]; intros acc y Hl; [reflexivity|].
  destruct x as [|x1 x]; [reflexivity|].
  destruct y as [|y0 [|y1 y]]; try discriminate.
  rewrite trapz_accR_cons. cbn [length]. rewrite IH by (simpl in *; lia).
  simpl. lia.
Qed.

Lemma zip_with_length {A B C : Type} (f : A -> B -> C) (l1 : list A)
  (l2 : list B) :
  length l1 = length l2 -> length (zip_with f l1 l2) = length l1.
Proof.
  revert l2. induction l1 as [|a l1 IH]; intros [|b l2] Hl; simpl in *;
    try discriminate; auto.
Qed.

Lemma zip_with_map_r {A B B' C : Type} (f : A -> B -> C) (g : B' -> B)
  (l1 : list A) (l2 : list B') :
  zip_with f l1 (map g l2) = zip_with (fun a b => f a (g b)) l1 l2.
Proof.
  revert l2. induction l1 as [|a l1 IH]; intros [|b l2]; simpl; auto.
  f_equal. apply IH.
Qed.

Lemma zip_with_nth {A B C : Type} (f : A -> B -> C) (l1 : list A)
  (l2 : list B) (i : nat) (a : A) (b : B) (d : C) :
  (i < length l1)%nat -> length l1 = length l2 ->
  nth i (zip_with f l1 l2) d = f (nth i l1 a) (nth i l2 b).
Proof.
  revert l2 i. induction l1 as [|a1 l1 IH]; intros [|b1 l2] i Hi Hl;
    simpl in *; try lia.
  destruct i as [|i]; [reflexivity|]. apply IH; lia.
Qed.

(** ** Construction of the two interpolators *)

Lemma PchipInterpolator_finite (x y : list R) :
  (2 <= length x)%nat -> length y = length x -> increasing x ->
  PchipInterpolator x (map Fin y) None =
  Ok {| pp_x := x;
        pp_c := hermite_coeffs x y (find_derivatives x y);
        pp_extrapolate := true |}.
Proof.
  intros H2 Hl Hinc. unfold PchipInterpolator.
  destruct (Nat.ltb_spec (length x) 2) as [Hlt|_]; [lia|].
  rewrite length_map, Hl, Nat.eqb_refl. simpl negb. cbv iota.
  rewrite all_finite_map_Fin.
  apply strictly_increasing_spec in Hinc. rewrite Hinc. reflexivity.
Qed.

Lemma PchipInterpolator_Ok (x : list R) (y : list npfloat) (e : option bool)
  (p : PPoly) :
  PchipInterpolator x y e = Ok p ->
  exists yr, y = map Fin yr /\ (2 <= length x)%nat /\
             length yr = length x /\ increasing x /\
             p = {| pp_x := x;
                    pp_c := hermite_coeffs x yr (find_derivatives x yr);
                    pp_extrapolate :=
                      match e with None => true | Some b => b end |}.
Proof.
  unfold PchipInterpolator.
  destruct (Nat.ltb_spec (length x) 2) as [Hlt|Hge]; [discriminate|].
  destruct (Nat.eqb_spec (length x) (length y)) as [Hl|Hl]; [|discriminate].
  simpl negb. cbv iota.
  destruct (all_finite y) as [yr|] eqn:Hfin; [|discriminate].
  destruct (strictly_increasing x) eqn:Hinc; [|discriminate].
  intros [= <-]. exists yr. apply all_finite_Some in Hfin. subst y.
  rewrite length_map in Hl. apply strictly_increasing_spec in Hinc.
  repeat split; auto.
Qed.

(** ** The grid of scale factors *)

Lemma a_grid_finite : NinjaDataVectorized.a_grid data = map Fin a_gridR.
Proof.
  unfold a_gridR. rewrite map_map.
  change (NinjaDataVectorized.a_grid data)
    with (map (fun zi => (Fin 1 / (Fin 1 + Fin zi))%np)
            (NinjaDataVectorized.z_grid data)).
  apply map_ext_in. intros z Hz.
  pose proof z_grid_positive as Hpos.
  rewrite Forall_forall in Hpos. specialize (Hpos z Hz).
  cbn [np_add]. rewrite fin_div by lra. reflexivity.
Qed.

Lemma scale_factor_range (z : R) : 0 < z -> 0 < scale_factor z < 1.
Proof.
  intros Hz. unfold scale_factor. split.
  - apply Rdiv_lt_0_compat; lra.
  - apply Rmult_lt_reg_r with (1 + z); [lra|]. field_simplify; lra.
Qed.

Lemma a_gridR_range : Forall (fun a => 0 < a < 1) a_gridR.
Proof.
  unfold a_gridR. apply Forall_forall. intros a Ha.
  apply in_map_iff in Ha. destruct Ha as [z [<- Hz]].
  pose proof z_grid_positive as Hpos. rewrite Forall_forall in Hpos.
  apply scale_factor_range, Hpos, Hz.
Qed.

Lemma a_gridR_length : length a_gridR = N_Z_GRID_POINTS.
Proof.
  unfold a_gridR. rewrite length_map. apply z_grid_length.
Qed.

(** ** The Hubble rate at one grid point *)

Lemma radicand_finite (Om w0 wa xi a : R) :
  0 < a ->
  BaseModel.radicand Om w0 wa xi (Fin a) = Fin (radicandR Om w0 wa xi a).
Proof.
  intros Ha. unfold BaseModel.radicand, BaseModel.rho_de, BaseModel.w_de.
  rewrite fin_pow3. cbn [np_add np_sub np_neg np_mul].
  rewrite fin_pow_pos by assumption.
  rewrite fin_div by (apply pow_nonzero; lra).
  cbn [np_add np_mul]. unfold radicandR.
  replace (1 + - a) with (1 - a) by ring. reflexivity.
Qed.

Lemma hubble_finite (H0 Om w0 wa xi a : R) :
  0 < a -> 0 <= radicandR Om w0 wa xi a ->
  BaseModel.hubble H0 Om w0 wa xi (Fin a) = Fin (hubbleR H0 Om w0 wa xi a).
Proof.
  intros Ha Hr. unfold BaseModel.hubble.
  rewrite radicand_finite, fin_sqrt by assumption. reflexivity.
Qed.

Lemma hubble_nan (H0 Om w0 wa xi a : R) :
  0 < a -> radicandR Om w0 wa xi a < 0 ->
  BaseModel.hubble H0 Om w0 wa xi (Fin a) = NaN.
Proof.
  intros Ha Hr. unfold BaseModel.hubble. rewrite radicand_finite by assumption.
  simpl. destruct (Rlt_dec (radicandR Om w0 wa xi a) 0); [reflexivity | lra].
Qed.

Lemma hubbleR_nonzero (H0 Om w0 wa xi a : R) :
  H0 <> 0 -> 0 < radicandR Om w0 wa xi a -> hubbleR H0 Om w0 wa xi a <> 0.
Proof.
  intros HH Hr. unfold hubbleR. apply Rmult_integral_contrapositive_currified.
  - assumption.
  - apply Rgt_not_eq, sqrt_lt_R0, Hr.
Qed.

(** The reciprocal of the Hubble rate is a finite double exactly when the
    radicand is positive and [H0] is not zero. *)
Lemma inverse_hubble_finite_iff (H0 Om w0 wa xi a : R) :
  0 < a ->
  is_finite (Fin 1 / BaseModel.hubble H0 Om w0 wa xi (Fin a))%np = true <->
  H0 <> 0 /\ 0 < radicandR Om w0 wa xi a.
Proof.
  intros Ha. destruct (Rlt_dec (radicandR Om w0 wa xi a) 0) as [Hneg|Hnn].
  - rewrite hubble_nan by assumption. simpl. split; [discriminate | lra].
  - rewrite hubble_finite by lra. cbn [np_div].
    destruct (Req_dec_T (hubbleR H0 Om w0 wa xi a) 0) as [Hz|Hnz].
    + unfold inf_of_sign. destruct (Rlt_dec 0 1); [|lra]. simpl.
      split; [discriminate|]. intros [HH Hr]. exfalso.
      exact (hubbleR_nonzero _ _ _ _ _ _ HH Hr Hz).
    + simpl. split; [|reflexivity]. intros _. unfold hubbleR in Hnz. split.
      * intros ->. apply Hnz. ring.
      * destruct (Req_dec (radicandR Om w0 wa xi a) 0) as [E|E]; [|lra].
        exfalso. apply Hnz. rewrite E, sqrt_0. ring.
Qed.

(** ** What [BaseModel.__init__] needs to succeed *)

Lemma trapezoid_step_finite (acc y0 y1 : npfloat) (dx : R) :
  dx <> 0 ->
  is_finite (acc + Fin dx * (y1 + y0) / Fin 2)%np = true ->
  is_finite y0 = true /\ is_finite y1 = true.
Proof.
  intros Hdx.
  destruct acc, y0, y1;
    repeat (cbn [np_add np_mul np_div is_finite]; unfold inf_of_sign;
            match goal with
            | |- context [Rlt_dec ?a ?b] => destruct (Rlt_dec a b)
            | |- context [Req_dec_T ?a ?b] => destruct (Req_dec_T a b)
            end);
    cbn [np_add np_mul np_div is_finite]; auto; try discriminate; try lra.
Qed.

Lemma trapz_acc_all_finite (acc : npfloat) (x : list R) (y : list npfloat)
  (r : list R) :
  increasing x -> length y = length x -> (2 <= length x)%nat ->
  trapz_acc acc x y = map Fin r ->
  Forall (fun v => is_finite v = true) y.
Proof.
  revert acc y r. induction x as [|x0 x IH]; intros acc y r Hinc Hl H2 E.
  { simpl in H2. lia. }
  destruct x as [|x1 x]; [simpl in H2; lia|].
  destruct y as [|y0 [|y1 y]]; try discriminate.
  rewrite trapz_acc_cons in E. destruct r as [|r0 r]; [discriminate|].
  remember (acc + Fin (x1 - x0) * (y1 + y0) / Fin 2)%np as acc' eqn:Eacc.
  cbn [map] in E. injection E as E0 E1.
  destruct Hinc as [Hlt Hinc].
  assert (Hf : is_finite acc' = true) by (rewrite E0; reflexivity).
  rewrite Eacc in Hf.
  apply trapezoid_step_finite in Hf; [|lra]. destruct Hf as [Hf0 Hf1].
  constructor; [exact Hf0|].
  destruct x as [|x2 x].
  - destruct y; [|discriminate]. constructor; [exact Hf1 | constructor].
  - eapply IH; [exact Hinc | simpl in *; lia | simpl; lia | exact E1].
Qed.

Lemma zip_with_map_Fin (f : R -> npfloat -> npfloat) (g : R -> R -> R)
  (x y : list R) :
  (forall z d, f z (Fin d) = Fin (g z d)) ->
  zip_with f x (map Fin y) = map Fin (zip_with g x y).
Proof.
  intros Hfg. revert y. induction x as [|x0 x IH]; intros [|y0 y]; simpl; auto.
  rewrite Hfg, IH. reflexivity.
Qed.

Lemma hz_grid_finite (H0 Om w0 wa xi : R) :
  Forall (fun a => 0 <= radicandR Om w0 wa xi a) a_gridR ->
  map (BaseModel.hubble H0 Om w0 wa xi) (NinjaDataVectorized.a_grid data)
  = map Fin (hz_gridR H0 Om w0 wa xi).
Proof.
  intros Hr. rewrite a_grid_finite. unfold hz_gridR. rewrite !map_map.
  apply map_ext_in. intros a Ha.
  pose proof a_gridR_range as Hrange. rewrite Forall_forall in Hrange, Hr.
  apply hubble_finite; [apply Hrange, Ha | apply Hr, Ha].
Qed.

Lemma inverse_hz_grid_finite (H0 Om w0 wa xi : R) :
  hubble_ok H0 Om w0 wa xi ->
  map (fun h => (Fin 1 / h)%np) (map Fin (hz_gridR H0 Om w0 wa xi))
  = map Fin (map (fun h => 1 / h) (hz_gridR H0 Om w0 wa xi)).
Proof.
  intros [HH Hr]. unfold hz_gridR. rewrite !map_map.
  apply map_ext_in. intros a Ha. rewrite Forall_forall in Hr.
  apply fin_div, hubbleR_nonzero; [exact HH | apply Hr, Ha].
Qed.

Lemma hz_gridR_length (H0 Om w0 wa xi : R) :
  length (hz_gridR H0 Om w0 wa xi) = N_Z_GRID_POINTS.
Proof.
  unfold hz_gridR. rewrite length_map. apply a_gridR_length.
Qed.

Lemma d_c_gridR_length (H0 Om w0 wa xi : R) :
  length (d_c_gridR H0 Om w0 wa xi) = N_Z_GRID_POINTS.
Proof.
  unfold d_c_gridR. cbn [length].
  rewrite trapz_accR_length
    by (rewrite length_map, hz_gridR_length, z_grid_length; reflexivity).
  rewrite z_grid_length. reflexivity.
Qed.

Lemma d_l_gridR_length (H0 Om w0 wa xi : R) :
  length (d_l_gridR H0 Om w0 wa xi) = N_Z_GRID_POINTS.
Proof.
  unfold d_l_gridR.
  rewrite zip_with_length by (rewrite d_c_gridR_length; apply z_grid_length).
  apply z_grid_length.
Qed.

Lemma d_c_grid_finite (H0 Om w0 wa xi : R) :
  hubble_ok H0 Om w0 wa xi ->
  cumulative_trapezoid
    (map (fun h => (Fin 1 / h)%np)
       (map (BaseModel.hubble H0 Om w0 wa xi) (NinjaDataVectorized.a_grid data)))
    (NinjaDataVectorized.z_grid data) (Fin 0)
  = map Fin (d_c_gridR H0 Om w0 wa xi).
Proof.
  intros Hok. pose proof Hok as [HH Hr].
  rewrite hz_grid_finite
    by (eapply Forall_impl; [|exact Hr]; simpl; intros; lra).
  rewrite inverse_hz_grid_finite by exact Hok.
  unfold cumulative_trapezoid, d_c_gridR. rewrite trapz_acc_finite.
  reflexivity.
Qed.

Lemma init_succeeds (H0 Om w0 wa xi : R) :
  hubble_ok H0 Om w0 wa xi ->
  BaseModel.init H0 Om data w0 wa xi = Ok (engine H0 Om w0 wa xi).
Proof.
  intros Hok. unfold BaseModel.init.
  rewrite d_c_grid_finite by exact Hok.
  rewrite PchipInterpolator_finite;
    [ | rewrite z_grid_length; unfold N_Z_GRID_POINTS; lia
      | rewrite d_c_gridR_length, z_grid_length; reflexivity
      | apply z_grid_increasing ].
  cbn [bind].
  rewrite (zip_with_map_Fin _
             (fun z d => (1 + z) * NinjaDataVectorized.c data * d / 100000))
    by (intros z d; cbn [np_mul]; apply fin_div; lra).
  fold (d_l_gridR H0 Om w0 wa xi).
  rewrite PchipInterpolator_finite;
    [ | rewrite z_grid_length; unfold N_Z_GRID_POINTS; lia
      | rewrite d_l_gridR_length, z_grid_length; reflexivity
      | apply z_grid_increasing ].
  cbn [bind]. destruct Hok as [HH Hr].
  rewrite hz_grid_finite
    by (eapply Forall_impl; [|exact Hr]; simpl; intros; lra).
  unfold interp1d.
  rewrite length_map, hz_gridR_length, z_grid_length, Nat.eqb_refl.
  reflexivity.
Qed.

Lemma a_gridR_nonempty : exists a l, a_gridR = a :: l.
Proof.
  pose proof a_gridR_length as Hl. destruct a_gridR as [|a l] eqn:E.
  - discriminate.
  - exists a, l. reflexivity.
Qed.

Lemma cons_eq_inv {A : Type} (a b : A) (l l' : list A) :
  a :: l = b :: l' -> a = b /\ l = l'.
Proof. intros [= -> ->]. split; reflexivity. Qed.

Lemma init_Ok_hubble_ok (H0 Om w0 wa xi : R) (m : BaseModel.t) :
  BaseModel.init H0 Om data w0 wa xi = Ok m -> hubble_ok H0 Om w0 wa xi.
Proof.
  unfold BaseModel.init. intros E.
  destruct (PchipInterpolator (NinjaDataVectorized.z_grid data)
              (cumulative_trapezoid
                 (map (fun h => (Fin 1 / h)%np)
                    (map (BaseModel.hubble H0 Om w0 wa xi)
                       (NinjaDataVectorized.a_grid data)))
                 (NinjaDataVectorized.z_grid data) (Fin 0)) None)
    as [p|e] eqn:Ep; [clear E | discriminate].
  apply PchipInterpolator_Ok in Ep.
  destruct Ep as [yr [Ey [H2 [Hl [Hinc _]]]]].
  unfold cumulative_trapezoid in Ey. destruct yr as [|r0 yr]; [discriminate|].
  cbn [map] in Ey. apply cons_eq_inv in Ey. destruct Ey as [_ Ey].
  apply trapz_acc_all_finite in Ey;
    [ | exact Hinc
      | rewrite !length_map, a_grid_finite, length_map, a_gridR_length,
          z_grid_length; reflexivity
      | exact H2 ].
  rewrite a_grid_finite, !map_map, Forall_map in Ey.
  assert (Hall : Forall (fun a => H0 <> 0 /\ 0 < radicandR Om w0 wa xi a)
                   a_gridR).
  { pose proof a_gridR_range as Hrange.
    rewrite Forall_forall in *. intros a Ha.
    apply inverse_hubble_finite_iff; [apply Hrange, Ha | apply Ey, Ha]. }
  split.
  - destruct a_gridR_nonempty as [a [l Hal]]. rewrite Hal in Hall.
    inversion Hall as [|? ? [HH _] _]. exact HH.
  - eapply Forall_impl; [|exact Hall]. simpl. tauto.
Qed.

Lemma Ok_inj {A : Type} (a b : A) : Ok a = Ok b -> a = b.
Proof. intros [= ->]. reflexivity. Qed.

Lemma init_Ok_engine (H0 Om w0 wa xi : R) (m : BaseModel.t) :
  BaseModel.init H0 Om data w0 wa xi = Ok m -> m = engine H0 Om w0 wa xi.
Proof.
  intros E. pose proof (init_Ok_hubble_ok _ _ _ _ _ _ E) as Hok.
  rewrite (init_succeeds _ _ _ _ _ Hok) in E.
  symmetry. apply Ok_inj, E.
Qed.

(** Valid parameters make the radicand positive, whatever the dark-energy
    parameters. *)
Lemma radicandR_pos (Om w0 wa xi a : R) :
  0 < Om < 1 -> 0 < a -> 0 < radicandR Om w0 wa xi a.
Proof.
  intros HOm Ha. unfold radicandR.
  assert (0 < a ^ 3) by (apply pow_lt; exact Ha).
  assert (0 < Om / a ^ 3) by (apply Rdiv_lt_0_compat; lra).
  assert (0 < Rpower a (-3 * (1 + (w0 + wa * (1 - a)) + xi)))
    by (unfold Rpower; apply exp_pos).
  nra.
Qed.

Lemma valid_parameters_hubble_ok (H0 Om w0 wa xi : R) :
  valid_parameters H0 Om -> hubble_ok H0 Om w0 wa xi.
Proof.
  intros [HH HOm]. split; [lra|].
  eapply Forall_impl; [|exact a_gridR_range]. simpl. intros a [Ha _].
  apply radicandR_pos; assumption.
Qed.

(** ** Sorted arrays, by index *)

Lemma nth_S_cons {A : Type} (i : nat) (a : A) (l : list A) (d : A) :
  nth (S i) (a :: l) d = nth i l d.
Proof. reflexivity. Qed.

Lemma nth_0_cons {A : Type} (a : A) (l : list A) (d : A) :
  nth 0 (a :: l) d = a.
Proof. reflexivity. Qed.

Lemma increasing_tail (x0 : R) (x : list R) :
  increasing (x0 :: x) -> increasing x.
Proof.
  destruct x as [|x1 x]; simpl; tauto.
Qed.

Lemma increasing_head_le_nth (x0 : R) (x : list R) (i : nat) :
  increasing (x0 :: x) -> (i < length (x0 :: x))%nat ->
  x0 <= nth i (x0 :: x) 0.
Proof.
  revert x0 i. induction x as [|x1 x IH]; intros x0 i Hinc Hi.
  - destruct i as [|i]; simpl in *; [lra | lia].
  - destruct i as [|i]; [simpl; lra|].
    destruct Hinc as [Hlt Hinc]. rewrite nth_S_cons.
    specialize (IH x1 i Hinc). simpl in Hi.
    assert (x1 <= nth i (x1 :: x) 0) by (apply IH; simpl; lia). lra.
Qed.

Lemma increasing_head_lt_nth (x0 : R) (x : list R) (i : nat) :
  increasing (x0 :: x) -> (S i < length (x0 :: x))%nat ->
  x0 < nth (S i) (x0 :: x) 0.
Proof.
  intros Hinc Hi. destruct x as [|x1 x]; [simpl in Hi; lia|].
  destruct Hinc as [Hlt Hinc]. rewrite nth_S_cons.
  assert (x1 <= nth i (x1 :: x) 0)
    by (apply increasing_head_le_nth; [exact Hinc | simpl in *; lia]).
  lra.
Qed.

Lemma increasing_nth_le_last (x : list R) (i : nat) :
  increasing x -> (i < length x)%nat -> nth i x 0 <= last x 0.
Proof.
  revert i. induction x as [|x0 x IH]; intros i Hinc Hi; [simpl in Hi; lia|].
  destruct x as [|x1 x].
  - destruct i as [|i]; simpl in *; [lra | lia].
  - change (last (x0 :: x1 :: x) 0) with (last (x1 :: x) 0).
    destruct i as [|i].
    + rewrite nth_0_cons. destruct Hinc as [Hlt Hinc].
      assert (nth 0 (x1 :: x) 0 <= last (x1 :: x) 0)
        by (apply IH; [exact Hinc | simpl; lia]).
      rewrite nth_0_cons in H. lra.
    + rewrite nth_S_cons. apply IH; [apply Hinc | simpl in *; lia].
Qed.

(** ** The piecewise cubic at its breakpoints *)

Lemma hermite_coeffs_cons (x0 x1 : R) (x : list R) (y0 y1 : R) (y : list R)
  (d0 d1 : R) (d : list R) :
  hermite_coeffs (x0 :: x1 :: x) (y0 :: y1 :: y) (d0 :: d1 :: d) =
  hermite_piece x0 x1 y0 y1 d0 d1
    :: hermite_coeffs (x1 :: x) (y1 :: y) (d1 :: d).
Proof. reflexivity. Qed.

Lemma ppoly_eval_last (x0 x1 : R) (x : list R) (k : R * R * R * R) (v : R) :
  ppoly_eval (x0 :: x1 :: x) [k] v = cubic k (v - x0).
Proof. reflexivity. Qed.

Lemma ppoly_eval_cons (x0 x1 : R) (x : list R) (k k' : R * R * R * R)
  (cs : list (R * R * R * R)) (v : R) :
  ppoly_eval (x0 :: x1 :: x) (k :: k' :: cs) v =
  if Rlt_dec v x1 then cubic k (v - x0)
  else ppoly_eval (x1 :: x) (k' :: cs) v.
Proof. reflexivity. Qed.

Lemma hermite_piece_left (x0 x1 y0 y1 d0 d1 : R) :
  cubic (hermite_piece x0 x1 y0 y1 d0 d1) 0 = y0.
Proof.
  unfold hermite_piece, cubic. ring.
Qed.

Lemma hermite_piece_right (x0 x1 y0 y1 d0 d1 : R) :
  x0 <> x1 -> cubic (hermite_piece x0 x1 y0 y1 d0 d1) (x1 - x0) = y1.
Proof.
  intros Hne. unfold hermite_piece, cubic. field. lra.
Qed.

(** The spline takes the tabulated value at every breakpoint, whatever the
    derivatives. *)
Lemma ppoly_eval_knot (x y d : list R) (i : nat) :
  increasing x -> length y = length x -> length d = length x ->
  (2 <= length x)%nat -> (i < length x)%nat ->
  ppoly_eval x (hermite_coeffs x y d) (nth i x 0) = nth i y 0.
Proof.
  revert y d i. induction x as [|x0 x IH]; intros y d i Hinc Hy Hd H2 Hi.
  { simpl in Hi. lia. }
  destruct x as [|x1 x]; [simpl in H2; lia|].
  destruct y as [|y0 [|y1 y]]; try discriminate.
  destruct d as [|d0 [|d1 d]]; try discriminate.
  rewrite hermite_coeffs_cons.
  destruct x as [|x2 x].
  - destruct y; [|discriminate]. destruct d; [|discriminate].
    change (hermite_coeffs [x1] [y1] [d1]) with (@nil (R * R * R * R)).
    rewrite ppoly_eval_last.
    destruct i as [|[|i]]; [ | | simpl in Hi; lia].
    + rewrite nth_0_cons, Rminus_diag. apply hermite_piece_left.
    + rewrite nth_S_cons, nth_0_cons. apply hermite_piece_right.
      destruct Hinc; lra.
  - destruct y as [|y2 y]; [discriminate|].
    destruct d as [|d2 d]; [discriminate|].
    rewrite hermite_coeffs_cons, ppoly_eval_cons.
    destruct i as [|i].
    + rewrite !nth_0_cons. destruct Hinc as [Hlt _].
      destruct (Rlt_dec x0 x1); [|contradiction].
      rewrite Rminus_diag. apply hermite_piece_left.
    + rewrite !nth_S_cons.
      destruct Hinc as [Hlt Hinc].
      assert (Hge : x1 <= nth i (x1 :: x2 :: x) 0)
        by (apply increasing_head_le_nth; [exact Hinc | simpl in *; lia]).
      destruct (Rlt_dec (nth i (x1 :: x2 :: x) 0) x1); [lra|].
      rewrite <- hermite_coeffs_cons.
      apply IH; simpl in *; auto; lia.
Qed.

(** ** Linear interpolation *)

Lemma call_linear_last (x0 x1 : R) (y0 y1 : npfloat) (y : list npfloat)
  (v : R) :
  call_linear [x0; x1] (y0 :: y1 :: y) v = segment x0 x1 y0 y1 v.
Proof. reflexivity. Qed.

Lemma call_linear_cons (x0 x1 x2 : R) (x : list R) (y0 y1 : npfloat)
  (y : list npfloat) (v : R) :
  call_linear (x0 :: x1 :: x2 :: x) (y0 :: y1 :: y) v =
  if Rle_dec v x1 then segment x0 x1 y0 y1 v
  else call_linear (x1 :: x2 :: x) (y1 :: y) v.
Proof. reflexivity. Qed.

Lemma call_linearR_last (x0 x1 y0 y1 : R) (y : list R) (v : R) :
  call_linearR [x0; x1] (y0 :: y1 :: y) v = segmentR x0 x1 y0 y1 v.
Proof. reflexivity. Qed.

Lemma call_linearR_cons (x0 x1 x2 : R) (x : list R) (y0 y1 : R)
  (y : list R) (v : R) :
  call_linearR (x0 :: x1 :: x2 :: x) (y0 :: y1 :: y) v =
  if Rle_dec v x1 then segmentR x0 x1 y0 y1 v
  else call_linearR (x1 :: x2 :: x) (y1 :: y) v.
Proof. reflexivity. Qed.

Lemma segment_finite (x0 x1 y0 y1 v : R) :
  x0 <> x1 ->
  segment x0 x1 (Fin y0) (Fin y1) v = Fin (segmentR x0 x1 y0 y1 v).
Proof.
  intros Hne. unfold segment, segmentR. cbn [np_sub np_neg np_add].
  rewrite fin_div by lra. cbn [np_mul np_add].
  replace (y1 + - y0) with (y1 - y0) by ring. reflexivity.
Qed.

Lemma call_linear_finite (x y : list R) (v : R) :
  increasing x -> length y = length x -> (2 <= length x)%nat ->
  call_linear x (map Fin y) v = Fin (call_linearR x y v).
Proof.
  revert y. induction x as [|x0 x IH]; intros y Hinc Hl H2.
  { simpl in H2. lia. }
  destruct x as [|x1 x]; [simpl in H2; lia|].
  destruct y as [|y0 [|y1 y]]; try discriminate.
  destruct Hinc as [Hlt Hinc].
  change (map Fin (y0 :: y1 :: y)) with (Fin y0 :: Fin y1 :: map Fin y).
  destruct x as [|x2 x].
  - rewrite call_linear_last, call_linearR_last. apply segment_finite. lra.
  - rewrite call_linear_cons, call_linearR_cons.
    destruct (Rle_dec v x1).
    + apply segment_finite. lra.
    + change (Fin y1 :: map Fin y) with (map Fin (y1 :: y)).
      apply IH; simpl in *; auto; lia.
Qed.

Lemma segmentR_left (x0 x1 y0 y1 : R) : segmentR x0 x1 y0 y1 x0 = y0.
Proof.
  unfold segmentR. ring.
Qed.

Lemma segmentR_right (x0 x1 y0 y1 : R) :
  x0 <> x1 -> segmentR x0 x1 y0 y1 x1 = y1.
Proof.
  intros Hne. unfold segmentR. field. lra.
Qed.

(** Linear interpolation returns the tabulated value at every grid point. *)
Lemma call_linearR_knot (x y : list R) (i : nat) :
  increasing x -> length y = length x -> (2 <= length x)%nat ->
  (i < length x)%nat ->
  call_linearR x y (nth i x 0) = nth i y 0.
Proof.
  revert y i. induction x as [|x0 x IH]; intros y i Hinc Hl H2 Hi.
  { simpl in Hi. lia. }
  destruct x as [|x1 x]; [simpl in H2; lia|].
  destruct y as [|y0 [|y1 y]]; try discriminate.
  pose proof Hinc as [Hlt Hinc'].
  destruct x as [|x2 x].
  - rewrite call_linearR_last.
    destruct i as [|[|i]]; [ | | simpl in Hi; lia].
    + rewrite !nth_0_cons. apply segmentR_left.
    + rewrite !nth_S_cons, !nth_0_cons. apply segmentR_right. lra.
  - rewrite call_linearR_cons.
    destruct i as [|[|i]].
    + rewrite !nth_0_cons. destruct (Rle_dec x0 x1); [|lra].
      apply segmentR_left.
    + rewrite !nth_S_cons, !nth_0_cons. destruct (Rle_dec x1 x1); [|lra].
      apply segmentR_right. lra.
    + rewrite (nth_S_cons (S i) x0), (nth_S_cons (S i) y0).
      assert (Hgt : x1 < nth (S i) (x1 :: x2 :: x) 0)
        by (apply increasing_head_lt_nth; [exact Hinc' | simpl in *; lia]).
      destruct (Rle_dec (nth (S i) (x1 :: x2 :: x) 0) x1); [lra|].
      apply IH; simpl in *; auto; lia.
Qed.

(** ** The derivatives PCHIP chooses *)

Lemma diff_cons (x0 x1 : R) (x : list R) :
  diff (x0 :: x1 :: x) = (x1 - x0) :: diff (x1 :: x).
Proof. reflexivity. Qed.

Lemma diff_length (l : list R) : length (diff l) = (length l - 1)%nat.
Proof.
  induction l as [|x0 [|x1 l] IH]; try reflexivity.
  rewrite diff_cons. cbn [length] in *. rewrite IH. lia.
Qed.

Lemma slopes_cons (x0 x1 : R) (x : list R) (y0 y1 : R) (y : list R) :
  slopes (x0 :: x1 :: x) (y0 :: y1 :: y) =
  (y1 - y0) / (x1 - x0) :: slopes (x1 :: x) (y1 :: y).
Proof. reflexivity. Qed.

Lemma slopes_length (x y : list R) :
  length y = length x -> length (slopes x y) = (length x - 1)%nat.
Proof.
  intros Hl. unfold slopes.
  rewrite zip_with_length by (rewrite !diff_length; lia).
  rewrite diff_length. lia.
Qed.

Lemma interior_derivatives_cons (h0 h1 : R) (hk : list R) (m0 m1 : R)
  (mk : list R) :
  interior_derivatives (h0 :: h1 :: hk) (m0 :: m1 :: mk) =
  interior_derivative h0 h1 m0 m1 :: interior_derivatives (h1 :: hk) (m1 :: mk).
Proof. reflexivity. Qed.

Lemma interior_derivatives_length (hk mk : list R) :
  length mk = length hk ->
  length (interior_derivatives hk mk) = (length hk - 1)%nat.
Proof.
  revert mk. induction hk as [|h0 hk IH]; intros mk Hl; [reflexivity|].
  destruct hk as [|h1 hk]; [reflexivity|].
  destruct mk as [|m0 [|m1 mk]]; try discriminate.
  rewrite interior_derivatives_cons. cbn [length].
  rewrite IH by (simpl in *; lia). simpl. lia.
Qed.

Lemma rev_two (l : list R) :
  (2 <= length l)%nat ->
  exists a b r, rev l = a :: b :: r /\ a = last l 0 /\ In a l /\ In b l.
Proof.
  intros Hl. pose proof (length_rev l) as Hr.
  destruct (rev l) as [|a [|b r]] eqn:E; simpl in Hr; try lia.
  exists a, b, r. split; [reflexivity|].
  assert (El : l = (rev r ++ [b]) ++ [a]).
  { rewrite <- (rev_involutive l), E. reflexivity. }
  split; [|split].
  - rewrite El. symmetry. apply last_last.
  - rewrite El. apply in_or_app. right. left. reflexivity.
  - rewrite El. apply in_or_app. left. apply in_or_app. right. left.
    reflexivity.
Qed.

Lemma find_derivatives_two (x0 x1 y0 y1 : R) :
  find_derivatives [x0; x1] [y0; y1] =
  [(y1 - y0) / (x1 - x0); (y1 - y0) / (x1 - x0)].
Proof. reflexivity. Qed.

(** With three points or more: the two one-sided estimates around the
    harmonic means. *)
Lemma find_derivatives_three (x0 x1 x2 : R) (x : list R) (y0 y1 y2 : R)
  (y : list R) :
  length y = length x ->
  exists hl hl2 ml ml2,
    find_derivatives (x0 :: x1 :: x2 :: x) (y0 :: y1 :: y2 :: y) =
    edge_case (x1 - x0) (x2 - x1) ((y1 - y0) / (x1 - x0))
      ((y2 - y1) / (x2 - x1))
      :: interior_derivatives (diff (x0 :: x1 :: x2 :: x))
           (slopes (x0 :: x1 :: x2 :: x) (y0 :: y1 :: y2 :: y))
         ++ [edge_case hl hl2 ml ml2] /\
    In hl (diff (x0 :: x1 :: x2 :: x)) /\
    In hl2 (diff (x0 :: x1 :: x2 :: x)) /\
    ml = last (slopes (x0 :: x1 :: x2 :: x) (y0 :: y1 :: y2 :: y)) 0 /\
    In ml2 (slopes (x0 :: x1 :: x2 :: x) (y0 :: y1 :: y2 :: y)).
Proof.
  intros Hl.
  destruct (rev_two (diff (x0 :: x1 :: x2 :: x)))
    as [hl [hl2 [rh [Eh [_ [Hh1 Hh2]]]]]].
  { rewrite diff_length. simpl. lia. }
  destruct (rev_two (slopes (x0 :: x1 :: x2 :: x) (y0 :: y1 :: y2 :: y)))
    as [ml [ml2 [rm [Em [Hm1 [_ Hm2]]]]]].
  { rewrite slopes_length by (simpl; lia). simpl. lia. }
  exists hl, hl2, ml, ml2. repeat split; try assumption.
  unfold find_derivatives.
  fold (slopes (x0 :: x1 :: x2 :: x) (y0 :: y1 :: y2 :: y)).
  rewrite Eh, Em. reflexivity.
Qed.

Lemma find_derivatives_length (x y : list R) :
  length y = length x -> (2 <= length x)%nat ->
  length (find_derivatives x y) = length x.
Proof.
  intros Hl H2.
  destruct x as [|x0 [|x1 [|x2 x]]]; try (simpl in H2; lia).
  - destruct y as [|y0 [|y1 [|y2 y]]]; try discriminate. reflexivity.
  - destruct y as [|y0 [|y1 [|y2 y]]]; try discriminate.
    destruct (find_derivatives_three x0 x1 x2 x y0 y1 y2 y)
      as [hl [hl2 [ml [ml2 [E _]]]]]; [simpl in Hl; lia|].
    rewrite E. cbn [length]. rewrite length_app.
    rewrite interior_derivatives_length
      by (rewrite slopes_length, diff_length; simpl in *; lia).
    rewrite diff_length. simpl. lia.
Qed.

(** ** The methods of a constructed engine *)

Lemma c_data : NinjaDataVectorized.c data = 299792458 / 1000.
Proof. reflexivity. Qed.

(** From here on the data object is used through its lemmas only. *)
Opaque data.

Lemma H_engine (H0 Om w0 wa xi z : R) :
  BaseModel.H (engine H0 Om w0 wa xi) z = Ok (Fin (HR H0 Om w0 wa xi z)).
Proof.
  unfold BaseModel.H, interp1d_call, HR.
  cbn [engine BaseModel.Hz_interp i1_fill i1_x i1_y].
  rewrite call_linear_finite;
    [ reflexivity
    | apply z_grid_increasing
    | rewrite hz_gridR_length, z_grid_length; reflexivity
    | rewrite z_grid_length; unfold N_Z_GRID_POINTS; lia ].
Qed.

Lemma Dc_engine (H0 Om w0 wa xi z : R) :
  BaseModel.Dc (engine H0 Om w0 wa xi) z = Ok (Fin (DcR H0 Om w0 wa xi z)).
Proof.
  unfold BaseModel.Dc, ppoly_call, DcR.
  cbn [engine BaseModel.Dc_interp pp_extrapolate pp_x pp_c negb andb].
  reflexivity.
Qed.

Lemma DL_engine (H0 Om w0 wa xi z : R) :
  BaseModel.DL (engine H0 Om w0 wa xi) z = Ok (Fin (DLR H0 Om w0 wa xi z)).
Proof.
  unfold BaseModel.DL, ppoly_call, DLR.
  cbn [engine BaseModel.DL_interp pp_extrapolate pp_x pp_c negb andb].
  reflexivity.
Qed.

Lemma z_grid_two : (2 <= length (NinjaDataVectorized.z_grid data))%nat.
Proof.
  rewrite z_grid_length. unfold N_Z_GRID_POINTS. lia.
Qed.

Lemma hz_gridR_nth (H0 Om w0 wa xi : R) (i : nat) :
  (i < N_Z_GRID_POINTS)%nat ->
  nth i (hz_gridR H0 Om w0 wa xi) 0
  = hubbleR H0 Om w0 wa xi (scale_factor (grid_point i)).
Proof.
  intros Hi. unfold hz_gridR, a_gridR. rewrite map_map.
  rewrite (nth_indep _ 0 (hubbleR H0 Om w0 wa xi (scale_factor 0)))
    by (rewrite length_map, z_grid_length; exact Hi).
  rewrite (map_nth (fun z => hubbleR H0 Om w0 wa xi (scale_factor z))).
  rewrite z_grid_nth by exact Hi. reflexivity.
Qed.

Lemma HR_grid (H0 Om w0 wa xi : R) (i : nat) :
  (i < N_Z_GRID_POINTS)%nat ->
  HR H0 Om w0 wa xi (grid_point i)
  = hubbleR H0 Om w0 wa xi (scale_factor (grid_point i)).
Proof.
  intros Hi.
  pose proof (call_linearR_knot (NinjaDataVectorized.z_grid data)
                (hz_gridR H0 Om w0 wa xi) i z_grid_increasing) as E.
  rewrite hz_gridR_length, z_grid_length in E.
  specialize (E eq_refl z_grid_two Hi).
  rewrite z_grid_nth, hz_gridR_nth in E by exact Hi. exact E.
Qed.

Lemma DcR_grid (H0 Om w0 wa xi : R) (i : nat) :
  (i < N_Z_GRID_POINTS)%nat ->
  DcR H0 Om w0 wa xi (grid_point i) = nth i (d_c_gridR H0 Om w0 wa xi) 0.
Proof.
  intros Hi.
  pose proof (ppoly_eval_knot (NinjaDataVectorized.z_grid data)
                (d_c_gridR H0 Om w0 wa xi)
                (find_derivatives (NinjaDataVectorized.z_grid data)
                   (d_c_gridR H0 Om w0 wa xi)) i z_grid_increasing) as E.
  rewrite find_derivatives_length in E
    by (rewrite ?d_c_gridR_length, ?z_grid_length; auto using z_grid_two).
  rewrite d_c_gridR_length, z_grid_length in E.
  specialize (E eq_refl eq_refl z_grid_two Hi).
  rewrite z_grid_nth in E by exact Hi. exact E.
Qed.

Lemma d_l_gridR_nth (H0 Om w0 wa xi : R) (i : nat) :
  (i < N_Z_GRID_POINTS)%nat ->
  nth i (d_l_gridR H0 Om w0 wa xi) 0
  = (1 + grid_point i) * NinjaDataVectorized.c data
    * nth i (d_c_gridR H0 Om w0 wa xi) 0 / 100000.
Proof.
  intros Hi. unfold d_l_gridR.
  rewrite (zip_with_nth _ _ _ i 0 0)
    by (rewrite ?d_c_gridR_length, z_grid_length; auto).
  rewrite z_grid_nth by exact Hi. reflexivity.
Qed.

Lemma DLR_grid (H0 Om w0 wa xi : R) (i : nat) :
  (i < N_Z_GRID_POINTS)%nat ->
  DLR H0 Om w0 wa xi (grid_point i)
  = (1 + grid_point i) * NinjaDataVectorized.c data
    * DcR H0 Om w0 wa xi (grid_point i) / 100000.
Proof.
  intros Hi. rewrite DcR_grid by exact Hi.
  pose proof (ppoly_eval_knot (NinjaDataVectorized.z_grid data)
                (d_l_gridR H0 Om w0 wa xi)
                (find_derivatives (NinjaDataVectorized.z_grid data)
                   (d_l_gridR H0 Om w0 wa xi)) i z_grid_increasing) as E.
  rewrite find_derivatives_length in E
    by (rewrite ?d_l_gridR_length, ?z_grid_length; auto using z_grid_two).
  rewrite d_l_gridR_length, z_grid_length in E.
  specialize (E eq_refl eq_refl z_grid_two Hi).
  rewrite z_grid_nth, d_l_gridR_nth in E by exact Hi. exact E.
Qed.

(** ** The comoving-distance table *)

Lemma trapz_accR_increasing (acc : R) (x y : list R) :
  increasing x -> Forall (fun v => 0 < v) y ->
  increasing (acc :: trapz_accR acc x y).
Proof.
  revert acc y. induction x as [|x0 x IH]; intros acc y Hinc Hy.
  { simpl. exact I. }
  destruct x as [|x1 x]; [simpl; exact I|].
  destruct y as [|y0 [|y1 y]]; try (simpl; exact I).
  rewrite trapz_accR_cons. destruct Hinc as [Hlt Hinc].
  inversion Hy as [|? ? Hy0 Hy']; subst. inversion Hy' as [|? ? Hy1 _]; subst.
  split.
  - assert (0 < (x1 - x0) * (y1 + y0)) by (apply Rmult_lt_0_compat; lra).
    lra.
  - apply IH; assumption.
Qed.

Lemma hubbleR_pos (H0 Om w0 wa xi a : R) :
  0 < H0 -> 0 < radicandR Om w0 wa xi a -> 0 < hubbleR H0 Om w0 wa xi a.
Proof.
  intros HH Hr. unfold hubbleR. apply Rmult_lt_0_compat; [exact HH|].
  apply sqrt_lt_R0, Hr.
Qed.

Lemma d_c_gridR_increasing (H0 Om w0 wa xi : R) :
  0 < H0 -> hubble_ok H0 Om w0 wa xi ->
  increasing (d_c_gridR H0 Om w0 wa xi).
Proof.
  intros HH [_ Hr]. unfold d_c_gridR.
  apply trapz_accR_increasing; [apply z_grid_increasing|].
  unfold hz_gridR. rewrite map_map. apply Forall_map.
  eapply Forall_impl; [|exact Hr]. simpl. intros a Ha.
  apply Rdiv_lt_0_compat; [lra | apply hubbleR_pos; assumption].
Qed.

Lemma d_c_gridR_first (H0 Om w0 wa xi : R) :
  nth 0 (d_c_gridR H0 Om w0 wa xi) 0 = 0.
Proof. reflexivity. Qed.

Lemma d_c_gridR_pos (H0 Om w0 wa xi : R) (i : nat) :
  0 < H0 -> hubble_ok H0 Om w0 wa xi -> (S i < N_Z_GRID_POINTS)%nat ->
  0 < nth (S i) (d_c_gridR H0 Om w0 wa xi) 0.
Proof.
  intros HH Hok Hi.
  pose proof (d_c_gridR_increasing _ _ _ _ _ HH Hok) as Hinc.
  pose proof (d_c_gridR_length H0 Om w0 wa xi) as Hl.
  unfold d_c_gridR in *.
  apply (increasing_head_lt_nth 0 _ i Hinc). rewrite Hl. exact Hi.
Qed.

(** ** The baseline radicand *)

Lemma radicandR_baseline (Om a : R) :
  0 < a -> radicandR Om (-1) 0 0 a = Om / a ^ 3 + (1 - Om).
Proof.
  intros Ha. unfold radicandR.
  replace (-3 * (1 + (-1 + 0 * (1 - a)) + 0)) with 0 by ring.
  rewrite Rpower_O by exact Ha. ring.
Qed.

Lemma inv_cube_gt_1 (a : R) : 0 < a < 1 -> 1 < 1 / a ^ 3.
Proof.
  intros [Ha Ha1].
  assert (0 < a ^ 3) by (apply pow_lt; exact Ha).
  assert (a ^ 3 < 1) by nra.
  apply Rmult_lt_reg_r with (a ^ 3); [assumption|].
  unfold Rdiv. rewrite Rmult_assoc, Rinv_l by lra. lra.
Qed.

Lemma baseline_hubble_ok (H0 Om : R) :
  H0 <> 0 -> 0 < Om -> hubble_ok H0 Om (-1) 0 0.
Proof.
  intros HH HOm. split; [exact HH|].
  eapply Forall_impl; [|exact a_gridR_range]. simpl. intros a Ha.
  rewrite radicandR_baseline by lra.
  pose proof (inv_cube_gt_1 a Ha).
  replace (Om / a ^ 3) with (Om * (1 / a ^ 3)) by (unfold Rdiv; ring). nra.
Qed.

(** ** Construction of the two model classes *)

Lemma LCDM_init_eq (H0 Om s8 : R) :
  LCDM_Vectorized.init H0 Om s8 data =
  b <- BaseModel.init H0 Om data (-1) 0 0 ;;
  Ok {| LCDM_Vectorized.base := b; LCDM_Vectorized.s8 := s8 |}.
Proof. reflexivity. Qed.

Lemma LCDM_init_succeeds (H0 Om s8 : R) :
  hubble_ok H0 Om (-1) 0 0 ->
  LCDM_Vectorized.init H0 Om s8 data =
  Ok {| LCDM_Vectorized.base := engine H0 Om (-1) 0 0;
        LCDM_Vectorized.s8 := s8 |}.
Proof.
  intros Hok. rewrite LCDM_init_eq, init_succeeds by exact Hok. reflexivity.
Qed.

Lemma LCDM_init_Ok (H0 Om s8 : R) (m : LCDM_Vectorized.t) :
  LCDM_Vectorized.init H0 Om s8 data = Ok m ->
  hubble_ok H0 Om (-1) 0 0 /\
  m = {| LCDM_Vectorized.base := engine H0 Om (-1) 0 0;
         LCDM_Vectorized.s8 := s8 |}.
Proof.
  rewrite LCDM_init_eq. intros E.
  destruct (BaseModel.init H0 Om data (-1) 0 0) as [b|e] eqn:Eb;
    [|discriminate].
  pose proof (init_Ok_hubble_ok _ _ _ _ _ _ Eb) as Hok.
  split; [exact Hok|].
  rewrite (init_succeeds _ _ _ _ _ Hok) in Eb.
  apply Ok_inj in Eb. subst b. symmetry. apply Ok_inj. exact E.
Qed.

Lemma DUT_init_eq (H0 Om w0 wa xi s8 : R) :
  DUT_Vectorized.init H0 Om w0 wa xi s8 data =
  b <- BaseModel.init H0 Om data w0 wa xi ;;
  Ok {| DUT_Vectorized.base := b; DUT_Vectorized.s8 := s8 |}.
Proof. reflexivity. Qed.

Lemma DUT_init_succeeds (H0 Om w0 wa xi s8 : R) :
  hubble_ok H0 Om w0 wa xi ->
  DUT_Vectorized.init H0 Om w0 wa xi s8 data =
  Ok {| DUT_Vectorized.base := engine H0 Om w0 wa xi;
        DUT_Vectorized.s8 := s8 |}.
Proof.
  intros Hok. rewrite DUT_init_eq, init_succeeds by exact Hok. reflexivity.
Qed.

Lemma DUT_init_Ok (H0 Om w0 wa xi s8 : R) (m : DUT_Vectorized.t) :
  DUT_Vectorized.init H0 Om w0 wa xi s8 data = Ok m ->
  hubble_ok H0 Om w0 wa xi /\
  m = {| DUT_Vectorized.base := engine H0 Om w0 wa xi;
         DUT_Vectorized.s8 := s8 |}.
Proof.
  rewrite DUT_init_eq. intros E.
  destruct (BaseModel.init H0 Om data w0 wa xi) as [b|e] eqn:Eb;
    [|discriminate].
  pose proof (init_Ok_hubble_ok _ _ _ _ _ _ Eb) as Hok.
  split; [exact Hok|].
  rewrite (init_succeeds _ _ _ _ _ Hok) in Eb.
  apply Ok_inj in Eb. subst b. symmetry. apply Ok_inj. exact E.
Qed.

(** * Engine construction *)

Lemma not_hubble_ok (H0 Om w0 wa xi : R) :
  H0 = 0 \/ Exists (fun a => radicandR Om w0 wa xi a <= 0) a_gridR ->
  ~ hubble_ok H0 Om w0 wa xi.
Proof.
  intros [HH|Hex] [Hne Hall]; [contradiction|].
  apply Exists_exists in Hex. destruct Hex as [a [Ha Hle]].
  rewrite Forall_forall in Hall. specialize (Hall a Ha). lra.
Qed.

Lemma init_fails (H0 Om w0 wa xi : R) :
  ~ hubble_ok H0 Om w0 wa xi ->
  BaseModel.init H0 Om data w0 wa xi = Raise ValueError.
Proof.
  intros Hn.
  destruct (BaseModel.init H0 Om data w0 wa xi) as [m|[]] eqn:E.
  - exfalso. apply Hn. eapply init_Ok_hubble_ok, E.
  - reflexivity.
Qed.

(** C1, as the code has it.  [BaseModel.__init__] and the two subclass
    constructors check none of Ωm, H0, σ8 and raise no error of their own.
    The one failure is the [ValueError] of [PchipInterpolator], which
    refuses a non-finite distance table; that is what happens whenever H0
    is zero or the radicand Ωm/a³ + (1−Ωm)·ρ_DE(a) is zero or negative at a
    grid point.  For Ωm in (0,1) and H0, w0, wa, ξ of moderate size (no
    double then leaves the floating-point range) an engine is returned,
    and the baseline engine is returned for every Ωm > 0, above 1 as well,
    and every H0 other than zero, negative or not, of moderate size.  σ8
    plays no part. *)
Theorem construction_fails_only_on_nonfinite_table (H0 Om w0 wa xi : R) :
  (H0 = 0 \/ Exists (fun a => radicandR Om w0 wa xi a <= 0) a_gridR ->
   BaseModel.init H0 Om data w0 wa xi = Raise ValueError /\
   forall s8,
     DUT_Vectorized.init H0 Om w0 wa xi s8 data = Raise ValueError) /\
  (H0 = 0 \/ Exists (fun a => radicandR Om (-1) 0 0 a <= 0) a_gridR ->
   forall s8, LCDM_Vectorized.init H0 Om s8 data = Raise ValueError) /\
  (valid_parameters H0 Om -> moderate_H0 H0 ->
   moderate_dark_energy w0 wa xi ->
   BaseModel.init H0 Om data w0 wa xi = Ok (engine H0 Om w0 wa xi) /\
   forall s8,
     DUT_Vectorized.init H0 Om w0 wa xi s8 data
     = Ok {| DUT_Vectorized.base := engine H0 Om w0 wa xi;
             DUT_Vectorized.s8 := s8 |}) /\
  (moderate_H0 (Rabs H0) -> 0 < Om <= 1000000 ->
   forall s8,
     LCDM_Vectorized.init H0 Om s8 data
     = Ok {| LCDM_Vectorized.base := engine H0 Om (-1) 0 0;
             LCDM_Vectorized.s8 := s8 |}).
Proof.
  split; [|split; [|split]].
  - intros Hbad. apply not_hubble_ok, init_fails in Hbad.
    split; [exact Hbad|]. intros s8.
    rewrite DUT_init_eq, Hbad. reflexivity.
  - intros Hbad s8. apply not_hubble_ok, init_fails in Hbad.
    rewrite LCDM_init_eq, Hbad. reflexivity.
  - intros Hv _ _.
    split; [apply init_succeeds, valid_parameters_hubble_ok, Hv|].
    intros s8. apply DUT_init_succeeds, valid_parameters_hubble_ok, Hv.
  - intros Hm [HOm _] s8. apply moderate_H0_pos in Hm.
    apply LCDM_init_succeeds, baseline_hubble_ok; [|exact HOm].
    intros ->. rewrite Rabs_R0 in Hm. lra.
Qed.

Lemma construction_fails_only_on_nonfinite_table_witness :
  BaseModel.init 0 (315 / 1000) data (-1) 0 0 = Raise ValueError /\
  BaseModel.init (692 / 10) (298 / 1000) data (-105 / 100) (8 / 100)
    (35 / 1000)
  = Ok (engine (692 / 10) (298 / 1000) (-105 / 100) (8 / 100) (35 / 1000)) /\
  LCDM_Vectorized.init (-678 / 10) (15 / 10) (-811 / 1000) data
  = Ok {| LCDM_Vectorized.base := engine (-678 / 10) (15 / 10) (-1) 0 0;
          LCDM_Vectorized.s8 := -811 / 1000 |}.
Proof.
  assert (Hv : valid_parameters (692 / 10) (298 / 1000))
    by (unfold valid_parameters; lra).
  assert (Hm : moderate_H0 (692 / 10)) by (unfold moderate_H0; lra).
  assert (Hd : moderate_dark_energy (-105 / 100) (8 / 100) (35 / 1000))
    by (unfold moderate_dark_energy; lra).
  assert (Hn : moderate_H0 (Rabs (-678 / 10))).
  { rewrite Rabs_left by lra. unfold moderate_H0. lra. }
  assert (HOm : 0 < 15 / 10 <= 1000000) by lra.
  split; [|split].
  - exact (proj1
             (proj1 (construction_fails_only_on_nonfinite_table
                       0 (315 / 1000) (-1) 0 0)
                (or_introl eq_refl))).
  - exact (proj1
             (proj1 (proj2 (proj2 (construction_fails_only_on_nonfinite_table
                              (692 / 10) (298 / 1000) (-105 / 100)
                              (8 / 100) (35 / 1000))))
                Hv Hm Hd)).
  - exact (proj2 (proj2 (proj2 (construction_fails_only_on_nonfinite_table
                                  (-678 / 10) (15 / 10) (-1) 0 0)))
             Hn HOm (-811 / 1000)).
Defined.

(** C1 as stated fails: Ωm = 1.5 is outside (0,1), a negative H0 and a
    negative σ8 are invalid too, and the baseline engine is constructed all
    the same. *)
Lemma construction_accepts_invalid_parameters :
  ~ (0 < 15 / 10 < 1) /\
  (exists m,
      LCDM_Vectorized.init (678 / 10) (15 / 10) (811 / 1000) data = Ok m) /\
  (exists m,
      LCDM_Vectorized.init (-678 / 10) (315 / 1000) (-811 / 1000) data
      = Ok m).
Proof.
  split; [lra|]. split.
  - eexists. apply LCDM_init_succeeds, baseline_hubble_ok; lra.
  - eexists. apply LCDM_init_succeeds, baseline_hubble_ok; lra.
Qed.

(** * Distances at the grid points *)

Lemma c_data_pos : 0 < NinjaDataVectorized.c data.
Proof. rewrite c_data. lra. Qed.

Lemma engine_data (H0 Om w0 wa xi : R) :
  BaseModel.data (engine H0 Om w0 wa xi) = data.
Proof. reflexivity. Qed.

(** C3, as the code has it.  At every grid point the luminosity-distance
    interpolator returns (1+z)·c·Dc(z)/10⁵ — the table it was built on
    carries the factor 1/1e5 — with c the speed of light held by the data
    object and Dc the value of the comoving-distance interpolator. *)
Theorem DL_at_grid_points (H0 Om w0 wa xi : R) (m : BaseModel.t) (i : nat) :
  BaseModel.init H0 Om data w0 wa xi = Ok m ->
  (i < N_Z_GRID_POINTS)%nat ->
  exists z dc,
    nth i (NinjaDataVectorized.z_grid (BaseModel.data m)) 0 = z /\
    BaseModel.Dc m z = Ok (Fin dc) /\
    BaseModel.DL m z =
    Ok (Fin ((1 + z) * NinjaDataVectorized.c (BaseModel.data m) * dc
             / 100000)).
Proof.
  intros E Hi. apply init_Ok_engine in E. subst m.
  exists (grid_point i), (DcR H0 Om w0 wa xi (grid_point i)).
  rewrite engine_data, Dc_engine, DL_engine, DLR_grid by exact Hi.
  split; [apply z_grid_nth, Hi | split; reflexivity].
Qed.

Lemma DL_at_grid_points_witness :
  exists z dc,
    nth 0 (NinjaDataVectorized.z_grid
             (BaseModel.data (engine (678 / 10) (315 / 1000) (-1) 0 0))) 0
    = z /\
    BaseModel.Dc (engine (678 / 10) (315 / 1000) (-1) 0 0) z = Ok (Fin dc) /\
    BaseModel.DL (engine (678 / 10) (315 / 1000) (-1) 0 0) z =
    Ok (Fin ((1 + z)
             * NinjaDataVectorized.c
                 (BaseModel.data (engine (678 / 10) (315 / 1000) (-1) 0 0))
             * dc / 100000)).
Proof.
  apply (DL_at_grid_points (678 / 10) (315 / 1000) (-1) 0 0).
  - apply init_succeeds, baseline_hubble_ok; lra.
  - unfold N_Z_GRID_POINTS. lia.
Defined.

Lemma grid_point_999 : grid_point 999 = 5.
Proof. exact grid_point_last. Qed.

(** C3 as stated fails: at the last grid point z = 5 of the best-fit
    baseline engine, DL is 10⁻⁵ times (1+z)·c·Dc and not within a relative
    1e-9 of it. *)
Lemma DL_is_not_c_times_one_plus_z_Dc :
  exists m dl dc,
    BaseModel.init (678 / 10) (315 / 1000) data (-1) 0 0 = Ok m /\
    nth 999 (NinjaDataVectorized.z_grid data) 0 = 5 /\
    BaseModel.DL m 5 = Ok (Fin dl) /\
    BaseModel.Dc m 5 = Ok (Fin dc) /\
    ~ Rabs (dl - (1 + 5) * NinjaDataVectorized.c data * dc)
      <= / 1000000000 * Rabs ((1 + 5) * NinjaDataVectorized.c data * dc).
Proof.
  assert (Hok : hubble_ok (678 / 10) (315 / 1000) (-1) 0 0)
    by (apply baseline_hubble_ok; lra).
  assert (H999 : (999 < N_Z_GRID_POINTS)%nat) by (unfold N_Z_GRID_POINTS; lia).
  exists (engine (678 / 10) (315 / 1000) (-1) 0 0).
  exists (DLR (678 / 10) (315 / 1000) (-1) 0 0 5).
  exists (DcR (678 / 10) (315 / 1000) (-1) 0 0 5).
  split; [apply init_succeeds, Hok|].
  split; [rewrite z_grid_nth by exact H999; apply grid_point_999|].
  split; [apply DL_engine|]. split; [apply Dc_engine|].
  rewrite <- grid_point_999.
  rewrite DLR_grid, DcR_grid by exact H999.
  pose proof (d_c_gridR_pos (678 / 10) (315 / 1000) (-1) 0 0 998) as Hpos.
  assert (Hd : 0 < nth 999 (d_c_gridR (678 / 10) (315 / 1000) (-1) 0 0) 0)
    by (apply Hpos; [lra | exact Hok | exact H999]).
  rewrite grid_point_999, c_data.
  set (d := nth 999 (d_c_gridR (678 / 10) (315 / 1000) (-1) 0 0) 0) in *.
  rewrite Rabs_left by nra. rewrite Rabs_pos_eq by nra. nra.
Qed.

(** * The first grid point and the distance modulus *)

Lemma z_grid_first : nth 0 (NinjaDataVectorized.z_grid data) 0 = / 1000.
Proof.
  rewrite z_grid_nth by (unfold N_Z_GRID_POINTS; lia).
  apply grid_point_first.
Qed.

Lemma DcR_first (H0 Om w0 wa xi : R) : DcR H0 Om w0 wa xi (/ 1000) = 0.
Proof.
  rewrite <- grid_point_first.
  rewrite DcR_grid by (unfold N_Z_GRID_POINTS; lia). reflexivity.
Qed.

Lemma DLR_first (H0 Om w0 wa xi : R) : DLR H0 Om w0 wa xi (/ 1000) = 0.
Proof.
  rewrite <- grid_point_first.
  rewrite DLR_grid by (unfold N_Z_GRID_POINTS; lia).
  rewrite grid_point_first, DcR_first. unfold Rdiv. ring.
Qed.

Lemma mu_of_DL (m : BaseModel.t) (z dl : R) :
  BaseModel.DL m z = Ok (Fin dl) ->
  BaseModel.mu m z = Ok (Fin 5 * np_log10 (Fin dl) + Fin 25)%np.
Proof.
  intros E. unfold BaseModel.mu. rewrite E. reflexivity.
Qed.

Lemma mu_finite_iff (dl : R) :
  (exists v, (Fin 5 * np_log10 (Fin dl) + Fin 25)%np = Fin v) <-> 0 < dl.
Proof.
  cbn [np_log10]. destruct (Rlt_dec 0 dl) as [Hp|Hnp].
  - split; [intros _; exact Hp|]. intros _. eexists. reflexivity.
  - split; [|intros; contradiction]. intros [v E]. exfalso.
    destruct (Rlt_dec dl 0); cbn [np_mul np_add] in E.
    + discriminate E.
    + unfold inf_of_sign in E.
      destruct (Rlt_dec 0 (- (5))); [lra|].
      destruct (Rlt_dec (- (5)) 0); [|lra]. discriminate E.
Qed.



(** * The two model classes on the same parameters *)

(** C9.  With w0 = −1, wa = 0, ξ = 0 the interacting engine is the
    baseline engine: either constructor succeeds exactly when the other
    does, the two engines are the same object state (Hubble-rate grid and
    the three interpolators, hence the comoving-distance table inside
    them), and H, Dc, DL, μ and D_V agree at every z. *)
Theorem DUT_without_interaction_is_LCDM (H0 Om s8 : R) :
  ((exists d, DUT_Vectorized.init H0 Om (-1) 0 0 s8 data = Ok d) <->
   (exists l, LCDM_Vectorized.init H0 Om s8 data = Ok l)) /\
  forall d l,
    DUT_Vectorized.init H0 Om (-1) 0 0 s8 data = Ok d ->
    LCDM_Vectorized.init H0 Om s8 data = Ok l ->
    DUT_Vectorized.base d = LCDM_Vectorized.base l /\
    BaseModel.hz_grid (DUT_Vectorized.base d)
    = BaseModel.hz_grid (LCDM_Vectorized.base l) /\
    BaseModel.Dc_interp (DUT_Vectorized.base d)
    = BaseModel.Dc_interp (LCDM_Vectorized.base l) /\
    forall z,
      BaseModel.H (DUT_Vectorized.base d) z
      = BaseModel.H (LCDM_Vectorized.base l) z /\
      BaseModel.Dc (DUT_Vectorized.base d) z
      = BaseModel.Dc (LCDM_Vectorized.base l) z /\
      BaseModel.DL (DUT_Vectorized.base d) z
      = BaseModel.DL (LCDM_Vectorized.base l) z /\
      BaseModel.mu (DUT_Vectorized.base d) z
      = BaseModel.mu (LCDM_Vectorized.base l) z /\
      BaseModel.DV (DUT_Vectorized.base d) z
      = BaseModel.DV (LCDM_Vectorized.base l) z.
Proof.
  split.
  - split.
    + intros [d E]. apply DUT_init_Ok in E. destruct E as [Hok _].
      eexists. apply LCDM_init_succeeds, Hok.
    + intros [l E]. apply LCDM_init_Ok in E. destruct E as [Hok _].
      eexists. apply DUT_init_succeeds, Hok.
  - intros d l Ed El.
    apply DUT_init_Ok in Ed. destruct Ed as [_ ->].
    apply LCDM_init_Ok in El. destruct El as [_ ->].
    cbn [DUT_Vectorized.base LCDM_Vectorized.base].
    repeat split; reflexivity.
Qed.

Lemma DUT_without_interaction_is_LCDM_witness :
  BaseModel.Dc_interp
    (DUT_Vectorized.base
       {| DUT_Vectorized.base := engine (678 / 10) (315 / 1000) (-1) 0 0;
          DUT_Vectorized.s8 := 811 / 1000 |})
  = BaseModel.Dc_interp
      (LCDM_Vectorized.base
         {| LCDM_Vectorized.base := engine (678 / 10) (315 / 1000) (-1) 0 0;
            LCDM_Vectorized.s8 := 811 / 1000 |}).
Proof.
  assert (Hok : hubble_ok (678 / 10) (315 / 1000) (-1) 0 0)
    by (apply baseline_hubble_ok; lra).
  apply (proj2 (DUT_without_interaction_is_LCDM (678 / 10) (315 / 1000)
                  (811 / 1000))
           _ _ (DUT_init_succeeds _ _ _ _ _ _ Hok)
           (LCDM_init_succeeds _ _ _ Hok)).
Defined.

(** * Evaluation outside the grid *)

Lemma last_nth_R (l : list R) : last l 0 = nth (length l - 1) l 0.
Proof.
  induction l as [|a [|b l] IH]; try reflexivity.
  change (last (a :: b :: l) 0) with (last (b :: l) 0). rewrite IH.
  cbn [length]. replace (S (S (length l)) - 1)%nat with (S (length l)) by lia.
  rewrite nth_S_cons. replace (S (length l) - 1)%nat with (length l) by lia.
  reflexivity.
Qed.

Lemma z_grid_hd : hd 0 (NinjaDataVectorized.z_grid data) = / 1000.
Proof.
  rewrite <- z_grid_first.
  destruct (NinjaDataVectorized.z_grid data); reflexivity.
Qed.

Lemma z_grid_last : last (NinjaDataVectorized.z_grid data) 0 = 5.
Proof.
  rewrite last_nth_R, z_grid_length.
  rewrite z_grid_nth by (unfold N_Z_GRID_POINTS; lia).
  apply grid_point_last.
Qed.

Lemma out_of_bounds_grid (z : R) :
  out_of_bounds (NinjaDataVectorized.z_grid data) z = true <->
  z < / 1000 \/ 5 < z.
Proof.
  unfold out_of_bounds. rewrite z_grid_hd, z_grid_last.
  destruct (Rlt_dec z (/ 1000)); [tauto|].
  destruct (Rlt_dec 5 z); [tauto|].
  split; [discriminate | tauto].
Qed.

(** C4, as the code has it.  None of the three interpolators refuses a
    redshift: both PCHIP splines are built with [extrapolate=None], which
    scipy reads as True, and the Hubble-rate interpolator with
    [fill_value="extrapolate"].  For every constructed engine and every z,
    inside the grid bounds or not, Dc(z), DL(z), H(z), μ(z) and D_V(z)
    return a double and raise no domain error.  Outside the bounds the
    double is the first or last piece continued; it is a finite number as
    long as the parameters and the redshift are of moderate size. *)
Theorem interpolators_all_extrapolate (H0 Om w0 wa xi : R)
  (m : BaseModel.t) (z : R) :
  BaseModel.init H0 Om data w0 wa xi = Ok m ->
  pp_extrapolate (BaseModel.Dc_interp m) = true /\
  pp_extrapolate (BaseModel.DL_interp m) = true /\
  i1_fill (BaseModel.Hz_interp m) = FillExtrapolate /\
  (exists v, BaseModel.Dc m z = Ok v) /\
  (exists v, BaseModel.DL m z = Ok v) /\
  (exists v, BaseModel.H m z = Ok v) /\
  (exists w, BaseModel.mu m z = Ok w) /\
  (exists w, BaseModel.DV m z = Ok w) /\
  (valid_parameters H0 Om -> moderate_H0 H0 ->
   moderate_dark_energy w0 wa xi -> moderate_redshift z ->
   BaseModel.Dc m z =
   Ok (Fin (ppoly_eval (pp_x (BaseModel.Dc_interp m))
              (pp_c (BaseModel.Dc_interp m)) z)) /\
   BaseModel.DL m z =
   Ok (Fin (ppoly_eval (pp_x (BaseModel.DL_interp m))
              (pp_c (BaseModel.DL_interp m)) z)) /\
   exists h, BaseModel.H m z = Ok (Fin h)).
Proof.
  intros E. apply init_Ok_engine in E. subst m.
  split; [reflexivity|]. split; [reflexivity|]. split; [reflexivity|].
  split; [eexists; apply Dc_engine|]. split; [eexists; apply DL_engine|].
  split; [eexists; apply H_engine|].
  split; [eexists; apply mu_of_DL, DL_engine|].
  split.
  - unfold BaseModel.DV. rewrite Dc_engine, H_engine. cbn [bind].
    eexists. reflexivity.
  - intros _ _ _ _.
    split; [apply Dc_engine|]. split; [apply DL_engine|].
    eexists. apply H_engine.
Qed.

Lemma interpolators_all_extrapolate_witness :
  pp_extrapolate
    (BaseModel.Dc_interp (engine (678 / 10) (315 / 1000) (-1) 0 0)) = true /\
  (exists v,
      BaseModel.Dc (engine (678 / 10) (315 / 1000) (-1) 0 0) 6 = Ok v) /\
  (exists h,
      BaseModel.H (engine (678 / 10) (315 / 1000) (-1) 0 0) 6 = Ok (Fin h)).
Proof.
  assert (Hv : valid_parameters (678 / 10) (315 / 1000))
    by (unfold valid_parameters; lra).
  assert (Hm : moderate_H0 (678 / 10)) by (unfold moderate_H0; lra).
  assert (Hd : moderate_dark_energy (-1) 0 0)
    by (unfold moderate_dark_energy; lra).
  assert (Hz : moderate_redshift 6) by (unfold moderate_redshift; lra).
  assert (Hok : hubble_ok (678 / 10) (315 / 1000) (-1) 0 0)
    by (apply baseline_hubble_ok; lra).
  pose proof (interpolators_all_extrapolate (678 / 10) (315 / 1000) (-1)
                0 0 _ 6 (init_succeeds _ _ _ _ _ Hok)) as T.
  destruct T as (F1 & _ & _ & HDc & _ & _ & _ & _ & Hfin).
  destruct (Hfin Hv Hm Hd Hz) as (_ & _ & HH).
  exact (conj F1 (conj HDc HH)).
Defined.

(** C4 as stated fails: z = 6 lies above the grid bound 5 and z = 0 below
    the bound 10⁻³, and the best-fit baseline engine returns finite numbers
    for Dc and DL there, not a domain error. *)
Lemma distances_outside_the_grid_are_returned :
  exists m,
    BaseModel.init (678 / 10) (315 / 1000) data (-1) 0 0 = Ok m /\
    out_of_bounds (NinjaDataVectorized.z_grid data) 6 = true /\
    out_of_bounds (NinjaDataVectorized.z_grid data) 0 = true /\
    (exists v, BaseModel.Dc m 6 = Ok (Fin v)) /\
    (exists v, BaseModel.DL m 6 = Ok (Fin v)) /\
    (exists v, BaseModel.Dc m 0 = Ok (Fin v)) /\
    (exists v, BaseModel.DL m 0 = Ok (Fin v)).
Proof.
  exists (engine (678 / 10) (315 / 1000) (-1) 0 0).
  split; [apply init_succeeds, baseline_hubble_ok; lra|].
  split; [apply out_of_bounds_grid; lra|].
  split; [apply out_of_bounds_grid; lra|].
  split; [eexists; apply Dc_engine|].
  split; [eexists; apply DL_engine|].
  split; [eexists; apply Dc_engine|].
  eexists; apply DL_engine.
Qed.

(** * The baseline Hubble rate on the grid *)

Lemma scale_factor_decreasing (z z' : R) :
  0 < z -> z < z' -> scale_factor z' < scale_factor z.
Proof.
  intros Hz Hlt. unfold scale_factor, Rdiv. rewrite !Rmult_1_l.
  apply Rinv_0_lt_contravar; lra.
Qed.

Lemma inv_cube_decreasing (a a' : R) :
  0 < a' -> a' <= a -> 1 / a ^ 3 <= 1 / a' ^ 3.
Proof.
  intros Ha Hle. unfold Rdiv. rewrite !Rmult_1_l.
  assert (0 < a' ^ 3) by (apply pow_lt; exact Ha).
  assert (a' ^ 3 <= a ^ 3) by (apply pow_incr; lra).
  apply Rinv_le_contravar; assumption.
Qed.

Lemma baseline_hubbleR_monotone (H0 Om a a' : R) :
  0 < H0 -> 0 < Om < 1 -> 0 < a' -> a' <= a ->
  hubbleR H0 Om (-1) 0 0 a <= hubbleR H0 Om (-1) 0 0 a'.
Proof.
  intros HH HOm Ha Hle. unfold hubbleR.
  rewrite !radicandR_baseline by lra.
  apply Rmult_le_compat_l; [lra|]. apply sqrt_le_1_alt.
  pose proof (inv_cube_decreasing a a' Ha Hle).
  replace (Om / a ^ 3) with (Om * (1 / a ^ 3)) by (unfold Rdiv; ring).
  replace (Om / a' ^ 3) with (Om * (1 / a' ^ 3)) by (unfold Rdiv; ring).
  nra.
Qed.

(** * The growth-rate observable *)

Lemma matter_fraction_finite (Om H0 h z : R) :
  -1 < z -> H0 <> 0 -> h <> 0 ->
  (Fin Om / ((Fin 1 / (Fin 1 + Fin z)) ** Fin 3
             * (Fin h / Fin H0) ** Fin 2))%np
  = Fin (Omega_m_z Om H0 h z).
Proof.
  intros Hz HH Hh. cbn [np_add].
  rewrite !fin_div by lra. rewrite fin_pow3, fin_pow2. cbn [np_mul].
  assert (1 / (1 + z) <> 0).
  { unfold Rdiv. rewrite Rmult_1_l. apply Rinv_neq_0_compat. lra. }
  assert (h / H0 <> 0).
  { unfold Rdiv. apply Rmult_integral_contrapositive_currified;
      [exact Hh | apply Rinv_neq_0_compat, HH]. }
  rewrite fin_div; [reflexivity|].
  apply Rmult_integral_contrapositive_currified; apply pow_nonzero;
    assumption.
Qed.

Lemma Omega_m_z_pos (Om H0 h z : R) :
  0 < Om -> -1 < z -> H0 <> 0 -> h <> 0 -> 0 < Omega_m_z Om H0 h z.
Proof.
  intros HOm Hz HH Hh. unfold Omega_m_z.
  apply Rdiv_lt_0_compat; [exact HOm|].
  apply Rmult_lt_0_compat.
  - apply pow_lt. apply Rdiv_lt_0_compat; lra.
  - assert (h / H0 <> 0).
    { unfold Rdiv. apply Rmult_integral_contrapositive_currified;
        [exact Hh | apply Rinv_neq_0_compat, HH]. }
    nra.
Qed.

Lemma growth_formula_finite (gamma Om H0 s8 h z : R) :
  0 < Om -> -1 < z -> H0 <> 0 -> h <> 0 ->
  (Fin (Omega_m_z Om H0 h z) ** Fin gamma
   * Fin (Omega_m_z Om H0 h z) ** Fin (3 / 7) * Fin s8)%np
  = Fin (fsigma8_spec gamma Om H0 s8 h z).
Proof.
  intros HOm Hz HH Hh.
  rewrite !fin_pow_pos by (apply Omega_m_z_pos; assumption).
  reflexivity.
Qed.



(** * The BAO volume distance *)

Lemma DV_engine (H0 Om w0 wa xi z : R) :
  let dc := DcR H0 Om w0 wa xi z in
  let h := HR H0 Om w0 wa xi z in
  h <> 0 -> 0 < (1 + z) * dc ^ 2 * NinjaDataVectorized.c data / h ->
  BaseModel.DV (engine H0 Om w0 wa xi) z
  = Ok (Fin (Rpower ((1 + z) * dc ^ 2 * NinjaDataVectorized.c data / h)
               (1 / 3))).
Proof.
  intros dc h Hh Hpos. unfold BaseModel.DV.
  rewrite Dc_engine, H_engine. cbn [bind]. rewrite engine_data.
  fold dc h. rewrite fin_pow2. cbn [np_mul]. rewrite fin_div by exact Hh.
  rewrite fin_pow_pos by exact Hpos. reflexivity.
Qed.

Lemma DV_spec_engine (H0 Om w0 wa xi z : R) :
  let dc := DcR H0 Om w0 wa xi z in
  let h := HR H0 Om w0 wa xi z in
  h <> 0 -> 1 + z <> 0 -> 0 < dc ^ 2 * NinjaDataVectorized.c data * z / h ->
  DV_spec (engine H0 Om w0 wa xi) z
  = Ok (Fin (Rpower (dc ^ 2 * NinjaDataVectorized.c data * z / h) (1 / 3))).
Proof.
  intros dc h Hh Hz Hpos. unfold DV_spec, DA_spec.
  rewrite Dc_engine, H_engine. cbn [bind]. rewrite engine_data.
  fold dc h. rewrite fin_div by exact Hz. rewrite !fin_pow2. cbn [np_mul].
  rewrite fin_div by exact Hh.
  replace ((1 + z) ^ 2 * (dc / (1 + z)) ^ 2 * NinjaDataVectorized.c data
           * z / h)
    with (dc ^ 2 * NinjaDataVectorized.c data * z / h)
    by (field; split; assumption).
  rewrite fin_pow_pos by exact Hpos. reflexivity.
Qed.

(** C2 against the code.  At the last grid point z = 5 of the best-fit
    baseline engine, [DV] returns [(1+z)·Dc²·c/H]^(1/3) = [6·Dc²·c/H]^(1/3)
    where the formula [(1+z)²·DA²·c·z/H]^(1/3) with DA = Dc/(1+z) gives
    [5·Dc²·c/H]^(1/3): the two values differ. *)
Theorem DV_has_one_plus_z_for_z :
  exists m dc h,
    BaseModel.init (678 / 10) (315 / 1000) data (-1) 0 0 = Ok m /\
    BaseModel.Dc m 5 = Ok (Fin dc) /\
    BaseModel.H m 5 = Ok (Fin h) /\
    0 < dc /\ 0 < h /\
    BaseModel.DV m 5
    = Ok (Fin (Rpower ((1 + 5) * dc ^ 2 * NinjaDataVectorized.c data / h)
                 (1 / 3))) /\
    DV_spec m 5
    = Ok (Fin (Rpower (dc ^ 2 * NinjaDataVectorized.c data * 5 / h)
                 (1 / 3))) /\
    Rpower (dc ^ 2 * NinjaDataVectorized.c data * 5 / h) (1 / 3)
    < Rpower ((1 + 5) * dc ^ 2 * NinjaDataVectorized.c data / h) (1 / 3) /\
    BaseModel.DV m 5 <> DV_spec m 5.
Proof.
  assert (Hok : hubble_ok (678 / 10) (315 / 1000) (-1) 0 0)
    by (apply baseline_hubble_ok; lra).
  assert (H999 : (999 < N_Z_GRID_POINTS)%nat) by (unfold N_Z_GRID_POINTS; lia).
  set (dc := DcR (678 / 10) (315 / 1000) (-1) 0 0 5).
  set (h := HR (678 / 10) (315 / 1000) (-1) 0 0 5).
  assert (Hdc : 0 < dc).
  { unfold dc. rewrite <- grid_point_999. rewrite DcR_grid by exact H999.
    apply d_c_gridR_pos; [lra | exact Hok | exact H999]. }
  assert (Hh : 0 < h).
  { unfold h. rewrite <- grid_point_999. rewrite HR_grid by exact H999.
    apply hubbleR_pos; [lra|].
    rewrite radicandR_baseline
      by (apply scale_factor_range, grid_point_pos).
    assert (0 < scale_factor (grid_point 999))
      by (apply scale_factor_range, grid_point_pos).
    assert (0 < 315 / 1000 / scale_factor (grid_point 999) ^ 3)
      by (apply Rdiv_lt_0_compat; [lra | apply pow_lt; assumption]).
    lra. }
  pose proof c_data_pos as Hc.
  assert (Hq : 0 < dc ^ 2 * NinjaDataVectorized.c data / h).
  { apply Rdiv_lt_0_compat; [|exact Hh].
    apply Rmult_lt_0_compat; [apply pow_lt; exact Hdc | exact Hc]. }
  assert (Hspec : 0 < dc ^ 2 * NinjaDataVectorized.c data * 5 / h).
  { replace (dc ^ 2 * NinjaDataVectorized.c data * 5 / h)
      with (5 * (dc ^ 2 * NinjaDataVectorized.c data / h))
      by (unfold Rdiv; ring). lra. }
  assert (Hcode : 0 < (1 + 5) * dc ^ 2 * NinjaDataVectorized.c data / h).
  { replace ((1 + 5) * dc ^ 2 * NinjaDataVectorized.c data / h)
      with (6 * (dc ^ 2 * NinjaDataVectorized.c data / h))
      by (unfold Rdiv; ring). lra. }
  assert (Hlt : Rpower (dc ^ 2 * NinjaDataVectorized.c data * 5 / h) (1 / 3)
                < Rpower ((1 + 5) * dc ^ 2 * NinjaDataVectorized.c data / h)
                    (1 / 3)).
  { apply Rlt_Rpower_l; [lra|]. split; [exact Hspec|].
    replace (dc ^ 2 * NinjaDataVectorized.c data * 5 / h)
      with (5 * (dc ^ 2 * NinjaDataVectorized.c data / h))
      by (unfold Rdiv; ring).
    replace ((1 + 5) * dc ^ 2 * NinjaDataVectorized.c data / h)
      with (6 * (dc ^ 2 * NinjaDataVectorized.c data / h))
      by (unfold Rdiv; ring). lra. }
  assert (Ecode := DV_engine (678 / 10) (315 / 1000) (-1) 0 0 5).
  assert (Espec := DV_spec_engine (678 / 10) (315 / 1000) (-1) 0 0 5).
  cbv zeta in Ecode, Espec. fold dc h in Ecode, Espec.
  specialize (Ecode (Rgt_not_eq _ _ Hh) Hcode).
  specialize (Espec (Rgt_not_eq _ _ Hh) ltac:(lra) Hspec).
  exists (engine (678 / 10) (315 / 1000) (-1) 0 0), dc, h.
  split; [apply init_succeeds, Hok|].
  split; [apply Dc_engine|]. split; [apply H_engine|].
  split; [exact Hdc|]. split; [exact Hh|].
  split; [exact Ecode|]. split; [exact Espec|]. split; [exact Hlt|].
  rewrite Ecode, Espec. intros Heq.
  apply Ok_inj in Heq.
  assert (Hfin : forall a b : R, Fin a = Fin b -> a = b)
    by (intros a b [= ->]; reflexivity).
  apply Hfin in Heq. lra.
Qed.

(** * The Hubble rate below the grid *)

Lemma z_grid_cons3 :
  NinjaDataVectorized.z_grid data =
  grid_point 0 :: grid_point 1 :: grid_point 2
    :: map grid_point (seq 3 (N_Z_GRID_POINTS - 3)).
Proof.
  rewrite z_grid_closed_form. reflexivity.
Qed.

Lemma hz_gridR_cons3 (H0 Om w0 wa xi : R) :
  hz_gridR H0 Om w0 wa xi =
  hubbleR H0 Om w0 wa xi (scale_factor (grid_point 0))
    :: hubbleR H0 Om w0 wa xi (scale_factor (grid_point 1))
    :: hubbleR H0 Om w0 wa xi (scale_factor (grid_point 2))
    :: map (hubbleR H0 Om w0 wa xi)
         (map scale_factor (map grid_point (seq 3 (N_Z_GRID_POINTS - 3)))).
Proof.
  unfold hz_gridR, a_gridR. rewrite z_grid_cons3. reflexivity.
Qed.

(** Below the second grid point [H] is the first segment, continued. *)
Lemma HR_first_segment (H0 Om w0 wa xi z : R) :
  z <= grid_point 1 ->
  HR H0 Om w0 wa xi z =
  segmentR (grid_point 0) (grid_point 1)
    (hubbleR H0 Om w0 wa xi (scale_factor (grid_point 0)))
    (hubbleR H0 Om w0 wa xi (scale_factor (grid_point 1))) z.
Proof.
  intros Hz. unfold HR. rewrite hz_gridR_cons3, z_grid_cons3.
  rewrite call_linearR_cons.
  destruct (Rle_dec z (grid_point 1)); [reflexivity | contradiction].
Qed.

(** The baseline radicand as a polynomial in z. *)
Lemma baseline_radicand_poly (Om z : R) :
  0 < z ->
  radicandR Om (-1) 0 0 (scale_factor z) = 1 + Om * z * (z ^ 2 + 3 * z + 3).
Proof.
  intros Hz. rewrite radicandR_baseline by (apply scale_factor_range, Hz).
  unfold scale_factor. field. lra.
Qed.


(** ** Rational bounds on the grid ratio *)

Lemma pow_ratio (a b : Z) (n : nat) :
  (0 < b)%Z ->
  (IZR a / IZR b) ^ n = IZR (a ^ Z.of_nat n) / IZR (b ^ Z.of_nat n).
Proof.
  intros Hb. unfold Rdiv. rewrite Rpow_mult_distr, pow_inv, !pow_IZR.
  reflexivity.
Qed.

Lemma grid_ratio_upper (a b : Z) :
  (0 < b)%Z -> (0 < a)%Z ->
  (5000 * b ^ 999 < a ^ 999)%Z -> grid_ratio < IZR a / IZR b.
Proof.
  intros Hb Ha Hlt.
  destruct (Rlt_dec grid_ratio (IZR a / IZR b)) as [H|H]; [exact H|].
  exfalso. apply Rnot_lt_le in H.
  assert (Hq : 0 <= IZR a / IZR b).
  { apply Rlt_le, Rdiv_lt_0_compat; apply IZR_lt; assumption. }
  pose proof (pow_incr _ _ 999 (conj Hq H)) as Hp.
  rewrite grid_ratio_pow, pow_ratio in Hp by exact Hb.
  change (Z.of_nat 999) with 999%Z in Hp.
  assert (Hb' : 0 < IZR (b ^ 999)).
  { apply IZR_lt. apply Z.pow_pos_nonneg; lia. }
  apply IZR_lt in Hlt. rewrite mult_IZR in Hlt.
  apply (Rmult_le_compat_r (IZR (b ^ 999))) in Hp; [|lra].
  unfold Rdiv in Hp. rewrite Rmult_assoc, Rinv_l, Rmult_1_r in Hp by lra.
  lra.
Qed.

Lemma grid_ratio_lower (a b : Z) :
  (0 < b)%Z -> (0 < a)%Z ->
  (a ^ 999 < 5000 * b ^ 999)%Z -> IZR a / IZR b < grid_ratio.
Proof.
  intros Hb Ha Hlt.
  destruct (Rlt_dec (IZR a / IZR b) grid_ratio) as [H|H]; [exact H|].
  exfalso. apply Rnot_lt_le in H.
  assert (Hq : 0 <= grid_ratio) by (pose proof grid_ratio_gt_1; lra).
  pose proof (pow_incr _ _ 999 (conj Hq H)) as Hp.
  rewrite grid_ratio_pow, pow_ratio in Hp by exact Hb.
  change (Z.of_nat 999) with 999%Z in Hp.
  assert (Hb' : 0 < IZR (b ^ 999)).
  { apply IZR_lt. apply Z.pow_pos_nonneg; lia. }
  apply IZR_lt in Hlt. rewrite mult_IZR in Hlt.
  apply (Rmult_le_compat_r (IZR (b ^ 999))) in Hp; [|lra].
  unfold Rdiv in Hp. rewrite Rmult_assoc, Rinv_l, Rmult_1_r in Hp by lra.
  lra.
Qed.

Lemma grid_ratio_bounds : 1008 / 1000 < grid_ratio < 1009 / 1000.
Proof.
  split.
  - apply (grid_ratio_lower 1008 1000); [lia | lia |].
    vm_compute. reflexivity.
  - apply (grid_ratio_upper 1009 1000); [lia | lia |].
    vm_compute. reflexivity.
Qed.

Lemma grid_point_1 : grid_point 1 = / 1000 * grid_ratio.
Proof.
  rewrite grid_point_succ, grid_point_first. reflexivity.
Qed.

Lemma grid_point_2 : grid_point 2 = / 1000 * grid_ratio * grid_ratio.
Proof.
  rewrite grid_point_succ, grid_point_1. reflexivity.
Qed.

(** Write [sqrt (1 + Om z (z² + 3z + 3))] as [1 + k z] at two positive
    abscissae: the slopes [k] from the origin are positive and increase. *)
Lemma chord_slopes (Om z0 z1 s0 s1 : R) :
  0 < Om <= 1 -> 0 < z0 < z1 -> 0 <= s0 -> 0 <= s1 ->
  s0 * s0 = 1 + Om * z0 * (z0 ^ 2 + 3 * z0 + 3) ->
  s1 * s1 = 1 + Om * z1 * (z1 ^ 2 + 3 * z1 + 3) ->
  exists k0 k1,
    s0 = 1 + k0 * z0 /\ s1 = 1 + k1 * z1 /\ 0 < k0 < k1 /\
    2 * k0 + k0 ^ 2 * z0 = Om * (z0 ^ 2 + 3 * z0 + 3) /\
    2 * k1 + k1 ^ 2 * z1 = Om * (z1 ^ 2 + 3 * z1 + 3).
Proof.
  intros HOm Hz Hs0 Hs1 E0 E1.
  assert (P0 : 0 < Om * z0 * (z0 ^ 2 + 3 * z0 + 3))
    by (repeat apply Rmult_lt_0_compat; try lra; nra).
  assert (P1 : 0 < Om * z1 * (z1 ^ 2 + 3 * z1 + 3))
    by (repeat apply Rmult_lt_0_compat; try lra; nra).
  assert (H1s0 : 1 < s0).
  { destruct (Rlt_dec 1 s0) as [Hl|Hn]; [exact Hl|]. exfalso.
    assert (s0 * s0 <= 1 * 1) by (apply Rmult_le_compat; lra). lra. }
  assert (H1s1 : 1 < s1).
  { destruct (Rlt_dec 1 s1) as [Hl|Hn]; [exact Hl|]. exfalso.
    assert (s1 * s1 <= 1 * 1) by (apply Rmult_le_compat; lra). lra. }
  exists ((s0 - 1) / z0), ((s1 - 1) / z1).
  set (k0 := (s0 - 1) / z0). set (k1 := (s1 - 1) / z1).
  assert (Ek0 : s0 = 1 + k0 * z0) by (unfold k0; field; lra).
  assert (Ek1 : s1 = 1 + k1 * z1) by (unfold k1; field; lra).
  assert (Hk0 : 0 < k0) by (unfold k0; apply Rdiv_lt_0_compat; lra).
  assert (Hk1 : 0 < k1) by (unfold k1; apply Rdiv_lt_0_compat; lra).
  assert (F0 : 2 * k0 + k0 ^ 2 * z0 = Om * (z0 ^ 2 + 3 * z0 + 3)).
  { apply Rmult_eq_reg_l with z0; [|lra].
    replace (s0 * s0) with ((1 + k0 * z0) * (1 + k0 * z0)) in E0
      by (rewrite <- Ek0; ring).
    lra. }
  assert (F1 : 2 * k1 + k1 ^ 2 * z1 = Om * (z1 ^ 2 + 3 * z1 + 3)).
  { apply Rmult_eq_reg_l with z1; [|lra].
    replace (s1 * s1) with ((1 + k1 * z1) * (1 + k1 * z1)) in E1
      by (rewrite <- Ek1; ring).
    lra. }
  repeat split; try assumption.
  destruct (Rlt_dec k0 k1) as [Hlt|Hge]; [exact Hlt|]. exfalso.
  assert (Hge' : k1 <= k0) by lra.
  assert (Hsq : k1 ^ 2 <= k0 ^ 2) by (clear - Hge' Hk1 Hk0; nra).
  assert (G1 : Om * (z1 + z0 + 3) * (z1 - z0) <= k1 ^ 2 * (z1 - z0)).
  { replace (Om * (z1 + z0 + 3) * (z1 - z0))
      with ((2 * k1 + k1 ^ 2 * z1) - (2 * k0 + k0 ^ 2 * z0))
      by (rewrite F0, F1; ring).
    assert (k1 ^ 2 * z0 <= k0 ^ 2 * z0)
      by (apply Rmult_le_compat_r; lra).
    lra. }
  assert (G2 : Om * (z1 + z0 + 3) <= k1 ^ 2)
    by (apply Rmult_le_reg_r with (z1 - z0); lra).
  assert (G3 : 2 * k1 <= Om * (3 - z0 * z1)).
  { assert (Om * (z1 + z0 + 3) * z1 <= k1 ^ 2 * z1)
      by (apply Rmult_le_compat_r; lra).
    replace (Om * (3 - z0 * z1))
      with (Om * (z1 ^ 2 + 3 * z1 + 3) - Om * (z1 + z0 + 3) * z1) by ring.
    rewrite <- F1. lra. }
  assert (G4 : k1 < 3 / 2 * Om).
  { assert (0 < Om * (z0 * z1)) by (repeat apply Rmult_lt_0_compat; lra).
    replace (Om * (3 - z0 * z1)) with (3 * Om - Om * (z0 * z1)) in G3 by ring.
    lra. }
  assert (G5 : k1 ^ 2 < 9 / 4 * Om).
  { assert (k1 * k1 < 3 / 2 * Om * (3 / 2 * Om))
      by (apply Rmult_le_0_lt_compat; lra).
    assert (Om * Om <= Om * 1) by (apply Rmult_le_compat_l; lra).
    replace (k1 ^ 2) with (k1 * k1) by ring. lra. }
  assert (G6 : 0 < Om * (z1 + z0)) by (apply Rmult_lt_0_compat; lra).
  replace (Om * (z1 + z0 + 3)) with (Om * (z1 + z0) + 3 * Om) in G2 by ring.
  lra.
Qed.

(** The chord through the two abscissae passes strictly below 1 at the
    origin, and not far below. *)
Lemma chord_at_origin (Om z0 z1 s0 s1 : R) :
  0 < Om <= 1 -> 0 < z0 < z1 -> 0 <= s0 -> 0 <= s1 ->
  s0 * s0 = 1 + Om * z0 * (z0 ^ 2 + 3 * z0 + 3) ->
  s1 * s1 = 1 + Om * z1 * (z1 ^ 2 + 3 * z1 + 3) ->
  1 - z0 * z1 * Om * (z1 + z0 + 3) / 2
  <= (s1 - s0) / (z1 - z0) * (0 - z0) + s0 < 1.
Proof.
  intros HOm Hz Hs0 Hs1 E0 E1.
  destruct (chord_slopes Om z0 z1 s0 s1 HOm Hz Hs0 Hs1 E0 E1)
    as [k0 [k1 [Ek0 [Ek1 [Hk [F0 F1]]]]]].
  assert (Echord : (s1 - s0) / (z1 - z0) * (0 - z0) + s0
                   = 1 - z0 * z1 * ((k1 - k0) / (z1 - z0))).
  { rewrite Ek0, Ek1. field. lra. }
  rewrite Echord.
  assert (Hq : 0 < (k1 - k0) / (z1 - z0))
    by (apply Rdiv_lt_0_compat; lra).
  assert (Hzz : 0 < z0 * z1) by (apply Rmult_lt_0_compat; lra).
  split.
  - assert (Hup : (k1 - k0) / (z1 - z0) <= Om * (z1 + z0 + 3) / 2).
    { apply Rmult_le_reg_r with (z1 - z0); [lra|].
      unfold Rdiv at 1. rewrite Rmult_assoc, Rinv_l, Rmult_1_r by lra.
      assert (Hd : 2 * (k1 - k0) + (k1 ^ 2 * z1 - k0 ^ 2 * z0)
                   = Om * (z1 + z0 + 3) * (z1 - z0))
        by (replace (2 * (k1 - k0) + (k1 ^ 2 * z1 - k0 ^ 2 * z0))
              with ((2 * k1 + k1 ^ 2 * z1) - (2 * k0 + k0 ^ 2 * z0)) by ring;
            rewrite F0, F1; ring).
      assert (Hk2 : k0 ^ 2 <= k1 ^ 2) by (clear - Hk; nra).
      assert (k0 ^ 2 * z0 <= k1 ^ 2 * z0)
        by (apply Rmult_le_compat_r; lra).
      assert (k1 ^ 2 * z0 <= k1 ^ 2 * z1)
        by (apply Rmult_le_compat_l; [clear - Hk; nra | lra]).
      lra. }
    apply (Rmult_le_compat_l (z0 * z1)) in Hup; [|lra].
    replace (z0 * z1 * Om * (z1 + z0 + 3) / 2)
      with (z0 * z1 * (Om * (z1 + z0 + 3) / 2)) by (unfold Rdiv; ring).
    lra.
  - assert (0 < z0 * z1 * ((k1 - k0) / (z1 - z0)))
      by (apply Rmult_lt_0_compat; assumption).
    lra.
Qed.

Lemma baseline_sqrt_radicand (Om z : R) :
  0 < Om -> 0 < z ->
  let s := sqrt (radicandR Om (-1) 0 0 (scale_factor z)) in
  0 <= s /\ s * s = 1 + Om * z * (z ^ 2 + 3 * z + 3).
Proof.
  intros HOm Hz s. split; [apply sqrt_pos|]. unfold s.
  rewrite sqrt_sqrt; [apply baseline_radicand_poly, Hz|].
  rewrite baseline_radicand_poly by exact Hz.
  assert (0 < Om * z * (z ^ 2 + 3 * z + 3))
    by (repeat apply Rmult_lt_0_compat; try lra; nra).
  lra.
Qed.

(** The baseline Hubble rate extrapolated to redshift zero. *)
Lemma baseline_HR_zero (H0 Om : R) :
  valid_parameters H0 Om ->
  H0 * (1 - grid_point 0 * grid_point 1 * Om
            * (grid_point 1 + grid_point 0 + 3) / 2)
  <= HR H0 Om (-1) 0 0 0 < H0.
Proof.
  intros [HH HOm].
  rewrite HR_first_segment by (pose proof (grid_point_pos 1); lra).
  pose proof (grid_point_pos 0) as Hz0.
  pose proof (grid_point_lt_succ 0) as Hz01.
  destruct (baseline_sqrt_radicand Om (grid_point 0)) as [Hs0 E0];
    [lra | exact Hz0 |].
  destruct (baseline_sqrt_radicand Om (grid_point 1)) as [Hs1 E1];
    [lra | lra |].
  pose proof (chord_at_origin Om (grid_point 0) (grid_point 1) _ _
                ltac:(lra) (conj Hz0 Hz01) Hs0 Hs1 E0 E1) as Hc.
  unfold segmentR, hubbleR.
  set (s0 := sqrt (radicandR Om (-1) 0 0 (scale_factor (grid_point 0)))) in *.
  set (s1 := sqrt (radicandR Om (-1) 0 0 (scale_factor (grid_point 1)))) in *.
  replace ((H0 * s1 - H0 * s0) / (grid_point 1 - grid_point 0)
           * (0 - grid_point 0) + H0 * s0)
    with (H0 * ((s1 - s0) / (grid_point 1 - grid_point 0)
                * (0 - grid_point 0) + s0))
    by (field; lra).
  destruct Hc as [Hlo Hhi]. split.
  - apply Rmult_le_compat_l; lra.
  - rewrite <- (Rmult_1_r H0) at 2. apply Rmult_lt_compat_l; lra.
Qed.

Lemma best_fit_HR_zero :
  677999 / 10000 < HR (678 / 10) (315 / 1000) (-1) 0 0 0 < 678 / 10.
Proof.
  assert (Hv : valid_parameters (678 / 10) (315 / 1000))
    by (unfold valid_parameters; lra).
  destruct (baseline_HR_zero _ _ Hv) as [Hlo Hhi].
  split; [|exact Hhi].
  eapply Rlt_le_trans; [|exact Hlo].
  rewrite grid_point_1, grid_point_first.
  pose proof grid_ratio_bounds as [Hr1 Hr2].
  set (r := grid_ratio) in *.
  assert (Hb : / 1000 * (/ 1000 * r) * (315 / 1000)
               * (/ 1000 * r + / 1000 + 3) / 2 < 1 / 1000000).
  { assert (B1 : / 1000 * (/ 1000 * r) < 2 / 1000000) by lra.
    assert (B2 : 0 < / 1000 * (/ 1000 * r)) by lra.
    assert (B3 : (315 / 1000) * (/ 1000 * r + / 1000 + 3) / 2 < 1 / 2)
      by lra.
    assert (B4 : 0 < (315 / 1000) * (/ 1000 * r + / 1000 + 3) / 2) by lra.
    replace (/ 1000 * (/ 1000 * r) * (315 / 1000)
             * (/ 1000 * r + / 1000 + 3) / 2)
      with ((/ 1000 * (/ 1000 * r))
            * ((315 / 1000) * (/ 1000 * r + / 1000 + 3) / 2))
      by (unfold Rdiv; ring).
    assert ((/ 1000 * (/ 1000 * r))
            * ((315 / 1000) * (/ 1000 * r + / 1000 + 3) / 2)
            < 2 / 1000000 * (1 / 2))
      by (apply Rmult_le_0_lt_compat; lra).
    lra. }
  lra.
Qed.

(** C6, as the code has it.  For the baseline model with H0 = 67.8 and
    Ωm = 0.315 the Hubble rate at redshift zero is not a grid value: z = 0
    lies below the first grid point 10⁻³, so H(0) is the straight line
    through the first two grid values continued to 0.  It is strictly less
    than 67.8, by less than 10⁻⁴. *)
Theorem baseline_H_at_zero (s8 : R) (m : LCDM_Vectorized.t) :
  LCDM_Vectorized.init (678 / 10) (315 / 1000) s8 data = Ok m ->
  exists h,
    BaseModel.H (LCDM_Vectorized.base m) 0 = Ok (Fin h) /\
    h = segmentR (grid_point 0) (grid_point 1)
          (hubbleR (678 / 10) (315 / 1000) (-1) 0 0
             (scale_factor (grid_point 0)))
          (hubbleR (678 / 10) (315 / 1000) (-1) 0 0
             (scale_factor (grid_point 1))) 0 /\
    677999 / 10000 < h < 678 / 10.
Proof.
  intros E. apply LCDM_init_Ok in E. destruct E as [_ ->].
  cbn [LCDM_Vectorized.base].
  exists (HR (678 / 10) (315 / 1000) (-1) 0 0 0).
  split; [apply H_engine|].
  split; [apply HR_first_segment; pose proof (grid_point_pos 1); lra|].
  exact best_fit_HR_zero.
Qed.

Lemma baseline_H_at_zero_witness :
  exists h,
    BaseModel.H
      (LCDM_Vectorized.base
         {| LCDM_Vectorized.base := engine (678 / 10) (315 / 1000) (-1) 0 0;
            LCDM_Vectorized.s8 := 811 / 1000 |}) 0 = Ok (Fin h) /\
    h = segmentR (grid_point 0) (grid_point 1)
          (hubbleR (678 / 10) (315 / 1000) (-1) 0 0
             (scale_factor (grid_point 0)))
          (hubbleR (678 / 10) (315 / 1000) (-1) 0 0
             (scale_factor (grid_point 1))) 0 /\
    677999 / 10000 < h < 678 / 10.
Proof.
  assert (Hok : hubble_ok (678 / 10) (315 / 1000) (-1) 0 0)
    by (apply baseline_hubble_ok; lra).
  exact (baseline_H_at_zero (811 / 1000) _ (LCDM_init_succeeds _ _ _ Hok)).
Defined.

(** C6 as stated fails: the best-fit baseline model does not return 67.8
    at redshift zero. *)
Lemma baseline_H_at_zero_is_not_H0 :
  exists m h,
    LCDM_Vectorized.init (678 / 10) (315 / 1000) (811 / 1000) data = Ok m /\
    BaseModel.H (LCDM_Vectorized.base m) 0 = Ok (Fin h) /\
    h <> 678 / 10.
Proof.
  assert (Hok : hubble_ok (678 / 10) (315 / 1000) (-1) 0 0)
    by (apply baseline_hubble_ok; lra).
  eexists. exists (HR (678 / 10) (315 / 1000) (-1) 0 0 0).
  split; [apply LCDM_init_succeeds, Hok|].
  split; [apply H_engine|].
  pose proof best_fit_HR_zero. lra.
Qed.

(** * Shape preservation of the PCHIP spline *)

Lemma hermite_piece_unit (x0 x1 y0 y1 d0 d1 s : R) :
  x0 <> x1 ->
  cubic (hermite_piece x0 x1 y0 y1 d0 d1) s
  = y0 + (x1 - x0)
         * hermite_unit ((y1 - y0) / (x1 - x0)) d0 d1 (s / (x1 - x0)).
Proof.
  intros Hne. unfold hermite_piece, cubic, hermite_unit. field. lra.
Qed.

Lemma cube_monotone (a b : R) : a <= b -> a ^ 3 <= b ^ 3.
Proof.
  intros Hab.
  assert (E : b ^ 3 - a ^ 3 = (b - a) * (a ^ 2 + a * b + b ^ 2)) by ring.
  assert (0 <= a ^ 2 + a * b + b ^ 2) by nra.
  assert (0 <= (b - a) * (a ^ 2 + a * b + b ^ 2))
    by (apply Rmult_le_pos; lra).
  lra.
Qed.

Lemma smoothstep_monotone (u u' : R) :
  0 <= u -> u <= u' -> u' <= 1 ->
  3 * u ^ 2 - 2 * u ^ 3 <= 3 * u' ^ 2 - 2 * u' ^ 3.
Proof.
  intros H0 Hle H1.
  assert (E : (3 * u' ^ 2 - 2 * u' ^ 3) - (3 * u ^ 2 - 2 * u ^ 3)
              = (u' - u) * (3 * (u + u') - 2 * (u ^ 2 + u * u' + u' ^ 2)))
    by ring.
  assert (u ^ 2 <= u) by nra.
  assert (u' ^ 2 <= u') by nra.
  assert (2 * (u * u') <= u + u') by nra.
  assert (0 <= (u' - u) * (3 * (u + u') - 2 * (u ^ 2 + u * u' + u' ^ 2)))
    by (apply Rmult_le_pos; lra).
  lra.
Qed.

(** The cubic is a combination, with non-negative weights, of four
    non-decreasing cubics, one per corner of the box. *)
Lemma hermite_unit_corners (m d0 d1 u : R) :
  9 * m * hermite_unit m d0 d1 u
  = (3 * m - d0) * (3 * m - d1) * (3 * u ^ 2 - 2 * u ^ 3)
    + d0 * (3 * m - d1) * (1 - (1 - u) ^ 3)
    + (3 * m - d0) * d1 * u ^ 3
    + d0 * d1 * (((2 * u - 1) ^ 3 + 1) / 2).
Proof.
  unfold hermite_unit. field.
Qed.

Lemma hermite_unit_monotone (m d0 d1 u u' : R) :
  0 <= m -> 0 <= d0 <= 3 * m -> 0 <= d1 <= 3 * m ->
  0 <= u -> u <= u' -> u' <= 1 ->
  hermite_unit m d0 d1 u <= hermite_unit m d0 d1 u'.
Proof.
  intros Hm Hd0 Hd1 H0 Hle H1.
  destruct (Req_dec m 0) as [->|Hne].
  - assert (d0 = 0) by lra. assert (d1 = 0) by lra. subst.
    unfold hermite_unit. lra.
  - assert (Hmp : 0 < m) by lra.
    apply Rmult_le_reg_l with (9 * m); [lra|].
    rewrite !hermite_unit_corners.
    pose proof (smoothstep_monotone u u' H0 Hle H1) as HA.
    assert (HB : 1 - (1 - u) ^ 3 <= 1 - (1 - u') ^ 3)
      by (pose proof (cube_monotone (1 - u') (1 - u)); lra).
    pose proof (cube_monotone u u' Hle) as HC.
    assert (HD : ((2 * u - 1) ^ 3 + 1) / 2 <= ((2 * u' - 1) ^ 3 + 1) / 2)
      by (pose proof (cube_monotone (2 * u - 1) (2 * u' - 1)); lra).
    assert (W1 : 0 <= (3 * m - d0) * (3 * m - d1))
      by (apply Rmult_le_pos; lra).
    assert (W2 : 0 <= d0 * (3 * m - d1)) by (apply Rmult_le_pos; lra).
    assert (W3 : 0 <= (3 * m - d0) * d1) by (apply Rmult_le_pos; lra).
    assert (W4 : 0 <= d0 * d1) by (apply Rmult_le_pos; lra).
    apply (Rmult_le_compat_l _ _ _ W1) in HA.
    apply (Rmult_le_compat_l _ _ _ W2) in HB.
    apply (Rmult_le_compat_l _ _ _ W3) in HC.
    apply (Rmult_le_compat_l _ _ _ W4) in HD.
    lra.
Qed.

(** One interval of the spline does not decrease when both end derivatives
    are in the box. *)
Lemma hermite_piece_monotone (x0 x1 y0 y1 d0 d1 v v' : R) :
  x0 < x1 -> y0 <= y1 ->
  0 <= d0 <= 3 * ((y1 - y0) / (x1 - x0)) ->
  0 <= d1 <= 3 * ((y1 - y0) / (x1 - x0)) ->
  x0 <= v -> v <= v' -> v' <= x1 ->
  cubic (hermite_piece x0 x1 y0 y1 d0 d1) (v - x0)
  <= cubic (hermite_piece x0 x1 y0 y1 d0 d1) (v' - x0).
Proof.
  intros Hx Hy Hd0 Hd1 Hv Hvv Hv'.
  rewrite !hermite_piece_unit by lra.
  assert (Hh : 0 < x1 - x0) by lra.
  assert (Hm : 0 <= (y1 - y0) / (x1 - x0)).
  { unfold Rdiv. apply Rmult_le_pos; [lra|].
    apply Rlt_le, Rinv_0_lt_compat, Hh. }
  apply Rplus_le_compat_l, Rmult_le_compat_l; [lra|].
  apply hermite_unit_monotone; try assumption.
  - unfold Rdiv. apply Rmult_le_pos; [lra|].
    apply Rlt_le, Rinv_0_lt_compat, Hh.
  - unfold Rdiv. apply Rmult_le_compat_r; [|lra].
    apply Rlt_le, Rinv_0_lt_compat, Hh.
  - apply Rmult_le_reg_r with (x1 - x0); [exact Hh|].
    unfold Rdiv. rewrite Rmult_assoc, Rinv_l by lra. lra.
Qed.

Lemma hermite_shape_cons (x0 x1 : R) (x : list R) (y0 y1 : R) (y : list R)
  (d0 d1 : R) (d : list R) :
  hermite_shape (x0 :: x1 :: x) (y0 :: y1 :: y) (d0 :: d1 :: d) =
  ((0 <= d0 <= 3 * ((y1 - y0) / (x1 - x0)) /\
    0 <= d1 <= 3 * ((y1 - y0) / (x1 - x0))) /\
   hermite_shape (x1 :: x) (y1 :: y) (d1 :: d)).
Proof. reflexivity. Qed.

Lemma increasing_cons (x0 x1 : R) (x : list R) :
  increasing (x0 :: x1 :: x) = (x0 < x1 /\ increasing (x1 :: x)).
Proof. reflexivity. Qed.

Lemma last_cons2 (a b : R) (l : list R) :
  last (a :: b :: l) 0 = last (b :: l) 0.
Proof. reflexivity. Qed.

(** Between its first and last breakpoint the spline does not decrease,
    when the data increase and every interval is in the box. *)
Lemma ppoly_eval_monotone (x y d : list R) (v v' : R) :
  increasing x -> increasing y ->
  length y = length x -> length d = length x -> (2 <= length x)%nat ->
  hermite_shape x y d ->
  hd 0 x <= v -> v <= v' -> v' <= last x 0 ->
  ppoly_eval x (hermite_coeffs x y d) v
  <= ppoly_eval x (hermite_coeffs x y d) v'.
Proof.
  revert y d v v'.
  induction x as [|x0 x IH]; intros y d v v' Hx Hy Ly Ld H2 Hs Hv Hvv Hv'.
  { simpl in H2. lia. }
  destruct x as [|x1 x]; [simpl in H2; lia|].
  destruct y as [|y0 [|y1 y]]; try discriminate.
  destruct d as [|d0 [|d1 d]]; try discriminate.
  rewrite hermite_coeffs_cons. rewrite hermite_shape_cons in Hs.
  destruct Hs as [[Hd0 Hd1] Hs].
  rewrite increasing_cons in Hx, Hy.
  destruct Hx as [Hx01 Hx]. destruct Hy as [Hy01 Hy].
  cbn [hd] in Hv. rewrite last_cons2 in Hv'.
  destruct x as [|x2 x].
  - destruct y; [|discriminate]. destruct d; [|discriminate].
    change (hermite_coeffs [x1] [y1] [d1]) with (@nil (R * R * R * R)).
    rewrite !ppoly_eval_last. cbn [last] in Hv'.
    apply hermite_piece_monotone; lra.
  - destruct y as [|y2 y]; [discriminate|].
    destruct d as [|d2 d]; [discriminate|].
    set (cs' := hermite_coeffs (x1 :: x2 :: x) (y1 :: y2 :: y)
                  (d1 :: d2 :: d)).
    assert (Ecs : cs' = hermite_piece x1 x2 y1 y2 d1 d2
                          :: hermite_coeffs (x2 :: x) (y2 :: y) (d2 :: d))
      by reflexivity.
    assert (Hknot : ppoly_eval (x1 :: x2 :: x) cs' x1 = y1).
    { apply (ppoly_eval_knot (x1 :: x2 :: x) (y1 :: y2 :: y)
               (d1 :: d2 :: d) 0); simpl in *; auto; lia. }
    assert (IH' : forall w w',
               x1 <= w -> w <= w' -> w' <= last (x1 :: x2 :: x) 0 ->
               ppoly_eval (x1 :: x2 :: x) cs' w
               <= ppoly_eval (x1 :: x2 :: x) cs' w').
    { intros w w' Hw Hww Hw'.
      apply IH; simpl in *; auto; lia. }
    assert (Eev : forall w,
               ppoly_eval (x0 :: x1 :: x2 :: x)
                 (hermite_piece x0 x1 y0 y1 d0 d1 :: cs') w
               = if Rlt_dec w x1
                 then cubic (hermite_piece x0 x1 y0 y1 d0 d1) (w - x0)
                 else ppoly_eval (x1 :: x2 :: x) cs' w).
    { intros w. rewrite Ecs. apply ppoly_eval_cons. }
    rewrite !Eev.
    destruct (Rlt_dec v x1) as [Hlt|Hge];
      destruct (Rlt_dec v' x1) as [Hlt'|Hge'].
    + apply hermite_piece_monotone; lra.
    + apply Rle_trans
        with (cubic (hermite_piece x0 x1 y0 y1 d0 d1) (x1 - x0));
        [apply hermite_piece_monotone; lra|].
      rewrite hermite_piece_right by lra.
      apply Rle_trans with (ppoly_eval (x1 :: x2 :: x) cs' x1);
        [rewrite Hknot; lra | apply IH'; lra].
    + lra.
    + apply IH'; lra.
Qed.

(** ** The PCHIP derivatives are in the box *)

Lemma np_sign_pos (r : R) : 0 < r -> np_sign r = 1.
Proof.
  intros Hr. unfold np_sign. destruct (Rlt_dec 0 r); [reflexivity | lra].
Qed.

Lemma np_sign_nonpos (r : R) : r <= 0 -> np_sign r <> 1.
Proof.
  intros Hr. unfold np_sign. destruct (Rlt_dec 0 r); [lra|].
  destruct (Rlt_dec r 0); lra.
Qed.

Lemma edge_case_increasing (h0 h1 m0 m1 : R) :
  0 < h0 -> 0 < h1 -> 0 < m0 -> 0 < m1 ->
  let d := ((2 * h0 + h1) * m0 - h0 * m1) / (h0 + h1) in
  edge_case h0 h1 m0 m1 = (if Rlt_dec 0 d then d else 0).
Proof.
  intros Hh0 Hh1 Hm0 Hm1 d. unfold edge_case. fold d.
  rewrite (np_sign_pos m0), (np_sign_pos m1) by assumption.
  unfold Rneqb at 2. destruct (Req_dec_T 1 1) as [_|Hne]; [|lra].
  cbn [andb]. unfold Rneqb.
  destruct (Rlt_dec 0 d) as [Hd|Hd].
  - rewrite np_sign_pos by exact Hd.
    destruct (Req_dec_T 1 1); [reflexivity | lra].
  - destruct (Req_dec_T (np_sign d) 1) as [E|_]; [|reflexivity].
    exfalso. revert E. apply np_sign_nonpos. lra.
Qed.

Lemma edge_case_box (h0 h1 m0 m1 : R) :
  0 < h0 -> 0 < h1 -> 0 < m0 -> 0 < m1 ->
  0 <= edge_case h0 h1 m0 m1 <= 3 * m0.
Proof.
  intros Hh0 Hh1 Hm0 Hm1.
  rewrite edge_case_increasing by assumption. cbv zeta.
  destruct (Rlt_dec 0 (((2 * h0 + h1) * m0 - h0 * m1) / (h0 + h1)))
    as [Hd|Hd]; [|lra].
  split; [lra|].
  apply Rmult_le_reg_r with (h0 + h1); [lra|].
  unfold Rdiv. rewrite Rmult_assoc, Rinv_l, Rmult_1_r by lra.
  assert (0 < h0 * m1) by (apply Rmult_lt_0_compat; assumption).
  assert (0 < h0 * m0) by (apply Rmult_lt_0_compat; assumption).
  assert (0 < h1 * m0) by (apply Rmult_lt_0_compat; assumption).
  lra.
Qed.

Lemma interior_derivative_increasing (h0 h1 m0 m1 : R) :
  0 < m0 -> 0 < m1 ->
  interior_derivative h0 h1 m0 m1
  = 1 / (((2 * h1 + h0) / m0 + (h1 + 2 * h0) / m1)
         / (2 * h1 + h0 + (h1 + 2 * h0))).
Proof.
  intros Hm0 Hm1. unfold interior_derivative.
  rewrite (np_sign_pos m0), (np_sign_pos m1) by assumption.
  unfold Rneqb, Reqb.
  destruct (Req_dec_T 1 1); [|lra].
  destruct (Req_dec_T m1 0); [lra|].
  destruct (Req_dec_T m0 0); [lra|]. reflexivity.
Qed.

Lemma interior_derivative_harmonic (h0 h1 m0 m1 : R) :
  0 < h0 -> 0 < h1 -> 0 < m0 -> 0 < m1 ->
  interior_derivative h0 h1 m0 m1
  = (3 * (h0 + h1)) * (m0 * m1)
    / ((2 * h1 + h0) * m1 + (h1 + 2 * h0) * m0).
Proof.
  intros Hh0 Hh1 Hm0 Hm1.
  rewrite interior_derivative_increasing by assumption.
  assert (0 < (2 * h1 + h0) * m1) by (apply Rmult_lt_0_compat; lra).
  assert (0 < (h1 + 2 * h0) * m0) by (apply Rmult_lt_0_compat; lra).
  field. repeat split; lra.
Qed.

Lemma interior_derivative_box (h0 h1 m0 m1 : R) :
  0 < h0 -> 0 < h1 -> 0 < m0 -> 0 < m1 ->
  0 <= interior_derivative h0 h1 m0 m1 <= 3 * m0 /\
  interior_derivative h0 h1 m0 m1 <= 3 * m1.
Proof.
  intros Hh0 Hh1 Hm0 Hm1.
  rewrite interior_derivative_harmonic by assumption.
  assert (A : 0 < (2 * h1 + h0) * m1) by (apply Rmult_lt_0_compat; lra).
  assert (B : 0 < (h1 + 2 * h0) * m0) by (apply Rmult_lt_0_compat; lra).
  assert (C : 0 < m0 * m1) by (apply Rmult_lt_0_compat; lra).
  assert (D : 0 < (3 * (h0 + h1)) * (m0 * m1))
    by (apply Rmult_lt_0_compat; lra).
  set (den := (2 * h1 + h0) * m1 + (h1 + 2 * h0) * m0) in *.
  assert (Hden : 0 < den) by (unfold den; lra).
  repeat split.
  - apply Rlt_le, Rdiv_lt_0_compat; assumption.
  - apply Rmult_le_reg_r with den; [exact Hden|].
    unfold Rdiv. rewrite Rmult_assoc, Rinv_l, Rmult_1_r by lra.
    unfold den.
    assert (0 < m0 * m0 * (h1 + 2 * h0))
      by (repeat apply Rmult_lt_0_compat; lra).
    assert (0 < m0 * m1 * h1) by (repeat apply Rmult_lt_0_compat; lra).
    nra.
  - apply Rmult_le_reg_r with den; [exact Hden|].
    unfold Rdiv. rewrite Rmult_assoc, Rinv_l, Rmult_1_r by lra.
    unfold den.
    assert (0 < m1 * m1 * (2 * h1 + h0))
      by (repeat apply Rmult_lt_0_compat; lra).
    assert (0 < m0 * m1 * h0) by (repeat apply Rmult_lt_0_compat; lra).
    nra.
Qed.

Lemma diff_positive (x : list R) :
  increasing x -> Forall (fun h => 0 < h) (diff x).
Proof.
  induction x as [|x0 [|x1 x] IH]; intros Hx; try constructor.
  - destruct Hx. lra.
  - apply IH. apply Hx.
Qed.

Lemma slopes_positive (x y : list R) :
  increasing x -> increasing y -> Forall (fun m => 0 < m) (slopes x y).
Proof.
  revert y. induction x as [|x0 [|x1 x] IH]; intros y Hx Hy.
  - destruct y as [|y0 [|y1 y]]; constructor.
  - destruct y as [|y0 [|y1 y]]; constructor.
  - destruct y as [|y0 [|y1 y]]; [constructor | constructor |].
    rewrite slopes_cons. constructor.
    + destruct Hx, Hy. apply Rdiv_lt_0_compat; lra.
    + apply IH; [apply Hx | apply Hy].
Qed.

Lemma slopes_last_cons (x0 x1 x2 : R) (x : list R) (y0 y1 y2 : R)
  (y : list R) :
  last (slopes (x0 :: x1 :: x2 :: x) (y0 :: y1 :: y2 :: y)) 0
  = last (slopes (x1 :: x2 :: x) (y1 :: y2 :: y)) 0.
Proof. reflexivity. Qed.

(** Harmonic means inside, any boxed derivative at the two ends. *)
Lemma interior_derivatives_shape (x y : list R) (dfirst dlast : R) :
  increasing x -> increasing y -> length y = length x ->
  (2 <= length x)%nat ->
  0 <= dfirst <= 3 * hd 0 (slopes x y) ->
  0 <= dlast <= 3 * last (slopes x y) 0 ->
  hermite_shape x y
    (dfirst :: interior_derivatives (diff x) (slopes x y) ++ [dlast]).
Proof.
  revert y dfirst.
  induction x as [|x0 x IH]; intros y dfirst Hx Hy Hl H2 Hf Hlast.
  { simpl in H2. lia. }
  destruct x as [|x1 x]; [simpl in H2; lia|].
  destruct y as [|y0 [|y1 y]]; try discriminate.
  destruct x as [|x2 x].
  - destruct y; [|discriminate]. simpl in *. tauto.
  - destruct y as [|y2 y]; [discriminate|].
    rewrite !diff_cons, !slopes_cons, interior_derivatives_cons.
    rewrite <- (diff_cons x1 x2 x), <- (slopes_cons x1 x2 x y1 y2 y).
    change ((interior_derivative (x1 - x0) (x2 - x1) ((y1 - y0) / (x1 - x0))
               ((y2 - y1) / (x2 - x1))
             :: interior_derivatives (diff (x1 :: x2 :: x))
                  (slopes (x1 :: x2 :: x) (y1 :: y2 :: y))) ++ [dlast])
      with (interior_derivative (x1 - x0) (x2 - x1) ((y1 - y0) / (x1 - x0))
              ((y2 - y1) / (x2 - x1))
            :: (interior_derivatives (diff (x1 :: x2 :: x))
                  (slopes (x1 :: x2 :: x) (y1 :: y2 :: y)) ++ [dlast])).
    rewrite hermite_shape_cons.
    rewrite increasing_cons in Hx, Hy.
    destruct Hx as [Hx01 Hx]. destruct Hy as [Hy01 Hy].
    pose proof Hx as Hx'. pose proof Hy as Hy'.
    rewrite increasing_cons in Hx', Hy'.
    destruct Hx' as [Hx12 _]. destruct Hy' as [Hy12 _].
    assert (Hm0 : 0 < (y1 - y0) / (x1 - x0))
      by (apply Rdiv_lt_0_compat; lra).
    assert (Hm1 : 0 < (y2 - y1) / (x2 - x1))
      by (apply Rdiv_lt_0_compat; lra).
    destruct (interior_derivative_box (x1 - x0) (x2 - x1)
                ((y1 - y0) / (x1 - x0)) ((y2 - y1) / (x2 - x1)))
      as [Hb0 Hb1]; try lra.
    rewrite slopes_cons in Hf. cbn [hd] in Hf.
    rewrite slopes_last_cons in Hlast.
    split; [split; [exact Hf | exact Hb0]|].
    apply IH; try assumption.
    + simpl in *. lia.
    + simpl. lia.
    + rewrite slopes_cons. cbn [hd]. lra.
Qed.

Lemma slopes_last_positive (x y : list R) :
  increasing x -> increasing y -> length y = length x ->
  (2 <= length x)%nat -> 0 < last (slopes x y) 0.
Proof.
  intros Hx Hy Hl H2.
  pose proof (slopes_positive x y Hx Hy) as Hpos.
  pose proof (slopes_length x y Hl) as Hlen.
  destruct (slopes x y) as [|m ms] eqn:E; [simpl in Hlen; lia|].
  rewrite Forall_forall in Hpos. apply Hpos.
  pose proof (@exists_last _ (m :: ms) ltac:(discriminate)) as [l' [a Ea]].
  rewrite Ea, last_last. apply in_or_app. right. left. reflexivity.
Qed.

(** PCHIP keeps every derivative in the box when the data increase. *)
Lemma find_derivatives_shape (x y : list R) :
  increasing x -> increasing y -> length y = length x ->
  (2 <= length x)%nat ->
  hermite_shape x y (find_derivatives x y).
Proof.
  intros Hx Hy Hl H2.
  destruct x as [|x0 [|x1 [|x2 x]]]; try (simpl in H2; lia).
  - destruct y as [|y0 [|y1 [|y2 y]]]; try discriminate.
    rewrite find_derivatives_two.
    destruct Hx as [Hx01 _]. destruct Hy as [Hy01 _].
    assert (0 < (y1 - y0) / (x1 - x0)) by (apply Rdiv_lt_0_compat; lra).
    simpl. repeat split; lra.
  - destruct y as [|y0 [|y1 [|y2 y]]]; try discriminate.
    destruct (find_derivatives_three x0 x1 x2 x y0 y1 y2 y)
      as [hl [hl2 [ml [ml2 [E [Hhl [Hhl2 [Hml Hml2]]]]]]]];
      [simpl in Hl; lia|].
    rewrite E.
    pose proof (diff_positive _ Hx) as Hdp.
    pose proof (slopes_positive _ _ Hx Hy) as Hsp.
    rewrite Forall_forall in Hdp, Hsp.
    pose proof (slopes_last_positive _ _ Hx Hy Hl H2) as Hlp.
    rewrite <- Hml in Hlp.
    pose proof Hx as Hx'. pose proof Hy as Hy'.
    rewrite increasing_cons in Hx', Hy'.
    destruct Hx' as [Hx01 Hx']. destruct Hy' as [Hy01 Hy'].
    rewrite increasing_cons in Hx', Hy'.
    destruct Hx' as [Hx12 _]. destruct Hy' as [Hy12 _].
    apply interior_derivatives_shape; try assumption.
    + rewrite slopes_cons. cbn [hd].
      apply edge_case_box; try lra; apply Rdiv_lt_0_compat; lra.
    + rewrite <- Hml.
      apply edge_case_box; auto.
Qed.

(** * The spline below the grid *)

(** Left of the second breakpoint the spline is its first cubic, whose end
    derivatives are the one-sided estimate and the first harmonic mean. *)
Lemma ppoly_eval_first_piece (x0 x1 x2 : R) (x : list R) (y0 y1 y2 : R)
  (y : list R) (v : R) :
  length y = length x -> v < x1 ->
  ppoly_eval (x0 :: x1 :: x2 :: x)
    (hermite_coeffs (x0 :: x1 :: x2 :: x) (y0 :: y1 :: y2 :: y)
       (find_derivatives (x0 :: x1 :: x2 :: x) (y0 :: y1 :: y2 :: y))) v
  = cubic
      (hermite_piece x0 x1 y0 y1
         (edge_case (x1 - x0) (x2 - x1) ((y1 - y0) / (x1 - x0))
            ((y2 - y1) / (x2 - x1)))
         (interior_derivative (x1 - x0) (x2 - x1) ((y1 - y0) / (x1 - x0))
            ((y2 - y1) / (x2 - x1))))
      (v - x0).
Proof.
  intros Hl Hv.
  destruct (find_derivatives_three x0 x1 x2 x y0 y1 y2 y Hl)
    as [hl [hl2 [ml [ml2 [E _]]]]].
  rewrite E. clear E.
  rewrite (diff_cons x0 x1), (diff_cons x1 x2).
  rewrite (slopes_cons x0 x1), (slopes_cons x1 x2).
  rewrite interior_derivatives_cons.
  set (e0 := edge_case (x1 - x0) (x2 - x1) ((y1 - y0) / (x1 - x0))
               ((y2 - y1) / (x2 - x1))).
  set (i1 := interior_derivative (x1 - x0) (x2 - x1) ((y1 - y0) / (x1 - x0))
               ((y2 - y1) / (x2 - x1))).
  set (rest := interior_derivatives ((x2 - x1) :: diff (x2 :: x))
                 ((y2 - y1) / (x2 - x1) :: slopes (x2 :: x) (y2 :: y))).
  change ((i1 :: rest) ++ [edge_case hl hl2 ml ml2])
    with (i1 :: (rest ++ [edge_case hl hl2 ml ml2])).
  destruct (rest ++ [edge_case hl hl2 ml ml2]) as [|d2 dr] eqn:Er.
  { exfalso. symmetry in Er. revert Er. apply app_cons_not_nil. }
  rewrite hermite_coeffs_cons, hermite_coeffs_cons, ppoly_eval_cons.
  destruct (Rlt_dec v x1); [reflexivity | contradiction].
Qed.

Lemma hermite_unit_below (m0 m1 d0 d1 T : R) :
  0 < T -> m0 <= d0 -> m1 <= d1 ->
  (m0 - m1) * (T + T ^ 2) < m0 ->
  hermite_unit m0 d0 d1 (- T) < 0.
Proof.
  intros HT Hd0 Hd1 Hc. unfold hermite_unit.
  assert (E : m0 * (3 * (- T) ^ 2 - 2 * (- T) ^ 3)
              + d0 * (- T - 2 * (- T) ^ 2 + (- T) ^ 3)
              + d1 * ((- T) ^ 3 - (- T) ^ 2)
              = T * ((m0 - m1) * (T + T ^ 2) - m0)
                - (d0 - m0) * (T * (1 + T) ^ 2)
                - (d1 - m1) * (T ^ 2 * (1 + T))) by ring.
  rewrite E.
  assert (0 < T * (1 + T) ^ 2) by (apply Rmult_lt_0_compat; nra).
  assert (0 < T ^ 2 * (1 + T)) by (apply Rmult_lt_0_compat; nra).
  assert (0 <= (d0 - m0) * (T * (1 + T) ^ 2))
    by (apply Rmult_le_pos; lra).
  assert (0 <= (d1 - m1) * (T ^ 2 * (1 + T)))
    by (apply Rmult_le_pos; lra).
  assert (T * ((m0 - m1) * (T + T ^ 2) - m0) < 0).
  { replace (T * ((m0 - m1) * (T + T ^ 2) - m0))
      with (- (T * (m0 - (m0 - m1) * (T + T ^ 2)))) by ring.
    assert (0 < T * (m0 - (m0 - m1) * (T + T ^ 2)))
      by (apply Rmult_lt_0_compat; lra).
    lra. }
  lra.
Qed.

Lemma edge_case_concave (h0 h1 m0 m1 : R) :
  0 < h0 -> 0 < h1 -> 0 < m1 -> m1 <= m0 ->
  m0 <= edge_case h0 h1 m0 m1.
Proof.
  intros Hh0 Hh1 Hm1 Hle.
  rewrite edge_case_increasing by lra. cbv zeta.
  assert (Hd : m0 <= ((2 * h0 + h1) * m0 - h0 * m1) / (h0 + h1)).
  { apply Rmult_le_reg_r with (h0 + h1); [lra|].
    unfold Rdiv. rewrite Rmult_assoc, Rinv_l, Rmult_1_r by lra.
    assert (h0 * m1 <= h0 * m0) by (apply Rmult_le_compat_l; lra).
    lra. }
  destruct (Rlt_dec 0 (((2 * h0 + h1) * m0 - h0 * m1) / (h0 + h1)));
    [exact Hd | lra].
Qed.

Lemma interior_derivative_concave (h0 h1 m0 m1 : R) :
  0 < h0 -> 0 < h1 -> 0 < m1 -> m1 <= m0 ->
  m1 <= interior_derivative h0 h1 m0 m1.
Proof.
  intros Hh0 Hh1 Hm1 Hle.
  rewrite interior_derivative_harmonic by lra.
  assert (A : 0 < (2 * h1 + h0) * m1) by (apply Rmult_lt_0_compat; lra).
  assert (B : 0 < (h1 + 2 * h0) * m0) by (apply Rmult_lt_0_compat; lra).
  apply Rmult_le_reg_r with ((2 * h1 + h0) * m1 + (h1 + 2 * h0) * m0);
    [lra|].
  unfold Rdiv. rewrite Rmult_assoc, Rinv_l, Rmult_1_r by lra.
  assert (m1 * ((2 * h1 + h0) * m1) <= m1 * ((2 * h1 + h0) * m0)).
  { apply Rmult_le_compat_l; [lra|]. apply Rmult_le_compat_l; lra. }
  lra.
Qed.

(** The first cubic of a table integrated by trapezoids from a decreasing
    positive integrand, continued to the origin, is negative there when
    the integrand varies little over the first two intervals. *)
Lemma first_piece_negative_at_origin (x0 x1 x2 f0 f1 f2 : R) :
  0 < x0 -> x0 < x1 -> x1 < x2 -> 0 < f2 -> f2 <= f1 -> f1 <= f0 ->
  (f0 - f2) * (x0 / (x1 - x0) + (x0 / (x1 - x0)) ^ 2) < f0 + f1 ->
  cubic
    (hermite_piece x0 x1 0 (0 + (x1 - x0) * (f1 + f0) / 2)
       (edge_case (x1 - x0) (x2 - x1)
          ((0 + (x1 - x0) * (f1 + f0) / 2 - 0) / (x1 - x0))
          ((0 + (x1 - x0) * (f1 + f0) / 2 + (x2 - x1) * (f2 + f1) / 2
            - (0 + (x1 - x0) * (f1 + f0) / 2)) / (x2 - x1)))
       (interior_derivative (x1 - x0) (x2 - x1)
          ((0 + (x1 - x0) * (f1 + f0) / 2 - 0) / (x1 - x0))
          ((0 + (x1 - x0) * (f1 + f0) / 2 + (x2 - x1) * (f2 + f1) / 2
            - (0 + (x1 - x0) * (f1 + f0) / 2)) / (x2 - x1))))
    (0 - x0) < 0.
Proof.
  intros Hx0 Hx01 Hx12 Hf2 Hf21 Hf10 Hc.
  replace ((0 + (x1 - x0) * (f1 + f0) / 2 - 0) / (x1 - x0))
    with ((f1 + f0) / 2) by (field; lra).
  replace ((0 + (x1 - x0) * (f1 + f0) / 2 + (x2 - x1) * (f2 + f1) / 2
            - (0 + (x1 - x0) * (f1 + f0) / 2)) / (x2 - x1))
    with ((f2 + f1) / 2) by (field; lra).
  rewrite hermite_piece_unit by lra.
  replace ((0 + (x1 - x0) * (f1 + f0) / 2 - 0) / (x1 - x0))
    with ((f1 + f0) / 2) by (field; lra).
  replace ((0 - x0) / (x1 - x0)) with (- (x0 / (x1 - x0)))
    by (field; lra).
  set (T := x0 / (x1 - x0)) in *.
  assert (HT : 0 < T) by (apply Rdiv_lt_0_compat; lra).
  assert (Hneg :
    hermite_unit ((f1 + f0) / 2)
      (edge_case (x1 - x0) (x2 - x1) ((f1 + f0) / 2) ((f2 + f1) / 2))
      (interior_derivative (x1 - x0) (x2 - x1) ((f1 + f0) / 2)
         ((f2 + f1) / 2)) (- T) < 0).
  { apply (hermite_unit_below _ ((f2 + f1) / 2)).
    - exact HT.
    - apply edge_case_concave; lra.
    - apply interior_derivative_concave; lra.
    - replace ((f1 + f0) / 2 - (f2 + f1) / 2) with ((f0 - f2) / 2)
        by field.
      assert (0 < T + T ^ 2) by nra.
      replace ((f0 - f2) / 2 * (T + T ^ 2))
        with ((f0 - f2) * (T + T ^ 2) / 2) by field.
      lra. }
  assert (0 < (x1 - x0)
              * - hermite_unit ((f1 + f0) / 2)
                  (edge_case (x1 - x0) (x2 - x1) ((f1 + f0) / 2)
                     ((f2 + f1) / 2))
                  (interior_derivative (x1 - x0) (x2 - x1) ((f1 + f0) / 2)
                     ((f2 + f1) / 2)) (- T))
    by (apply Rmult_lt_0_compat; lra).
  lra.
Qed.

(** * The comoving distance below the grid *)

Lemma d_c_gridR_cons3 (H0 Om w0 wa xi : R) :
  let f := fun i => 1 / hubbleR H0 Om w0 wa xi (scale_factor (grid_point i)) in
  let t1 := 0 + (grid_point 1 - grid_point 0) * (f 1%nat + f 0%nat) / 2 in
  let t2 := t1 + (grid_point 2 - grid_point 1) * (f 2%nat + f 1%nat) / 2 in
  exists rest,
    d_c_gridR H0 Om w0 wa xi = 0 :: t1 :: t2 :: rest /\
    length rest = length (map grid_point (seq 3 (N_Z_GRID_POINTS - 3))).
Proof.
  intros f t1 t2.
  unfold d_c_gridR. rewrite hz_gridR_cons3, z_grid_cons3.
  cbn [map]. rewrite trapz_accR_cons, trapz_accR_cons.
  eexists. split; [reflexivity|].
  rewrite trapz_accR_length by (cbn [length]; rewrite !length_map; reflexivity).
  cbn [length]. lia.
Qed.

Lemma DcR_first_piece (H0 Om w0 wa xi z : R) :
  z < grid_point 1 ->
  let f := fun i => 1 / hubbleR H0 Om w0 wa xi (scale_factor (grid_point i)) in
  let x0 := grid_point 0 in
  let x1 := grid_point 1 in
  let x2 := grid_point 2 in
  let t1 := 0 + (x1 - x0) * (f 1%nat + f 0%nat) / 2 in
  let t2 := t1 + (x2 - x1) * (f 2%nat + f 1%nat) / 2 in
  DcR H0 Om w0 wa xi z
  = cubic
      (hermite_piece x0 x1 0 t1
         (edge_case (x1 - x0) (x2 - x1) ((t1 - 0) / (x1 - x0))
            ((t2 - t1) / (x2 - x1)))
         (interior_derivative (x1 - x0) (x2 - x1) ((t1 - 0) / (x1 - x0))
            ((t2 - t1) / (x2 - x1))))
      (z - x0).
Proof.
  intros Hz f x0 x1 x2 t1 t2.
  destruct (d_c_gridR_cons3 H0 Om w0 wa xi) as [rest [E Hl]].
  cbv zeta in E. fold f in E. fold x0 x1 x2 in E. fold t1 in E.
  fold t2 in E.
  unfold DcR. cbv zeta. rewrite E, z_grid_cons3.
  apply ppoly_eval_first_piece; assumption.
Qed.

Lemma sqrt_one_plus (s p : R) : 0 <= s -> 0 <= p -> s * s = 1 + p -> 1 <= s.
Proof.
  intros Hs Hp E.
  destruct (Rle_dec 1 s) as [H|H]; [exact H|]. exfalso.
  assert (s * s < 1 * 1) by (apply Rmult_le_0_lt_compat; lra). lra.
Qed.

(** Over the first two grid intervals the baseline Hubble rate varies too
    little for the continued cubic to turn before the origin. *)
Lemma first_intervals_flat (Om r s0 s2 : R) :
  0 < Om <= 1 -> 1008 / 1000 < r < 1009 / 1000 ->
  0 <= s0 -> 0 <= s2 ->
  s0 * s0 = 1 + Om * (/ 1000) * ((/ 1000) ^ 2 + 3 * (/ 1000) + 3) ->
  s2 * s2 = 1 + Om * (/ 1000 * r * r)
                * ((/ 1000 * r * r) ^ 2 + 3 * (/ 1000 * r * r) + 3) ->
  let T := / 1000 / (/ 1000 * r - / 1000) in
  1 <= s0 /\ 1 <= s2 /\ 0 < T /\ (s2 - s0) * (T + T ^ 2) < s2.
Proof.
  intros HOm Hr Hs0 Hs2 E0 E2 T.
  set (z2 := / 1000 * r * r) in *.
  assert (Hz2 : / 1000 < z2 < 102 / 100000).
  { unfold z2. split; nra. }
  assert (P0 : 0 <= Om * (/ 1000) * ((/ 1000) ^ 2 + 3 * (/ 1000) + 3)).
  { apply Rmult_le_pos; [apply Rmult_le_pos; lra | lra]. }
  assert (Q2 : 0 < z2 ^ 2 + 3 * z2 + 3) by nra.
  assert (P2 : 0 <= Om * z2 * (z2 ^ 2 + 3 * z2 + 3)).
  { apply Rmult_le_pos; [apply Rmult_le_pos; lra | lra]. }
  pose proof (sqrt_one_plus s0 _ Hs0 P0 E0) as H1s0.
  pose proof (sqrt_one_plus s2 _ Hs2 P2 E2) as H1s2.
  assert (HT : 0 < T).
  { unfold T. apply Rdiv_lt_0_compat; lra. }
  assert (HT125 : T < 125).
  { unfold T. apply Rmult_lt_reg_r with (/ 1000 * r - / 1000); [lra|].
    unfold Rdiv. rewrite Rmult_assoc, Rinv_l, Rmult_1_r by lra. lra. }
  assert (HW : 0 < T + T ^ 2 < 15750).
  { split; [nra|]. assert (T * T < 125 * 125)
      by (apply Rmult_le_0_lt_compat; lra).
    replace (T ^ 2) with (T * T) by ring. lra. }
  assert (HD : s2 * s2 - s0 * s0 < 7 / 100000).
  { rewrite E0, E2.
    assert (Hz2c : z2 * (z2 ^ 2 + 3 * z2 + 3) < 3064 / 1000000).
    { assert (z2 ^ 2 < 102 / 100000 * (102 / 100000))
        by (replace (z2 ^ 2) with (z2 * z2) by ring;
            apply Rmult_le_0_lt_compat; lra).
      assert (z2 * (z2 ^ 2 + 3 * z2 + 3)
              < 102 / 100000 * (102 / 100000 * (102 / 100000)
                                + 3 * (102 / 100000) + 3))
        by (apply Rmult_le_0_lt_compat; lra).
      lra. }
    assert (Hz0c : / 1000 * ((/ 1000) ^ 2 + 3 * / 1000 + 3)
                   = 3003001 / 1000000000) by field.
    assert (Hdiff : 0 <= z2 * (z2 ^ 2 + 3 * z2 + 3)
                         - / 1000 * ((/ 1000) ^ 2 + 3 * / 1000 + 3)).
    { rewrite Hz0c.
      assert (/ 1000 * / 1000 <= z2 * z2)
        by (apply Rmult_le_compat; lra).
      assert (/ 1000 * (3003001 / 1000000) <= z2 * (z2 ^ 2 + 3 * z2 + 3)).
      { apply Rmult_le_compat;
          try (replace (z2 ^ 2) with (z2 * z2) by ring); lra. }
      lra. }
    replace (1 + Om * z2 * (z2 ^ 2 + 3 * z2 + 3)
             - (1 + Om * / 1000 * ((/ 1000) ^ 2 + 3 * / 1000 + 3)))
      with (Om * (z2 * (z2 ^ 2 + 3 * z2 + 3)
                  - / 1000 * ((/ 1000) ^ 2 + 3 * / 1000 + 3))) by ring.
    assert (Om * (z2 * (z2 ^ 2 + 3 * z2 + 3)
                  - / 1000 * ((/ 1000) ^ 2 + 3 * / 1000 + 3))
            <= 1 * (z2 * (z2 ^ 2 + 3 * z2 + 3)
                    - / 1000 * ((/ 1000) ^ 2 + 3 * / 1000 + 3)))
      by (apply Rmult_le_compat_r; lra).
    lra. }
  repeat split; try assumption.
  destruct (Rle_dec s2 s0) as [Hle|Hgt].
  - assert ((s2 - s0) * (T + T ^ 2) <= 0).
    { replace ((s2 - s0) * (T + T ^ 2))
        with (- ((s0 - s2) * (T + T ^ 2))) by ring.
      assert (0 <= (s0 - s2) * (T + T ^ 2))
        by (apply Rmult_le_pos; lra).
      lra. }
    lra.
  - assert (Hds : s2 - s0 < 35 / 1000000).
    { assert (E : s2 * s2 - s0 * s0 = (s2 - s0) * (s2 + s0)) by ring.
      assert ((s2 - s0) * 2 <= (s2 - s0) * (s2 + s0))
        by (apply Rmult_le_compat_l; lra).
      lra. }
    assert ((s2 - s0) * (T + T ^ 2) < 35 / 1000000 * 15750)
      by (apply Rmult_le_0_lt_compat; lra).
    lra.
Qed.

(** For every valid baseline parameter set the comoving-distance spline,
    continued below the grid, is negative at redshift zero. *)
Lemma baseline_DcR_zero_negative (H0 Om : R) :
  valid_parameters H0 Om -> DcR H0 Om (-1) 0 0 0 < 0.
Proof.
  intros [HH HOm].
  pose proof (grid_point_pos 0) as Hz0.
  pose proof (grid_point_lt_succ 0) as Hz01.
  pose proof (grid_point_lt_succ 1) as Hz12.
  rewrite DcR_first_piece by lra. cbv zeta.
  destruct (baseline_sqrt_radicand Om (grid_point 0)) as [Hs0 E0];
    [lra | lra |].
  destruct (baseline_sqrt_radicand Om (grid_point 1)) as [Hs1 E1];
    [lra | lra |].
  destruct (baseline_sqrt_radicand Om (grid_point 2)) as [Hs2 E2];
    [lra | lra |].
  assert (Hmono01 :
    hubbleR H0 Om (-1) 0 0 (scale_factor (grid_point 0))
    <= hubbleR H0 Om (-1) 0 0 (scale_factor (grid_point 1))).
  { apply baseline_hubbleR_monotone; try lra.
    - apply scale_factor_range; lra.
    - apply Rlt_le, scale_factor_decreasing; lra. }
  assert (Hmono12 :
    hubbleR H0 Om (-1) 0 0 (scale_factor (grid_point 1))
    <= hubbleR H0 Om (-1) 0 0 (scale_factor (grid_point 2))).
  { apply baseline_hubbleR_monotone; try lra.
    - apply scale_factor_range; lra.
    - apply Rlt_le, scale_factor_decreasing; lra. }
  pose proof grid_ratio_bounds as Hr.
  unfold hubbleR in *.
  set (s0 := sqrt (radicandR Om (-1) 0 0 (scale_factor (grid_point 0)))) in *.
  set (s1 := sqrt (radicandR Om (-1) 0 0 (scale_factor (grid_point 1)))) in *.
  set (s2 := sqrt (radicandR Om (-1) 0 0 (scale_factor (grid_point 2)))) in *.
  rewrite grid_point_first in E0.
  rewrite grid_point_2 in E2.
  destruct (first_intervals_flat Om grid_ratio _ _ ltac:(lra) Hr Hs0 Hs2
              E0 E2) as [H1s0 [H1s2 [HT Hflat]]].
  assert (Hh0 : 0 < H0 * s0) by (apply Rmult_lt_0_compat; lra).
  assert (Hh1 : 0 < H0 * s1) by lra.
  assert (Hh2 : 0 < H0 * s2) by lra.
  assert (Hf2 : 0 < 1 / (H0 * s2)) by (apply Rdiv_lt_0_compat; lra).
  assert (Hf1 : 0 < 1 / (H0 * s1)) by (apply Rdiv_lt_0_compat; lra).
  assert (Hf21 : 1 / (H0 * s2) <= 1 / (H0 * s1)).
  { unfold Rdiv. rewrite !Rmult_1_l. apply Rinv_le_contravar; lra. }
  assert (Hf10 : 1 / (H0 * s1) <= 1 / (H0 * s0)).
  { unfold Rdiv. rewrite !Rmult_1_l. apply Rinv_le_contravar; lra. }
  apply first_piece_negative_at_origin; try lra.
  rewrite grid_point_1, grid_point_first.
  set (T := / 1000 / (/ 1000 * grid_ratio - / 1000)) in *.
  assert (HW : 0 < T + T ^ 2) by nra.
  assert (Ediff : (1 / (H0 * s0) - 1 / (H0 * s2)) * (T + T ^ 2)
                  = (s2 - s0) * (T + T ^ 2) / (H0 * s0 * s2))
    by (field; lra).
  rewrite Ediff.
  assert (Hlt : (s2 - s0) * (T + T ^ 2) / (H0 * s0 * s2)
                < s2 / (H0 * s0 * s2)).
  { unfold Rdiv. apply Rmult_lt_compat_r; [|exact Hflat].
    apply Rinv_0_lt_compat. apply Rmult_lt_0_compat; lra. }
  assert (Es : s2 / (H0 * s0 * s2) = 1 / (H0 * s0)) by (field; lra).
  lra.
Qed.

(** * The comoving-distance table and its interpolant *)

Lemma DcR_monotone_on_grid (H0 Om w0 wa xi z z' : R) :
  0 < H0 -> hubble_ok H0 Om w0 wa xi ->
  / 1000 <= z -> z <= z' -> z' <= 5 ->
  DcR H0 Om w0 wa xi z <= DcR H0 Om w0 wa xi z'.
Proof.
  intros HH Hok Hz Hzz Hz'. unfold DcR. cbv zeta.
  pose proof (d_c_gridR_increasing _ _ _ _ _ HH Hok) as Hinc.
  pose proof (d_c_gridR_length H0 Om w0 wa xi) as Hlen.
  apply ppoly_eval_monotone.
  - apply z_grid_increasing.
  - exact Hinc.
  - rewrite Hlen, z_grid_length. reflexivity.
  - rewrite find_derivatives_length;
      [reflexivity | rewrite Hlen, z_grid_length; reflexivity
       | apply z_grid_two].
  - apply z_grid_two.
  - apply find_derivatives_shape;
      [apply z_grid_increasing | exact Hinc
       | rewrite Hlen, z_grid_length; reflexivity | apply z_grid_two].
  - rewrite z_grid_hd. exact Hz.
  - exact Hzz.
  - rewrite z_grid_last. exact Hz'.
Qed.

Lemma engine_hz_grid (H0 Om w0 wa xi : R) :
  BaseModel.hz_grid (engine H0 Om w0 wa xi)
  = map Fin (hz_gridR H0 Om w0 wa xi).
Proof. reflexivity. Qed.

Lemma increasing_nondecreasing (l : list R) :
  increasing l -> nondecreasing l.
Proof.
  induction l as [|x0 [|x1 l] IH]; try (intros; exact I).
  intros [Hlt Hinc]. split; [lra | apply IH, Hinc].
Qed.

(** C5, as the code has it.  For every valid parameter combination with
    H0, w0, wa, ξ of moderate size (no double then leaves the
    floating-point range) the engine is constructed; the comoving-distance
    table built by cumulative trapezoid integration has first entry
    exactly 0 and non-decreasing entries; the table is anchored at the
    first grid point, so it is Dc(10⁻³) that is exactly 0, while Dc(0),
    the first cubic continued below the grid, is negative in the baseline
    model; and on the grid range [10⁻³, 5] the interpolated Dc(z) is
    non-decreasing in z. *)
Theorem comoving_distance_table_monotone (H0 Om w0 wa xi : R) :
  valid_parameters H0 Om -> moderate_H0 H0 ->
  moderate_dark_energy w0 wa xi ->
  exists m table,
    BaseModel.init H0 Om data w0 wa xi = Ok m /\
    cumulative_trapezoid
      (map (fun h => (Fin 1 / h)%np) (BaseModel.hz_grid m))
      (NinjaDataVectorized.z_grid (BaseModel.data m)) (Fin 0)
    = map Fin table /\
    length table = N_Z_GRID_POINTS /\
    nth 0 table 0 = 0 /\
    nondecreasing table /\
    nth 0 (NinjaDataVectorized.z_grid (BaseModel.data m)) 0 = / 1000 /\
    BaseModel.Dc m (/ 1000) = Ok (Fin 0) /\
    (w0 = -1 -> wa = 0 -> xi = 0 ->
     exists v, BaseModel.Dc m 0 = Ok (Fin v) /\ v < 0) /\
    forall z z',
      / 1000 <= z -> z <= z' -> z' <= 5 ->
      exists v v',
        BaseModel.Dc m z = Ok (Fin v) /\
        BaseModel.Dc m z' = Ok (Fin v') /\
        v <= v'.
Proof.
  intros Hv _ _. pose proof Hv as [HH HOm].
  pose proof (valid_parameters_hubble_ok H0 Om w0 wa xi Hv) as Hok.
  exists (engine H0 Om w0 wa xi), (d_c_gridR H0 Om w0 wa xi).
  split; [apply init_succeeds, Hok|].
  rewrite engine_data, engine_hz_grid.
  split.
  { rewrite inverse_hz_grid_finite by exact Hok.
    unfold cumulative_trapezoid, d_c_gridR. rewrite trapz_acc_finite.
    reflexivity. }
  split; [apply d_c_gridR_length|].
  split; [apply d_c_gridR_first|].
  split; [apply increasing_nondecreasing, d_c_gridR_increasing; assumption|].
  split; [apply z_grid_first|].
  split; [rewrite Dc_engine, DcR_first; reflexivity|].
  split.
  { intros -> -> ->. exists (DcR H0 Om (-1) 0 0 0).
    split; [apply Dc_engine | apply baseline_DcR_zero_negative, Hv]. }
  intros z z' Hz Hzz Hz'.
  exists (DcR H0 Om w0 wa xi z), (DcR H0 Om w0 wa xi z').
  split; [apply Dc_engine|]. split; [apply Dc_engine|].
  apply DcR_monotone_on_grid; assumption.
Qed.

Lemma comoving_distance_table_monotone_witness :
  exists m table,
    BaseModel.init (678 / 10) (315 / 1000) data (-1) 0 0 = Ok m /\
    cumulative_trapezoid
      (map (fun h => (Fin 1 / h)%np) (BaseModel.hz_grid m))
      (NinjaDataVectorized.z_grid (BaseModel.data m)) (Fin 0)
    = map Fin table /\
    length table = N_Z_GRID_POINTS /\
    nth 0 table 0 = 0 /\
    nondecreasing table /\
    nth 0 (NinjaDataVectorized.z_grid (BaseModel.data m)) 0 = / 1000 /\
    BaseModel.Dc m (/ 1000) = Ok (Fin 0) /\
    (-1 = -1 -> 0 = 0 -> 0 = 0 ->
     exists v, BaseModel.Dc m 0 = Ok (Fin v) /\ v < 0) /\
    forall z z',
      / 1000 <= z -> z <= z' -> z' <= 5 ->
      exists v v',
        BaseModel.Dc m z = Ok (Fin v) /\
        BaseModel.Dc m z' = Ok (Fin v') /\
        v <= v'.
Proof.
  assert (Hv : valid_parameters (678 / 10) (315 / 1000))
    by (unfold valid_parameters; lra).
  assert (Hm : moderate_H0 (678 / 10)) by (unfold moderate_H0; lra).
  assert (Hd : moderate_dark_energy (-1) 0 0)
    by (unfold moderate_dark_energy; lra).
  exact (comoving_distance_table_monotone (678 / 10) (315 / 1000)
           (-1) 0 0 Hv Hm Hd).
Defined.

(** C5 as stated fails: for the valid best-fit baseline parameters the
    comoving distance at redshift zero is not 0 but negative, the first
    cubic of the spline continued below the grid. *)
Lemma Dc_at_zero_is_negative :
  valid_parameters (678 / 10) (315 / 1000) /\
  exists m v,
    BaseModel.init (678 / 10) (315 / 1000) data (-1) 0 0 = Ok m /\
    BaseModel.Dc m 0 = Ok (Fin v) /\
    v < 0 /\ v <> 0.
Proof.
  assert (Hv : valid_parameters (678 / 10) (315 / 1000))
    by (unfold valid_parameters; lra).
  split; [exact Hv|].
  exists (engine (678 / 10) (315 / 1000) (-1) 0 0).
  exists (DcR (678 / 10) (315 / 1000) (-1) 0 0 0).
  split; [apply init_succeeds, valid_parameters_hubble_ok, Hv|].
  split; [apply Dc_engine|].
  pose proof (baseline_DcR_zero_negative _ _ Hv). lra.
Qed.

(** * Linear interpolation of ordered and of positive tables *)

Lemma nondecreasing_cons (x0 x1 : R) (x : list R) :
  nondecreasing (x0 :: x1 :: x) = (x0 <= x1 /\ nondecreasing (x1 :: x)).
Proof. reflexivity. Qed.

Lemma segmentR_monotone (x0 x1 y0 y1 v v' : R) :
  x0 < x1 -> y0 <= y1 -> v <= v' ->
  segmentR x0 x1 y0 y1 v <= segmentR x0 x1 y0 y1 v'.
Proof.
  intros Hx Hy Hv. unfold segmentR.
  assert (0 <= (y1 - y0) / (x1 - x0)).
  { unfold Rdiv. apply Rmult_le_pos; [lra|].
    apply Rlt_le, Rinv_0_lt_compat. lra. }
  assert ((y1 - y0) / (x1 - x0) * (v - x0)
          <= (y1 - y0) / (x1 - x0) * (v' - x0))
    by (apply Rmult_le_compat_l; lra).
  lra.
Qed.

(** Linear interpolation of a table that does not decrease does not
    decrease, on the whole real line: the continued end segments included. *)
Lemma call_linearR_monotone (x y : list R) (v v' : R) :
  increasing x -> nondecreasing y -> length y = length x ->
  (2 <= length x)%nat -> v <= v' ->
  call_linearR x y v <= call_linearR x y v'.
Proof.
  revert y v v'.
  induction x as [|x0 x IH]; intros y v v' Hx Hy Hl H2 Hv.
  { simpl in H2. lia. }
  destruct x as [|x1 x]; [simpl in H2; lia|].
  destruct y as [|y0 [|y1 y]]; try discriminate.
  rewrite increasing_cons in Hx. rewrite nondecreasing_cons in Hy.
  destruct Hx as [Hx01 Hx]. destruct Hy as [Hy01 Hy].
  destruct x as [|x2 x].
  - rewrite !call_linearR_last. apply segmentR_monotone; assumption.
  - destruct y as [|y2 y]; [discriminate|].
    assert (Hknot : call_linearR (x1 :: x2 :: x) (y1 :: y2 :: y) x1 = y1).
    { apply (call_linearR_knot (x1 :: x2 :: x) (y1 :: y2 :: y) 0);
        simpl in *; auto; lia. }
    assert (IH' : forall w w', w <= w' ->
               call_linearR (x1 :: x2 :: x) (y1 :: y2 :: y) w
               <= call_linearR (x1 :: x2 :: x) (y1 :: y2 :: y) w').
    { intros w w' Hw. apply IH; simpl in *; auto; lia. }
    rewrite !call_linearR_cons.
    destruct (Rle_dec v x1) as [Hle|Hgt];
      destruct (Rle_dec v' x1) as [Hle'|Hgt'].
    + apply segmentR_monotone; assumption.
    + apply Rle_trans with (segmentR x0 x1 y0 y1 x1);
        [apply segmentR_monotone; assumption|].
      rewrite segmentR_right by lra.
      apply Rle_trans with (call_linearR (x1 :: x2 :: x) (y1 :: y2 :: y) x1);
        [rewrite Hknot; lra | apply IH'; lra].
    + lra.
    + apply IH'; lra.
Qed.

Lemma segmentR_positive (x0 x1 y0 y1 v : R) :
  x0 < x1 -> 0 < y0 -> 0 < y1 -> x0 <= v -> v <= x1 ->
  0 < segmentR x0 x1 y0 y1 v.
Proof.
  intros Hx Hy0 Hy1 Hv0 Hv1. unfold segmentR.
  set (t := (v - x0) / (x1 - x0)).
  assert (Ht0 : 0 <= t).
  { unfold t, Rdiv. apply Rmult_le_pos; [lra|].
    apply Rlt_le, Rinv_0_lt_compat. lra. }
  assert (Ht1 : t <= 1).
  { unfold t. apply Rmult_le_reg_r with (x1 - x0); [lra|].
    unfold Rdiv. rewrite Rmult_assoc, Rinv_l by lra. lra. }
  replace ((y1 - y0) / (x1 - x0) * (v - x0) + y0)
    with ((1 - t) * y0 + t * y1) by (unfold t; field; lra).
  destruct (Req_dec t 1) as [->|Hne].
  - lra.
  - assert (0 < (1 - t) * y0) by (apply Rmult_lt_0_compat; lra).
    assert (0 <= t * y1) by (apply Rmult_le_pos; lra).
    lra.
Qed.

(** Between its first and last abscissa, linear interpolation of a positive
    table is positive. *)
Lemma call_linearR_positive (x y : list R) (v : R) :
  increasing x -> Forall (fun h => 0 < h) y -> length y = length x ->
  (2 <= length x)%nat -> hd 0 x <= v -> v <= last x 0 ->
  0 < call_linearR x y v.
Proof.
  revert y v.
  induction x as [|x0 x IH]; intros y v Hx Hy Hl H2 Hv Hv'.
  { simpl in H2. lia. }
  destruct x as [|x1 x]; [simpl in H2; lia|].
  destruct y as [|y0 [|y1 y]]; try discriminate.
  rewrite increasing_cons in Hx. destruct Hx as [Hx01 Hx].
  inversion Hy as [|? ? Hy0 Hy']; subst.
  pose proof Hy' as Hy''. inversion Hy'' as [|? ? Hy1 _]; subst.
  cbn [hd] in Hv. rewrite last_cons2 in Hv'.
  destruct x as [|x2 x].
  - rewrite call_linearR_last. cbn [last] in Hv'.
    apply segmentR_positive; assumption.
  - rewrite call_linearR_cons.
    destruct (Rle_dec v x1) as [Hle|Hgt].
    + apply segmentR_positive; assumption.
    + apply IH; simpl in *; auto; try lia; lra.
Qed.

(** Linear interpolation commutes with scaling the table. *)
Lemma call_linearR_scale (k : R) (x y : list R) (v : R) :
  call_linearR x (map (fun h => k * h) y) v = k * call_linearR x y v.
Proof.
  revert y. induction x as [|x0 x IH]; intros y.
  { simpl. ring. }
  destruct x as [|x1 x].
  { destruct y as [|y0 [|y1 y]]; simpl; ring. }
  destruct y as [|y0 [|y1 y]]; try (simpl; ring).
  change (map (fun h => k * h) (y0 :: y1 :: y))
    with (k * y0 :: k * y1 :: map (fun h => k * h) y).
  destruct x as [|x2 x].
  - rewrite !call_linearR_last. unfold segmentR, Rdiv. ring.
  - rewrite !call_linearR_cons.
    destruct (Rle_dec v x1).
    + unfold segmentR, Rdiv. ring.
    + change (k * y1 :: map (fun h => k * h) y)
        with (map (fun h => k * h) (y1 :: y)).
      apply IH.
Qed.

(** * The Hubble rate between the grid points *)

Lemma hz_gridR_positive (H0 Om w0 wa xi : R) :
  0 < H0 -> hubble_ok H0 Om w0 wa xi ->
  Forall (fun h => 0 < h) (hz_gridR H0 Om w0 wa xi).
Proof.
  intros HH [_ Hr]. unfold hz_gridR. apply Forall_map.
  eapply Forall_impl; [|exact Hr]. simpl. intros a Ha.
  apply hubbleR_pos; assumption.
Qed.

Lemma nondecreasing_map_increasing (g : R -> R) (x : list R) :
  (forall a b, 0 < a -> a < b -> g a <= g b) ->
  increasing x -> Forall (fun z => 0 < z) x -> nondecreasing (map g x).
Proof.
  intros Hg. induction x as [|x0 [|x1 x] IH]; intros Hx Hp;
    try exact I.
  change (map g (x0 :: x1 :: x)) with (g x0 :: g x1 :: map g x).
  rewrite nondecreasing_cons. rewrite increasing_cons in Hx.
  destruct Hx as [Hx01 Hx]. inversion Hp as [|? ? Hp0 Hp']; subst.
  split; [apply Hg; assumption | apply IH; assumption].
Qed.

Lemma baseline_hz_gridR_nondecreasing (H0 Om : R) :
  valid_parameters H0 Om -> nondecreasing (hz_gridR H0 Om (-1) 0 0).
Proof.
  intros [HH HOm]. unfold hz_gridR, a_gridR. rewrite map_map.
  apply nondecreasing_map_increasing;
    [ | apply z_grid_increasing | apply z_grid_positive ].
  intros a b Ha Hab. apply baseline_hubbleR_monotone; try assumption.
  - apply scale_factor_range. lra.
  - apply Rlt_le, scale_factor_decreasing; assumption.
Qed.

(** X1.  In exact arithmetic, for H0 and redshifts of moderate size
    (10⁻⁶ ≤ H0 ≤ 10⁶ and |z| ≤ 10⁶: no double the code computes then leaves
    the floating-point range), the interpolated baseline Hubble rate never
    decreases, whatever the two redshifts: between grid points, and on the
    two continued end segments as well. *)
Theorem baseline_H_nondecreasing_everywhere (H0 Om s8 : R)
  (m : LCDM_Vectorized.t) (z z' : R) :
  valid_parameters H0 Om -> moderate_H0 H0 ->
  moderate_redshift z -> moderate_redshift z' ->
  LCDM_Vectorized.init H0 Om s8 data = Ok m ->
  z <= z' ->
  exists h h',
    BaseModel.H (LCDM_Vectorized.base m) z = Ok (Fin h) /\
    BaseModel.H (LCDM_Vectorized.base m) z' = Ok (Fin h') /\
    h <= h'.
Proof.
  intros Hv _ _ _ E Hz. apply LCDM_init_Ok in E. destruct E as [_ ->].
  cbn [LCDM_Vectorized.base].
  exists (HR H0 Om (-1) 0 0 z), (HR H0 Om (-1) 0 0 z').
  split; [apply H_engine|]. split; [apply H_engine|].
  unfold HR. apply call_linearR_monotone.
  - apply z_grid_increasing.
  - apply baseline_hz_gridR_nondecreasing, Hv.
  - rewrite hz_gridR_length, z_grid_length. reflexivity.
  - apply z_grid_two.
  - exact Hz.
Qed.

Lemma baseline_H_nondecreasing_everywhere_witness :
  exists h h',
    BaseModel.H
      (LCDM_Vectorized.base
         {| LCDM_Vectorized.base := engine (678 / 10) (315 / 1000) (-1) 0 0;
            LCDM_Vectorized.s8 := 811 / 1000 |}) 0 = Ok (Fin h) /\
    BaseModel.H
      (LCDM_Vectorized.base
         {| LCDM_Vectorized.base := engine (678 / 10) (315 / 1000) (-1) 0 0;
            LCDM_Vectorized.s8 := 811 / 1000 |}) 7 = Ok (Fin h') /\
    h <= h'.
Proof.
  assert (Hv : valid_parameters (678 / 10) (315 / 1000))
    by (unfold valid_parameters; lra).
  assert (Hm : moderate_H0 (678 / 10)) by (unfold moderate_H0; lra).
  assert (Hz0 : moderate_redshift 0) by (unfold moderate_redshift; lra).
  assert (Hz7 : moderate_redshift 7) by (unfold moderate_redshift; lra).
  assert (Hz : 0 <= 7) by lra.
  exact (baseline_H_nondecreasing_everywhere (678 / 10) (315 / 1000)
           (811 / 1000) _ 0 7 Hv Hm Hz0 Hz7
           (LCDM_init_succeeds _ _ _
              (valid_parameters_hubble_ok _ _ _ _ _ Hv)) Hz).
Defined.

Lemma HR_positive_on_grid (H0 Om w0 wa xi z : R) :
  0 < H0 -> hubble_ok H0 Om w0 wa xi -> / 1000 <= z -> z <= 5 ->
  0 < HR H0 Om w0 wa xi z.
Proof.
  intros HH Hok Hz Hz'. unfold HR. apply call_linearR_positive.
  - apply z_grid_increasing.
  - apply hz_gridR_positive; assumption.
  - rewrite hz_gridR_length, z_grid_length. reflexivity.
  - apply z_grid_two.
  - rewrite z_grid_hd. exact Hz.
  - rewrite z_grid_last. exact Hz'.
Qed.

(** The Hubble rate at a grid point, as a function of redshift. *)
Lemma radicandR_redshift (Om w0 wa xi z : R) :
  0 < z ->
  radicandR Om w0 wa xi (scale_factor z)
  = Om * (1 + z) ^ 3
    + (1 - Om)
      * Rpower (1 + z) (3 * (1 + (w0 + wa * (z / (1 + z))) + xi)).
Proof.
  intros Hz. unfold radicandR.
  assert (Ha : 0 < scale_factor z) by (apply scale_factor_range, Hz).
  assert (E1 : Om / scale_factor z ^ 3 = Om * (1 + z) ^ 3)
    by (unfold scale_factor; field; lra).
  assert (E2 : 1 - scale_factor z = z / (1 + z))
    by (unfold scale_factor; field; lra).
  rewrite E1, E2. f_equal. f_equal.
  unfold Rpower.
  assert (Eln : ln (scale_factor z) = - ln (1 + z)).
  { unfold scale_factor, Rdiv. rewrite Rmult_1_l. apply ln_Rinv. lra. }
  rewrite Eln. f_equal. ring.
Qed.

(** X2.  In exact arithmetic, for valid parameters with H0, w0, wa, ξ of
    moderate size (no double the code computes then leaves the
    floating-point range), the interpolator returns at every grid point
    the analytic Hubble rate H0·sqrt(Ωm(1+z)³ + (1−Ωm)(1+z)^(3(1+w(z)+ξ))),
    with w(z) = w0 + wa·z/(1+z). *)
Theorem H_at_grid_points_is_analytic (H0 Om w0 wa xi : R)
  (m : BaseModel.t) (i : nat) :
  valid_parameters H0 Om -> moderate_H0 H0 ->
  moderate_dark_energy w0 wa xi ->
  BaseModel.init H0 Om data w0 wa xi = Ok m ->
  (i < N_Z_GRID_POINTS)%nat ->
  exists z,
    nth i (NinjaDataVectorized.z_grid (BaseModel.data m)) 0 = z /\
    0 < z /\
    BaseModel.H m z
    = Ok (Fin (H0 * sqrt (Om * (1 + z) ^ 3
                          + (1 - Om)
                            * Rpower (1 + z)
                                (3 * (1 + (w0 + wa * (z / (1 + z))) + xi))))).
Proof.
  intros _ _ _ E Hi. apply init_Ok_engine in E. subst m. rewrite engine_data.
  exists (grid_point i).
  split; [apply z_grid_nth, Hi|]. split; [apply grid_point_pos|].
  rewrite H_engine, HR_grid by exact Hi. unfold hubbleR.
  rewrite radicandR_redshift by apply grid_point_pos. reflexivity.
Qed.

Lemma H_at_grid_points_is_analytic_witness :
  exists z,
    nth 999
      (NinjaDataVectorized.z_grid
         (BaseModel.data
            (engine (692 / 10) (298 / 1000) (-105 / 100) (8 / 100)
               (35 / 1000)))) 0 = z /\
    0 < z /\
    BaseModel.H
      (engine (692 / 10) (298 / 1000) (-105 / 100) (8 / 100) (35 / 1000)) z
    = Ok (Fin (692 / 10
               * sqrt (298 / 1000 * (1 + z) ^ 3
                       + (1 - 298 / 1000)
                         * Rpower (1 + z)
                             (3 * (1 + (-105 / 100
                                        + 8 / 100 * (z / (1 + z)))
                                   + 35 / 1000))))).
Proof.
  assert (Hv : valid_parameters (692 / 10) (298 / 1000))
    by (unfold valid_parameters; lra).
  assert (Hm : moderate_H0 (692 / 10)) by (unfold moderate_H0; lra).
  assert (Hd : moderate_dark_energy (-105 / 100) (8 / 100) (35 / 1000))
    by (unfold moderate_dark_energy; lra).
  assert (Hi : (999 < N_Z_GRID_POINTS)%nat)
    by (unfold N_Z_GRID_POINTS; lia).
  exact (H_at_grid_points_is_analytic (692 / 10) (298 / 1000) (-105 / 100)
           (8 / 100) (35 / 1000) _ 999 Hv Hm Hd
           (init_succeeds _ _ _ _ _
              (valid_parameters_hubble_ok _ _ _ _ _ Hv)) Hi).
Defined.

(** * Distance duality at the grid points *)



(** * The luminosity distance and the distance modulus on the grid range *)

Lemma increasing_nonneg (d0 : R) (d : list R) :
  0 <= d0 -> increasing (d0 :: d) -> Forall (fun v => 0 <= v) (d0 :: d).
Proof.
  revert d0. induction d as [|d1 d IH]; intros d0 H0 Hd.
  - constructor; [exact H0 | constructor].
  - rewrite increasing_cons in Hd. destruct Hd as [H01 Hd].
    constructor; [exact H0|]. apply IH; [lra | exact Hd].
Qed.

Lemma luminosity_table_increasing (c : R) (x d : list R) :
  0 < c -> increasing x -> Forall (fun z => 0 < z) x ->
  increasing d -> Forall (fun v => 0 <= v) d ->
  increasing (zip_with (fun z v => (1 + z) * c * v / 100000) x d).
Proof.
  intros Hc. revert d.
  induction x as [|x0 [|x1 x] IH]; intros d Hx Hp Hd Hn.
  - exact I.
  - destruct d as [|d0 [|d1 d]]; exact I.
  - destruct d as [|d0 [|d1 d]]; try exact I.
    change (zip_with (fun z v => (1 + z) * c * v / 100000)
              (x0 :: x1 :: x) (d0 :: d1 :: d))
      with ((1 + x0) * c * d0 / 100000
            :: zip_with (fun z v => (1 + z) * c * v / 100000)
                 (x1 :: x) (d1 :: d)).
    rewrite increasing_cons in Hx, Hd.
    destruct Hx as [Hx01 Hx]. destruct Hd as [Hd01 Hd].
    inversion Hp as [|? ? Hp0 Hp']; subst.
    inversion Hn as [|? ? Hn0 Hn']; subst.
    assert (Hstep : (1 + x0) * c * d0 / 100000
                    < (1 + x1) * c * d1 / 100000).
    { assert ((1 + x0) * d0 <= (1 + x0) * d1)
        by (apply Rmult_le_compat_l; lra).
      assert ((1 + x0) * d1 < (1 + x1) * d1)
        by (apply Rmult_lt_compat_r; lra).
      assert (c * ((1 + x0) * d0) < c * ((1 + x1) * d1))
        by (apply Rmult_lt_compat_l; lra).
      lra. }
    specialize (IH (d1 :: d) Hx Hp' Hd Hn').
    destruct x as [|x2 x]; [|destruct d as [|d2 d]];
      try (split; [exact Hstep | exact I]).
    split; [exact Hstep | exact IH].
Qed.

Lemma d_l_gridR_increasing (H0 Om w0 wa xi : R) :
  0 < H0 -> hubble_ok H0 Om w0 wa xi ->
  increasing (d_l_gridR H0 Om w0 wa xi).
Proof.
  intros HH Hok. unfold d_l_gridR.
  pose proof (d_c_gridR_increasing _ _ _ _ _ HH Hok) as Hinc.
  apply luminosity_table_increasing.
  - apply c_data_pos.
  - apply z_grid_increasing.
  - apply z_grid_positive.
  - exact Hinc.
  - unfold d_c_gridR in *. apply increasing_nonneg; [lra | exact Hinc].
Qed.

Lemma DLR_monotone_on_grid (H0 Om w0 wa xi z z' : R) :
  0 < H0 -> hubble_ok H0 Om w0 wa xi ->
  / 1000 <= z -> z <= z' -> z' <= 5 ->
  DLR H0 Om w0 wa xi z <= DLR H0 Om w0 wa xi z'.
Proof.
  intros HH Hok Hz Hzz Hz'. unfold DLR. cbv zeta.
  pose proof (d_l_gridR_increasing _ _ _ _ _ HH Hok) as Hinc.
  pose proof (d_l_gridR_length H0 Om w0 wa xi) as Hlen.
  apply ppoly_eval_monotone.
  - apply z_grid_increasing.
  - exact Hinc.
  - rewrite Hlen, z_grid_length. reflexivity.
  - rewrite find_derivatives_length;
      [reflexivity | rewrite Hlen, z_grid_length; reflexivity
       | apply z_grid_two].
  - apply z_grid_two.
  - apply find_derivatives_shape;
      [apply z_grid_increasing | exact Hinc
       | rewrite Hlen, z_grid_length; reflexivity | apply z_grid_two].
  - rewrite z_grid_hd. exact Hz.
  - exact Hzz.
  - rewrite z_grid_last. exact Hz'.
Qed.

Lemma grid_point_1_bounds : / 1000 < grid_point 1 < 1009 / 1000000.
Proof.
  rewrite grid_point_1. pose proof grid_ratio_bounds. lra.
Qed.

Lemma DLR_positive_from_second_point (H0 Om w0 wa xi z : R) :
  0 < H0 -> hubble_ok H0 Om w0 wa xi ->
  grid_point 1 <= z -> z <= 5 ->
  0 < DLR H0 Om w0 wa xi z.
Proof.
  intros HH Hok Hz Hz'.
  pose proof grid_point_1_bounds as Hb.
  apply Rlt_le_trans with (DLR H0 Om w0 wa xi (grid_point 1)).
  - rewrite DLR_grid, DcR_grid by (unfold N_Z_GRID_POINTS; lia).
    pose proof (d_c_gridR_pos H0 Om w0 wa xi 0 HH Hok
                  ltac:(unfold N_Z_GRID_POINTS; lia)) as Hd.
    pose proof c_data_pos as Hc.
    assert (0 < (1 + grid_point 1) * NinjaDataVectorized.c data)
      by (apply Rmult_lt_0_compat; lra).
    assert (0 < (1 + grid_point 1) * NinjaDataVectorized.c data
                * nth 1 (d_c_gridR H0 Om w0 wa xi) 0)
      by (apply Rmult_lt_0_compat; lra).
    lra.
  - apply DLR_monotone_on_grid; try assumption; lra.
Qed.




(** * The BAO distance on the grid range *)

Lemma DcR_nonneg_on_grid (H0 Om w0 wa xi z : R) :
  0 < H0 -> hubble_ok H0 Om w0 wa xi -> / 1000 <= z -> z <= 5 ->
  0 <= DcR H0 Om w0 wa xi z.
Proof.
  intros HH Hok Hz Hz'. rewrite <- (DcR_first H0 Om w0 wa xi).
  apply DcR_monotone_on_grid; try assumption; lra.
Qed.

Lemma cube_root_cubed (b : R) : 0 < b -> Rpower b (1 / 3) ^ 3 = b.
Proof.
  intros Hb. rewrite <- Rpower_pow by (unfold Rpower; apply exp_pos).
  rewrite Rpower_mult. replace (1 / 3 * INR 3) with 1 by (simpl; field).
  apply Rpower_1, Hb.
Qed.

Lemma DV_engine_on_grid (H0 Om w0 wa xi z : R) :
  0 < H0 -> hubble_ok H0 Om w0 wa xi -> / 1000 <= z -> z <= 5 ->
  exists v,
    BaseModel.DV (engine H0 Om w0 wa xi) z = Ok (Fin v) /\ 0 <= v /\
    v ^ 3 = (1 + z) * DcR H0 Om w0 wa xi z ^ 2
            * NinjaDataVectorized.c data / HR H0 Om w0 wa xi z.
Proof.
  intros HH Hok Hz Hz'.
  set (h := HR H0 Om w0 wa xi z). set (dc := DcR H0 Om w0 wa xi z).
  assert (Hh : 0 < h) by (apply HR_positive_on_grid; assumption).
  assert (Hdc : 0 <= dc) by (apply DcR_nonneg_on_grid; assumption).
  pose proof c_data_pos as Hc.
  set (b := (1 + z) * dc ^ 2 * NinjaDataVectorized.c data / h).
  assert (Hb : 0 <= b).
  { unfold b, Rdiv. apply Rmult_le_pos;
      [|apply Rlt_le, Rinv_0_lt_compat, Hh].
    apply Rmult_le_pos; [|lra]. apply Rmult_le_pos; [lra|].
    apply pow_le, Hdc. }
  assert (EDV : BaseModel.DV (engine H0 Om w0 wa xi) z
                = Ok (pow_fin b (1 / 3))).
  { unfold BaseModel.DV. rewrite Dc_engine, H_engine. cbn [bind].
    rewrite engine_data. fold h dc. rewrite fin_pow2. cbn [np_mul].
    rewrite fin_div by lra. reflexivity. }
  destruct (Req_dec b 0) as [Eb|Hne].
  - exists 0. split.
    { rewrite EDV, Eb. unfold pow_fin.
      destruct (Rlt_dec 0 0); [lra|].
      destruct (Req_dec_T 0 0); [|lra].
      destruct (Rlt_dec 0 (1 / 3)); [reflexivity | lra]. }
    split; [lra|]. rewrite Eb. ring.
  - assert (Hbp : 0 < b) by lra.
    exists (Rpower b (1 / 3)). split.
    { rewrite EDV. unfold pow_fin.
      destruct (Rlt_dec 0 b); [reflexivity | lra]. }
    split; [unfold Rpower; apply Rlt_le, exp_pos|].
    apply cube_root_cubed, Hbp.
Qed.

(** X5.  In exact arithmetic, for valid parameters with H0, w0, wa, ξ of
    moderate size (no double the code computes then leaves the
    floating-point range) and every redshift inside the grid bounds, the
    Hubble rate is strictly positive, the comoving distance is not
    negative, and [DV] is a finite, non-negative number whose cube is
    (1+z)·Dc(z)²·c/H(z): no division by zero and no root of a negative
    number can occur there. *)
Theorem DV_finite_on_grid_range (H0 Om w0 wa xi : R) (m : BaseModel.t)
  (z : R) :
  valid_parameters H0 Om -> moderate_H0 H0 ->
  moderate_dark_energy w0 wa xi ->
  BaseModel.init H0 Om data w0 wa xi = Ok m ->
  / 1000 <= z -> z <= 5 ->
  exists h dc v,
    BaseModel.H m z = Ok (Fin h) /\ 0 < h /\
    BaseModel.Dc m z = Ok (Fin dc) /\ 0 <= dc /\
    BaseModel.DV m z = Ok (Fin v) /\ 0 <= v /\
    v ^ 3 = (1 + z) * dc ^ 2
            * NinjaDataVectorized.c (BaseModel.data m) / h.
Proof.
  intros Hv _ _ E Hz Hz'. pose proof Hv as [HH HOm].
  pose proof (valid_parameters_hubble_ok H0 Om w0 wa xi Hv) as Hok.
  apply init_Ok_engine in E. subst m. rewrite engine_data.
  destruct (DV_engine_on_grid H0 Om w0 wa xi z HH Hok Hz Hz')
    as [v [EDV [Hv0 Hcube]]].
  exists (HR H0 Om w0 wa xi z), (DcR H0 Om w0 wa xi z), v.
  split; [apply H_engine|].
  split; [apply HR_positive_on_grid; assumption|].
  split; [apply Dc_engine|].
  split; [apply DcR_nonneg_on_grid; assumption|].
  split; [exact EDV|]. split; [exact Hv0 | exact Hcube].
Qed.

Lemma DV_finite_on_grid_range_witness :
  exists h dc v,
    BaseModel.H (engine (678 / 10) (315 / 1000) (-1) 0 0) (38 / 100)
    = Ok (Fin h) /\ 0 < h /\
    BaseModel.Dc (engine (678 / 10) (315 / 1000) (-1) 0 0) (38 / 100)
    = Ok (Fin dc) /\ 0 <= dc /\
    BaseModel.DV (engine (678 / 10) (315 / 1000) (-1) 0 0) (38 / 100)
    = Ok (Fin v) /\ 0 <= v /\
    v ^ 3 = (1 + 38 / 100) * dc ^ 2
            * NinjaDataVectorized.c
                (BaseModel.data (engine (678 / 10) (315 / 1000) (-1) 0 0))
            / h.
Proof.
  assert (Hv : valid_parameters (678 / 10) (315 / 1000))
    by (unfold valid_parameters; lra).
  assert (Hm : moderate_H0 (678 / 10)) by (unfold moderate_H0; lra).
  assert (Hd : moderate_dark_energy (-1) 0 0)
    by (unfold moderate_dark_energy; lra).
  assert (Hz : / 1000 <= 38 / 100) by lra.
  assert (Hz' : 38 / 100 <= 5) by lra.
  exact (DV_finite_on_grid_range (678 / 10) (315 / 1000) (-1) 0 0 _
           (38 / 100) Hv Hm Hd
           (init_succeeds _ _ _ _ _
              (valid_parameters_hubble_ok _ _ _ _ _ Hv)) Hz Hz').
Defined.

(** * The growth rate and the Hubble constant *)

Lemma hz_gridR_scale (H0 Om w0 wa xi : R) :
  hz_gridR H0 Om w0 wa xi
  = map (fun h => H0 * h) (hz_gridR 1 Om w0 wa xi).
Proof.
  unfold hz_gridR. rewrite map_map. apply map_ext. intros a.
  unfold hubbleR. ring.
Qed.

Lemma HR_scale (H0 Om w0 wa xi z : R) :
  HR H0 Om w0 wa xi z = H0 * HR 1 Om w0 wa xi z.
Proof.
  unfold HR. rewrite hz_gridR_scale. apply call_linearR_scale.
Qed.

Lemma H_over_H0 (H0 Om w0 wa xi z : R) :
  H0 <> 0 ->
  (Fin (HR H0 Om w0 wa xi z) / Fin H0)%np = Fin (HR 1 Om w0 wa xi z).
Proof.
  intros HH. rewrite fin_div by exact HH. rewrite HR_scale.
  f_equal. field. exact HH.
Qed.

(** X6.  The growth-rate observable does not depend on the Hubble
    constant: two models of the same class built with the same Ωm, σ8 (and
    w0, wa, ξ) but different H0 return the same fσ8 at every redshift. *)
Theorem fs8_independent_of_H0 (H0 H0' Om w0 wa xi s8 z : R) :
  (forall l l',
      LCDM_Vectorized.init H0 Om s8 data = Ok l ->
      LCDM_Vectorized.init H0' Om s8 data = Ok l' ->
      LCDM_Vectorized.fs8_model l z = LCDM_Vectorized.fs8_model l' z) /\
  (forall d d',
      DUT_Vectorized.init H0 Om w0 wa xi s8 data = Ok d ->
      DUT_Vectorized.init H0' Om w0 wa xi s8 data = Ok d' ->
      DUT_Vectorized.fs8_model d z = DUT_Vectorized.fs8_model d' z).
Proof.
  split.
  - intros l l' E E'.
    apply LCDM_init_Ok in E. destruct E as [[HH _] ->].
    apply LCDM_init_Ok in E'. destruct E' as [[HH' _] ->].
    unfold LCDM_Vectorized.fs8_model.
    cbn [LCDM_Vectorized.base LCDM_Vectorized.s8].
    rewrite !H_engine. cbn [bind].
    change (BaseModel.Om (engine H0 Om (-1) 0 0)) with Om.
    change (BaseModel.H0 (engine H0 Om (-1) 0 0)) with H0.
    change (BaseModel.Om (engine H0' Om (-1) 0 0)) with Om.
    change (BaseModel.H0 (engine H0' Om (-1) 0 0)) with H0'.
    rewrite !H_over_H0 by assumption. reflexivity.
  - intros d d' E E'.
    apply DUT_init_Ok in E. destruct E as [[HH _] ->].
    apply DUT_init_Ok in E'. destruct E' as [[HH' _] ->].
    unfold DUT_Vectorized.fs8_model.
    cbn [DUT_Vectorized.base DUT_Vectorized.s8].
    rewrite !H_engine. cbn [bind].
    change (BaseModel.Om (engine H0 Om w0 wa xi)) with Om.
    change (BaseModel.H0 (engine H0 Om w0 wa xi)) with H0.
    change (BaseModel.Om (engine H0' Om w0 wa xi)) with Om.
    change (BaseModel.H0 (engine H0' Om w0 wa xi)) with H0'.
    rewrite !H_over_H0 by assumption. reflexivity.
Qed.

Lemma fs8_independent_of_H0_witness :
  LCDM_Vectorized.fs8_model
    {| LCDM_Vectorized.base := engine (678 / 10) (315 / 1000) (-1) 0 0;
       LCDM_Vectorized.s8 := 811 / 1000 |} (38 / 100)
  = LCDM_Vectorized.fs8_model
      {| LCDM_Vectorized.base := engine (7304 / 100) (315 / 1000) (-1) 0 0;
         LCDM_Vectorized.s8 := 811 / 1000 |} (38 / 100).
Proof.
  assert (Hok : hubble_ok (678 / 10) (315 / 1000) (-1) 0 0)
    by (apply baseline_hubble_ok; lra).
  assert (Hok' : hubble_ok (7304 / 100) (315 / 1000) (-1) 0 0)
    by (apply baseline_hubble_ok; lra).
  exact (proj1 (fs8_independent_of_H0 (678 / 10) (7304 / 100) (315 / 1000)
                  (-1) 0 0 (811 / 1000) (38 / 100))
           _ _ (LCDM_init_succeeds _ _ _ Hok)
           (LCDM_init_succeeds _ _ _ Hok')).
Defined.

(** * The matter fraction between grid points *)

(** The power-mean inequality behind the convexity of (1+z)^(3/2). *)
Lemma power_mean_32 (p q t : R) :
  0 <= p -> 0 <= q -> 0 <= t <= 1 ->
  ((1 - t) * p ^ 2 + t * q ^ 2) ^ 3 <= ((1 - t) * p ^ 3 + t * q ^ 3) ^ 2.
Proof.
  intros Hp Hq Ht. apply Rminus_le.
  replace (((1 - t) * p ^ 2 + t * q ^ 2) ^ 3
           - ((1 - t) * p ^ 3 + t * q ^ 3) ^ 2)
    with (- ((1 - t) * t * ((p - q) ^ 2
               * ((1 - t) * (p ^ 3 * (p + 2 * q))
                  + t * (q ^ 3 * (q + 2 * p)))))) by ring.
  assert (0 <= p ^ 3) by (apply pow_le, Hp).
  assert (0 <= q ^ 3) by (apply pow_le, Hq).
  assert (0 <= (p - q) ^ 2) by (apply pow2_ge_0).
  assert (0 <= (1 - t) * (p ^ 3 * (p + 2 * q)))
    by (apply Rmult_le_pos; [lra | apply Rmult_le_pos; lra]).
  assert (0 <= t * (q ^ 3 * (q + 2 * p)))
    by (apply Rmult_le_pos; [lra | apply Rmult_le_pos; lra]).
  assert (0 <= (1 - t) * t) by (apply Rmult_le_pos; lra).
  assert (0 <= (1 - t) * t * ((p - q) ^ 2
               * ((1 - t) * (p ^ 3 * (p + 2 * q))
                  + t * (q ^ 3 * (q + 2 * p))))).
  { apply Rmult_le_pos; [assumption|]. apply Rmult_le_pos; lra. }
  lra.
Qed.

Lemma matter_root_sqr (Om z : R) :
  0 <= Om -> 0 <= z -> matter_root Om z ^ 2 = Om * (1 + z) ^ 3.
Proof.
  intros HOm Hz. unfold matter_root.
  replace ((sqrt Om * sqrt (1 + z) ^ 3) ^ 2)
    with ((sqrt Om * sqrt Om)
          * ((sqrt (1 + z) * sqrt (1 + z)) ^ 3)) by ring.
  rewrite !sqrt_sqrt by lra. reflexivity.
Qed.

Lemma matter_root_nonneg (Om z : R) : 0 <= matter_root Om z.
Proof.
  unfold matter_root.
  apply Rmult_le_pos; [apply sqrt_pos | apply pow_le, sqrt_pos].
Qed.

(** Between two redshifts the matter term lies below its chord. *)
Lemma matter_root_chord (Om a b t : R) :
  0 <= a -> 0 <= b -> 0 <= t <= 1 ->
  matter_root Om (a + t * (b - a))
  <= (1 - t) * matter_root Om a + t * matter_root Om b.
Proof.
  intros Ha Hb Ht. unfold matter_root.
  set (p := sqrt (1 + a)). set (q := sqrt (1 + b)).
  assert (Hp : 0 <= p) by apply sqrt_pos.
  assert (Hq : 0 <= q) by apply sqrt_pos.
  assert (Ep : p ^ 2 = 1 + a)
    by (unfold p; simpl; rewrite Rmult_1_r; apply sqrt_sqrt; lra).
  assert (Eq : q ^ 2 = 1 + b)
    by (unfold q; simpl; rewrite Rmult_1_r; apply sqrt_sqrt; lra).
  set (M := 1 + (a + t * (b - a))).
  assert (EM : M = (1 - t) * p ^ 2 + t * q ^ 2)
    by (rewrite Ep, Eq; unfold M; ring).
  assert (HM : 0 <= M).
  { assert (0 <= t * (b - a) + a).
    { replace (t * (b - a) + a) with ((1 - t) * a + t * b) by ring.
      apply Rplus_le_le_0_compat; apply Rmult_le_pos; lra. }
    unfold M. lra. }
  set (Q := (1 - t) * p ^ 3 + t * q ^ 3).
  assert (HQ : 0 <= Q).
  { unfold Q. apply Rplus_le_le_0_compat; apply Rmult_le_pos;
      try lra; apply pow_le; assumption. }
  assert (Hs : 0 <= sqrt M ^ 3) by (apply pow_le, sqrt_pos).
  assert (Hle : sqrt M ^ 3 <= Q).
  { assert (Hsq : (sqrt M ^ 3) ^ 2 <= Q ^ 2).
    { replace ((sqrt M ^ 3) ^ 2) with ((sqrt M * sqrt M) ^ 3) by ring.
      rewrite sqrt_sqrt by exact HM. rewrite EM. unfold Q.
      apply power_mean_32; assumption. }
    destruct (Rle_lt_dec (sqrt M ^ 3) Q) as [Hle|Hlt]; [exact Hle|].
    exfalso. clear - Hsq HQ Hlt. nra. }
  replace ((1 - t) * (sqrt Om * p ^ 3) + t * (sqrt Om * q ^ 3))
    with (sqrt Om * Q) by (unfold Q; ring).
  apply Rmult_le_compat_l; [apply sqrt_pos | exact Hle].
Qed.

Lemma segmentR_above_chord (G : R -> R) (x0 x1 y0 y1 v : R) :
  (forall a b t, 0 <= a -> 0 <= b -> 0 <= t <= 1 ->
     G (a + t * (b - a)) <= (1 - t) * G a + t * G b) ->
  0 <= x0 -> x0 < x1 -> G x0 < y0 -> G x1 < y1 -> x0 <= v -> v <= x1 ->
  G v < segmentR x0 x1 y0 y1 v.
Proof.
  intros HG H0 Hx Hy0 Hy1 Hv0 Hv1. unfold segmentR.
  set (t := (v - x0) / (x1 - x0)).
  assert (Ht0 : 0 <= t).
  { unfold t, Rdiv. apply Rmult_le_pos; [lra|].
    apply Rlt_le, Rinv_0_lt_compat. lra. }
  assert (Ht1 : t <= 1).
  { unfold t. apply Rmult_le_reg_r with (x1 - x0); [lra|].
    unfold Rdiv. rewrite Rmult_assoc, Rinv_l by lra. lra. }
  replace ((y1 - y0) / (x1 - x0) * (v - x0) + y0)
    with ((1 - t) * y0 + t * y1) by (unfold t; field; lra).
  assert (Ev : v = x0 + t * (x1 - x0)) by (unfold t; field; lra).
  pose proof (HG x0 x1 t) as Hc.
  rewrite <- Ev in Hc.
  apply Rle_lt_trans with ((1 - t) * G x0 + t * G x1);
    [apply Hc; lra|].
  destruct (Req_dec t 1) as [E1|Hne].
  - rewrite E1. lra.
  - assert ((1 - t) * G x0 < (1 - t) * y0)
      by (apply Rmult_lt_compat_l; lra).
    assert (t * G x1 <= t * y1) by (apply Rmult_le_compat_l; lra).
    lra.
Qed.

(** Linear interpolation of a table that lies above a convex function lies
    above it between the first and the last abscissa. *)
Lemma call_linearR_above_chord (G f : R -> R) (x : list R) (v : R) :
  (forall a b t, 0 <= a -> 0 <= b -> 0 <= t <= 1 ->
     G (a + t * (b - a)) <= (1 - t) * G a + t * G b) ->
  increasing x -> Forall (fun a => 0 <= a /\ G a < f a) x ->
  (2 <= length x)%nat -> hd 0 x <= v -> v <= last x 0 ->
  G v < call_linearR x (map f x) v.
Proof.
  intros HG. revert v.
  induction x as [|x0 x IH]; intros v Hx Hy H2 Hv Hv'.
  { simpl in H2. lia. }
  destruct x as [|x1 x]; [simpl in H2; lia|].
  rewrite increasing_cons in Hx. destruct Hx as [Hx01 Hx].
  inversion Hy as [|? ? [Hp0 Hy0] Hy']; subst.
  pose proof Hy' as Hy''. inversion Hy'' as [|? ? [Hp1 Hy1] _]; subst.
  cbn [hd] in Hv. rewrite last_cons2 in Hv'.
  change (map f (x0 :: x1 :: x)) with (f x0 :: f x1 :: map f x).
  destruct x as [|x2 x].
  - change (map f []) with (@nil R).
    rewrite call_linearR_last. cbn [last] in Hv'.
    apply segmentR_above_chord; assumption.
  - change (f x1 :: map f (x2 :: x)) with (f x1 :: f x2 :: map f x).
    rewrite call_linearR_cons.
    destruct (Rle_dec v x1) as [Hle|Hgt].
    + apply segmentR_above_chord; assumption.
    + change (f x1 :: f x2 :: map f x) with (map f (x1 :: x2 :: x)).
      apply IH; simpl in *; auto; try lia; lra.
Qed.

(** On the grid range the interpolated expansion rate stays above the
    matter term alone. *)
Lemma HR_above_matter (Om w0 wa xi z : R) :
  0 < Om < 1 -> / 1000 <= z -> z <= 5 ->
  matter_root Om z < HR 1 Om w0 wa xi z.
Proof.
  intros HOm Hz Hz'. unfold HR, hz_gridR, a_gridR. rewrite map_map.
  apply (call_linearR_above_chord (matter_root Om)).
  - intros a b t. apply matter_root_chord.
  - apply z_grid_increasing.
  - pose proof z_grid_positive as Hpos.
    rewrite Forall_forall in Hpos |- *. intros a Ha.
    specialize (Hpos a Ha). split; [lra|].
    unfold hubbleR. rewrite Rmult_1_l.
    rewrite radicandR_redshift by exact Hpos.
    set (e := Rpower (1 + a) (3 * (1 + (w0 + wa * (a / (1 + a))) + xi))).
    assert (He : 0 < e) by (unfold e, Rpower; apply exp_pos).
    assert (0 < (1 - Om) * e) by (apply Rmult_lt_0_compat; lra).
    rewrite <- (sqrt_pow2 (matter_root Om a)) by apply matter_root_nonneg.
    rewrite matter_root_sqr by lra.
    apply sqrt_lt_1_alt. split; [|lra].
    apply Rmult_le_pos; [lra | apply pow_le; lra].
  - apply z_grid_two.
  - rewrite z_grid_hd. exact Hz.
  - rewrite z_grid_last. exact Hz'.
Qed.

Lemma Omega_m_z_range (H0 Om w0 wa xi z : R) :
  valid_parameters H0 Om -> / 1000 <= z -> z <= 5 ->
  0 < Omega_m_z Om H0 (HR H0 Om w0 wa xi z) z < 1.
Proof.
  intros [HH HOm] Hz Hz'.
  assert (Hz0 : 0 < z).
  { assert (0 < / 1000) by (apply Rinv_0_lt_compat; lra). lra. }
  pose proof (HR_above_matter Om w0 wa xi z HOm Hz Hz') as Hab.
  pose proof (matter_root_nonneg Om z) as Hm.
  pose proof (matter_root_sqr Om z) as Esq.
  set (h1 := HR 1 Om w0 wa xi z) in *.
  assert (Hh1 : 0 < h1) by lra.
  assert (Hsq : Om * (1 + z) ^ 3 < h1 ^ 2).
  { rewrite <- Esq by lra. simpl. rewrite !Rmult_1_r.
    apply Rle_lt_trans with (matter_root Om z * h1);
      [apply Rmult_le_compat_l; lra | apply Rmult_lt_compat_r; lra]. }
  unfold Omega_m_z. rewrite HR_scale. fold h1.
  replace (H0 * h1 / H0) with h1 by (field; lra).
  replace (Om / ((1 / (1 + z)) ^ 3 * h1 ^ 2))
    with (Om * (1 + z) ^ 3 / h1 ^ 2) by (field; lra).
  assert (0 < h1 ^ 2) by (apply pow_lt, Hh1).
  assert (0 < Om * (1 + z) ^ 3)
    by (apply Rmult_lt_0_compat; [lra | apply pow_lt; lra]).
  split.
  - apply Rdiv_lt_0_compat; assumption.
  - apply Rmult_lt_reg_r with (h1 ^ 2); [assumption|].
    unfold Rdiv. rewrite Rmult_assoc, Rinv_l by lra. lra.
Qed.

Lemma Rpower_below_one (x g : R) : 0 < x < 1 -> 0 < g -> 0 < Rpower x g < 1.
Proof.
  intros Hx Hg. split; [unfold Rpower; apply exp_pos|].
  unfold Rpower. rewrite <- exp_0. apply exp_increasing.
  assert (ln x < 0) by (rewrite <- ln_1; apply ln_increasing; lra).
  nra.
Qed.

Lemma Rpower_antitone_exponent (x g g' : R) :
  0 < x < 1 -> g < g' -> Rpower x g' < Rpower x g.
Proof.
  intros Hx Hg. unfold Rpower. apply exp_increasing.
  assert (ln x < 0) by (rewrite <- ln_1; apply ln_increasing; lra).
  nra.
Qed.


Lemma fs8_engine_LCDM (H0 Om s8 z : R) :
  valid_parameters H0 Om -> / 1000 <= z -> z <= 5 ->
  LCDM_Vectorized.fs8_model
    {| LCDM_Vectorized.base := engine H0 Om (-1) 0 0;
       LCDM_Vectorized.s8 := s8 |} z
  = Ok (Fin (fsigma8_spec (55 / 100) Om H0 s8 (HR H0 Om (-1) 0 0 z) z)).
Proof.
  intros Hv Hz Hz'. pose proof Hv as [HH HOm].
  assert (Hz0 : 0 < z).
  { assert (0 < / 1000) by (apply Rinv_0_lt_compat; lra). lra. }
  assert (Hh : 0 < HR H0 Om (-1) 0 0 z).
  { apply HR_positive_on_grid; try assumption.
    apply valid_parameters_hubble_ok, Hv. }
  unfold LCDM_Vectorized.fs8_model.
  cbn [LCDM_Vectorized.base LCDM_Vectorized.s8].
  rewrite H_engine. cbn [bind].
  change (BaseModel.Om (engine H0 Om (-1) 0 0)) with Om.
  change (BaseModel.H0 (engine H0 Om (-1) 0 0)) with H0.
  rewrite matter_fraction_finite by lra.
  rewrite growth_formula_finite by lra. reflexivity.
Qed.

Lemma fs8_engine_DUT (H0 Om w0 wa xi s8 z : R) :
  valid_parameters H0 Om -> / 1000 <= z -> z <= 5 ->
  DUT_Vectorized.fs8_model
    {| DUT_Vectorized.base := engine H0 Om w0 wa xi;
       DUT_Vectorized.s8 := s8 |} z
  = Ok (Fin (fsigma8_spec (52 / 100) Om H0 s8 (HR H0 Om w0 wa xi z) z)).
Proof.
  intros Hv Hz Hz'. pose proof Hv as [HH HOm].
  assert (Hz0 : 0 < z).
  { assert (0 < / 1000) by (apply Rinv_0_lt_compat; lra). lra. }
  assert (Hh : 0 < HR H0 Om w0 wa xi z).
  { apply HR_positive_on_grid; try assumption.
    apply valid_parameters_hubble_ok, Hv. }
  unfold DUT_Vectorized.fs8_model.
  cbn [DUT_Vectorized.base DUT_Vectorized.s8].
  rewrite H_engine. cbn [bind].
  change (BaseModel.Om (engine H0 Om w0 wa xi)) with Om.
  change (BaseModel.H0 (engine H0 Om w0 wa xi)) with H0.
  rewrite matter_fraction_finite by lra.
  rewrite growth_formula_finite by lra. reflexivity.
Qed.



(** X8.  In exact arithmetic, for valid parameters with H0 and σ8 of
    moderate size (no double the code computes then leaves the
    floating-point range): with the same expansion history (w0 = −1,
    wa = 0, ξ = 0) and the same Ωm and σ8, the interacting class returns a strictly larger fσ8
    than the baseline class at every redshift inside the grid bounds: its
    growth index 0.52 is an exponent of a number below 1, so it raises the
    result rather than suppressing it. *)
Theorem interacting_growth_index_raises_fs8 (H0 Om s8 z : R)
  (l : LCDM_Vectorized.t) (d : DUT_Vectorized.t) :
  valid_parameters H0 Om -> moderate_H0 H0 -> moderate_sigma8 s8 ->
  / 1000 <= z -> z <= 5 ->
  LCDM_Vectorized.init H0 Om s8 data = Ok l ->
  DUT_Vectorized.init H0 Om (-1) 0 0 s8 data = Ok d ->
  exists f g,
    LCDM_Vectorized.fs8_model l z = Ok (Fin f) /\
    DUT_Vectorized.fs8_model d z = Ok (Fin g) /\ f < g.
Proof.
  intros Hv _ Hs Hz Hz' El Ed. apply moderate_sigma8_pos in Hs.
  apply LCDM_init_Ok in El. destruct El as [_ ->].
  apply DUT_init_Ok in Ed. destruct Ed as [_ ->].
  eexists. eexists.
  split; [apply fs8_engine_LCDM; assumption|].
  split; [apply fs8_engine_DUT; assumption|].
  pose proof (Omega_m_z_range H0 Om (-1) 0 0 z Hv Hz Hz') as Hx.
  unfold fsigma8_spec.
  set (x := Omega_m_z Om H0 (HR H0 Om (-1) 0 0 z) z) in *.
  assert (H37 : 0 < 3 / 7) by lra.
  pose proof (Rpower_below_one x (3 / 7) Hx H37) as [B1 _].
  assert (Hg : 55 / 100 > 52 / 100) by lra.
  pose proof (Rpower_antitone_exponent x (52 / 100) (55 / 100) Hx Hg) as Hlt.
  apply Rmult_lt_compat_r; [exact Hs|].
  apply Rmult_lt_compat_r; [exact B1 | exact Hlt].
Qed.

Lemma interacting_growth_index_raises_fs8_witness :
  exists f g,
    LCDM_Vectorized.fs8_model
      {| LCDM_Vectorized.base := engine (678 / 10) (315 / 1000) (-1) 0 0;
         LCDM_Vectorized.s8 := 811 / 1000 |} (38 / 100) = Ok (Fin f) /\
    DUT_Vectorized.fs8_model
      {| DUT_Vectorized.base := engine (678 / 10) (315 / 1000) (-1) 0 0;
         DUT_Vectorized.s8 := 811 / 1000 |} (38 / 100) = Ok (Fin g) /\
    f < g.
Proof.
  assert (Hv : valid_parameters (678 / 10) (315 / 1000))
    by (unfold valid_parameters; lra).
  assert (Hm : moderate_H0 (678 / 10)) by (unfold moderate_H0; lra).
  assert (Hs : moderate_sigma8 (811 / 1000))
    by (unfold moderate_sigma8; lra).
  assert (Hz : / 1000 <= 38 / 100) by lra.
  assert (Hz' : 38 / 100 <= 5) by lra.
  exact (interacting_growth_index_raises_fs8 (678 / 10) (315 / 1000)
           (811 / 1000) (38 / 100) _ _ Hv Hm Hs Hz Hz'
           (LCDM_init_succeeds _ _ _
              (valid_parameters_hubble_ok _ _ _ _ _ Hv))
           (DUT_init_succeeds _ _ _ _ _ _
              (valid_parameters_hubble_ok _ _ _ _ _ Hv))).
Defined.

(** * The curves endpoint *)

Lemma vectorize_cons {A B : Type} (f : A -> result B) (a : A) (l : list A) :
  vectorize f (a :: l)
  = b <- f a ;; bs <- vectorize f l ;; Ok (b :: bs).
Proof. reflexivity. Qed.

(** A method that returns at every entry returns for the whole array, one
    result per entry. *)
Lemma vectorize_Ok {A B : Type} (f : A -> result B) (P : B -> Prop)
  (l : list A) :
  (forall a, In a l -> exists b, f a = Ok b /\ P b) ->
  exists bs, vectorize f l = Ok bs /\ length bs = length l /\ Forall P bs.
Proof.
  induction l as [|a l IH]; intros Hf.
  - exists []. split; [reflexivity|]. split; [reflexivity | constructor].
  - destruct (Hf a (or_introl eq_refl)) as [b [Eb Pb]].
    destruct IH as [bs [Ebs [Hl HP]]].
    { intros a' Ha'. apply Hf. right. exact Ha'. }
    exists (b :: bs). rewrite vectorize_cons, Eb. cbn [bind].
    rewrite Ebs. cbn [bind]. split; [reflexivity|].
    split; [simpl; rewrite Hl; reflexivity | constructor; assumption].
Qed.

Lemma all_compliant_Forall (l : list npfloat) :
  Forall (fun v => exists r, v = Fin r) l -> Web.all_compliant l = true.
Proof.
  intros H. unfold Web.all_compliant. apply forallb_forall.
  rewrite Forall_forall in H. intros v Hv.
  destruct (H v Hv) as [r ->]. reflexivity.
Qed.

Lemma mu_engine (H0 Om w0 wa xi z : R) :
  BaseModel.mu (engine H0 Om w0 wa xi) z
  = Ok (Fin 5 * np_log10 (Fin (DLR H0 Om w0 wa xi z)) + Fin 25)%np.
Proof. apply mu_of_DL, DL_engine. Qed.

Lemma DV_engine_total (H0 Om w0 wa xi z : R) :
  exists v, BaseModel.DV (engine H0 Om w0 wa xi) z = Ok v.
Proof.
  unfold BaseModel.DV. rewrite Dc_engine, H_engine. cbn [bind].
  eexists. reflexivity.
Qed.

Lemma fs8_LCDM_total (H0 Om s8 z : R) :
  exists v,
    LCDM_Vectorized.fs8_model
      {| LCDM_Vectorized.base := engine H0 Om (-1) 0 0;
         LCDM_Vectorized.s8 := s8 |} z = Ok v.
Proof.
  unfold LCDM_Vectorized.fs8_model. cbn [LCDM_Vectorized.base].
  rewrite H_engine. cbn [bind]. eexists. reflexivity.
Qed.

Lemma fs8_DUT_total (H0 Om w0 wa xi s8 z : R) :
  exists v,
    DUT_Vectorized.fs8_model
      {| DUT_Vectorized.base := engine H0 Om w0 wa xi;
         DUT_Vectorized.s8 := s8 |} z = Ok v.
Proof.
  unfold DUT_Vectorized.fs8_model. cbn [DUT_Vectorized.base].
  rewrite H_engine. cbn [bind]. eexists. reflexivity.
Qed.

Lemma best_fit_lcdm_valid : valid_parameters (678 / 10) (315 / 1000).
Proof. unfold valid_parameters. lra. Qed.

Lemma best_fit_dut_valid : valid_parameters (692 / 10) (298 / 1000).
Proof. unfold valid_parameters. lra. Qed.

(** The two branches of [generate_model_curves], once the look-ups in
    [BEST_FIT] and the construction are done. *)
Lemma generate_model_curves_lcdm (z_array : list R) :
  Api.generate_model_curves z_array "lcdm"%string =
  let model := {| LCDM_Vectorized.base := engine (678 / 10) (315 / 1000)
                                            (-1) 0 0;
                  LCDM_Vectorized.s8 := 811 / 1000 |} in
  Web.obind
    (Web.lift (vectorize (BaseModel.H (LCDM_Vectorized.base model)) z_array))
    (fun c_hz =>
  Web.obind
    (Web.lift (vectorize (BaseModel.mu (LCDM_Vectorized.base model)) z_array))
    (fun c_mu =>
  Web.obind
    (Web.lift (vectorize (BaseModel.DV (LCDM_Vectorized.base model)) z_array))
    (fun c_dv =>
  Web.obind
    (Web.lift (vectorize (LCDM_Vectorized.fs8_model model) z_array))
    (fun c_fs8 =>
  Web.Return {| Api.hz := c_hz; Api.mu := c_mu; Api.dv := c_dv;
                Api.fs8 := c_fs8 |})))).
Proof.
  change (Api.generate_model_curves z_array "lcdm"%string)
    with (Web.obind
            (Web.lift (LCDM_Vectorized.init (678 / 10) (315 / 1000)
                         (811 / 1000) data))
            (fun model =>
  Web.obind
    (Web.lift (vectorize (BaseModel.H (LCDM_Vectorized.base model)) z_array))
    (fun c_hz =>
  Web.obind
    (Web.lift (vectorize (BaseModel.mu (LCDM_Vectorized.base model)) z_array))
    (fun c_mu =>
  Web.obind
    (Web.lift (vectorize (BaseModel.DV (LCDM_Vectorized.base model)) z_array))
    (fun c_dv =>
  Web.obind
    (Web.lift (vectorize (LCDM_Vectorized.fs8_model model) z_array))
    (fun c_fs8 =>
  Web.Return {| Api.hz := c_hz; Api.mu := c_mu; Api.dv := c_dv;
                Api.fs8 := c_fs8 |})))))).
  rewrite LCDM_init_succeeds
    by (apply valid_parameters_hubble_ok, best_fit_lcdm_valid).
  reflexivity.
Qed.

Lemma generate_model_curves_dut (z_array : list R) :
  Api.generate_model_curves z_array "dut"%string =
  let model := {| DUT_Vectorized.base := engine (692 / 10) (298 / 1000)
                                           (-105 / 100) (8 / 100) (35 / 1000);
                  DUT_Vectorized.s8 := 795 / 1000 |} in
  Web.obind
    (Web.lift (vectorize (BaseModel.H (DUT_Vectorized.base model)) z_array))
    (fun c_hz =>
  Web.obind
    (Web.lift (vectorize (BaseModel.mu (DUT_Vectorized.base model)) z_array))
    (fun c_mu =>
  Web.obind
    (Web.lift (vectorize (BaseModel.DV (DUT_Vectorized.base model)) z_array))
    (fun c_dv =>
  Web.obind
    (Web.lift (vectorize (DUT_Vectorized.fs8_model model) z_array))
    (fun c_fs8 =>
  Web.Return {| Api.hz := c_hz; Api.mu := c_mu; Api.dv := c_dv;
                Api.fs8 := c_fs8 |})))).
Proof.
  change (Api.generate_model_curves z_array "dut"%string)
    with (Web.obind
            (Web.lift (DUT_Vectorized.init (692 / 10) (298 / 1000)
                         (-105 / 100) (8 / 100) (35 / 1000) (795 / 1000)
                         data))
            (fun model =>
  Web.obind
    (Web.lift (vectorize (BaseModel.H (DUT_Vectorized.base model)) z_array))
    (fun c_hz =>
  Web.obind
    (Web.lift (vectorize (BaseModel.mu (DUT_Vectorized.base model)) z_array))
    (fun c_mu =>
  Web.obind
    (Web.lift (vectorize (BaseModel.DV (DUT_Vectorized.base model)) z_array))
    (fun c_dv =>
  Web.obind
    (Web.lift (vectorize (DUT_Vectorized.fs8_model model) z_array))
    (fun c_fs8 =>
  Web.Return {| Api.hz := c_hz; Api.mu := c_mu; Api.dv := c_dv;
                Api.fs8 := c_fs8 |})))))).
  rewrite DUT_init_succeeds
    by (apply valid_parameters_hubble_ok, best_fit_dut_valid).
  reflexivity.
Qed.

(** What the four arrays of a returned dict are. *)
Lemma curves_of_methods (fH fmu fDV ffs8 : R -> result npfloat)
  (P_hz P_mu P_dv P_fs8 : npfloat -> Prop) (z_array : list R) :
  (forall v, In v z_array -> exists b, fH v = Ok b /\ P_hz b) ->
  (forall v, In v z_array -> exists b, fmu v = Ok b /\ P_mu b) ->
  (forall v, In v z_array -> exists b, fDV v = Ok b /\ P_dv b) ->
  (forall v, In v z_array -> exists b, ffs8 v = Ok b /\ P_fs8 b) ->
  exists c,
    Web.obind (Web.lift (vectorize fH z_array)) (fun c_hz =>
    Web.obind (Web.lift (vectorize fmu z_array)) (fun c_mu =>
    Web.obind (Web.lift (vectorize fDV z_array)) (fun c_dv =>
    Web.obind (Web.lift (vectorize ffs8 z_array)) (fun c_fs8 =>
    Web.Return {| Api.hz := c_hz; Api.mu := c_mu; Api.dv := c_dv;
                  Api.fs8 := c_fs8 |}))))
    = Web.Return c /\
    curves_shape (length z_array) c /\
    Forall P_hz (Api.hz c) /\ Forall P_mu (Api.mu c) /\
    Forall P_dv (Api.dv c) /\ Forall P_fs8 (Api.fs8 c) /\
    vectorize fmu z_array = Ok (Api.mu c).
Proof.
  intros H1 H2 H3 H4.
  destruct (vectorize_Ok fH P_hz z_array H1) as [b1 [E1 [L1 F1]]].
  destruct (vectorize_Ok fmu P_mu z_array H2) as [b2 [E2 [L2 F2]]].
  destruct (vectorize_Ok fDV P_dv z_array H3) as [b3 [E3 [L3 F3]]].
  destruct (vectorize_Ok ffs8 P_fs8 z_array H4) as [b4 [E4 [L4 F4]]].
  exists {| Api.hz := b1; Api.mu := b2; Api.dv := b3; Api.fs8 := b4 |}.
  rewrite E1, E2, E3, E4. cbn [Web.lift Web.obind].
  split; [reflexivity|].
  split; [unfold curves_shape; cbn; tauto|].
  cbn. tauto.
Qed.

Lemma H_engine_finite (H0 Om w0 wa xi z : R) :
  exists b, BaseModel.H (engine H0 Om w0 wa xi) z = Ok b /\ finite_value b.
Proof. eexists. split; [apply H_engine|]. eexists. reflexivity. Qed.

(** X9.  [generate_model_curves] raises [KeyError] with the given key for
    every model type other than "lcdm" and "dut": the [else] branch, which
    would build the interacting model, is reached for "dut" only. *)
Theorem generate_model_curves_unknown_model (z_array : list R)
  (model_type : String.string) :
  model_type <> "lcdm"%string -> model_type <> "dut"%string ->
  Api.generate_model_curves z_array model_type
  = Web.Throw (Web.KeyError model_type).
Proof.
  intros Hl Hd. unfold Api.generate_model_curves, Api.BEST_FIT.
  cbn [Web.getitem].
  assert (El : String.eqb "lcdm" model_type = false)
    by (apply String.eqb_neq; congruence).
  assert (Ed : String.eqb "dut" model_type = false)
    by (apply String.eqb_neq; congruence).
  rewrite El, Ed. reflexivity.
Qed.

Lemma generate_model_curves_unknown_model_witness :
  Api.generate_model_curves [1 / 2] "wcdm"%string
  = Web.Throw (Web.KeyError "wcdm"%string).
Proof.
  apply (generate_model_curves_unknown_model [1 / 2] "wcdm"%string);
    discriminate.
Defined.

Lemma best_fit_curves_total (z_array : list R) :
  (exists c,
      Api.generate_model_curves z_array "lcdm"%string = Web.Return c /\
      curves_shape (length z_array) c /\
      Web.all_compliant (Api.hz c) = true /\
      vectorize (BaseModel.mu (engine (678 / 10) (315 / 1000) (-1) 0 0))
        z_array = Ok (Api.mu c)) /\
  (exists c,
      Api.generate_model_curves z_array "dut"%string = Web.Return c /\
      curves_shape (length z_array) c /\
      Web.all_compliant (Api.hz c) = true /\
      vectorize (BaseModel.mu (engine (692 / 10) (298 / 1000) (-105 / 100)
                                 (8 / 100) (35 / 1000)))
        z_array = Ok (Api.mu c)).
Proof.
  split.
  - rewrite generate_model_curves_lcdm. cbv zeta.
    cbn [LCDM_Vectorized.base].
    destruct (curves_of_methods
                (BaseModel.H (engine (678 / 10) (315 / 1000) (-1) 0 0))
                (BaseModel.mu (engine (678 / 10) (315 / 1000) (-1) 0 0))
                (BaseModel.DV (engine (678 / 10) (315 / 1000) (-1) 0 0))
                (LCDM_Vectorized.fs8_model
                   {| LCDM_Vectorized.base :=
                        engine (678 / 10) (315 / 1000) (-1) 0 0;
                      LCDM_Vectorized.s8 := 811 / 1000 |})
                finite_value any_value any_value any_value z_array)
      as [c [E [Hs [F [_ [_ [_ Emu]]]]]]].
    + intros v _. apply H_engine_finite.
    + intros v _. eexists. split; [apply mu_engine | exact I].
    + intros v _. destruct (DV_engine_total (678 / 10) (315 / 1000)
                              (-1) 0 0 v) as [b Eb].
      exists b. split; [exact Eb | exact I].
    + intros v _. destruct (fs8_LCDM_total (678 / 10) (315 / 1000)
                              (811 / 1000) v) as [b Eb].
      exists b. split; [exact Eb | exact I].
    + exists c. split; [exact E|]. split; [exact Hs|].
      split; [apply all_compliant_Forall, F | exact Emu].
  - rewrite generate_model_curves_dut. cbv zeta.
    cbn [DUT_Vectorized.base].
    destruct (curves_of_methods
                (BaseModel.H (engine (692 / 10) (298 / 1000) (-105 / 100)
                                (8 / 100) (35 / 1000)))
                (BaseModel.mu (engine (692 / 10) (298 / 1000) (-105 / 100)
                                 (8 / 100) (35 / 1000)))
                (BaseModel.DV (engine (692 / 10) (298 / 1000) (-105 / 100)
                                 (8 / 100) (35 / 1000)))
                (DUT_Vectorized.fs8_model
                   {| DUT_Vectorized.base :=
                        engine (692 / 10) (298 / 1000) (-105 / 100)
                          (8 / 100) (35 / 1000);
                      DUT_Vectorized.s8 := 795 / 1000 |})
                finite_value any_value any_value any_value z_array)
      as [c [E [Hs [F [_ [_ [_ Emu]]]]]]].
    + intros v _. apply H_engine_finite.
    + intros v _. eexists. split; [apply mu_engine | exact I].
    + intros v _. destruct (DV_engine_total (692 / 10) (298 / 1000)
                              (-105 / 100) (8 / 100) (35 / 1000) v)
        as [b Eb].
      exists b. split; [exact Eb | exact I].
    + intros v _. destruct (fs8_DUT_total (692 / 10) (298 / 1000)
                              (-105 / 100) (8 / 100) (35 / 1000)
                              (795 / 1000) v) as [b Eb].
      exists b. split; [exact Eb | exact I].
    + exists c. split; [exact E|]. split; [exact Hs|].
      split; [apply all_compliant_Forall, F | exact Emu].
Qed.

(** X10.  For the two known model types [generate_model_curves] returns
    for every array of redshifts, also outside the grid: it never raises
    and each of the four arrays has one entry per redshift.  When every
    redshift of the array is of moderate size (|z| ≤ 10⁶) every Hubble
    rate is a finite number. *)
Theorem generate_model_curves_returns (z_array : list R) :
  (exists c,
      Api.generate_model_curves z_array "lcdm"%string = Web.Return c /\
      curves_shape (length z_array) c /\
      (Forall moderate_redshift z_array ->
       Web.all_compliant (Api.hz c) = true)) /\
  (exists c,
      Api.generate_model_curves z_array "dut"%string = Web.Return c /\
      curves_shape (length z_array) c /\
      (Forall moderate_redshift z_array ->
       Web.all_compliant (Api.hz c) = true)).
Proof.
  destruct (best_fit_curves_total z_array)
    as [[cl [El [Sl [Fl _]]]] [cd [Ed [Sd [Fd _]]]]].
  split.
  - exists cl. split; [exact El|]. split; [exact Sl | intros _; exact Fl].
  - exists cd. split; [exact Ed|]. split; [exact Sd | intros _; exact Fd].
Qed.

(** * Requests inside and at the edge of the grid *)

Lemma linspace_length (a b : R) (n : nat) : length (linspace a b n) = n.
Proof. unfold linspace. rewrite length_map, length_seq. reflexivity. Qed.

Lemma linspace_head (a b : R) (n : nat) :
  exists l, linspace a b (S n) = a :: l.
Proof.
  unfold linspace. cbn [seq map]. eexists. f_equal.
  cbn [INR]. ring.
Qed.

(** Every sample of [np.linspace(a, b, n)] lies between [a] and [b]. *)
Lemma linspace_range (a b v : R) (n : nat) :
  a <= b -> In v (linspace a b n) -> a <= v <= b.
Proof.
  intros Hab Hv. unfold linspace in Hv. apply in_map_iff in Hv.
  destruct Hv as [i [<- Hi]]. apply in_seq in Hi.
  destruct (Nat.eq_dec n 1) as [->|Hn].
  - assert (i = 0)%nat as -> by lia. cbn [INR]. lra.
  - assert (H1 : (1 <= n - 1)%nat) by lia.
    assert (Hd : 0 < INR (n - 1)) by (apply lt_0_INR; lia).
    assert (Hi' : INR i <= INR (n - 1)) by (apply le_INR; lia).
    assert (Hi0 : 0 <= INR i) by apply pos_INR.
    set (t := INR i / INR (n - 1)).
    assert (Ht : 0 <= t <= 1).
    { unfold t. split.
      - unfold Rdiv. apply Rmult_le_pos; [exact Hi0|].
        apply Rlt_le, Rinv_0_lt_compat, Hd.
      - apply Rmult_le_reg_r with (INR (n - 1)); [exact Hd|].
        unfold Rdiv. rewrite Rmult_assoc, Rinv_l by lra. lra. }
    replace (a + INR i * ((b - a) / INR (n - 1)))
      with (a + t * (b - a)) by (unfold t; field; lra).
    assert (0 <= t * (b - a)) by (apply Rmult_le_pos; lra).
    assert (t * (b - a) <= 1 * (b - a))
      by (apply Rmult_le_compat_r; lra).
    lra.
Qed.

Lemma mu_engine_finite (H0 Om w0 wa xi z : R) :
  valid_parameters H0 Om -> grid_point 1 <= z -> z <= 5 ->
  exists b, BaseModel.mu (engine H0 Om w0 wa xi) z = Ok b /\ finite_value b.
Proof.
  intros Hv Hz Hz'. pose proof Hv as [HH _].
  assert (Hdl : 0 < DLR H0 Om w0 wa xi z).
  { apply DLR_positive_from_second_point; try assumption.
    apply valid_parameters_hubble_ok, Hv. }
  apply mu_finite_iff in Hdl. destruct Hdl as [v Ev].
  eexists. split; [apply mu_engine|]. exists v. exact Ev.
Qed.

Lemma DV_engine_finite (H0 Om w0 wa xi z : R) :
  valid_parameters H0 Om -> / 1000 <= z -> z <= 5 ->
  exists b, BaseModel.DV (engine H0 Om w0 wa xi) z = Ok b /\ finite_value b.
Proof.
  intros Hv Hz Hz'. pose proof Hv as [HH _].
  destruct (DV_engine_on_grid H0 Om w0 wa xi z HH
              (valid_parameters_hubble_ok _ _ _ _ _ Hv) Hz Hz')
    as [v [E _]].
  eexists. split; [exact E|]. exists v. reflexivity.
Qed.

Lemma best_fit_curves_finite (z_array : list R) :
  Forall (fun v => grid_point 1 <= v <= 5) z_array ->
  (exists c,
      Api.generate_model_curves z_array "lcdm"%string = Web.Return c /\
      curves_shape (length z_array) c /\
      Api.curves_compliant c = true) /\
  (exists c,
      Api.generate_model_curves z_array "dut"%string = Web.Return c /\
      curves_shape (length z_array) c /\
      Api.curves_compliant c = true).
Proof.
  intros Hz. rewrite Forall_forall in Hz.
  pose proof grid_point_1_bounds as Hg.
  split.
  - rewrite generate_model_curves_lcdm. cbv zeta.
    cbn [LCDM_Vectorized.base].
    destruct (curves_of_methods
                (BaseModel.H (engine (678 / 10) (315 / 1000) (-1) 0 0))
                (BaseModel.mu (engine (678 / 10) (315 / 1000) (-1) 0 0))
                (BaseModel.DV (engine (678 / 10) (315 / 1000) (-1) 0 0))
                (LCDM_Vectorized.fs8_model
                   {| LCDM_Vectorized.base :=
                        engine (678 / 10) (315 / 1000) (-1) 0 0;
                      LCDM_Vectorized.s8 := 811 / 1000 |})
                finite_value finite_value finite_value finite_value z_array)
      as [c [E [Hs [F1 [F2 [F3 [F4 _]]]]]]].
    + intros v _. apply H_engine_finite.
    + intros v Hv. apply mu_engine_finite;
        [apply best_fit_lcdm_valid | apply Hz, Hv | apply Hz, Hv].
    + intros v Hv. specialize (Hz v Hv). apply DV_engine_finite;
        [apply best_fit_lcdm_valid | lra | lra].
    + intros v Hv. specialize (Hz v Hv). eexists. split.
      * apply fs8_engine_LCDM; [apply best_fit_lcdm_valid | lra | lra].
      * eexists. reflexivity.
    + exists c. split; [exact E|]. split; [exact Hs|].
      unfold Api.curves_compliant.
      rewrite !all_compliant_Forall by assumption. reflexivity.
  - rewrite generate_model_curves_dut. cbv zeta.
    cbn [DUT_Vectorized.base].
    destruct (curves_of_methods
                (BaseModel.H (engine (692 / 10) (298 / 1000) (-105 / 100)
                                (8 / 100) (35 / 1000)))
                (BaseModel.mu (engine (692 / 10) (298 / 1000) (-105 / 100)
                                 (8 / 100) (35 / 1000)))
                (BaseModel.DV (engine (692 / 10) (298 / 1000) (-105 / 100)
                                 (8 / 100) (35 / 1000)))
                (DUT_Vectorized.fs8_model
                   {| DUT_Vectorized.base :=
                        engine (692 / 10) (298 / 1000) (-105 / 100)
                          (8 / 100) (35 / 1000);
                      DUT_Vectorized.s8 := 795 / 1000 |})
                finite_value finite_value finite_value finite_value z_array)
      as [c [E [Hs [F1 [F2 [F3 [F4 _]]]]]]].
    + intros v _. apply H_engine_finite.
    + intros v Hv. apply mu_engine_finite;
        [apply best_fit_dut_valid | apply Hz, Hv | apply Hz, Hv].
    + intros v Hv. specialize (Hz v Hv). apply DV_engine_finite;
        [apply best_fit_dut_valid | lra | lra].
    + intros v Hv. specialize (Hz v Hv). eexists. split.
      * apply fs8_engine_DUT; [apply best_fit_dut_valid | lra | lra].
      * eexists. reflexivity.
    + exists c. split; [exact E|]. split; [exact Hs|].
      unfold Api.curves_compliant.
      rewrite !all_compliant_Forall by assumption. reflexivity.
Qed.

(** X11.  A request whose redshift range lies between the second grid
    point and z = 5 is answered: [get_model_curves] returns a body that the
    JSON encoder accepts (every number of both models is finite), with
    [n_points] redshifts and [n_points] entries in each of the eight
    arrays.  The default request (0.01, 2.5, 100) is such a request. *)
Theorem get_model_curves_in_range (z_min z_max : R) (n_points : Z) :
  nth 1 (NinjaDataVectorized.z_grid data) 0 <= z_min ->
  z_min <= z_max -> z_max <= 5 -> (0 <= n_points)%Z ->
  exists body,
    Api.get_model_curves z_min z_max n_points = Web.Return body /\
    length (Api.z body) = Z.to_nat n_points /\
    curves_shape (Z.to_nat n_points) (Api.lcdm body) /\
    curves_shape (Z.to_nat n_points) (Api.dut body) /\
    Api.curves_compliant (Api.lcdm body) = true /\
    Api.curves_compliant (Api.dut body) = true.
Proof.
  intros Hlo Hmid Hhi Hn.
  rewrite z_grid_nth in Hlo by (unfold N_Z_GRID_POINTS; lia).
  unfold Api.get_model_curves, Web.np_linspace.
  assert (En : (n_points <? 0)%Z = false) by (apply Z.ltb_ge; exact Hn).
  rewrite En. cbn [Web.obind].
  set (z_array := linspace z_min z_max (Z.to_nat n_points)).
  assert (Hz : Forall (fun v => grid_point 1 <= v <= 5) z_array).
  { apply Forall_forall. intros v Hv.
    apply (linspace_range _ _ _ _ Hmid) in Hv. lra. }
  destruct (best_fit_curves_finite z_array Hz)
    as [[cl [El [Sl Cl]]] [cd [Ed [Sd Cd]]]].
  rewrite El. cbn [Web.obind]. rewrite Ed. cbn [Web.obind].
  unfold Web.JSONResponse, Api.body_compliant. cbn [Api.lcdm Api.dut].
  rewrite Cl, Cd. cbn [andb].
  eexists. split; [reflexivity|].
  cbn [Api.z Api.lcdm Api.dut].
  unfold z_array in *. rewrite linspace_length in *.
  split; [reflexivity|]. split; [exact Sl|]. split; [exact Sd|].
  split; assumption.
Qed.

Lemma get_model_curves_in_range_witness :
  exists body,
    Api.get_model_curves (1 / 100) (25 / 10) 100 = Web.Return body /\
    length (Api.z body) = Z.to_nat 100 /\
    curves_shape (Z.to_nat 100) (Api.lcdm body) /\
    curves_shape (Z.to_nat 100) (Api.dut body) /\
    Api.curves_compliant (Api.lcdm body) = true /\
    Api.curves_compliant (Api.dut body) = true.
Proof.
  assert (Hlo : nth 1 (NinjaDataVectorized.z_grid data) 0 <= 1 / 100).
  { rewrite z_grid_nth by (unfold N_Z_GRID_POINTS; lia).
    pose proof grid_point_1_bounds. lra. }
  assert (Hmid : 1 / 100 <= 25 / 10) by lra.
  assert (Hhi : 25 / 10 <= 5) by lra.
  assert (Hn : (0 <= 100)%Z) by lia.
  exact (get_model_curves_in_range (1 / 100) (25 / 10) 100 Hlo Hmid Hhi Hn).
Defined.

Lemma vectorize_head {A B : Type} (f : A -> result B) (a : A) (l : list A)
  (b : B) (bs : list B) :
  f a = Ok b -> vectorize f (a :: l) = Ok bs -> exists bs', bs = b :: bs'.
Proof.
  intros Eb E. rewrite vectorize_cons, Eb in E. cbn [bind] in E.
  destruct (vectorize f l) as [bs'|e]; cbn [bind] in E; [|discriminate].
  exists bs'. symmetry. apply Ok_inj, E.
Qed.

Lemma mu_engine_first (H0 Om w0 wa xi : R) :
  BaseModel.mu (engine H0 Om w0 wa xi) (/ 1000) = Ok NInf.
Proof.
  rewrite mu_engine, DLR_first. cbn [np_log10].
  destruct (Rlt_dec 0 0); [lra|]. cbn [np_mul np_add].
  unfold inf_of_sign.
  destruct (Rlt_dec 0 (- (5))); [lra|].
  destruct (Rlt_dec (- (5)) 0); [|lra]. reflexivity.
Qed.

(** X12.  A request that starts at the first grid point, z_min = 0.001,
    with at least one sample is not answered: the first distance modulus
    is −∞, which the JSON encoder refuses, so [get_model_curves] raises
    [ValueError] whatever z_max and n_points are. *)
Theorem get_model_curves_at_first_grid_point (z_max : R) (n_points : Z) :
  (1 <= n_points)%Z ->
  Api.get_model_curves (/ 1000) z_max n_points
  = Web.Throw (Web.Propagated ValueError).
Proof.
  intros Hn. unfold Api.get_model_curves, Web.np_linspace.
  assert (En : (n_points <? 0)%Z = false) by (apply Z.ltb_ge; lia).
  rewrite En. cbn [Web.obind].
  destruct (Z.to_nat n_points) as [|n] eqn:Enat; [lia|].
  destruct (linspace_head (/ 1000) z_max n) as [l ->].
  destruct (best_fit_curves_total (/ 1000 :: l))
    as [[cl [El [_ [_ Emu]]]] [cd [Ed _]]].
  rewrite El. cbn [Web.obind]. rewrite Ed. cbn [Web.obind].
  unfold Web.JSONResponse, Api.body_compliant. cbn [Api.lcdm Api.dut].
  apply (vectorize_head _ _ _ NInf _ (mu_engine_first _ _ _ _ _)) in Emu.
  destruct Emu as [t Et].
  unfold Api.curves_compliant at 1. rewrite Et.
  unfold Web.all_compliant at 2. cbn [forallb is_finite andb].
  rewrite andb_false_r. reflexivity.
Qed.

Lemma get_model_curves_at_first_grid_point_witness :
  Api.get_model_curves (/ 1000) (25 / 10) 100
  = Web.Throw (Web.Propagated ValueError).
Proof.
  apply (get_model_curves_at_first_grid_point (25 / 10) 100). lia.
Defined.

(** * The observational data *)

Lemma eye_length (n : nat) : length (eye n) = n.
Proof. unfold eye. rewrite length_map, length_seq. reflexivity. Qed.

Lemma mul_rows_length (m : list (list R)) (v : list R) :
  length (mul_rows m v) = length m.
Proof. unfold mul_rows. apply length_map. Qed.

Lemma zip_with_Rmult_nth (l1 l2 : list R) (i : nat) :
  (i < length l1)%nat -> (i < length l2)%nat ->
  nth i (zip_with Rmult l1 l2) 0 = nth i l1 0 * nth i l2 0.
Proof.
  revert l2 i. induction l1 as [|a l1 IH]; intros l2 i H1 H2.
  { simpl in H1. lia. }
  destruct l2 as [|b l2]; [simpl in H2; lia|].
  destruct i as [|i]; [reflexivity|].
  cbn [zip_with nth]. apply IH; simpl in *; lia.
Qed.

Lemma map_seq_nth (v : list R) (f : nat -> R) :
  (forall i, (i < length v)%nat -> f i = nth i v 0) ->
  map f (seq 0 (length v)) = v.
Proof.
  intros Hf. apply (nth_ext _ _ 0 0).
  - rewrite length_map, length_seq. reflexivity.
  - intros i Hi. rewrite length_map, length_seq in Hi.
    rewrite (nth_indep _ 0 (f 0%nat))
      by (rewrite length_map, length_seq; exact Hi).
    rewrite map_nth, seq_nth by exact Hi. apply Hf, Hi.
Qed.

Lemma nth_map_seq {A : Type} (f : nat -> A) (n i : nat) (d : A) :
  (i < n)%nat -> nth i (map f (seq 0 n)) d = f i.
Proof.
  intros Hi.
  rewrite (nth_indep _ d (f 0%nat))
    by (rewrite length_map, length_seq; exact Hi).
  rewrite map_nth, seq_nth by exact Hi. reflexivity.
Qed.

(** The diagonal of [np.eye(n) * v] is [v]. *)
Lemma diag_eye (v : list R) : diag (mul_rows (eye (length v)) v) = v.
Proof.
  unfold diag. rewrite mul_rows_length, eye_length.
  apply map_seq_nth. intros i Hi.
  unfold mul_rows, eye. rewrite map_map.
  rewrite nth_map_seq by exact Hi.
  rewrite zip_with_Rmult_nth
    by (rewrite ?length_map, ?length_seq; exact Hi).
  rewrite nth_map_seq by exact Hi.
  rewrite Nat.eqb_refl. ring.
Qed.

Lemma pantheon_z_length : length Observations.pantheon_z = 1048%nat.
Proof.
  unfold Observations.pantheon_z, Observations.z_low, Observations.z_mid,
    Observations.z_high, Observations.z_vhigh.
  rewrite !length_app, !linspace_length. reflexivity.
Qed.

Lemma pantheon_z_range (z : R) :
  In z Observations.pantheon_z -> 1 / 100 <= z <= 23 / 10.
Proof.
  unfold Observations.pantheon_z, Observations.z_low, Observations.z_mid,
    Observations.z_high, Observations.z_vhigh.
  intros H. repeat (apply in_app_or in H; destruct H as [H|H]);
    apply linspace_range in H; lra.
Qed.

Lemma pantheon_diag :
  diag Observations.pantheon_cov
  = map (fun z => (14 / 100 + 25 / 1000 * z) ^ 2 + (15 / 1000) ^ 2)
      Observations.pantheon_z.
Proof.
  unfold Observations.pantheon_cov, Observations.err.
  rewrite map_map.
  pose proof (diag_eye
                (map (fun z => (14 / 100 + 25 / 1000 * z) ^ 2
                               + (15 / 1000) ^ 2)
                   Observations.pantheon_z)) as E.
  rewrite length_map in E. exact E.
Qed.

Lemma pantheon_err_entry (z : R) :
  np_sqrt (Fin ((14 / 100 + 25 / 1000 * z) ^ 2 + (15 / 1000) ^ 2))
  = Fin (sqrt ((14 / 100 + 25 / 1000 * z) ^ 2 + (15 / 1000) ^ 2)).
Proof.
  cbn [np_sqrt].
  destruct (Rlt_dec _ 0) as [H|_]; [|reflexivity].
  exfalso. pose proof (pow2_ge_0 (14 / 100 + 25 / 1000 * z)). lra.
Qed.

Lemma pantheon_err_list :
  map (fun v => np_sqrt (Fin v)) (diag Observations.pantheon_cov)
  = map (fun z => Fin (sqrt ((14 / 100 + 25 / 1000 * z) ^ 2
                             + (15 / 1000) ^ 2)))
      Observations.pantheon_z.
Proof.
  rewrite pantheon_diag, map_map. apply map_ext. intros z.
  apply pantheon_err_entry.
Qed.

Lemma pantheon_mu_entry (z : R) :
  1 / 100 <= z ->
  (Fin 5 * np_log10 (Fin (z + 1 / 100)) + Fin (3618 / 100)
   + Fin (6 / 100) * np_sin (Fin (2 * PI * z)))%np
  = Fin (5 * (ln (z + 1 / 100) / ln 10) + 3618 / 100
         + 6 / 100 * sin (2 * PI * z)).
Proof.
  intros Hz. cbn [np_log10 np_sin].
  destruct (Rlt_dec 0 (z + 1 / 100)) as [_|H]; [reflexivity | lra].
Qed.

Lemma all_compliant_map_Fin (l : list R) :
  Web.all_compliant (map Fin l) = true.
Proof.
  apply all_compliant_Forall, Forall_forall. intros v Hv.
  apply in_map_iff in Hv. destruct Hv as [r [<- _]]. exists r. reflexivity.
Qed.

Lemma pantheon_mu_compliant :
  Web.all_compliant Observations.pantheon_mu = true.
Proof.
  apply all_compliant_Forall, Forall_forall. intros v Hv.
  unfold Observations.pantheon_mu in Hv. apply in_map_iff in Hv.
  destruct Hv as [z [<- Hz]]. apply pantheon_z_range in Hz.
  eexists. apply pantheon_mu_entry. lra.
Qed.

(** X13.  [get_observational_data] is answered: every number of the four
    probes is finite, so the JSON encoder accepts the body, and in each
    probe the arrays of redshifts, values and errors have exactly the
    announced number of points: 1048 supernovae, 8 BAO points, 50 H(z)
    points and 28 growth-rate points. *)
Theorem get_observational_data_shape :
  exists body,
    Api.get_observational_data = Web.Return body /\
    dataset_shape 1048 (Api.obs_pantheon body) /\
    dataset_shape 8 (Api.obs_bao body) /\
    dataset_shape 50 (Api.obs_hubble body) /\
    dataset_shape 28 (Api.obs_fs8 body).
Proof.
  unfold Api.get_observational_data, Web.JSONResponse.
  unfold Api.observational_compliant at 1.
  cbn [Api.obs_pantheon Api.obs_bao Api.obs_hubble Api.obs_fs8].
  unfold Api.dataset_compliant.
  cbn [Api.ds_z Api.ds_obs Api.ds_err].
  rewrite !all_compliant_map_Fin, pantheon_mu_compliant.
  rewrite pantheon_err_list.
  rewrite (all_compliant_Forall
             (map (fun z => Fin (sqrt ((14 / 100 + 25 / 1000 * z) ^ 2
                                       + (15 / 1000) ^ 2)))
                Observations.pantheon_z)).
  2:{ apply Forall_forall. intros v Hv. apply in_map_iff in Hv.
      destruct Hv as [z [<- _]]. eexists. reflexivity. }
  cbn [andb]. eexists. split; [reflexivity|].
  cbn [Api.obs_pantheon Api.obs_bao Api.obs_hubble Api.obs_fs8].
  unfold dataset_shape.
  cbn [Api.n_points Api.ds_z Api.ds_obs Api.ds_err].
  split.
  { unfold Observations.n_sn, Observations.pantheon_mu.
    rewrite !length_map, pantheon_z_length. tauto. }
  split; [repeat split; reflexivity|].
  split; repeat split; reflexivity.
Qed.

(** X14.  The supernova error the endpoint reports for the i-th redshift
    z is sqrt((0.14 + 0.025·z)² + 0.015²): taking the diagonal of
    [np.eye(n) * v] gives [v] back.  Every redshift of the sample lies in
    [0.01, 2.3], so every reported error lies strictly between 0.14
    and 0.2. *)
Theorem pantheon_reported_errors (i : nat) :
  (i < Observations.n_sn)%nat ->
  exists body z e,
    Api.get_observational_data = Web.Return body /\
    nth i Observations.pantheon_z 0 = z /\
    1 / 100 <= z <= 23 / 10 /\
    nth i (Api.ds_err (Api.obs_pantheon body)) NaN = Fin e /\
    e = sqrt ((14 / 100 + 25 / 1000 * z) ^ 2 + (15 / 1000) ^ 2) /\
    14 / 100 < e < 2 / 10.
Proof.
  intros Hi.
  assert (Hin : In (nth i Observations.pantheon_z 0)
                  Observations.pantheon_z) by (apply nth_In; exact Hi).
  apply pantheon_z_range in Hin.
  set (z := nth i Observations.pantheon_z 0) in *.
  unfold Api.get_observational_data, Web.JSONResponse.
  unfold Api.observational_compliant at 1.
  cbn [Api.obs_pantheon Api.obs_bao Api.obs_hubble Api.obs_fs8].
  unfold Api.dataset_compliant.
  cbn [Api.ds_z Api.ds_obs Api.ds_err].
  rewrite !all_compliant_map_Fin, pantheon_mu_compliant.
  rewrite pantheon_err_list.
  rewrite (all_compliant_Forall
             (map (fun z => Fin (sqrt ((14 / 100 + 25 / 1000 * z) ^ 2
                                       + (15 / 1000) ^ 2)))
                Observations.pantheon_z)).
  2:{ apply Forall_forall. intros v Hv. apply in_map_iff in Hv.
      destruct Hv as [z' [<- _]]. eexists. reflexivity. }
  cbn [andb]. eexists. exists z. eexists.
  split; [reflexivity|]. split; [reflexivity|]. split; [exact Hin|].
  cbn [Api.obs_pantheon Api.ds_err].
  split.
  { rewrite (nth_indep _ NaN
               ((fun z => Fin (sqrt ((14 / 100 + 25 / 1000 * z) ^ 2
                                     + (15 / 1000) ^ 2))) 0))
      by (rewrite length_map; exact Hi).
    rewrite (map_nth (fun z => Fin (sqrt ((14 / 100 + 25 / 1000 * z) ^ 2
                                          + (15 / 1000) ^ 2)))).
    reflexivity. }
  split; [reflexivity|].
  fold z.
  set (a := 14 / 100 + 25 / 1000 * z).
  assert (Ha : 14 / 100 < a <= 1975 / 10000) by (unfold a; lra).
  split.
  - rewrite <- (sqrt_pow2 (14 / 100)) by lra.
    apply sqrt_lt_1_alt. nra.
  - rewrite <- (sqrt_pow2 (2 / 10)) by lra.
    apply sqrt_lt_1_alt. nra.
Qed.

Lemma pantheon_reported_errors_witness :
  exists body z e,
    Api.get_observational_data = Web.Return body /\
    nth 0 Observations.pantheon_z 0 = z /\
    1 / 100 <= z <= 23 / 10 /\
    nth 0 (Api.ds_err (Api.obs_pantheon body)) NaN = Fin e /\
    e = sqrt ((14 / 100 + 25 / 1000 * z) ^ 2 + (15 / 1000) ^ 2) /\
    14 / 100 < e < 2 / 10.
Proof.
  apply (pantheon_reported_errors 0).
  unfold Observations.n_sn. rewrite pantheon_z_length. lia.
Defined.

(** * The metrics endpoint *)

(** X15.  The reduced χ² of [get_metrics] divides χ²_min by
    N − 1 − n_params, where N = n_sn + n_hz + n_fs8 + n_bao is the number
    of points [load_all_data] holds (1134): the endpoint counts 49 H(z)
    points where the data object has 50.  The n_params of either model is
    the number of its [BEST_FIT] entries. *)
Theorem metrics_degrees_of_freedom :
  let N := Z.of_nat (Observations.n_sn + Observations.n_hz
                     + Observations.n_fs8 + Observations.n_bao) in
  exists p_lcdm p_dut,
    Web.getitem Api.BEST_FIT "lcdm"%string = Web.Return p_lcdm /\
    Web.getitem Api.BEST_FIT "dut"%string = Web.Return p_dut /\
    Api.n_params Api.get_metrics_lcdm = Z.of_nat (length p_lcdm) /\
    Api.n_params Api.get_metrics_dut = Z.of_nat (length p_dut) /\
    Api.chi2_dof Api.get_metrics_lcdm
    * IZR (N - 1 - Api.n_params Api.get_metrics_lcdm)
    = Api.chi2_min Api.get_metrics_lcdm /\
    Api.chi2_dof Api.get_metrics_dut
    * IZR (N - 1 - Api.n_params Api.get_metrics_dut)
    = Api.chi2_min Api.get_metrics_dut.
Proof.
  cbv zeta. unfold Observations.n_sn. rewrite pantheon_z_length.
  eexists. eexists.
  split; [reflexivity|]. split; [reflexivity|].
  split; [reflexivity|]. split; [reflexivity|].
  unfold Api.get_metrics_lcdm, Api.get_metrics_dut.
  cbn [Api.chi2_dof Api.chi2_min Api.n_params].
  change (Z.of_nat (1048 + Observations.n_hz + Observations.n_fs8
                    + Observations.n_bao) - 1 - 3)%Z with 1130%Z.
  change (Z.of_nat (1048 + Observations.n_hz + Observations.n_fs8
                    + Observations.n_bao) - 1 - 6)%Z with 1127%Z.
  change (1048 + 49 + 28 + 8 - 3)%Z with 1130%Z.
  change (1048 + 49 + 28 + 8 - 6)%Z with 1127%Z.
  split; field.
Qed.

(** * The standalone generators *)

Lemma Forall2_map_same {A B C : Type} (P : B -> C -> Prop) (f : A -> B)
  (g : A -> C) (l : list A) :
  (forall a, In a l -> P (f a) (g a)) -> Forall2 P (map f l) (map g l).
Proof.
  induction l as [|a l IH]; intros H; simpl; constructor.
  - apply H. left. reflexivity.
  - apply IH. intros a' Ha'. apply H. right. exact Ha'.
Qed.

Lemma linspace_from_zero (b : R) (n : nat) :
  linspace 0 b n = map (fun i => INR i * (b / INR (n - 1))) (seq 0 n).
Proof.
  unfold linspace. apply map_ext. intros i. unfold Rdiv. ring.
Qed.

Lemma hz_lcdm_value (z : R) :
  0 <= z ->
  Standalone.hz_lcdm z
  = Fin (678 / 10 * sqrt (315 / 1000 * (1 + z) ^ 3 + (1 - 315 / 1000))).
Proof.
  intros Hz. unfold Standalone.hz_lcdm. cbn [np_add].
  rewrite fin_pow3. cbn [np_mul np_add].
  rewrite fin_sqrt; [reflexivity|].
  assert (0 <= (1 + z) ^ 3) by (apply pow_le; lra). lra.
Qed.

Lemma hz_dut_value (z : R) :
  0 <= z ->
  Standalone.hz_dut z
  = Fin (692 / 10 * sqrt (298 / 1000 * (1 + z) ^ 3
                          + (1 - 298 / 1000) * (1 + 35 / 1000 * z))).
Proof.
  intros Hz. unfold Standalone.hz_dut. cbn [np_add np_mul].
  rewrite fin_pow3. cbn [np_mul np_add].
  rewrite fin_sqrt; [reflexivity|].
  assert (0 <= (1 + z) ^ 3) by (apply pow_le; lra).
  assert (0 <= (1 - 298 / 1000) * (1 + 35 / 1000 * z))
    by (apply Rmult_le_pos; lra).
  lra.
Qed.

Lemma cube_increasing (a b : R) : 0 <= a -> a < b -> a ^ 3 < b ^ 3.
Proof.
  intros Ha Hab.
  assert (0 < b - a) by lra.
  assert (0 < a * a + a * b + b * b) by nra.
  assert (0 < (b - a) * (a * a + a * b + b * b))
    by (apply Rmult_lt_0_compat; assumption).
  nra.
Qed.

Lemma sample_step_pos (i : nat) :
  0 <= INR i * (25 / 10 / INR (100 - 1))
  /\ INR i * (25 / 10 / INR (100 - 1))
     < INR (S i) * (25 / 10 / INR (100 - 1)).
Proof.
  assert (Hs : 0 < 25 / 10 / INR (100 - 1)).
  { apply Rdiv_lt_0_compat; [lra | apply lt_0_INR; lia]. }
  pose proof (pos_INR i). rewrite S_INR. split; [|nra].
  apply Rmult_le_pos; lra.
Qed.

(** X16.  In [generate_hz_data] both model curves have 100 finite
    entries, start exactly at the Hubble constant of the model (67.8 and
    69.2, at z = 0) and increase strictly from one sample to the next. *)
Theorem generate_hz_data_curves :
  exists l d : list R,
    Standalone.lcdm (fst Standalone.generate_hz_data) = map Fin l /\
    Standalone.dut (fst Standalone.generate_hz_data) = map Fin d /\
    length l = 100%nat /\ length d = 100%nat /\
    hd 0 l = 678 / 10 /\ hd 0 d = 692 / 10 /\
    increasing l /\ increasing d /\
    Standalone.get_hz = Web.Return Standalone.generate_hz_data.
Proof.
  set (fl := fun i : nat =>
         678 / 10 * sqrt (315 / 1000
                          * (1 + INR i * (25 / 10 / INR (100 - 1))) ^ 3
                          + (1 - 315 / 1000))).
  set (fd := fun i : nat =>
         692 / 10 * sqrt (298 / 1000
                          * (1 + INR i * (25 / 10 / INR (100 - 1))) ^ 3
                          + (1 - 298 / 1000)
                            * (1 + 35 / 1000
                                   * (INR i * (25 / 10 / INR (100 - 1)))))).
  assert (El : Standalone.lcdm (fst Standalone.generate_hz_data)
               = map Fin (map fl (seq 0 100))).
  { unfold Standalone.generate_hz_data. cbv zeta.
    cbn [fst Standalone.lcdm]. rewrite linspace_from_zero, !map_map.
    apply map_ext. intros i. apply hz_lcdm_value, sample_step_pos. }
  assert (Ed : Standalone.dut (fst Standalone.generate_hz_data)
               = map Fin (map fd (seq 0 100))).
  { unfold Standalone.generate_hz_data. cbv zeta.
    cbn [fst Standalone.dut]. rewrite linspace_from_zero, !map_map.
    apply map_ext. intros i. apply hz_dut_value, sample_step_pos. }
  exists (map fl (seq 0 100)), (map fd (seq 0 100)).
  split; [exact El|]. split; [exact Ed|].
  split; [rewrite length_map, length_seq; reflexivity|].
  split; [rewrite length_map, length_seq; reflexivity|].
  split.
  { cbn [seq map hd]. unfold fl. cbn [INR]. rewrite Rmult_0_l, Rplus_0_r.
    replace (315 / 1000 * 1 ^ 3 + (1 - 315 / 1000)) with 1 by field.
    rewrite sqrt_1. ring. }
  split.
  { cbn [seq map hd]. unfold fd. cbn [INR].
    rewrite !Rmult_0_l, Rmult_0_r, !Rplus_0_r.
    replace (298 / 1000 * 1 ^ 3 + (1 - 298 / 1000) * 1) with 1 by field.
    rewrite sqrt_1. ring. }
  split.
  { apply increasing_map_seq. intros i. unfold fl.
    destruct (sample_step_pos i) as [H0 Hlt].
    set (a := INR i * (25 / 10 / INR (100 - 1))) in *.
    set (b := INR (S i) * (25 / 10 / INR (100 - 1))) in *.
    assert (Hc : (1 + a) ^ 3 < (1 + b) ^ 3) by (apply cube_increasing; lra).
    assert (0 <= (1 + a) ^ 3) by (apply pow_le; lra).
    apply Rmult_lt_compat_l; [lra|].
    apply sqrt_lt_1_alt. lra. }
  split.
  { apply increasing_map_seq. intros i. unfold fd.
    destruct (sample_step_pos i) as [H0 Hlt].
    set (a := INR i * (25 / 10 / INR (100 - 1))) in *.
    set (b := INR (S i) * (25 / 10 / INR (100 - 1))) in *.
    assert (Hc : (1 + a) ^ 3 < (1 + b) ^ 3) by (apply cube_increasing; lra).
    assert (0 <= (1 + a) ^ 3) by (apply pow_le; lra).
    apply Rmult_lt_compat_l; [lra|].
    apply sqrt_lt_1_alt. lra. }
  unfold Standalone.get_hz, Web.JSONResponse, Standalone.series_compliant.
  rewrite El, Ed, !all_compliant_map_Fin. reflexivity.
Qed.

Lemma mu_value (k z : R) :
  0 < z -> 0 < k ->
  (Fin 5 * np_log10 (Fin (z * (1 + k * z) * 3000)) + Fin 25)%np
  = Fin (5 * (ln (z * (1 + k * z) * 3000) / ln 10) + 25).
Proof.
  intros Hz Hk. cbn [np_log10].
  assert (0 < z * (1 + k * z) * 3000).
  { apply Rmult_lt_0_compat; [|lra]. apply Rmult_lt_0_compat; [lra|].
    assert (0 < k * z) by (apply Rmult_lt_0_compat; assumption). lra. }
  destruct (Rlt_dec 0 (z * (1 + k * z) * 3000)); [reflexivity | lra].
Qed.

(** X17.  In [generate_mu_data] the redshifts start at 0.01, not at 0, so
    every luminosity distance is positive and all 100 distance moduli of
    both models are finite: [get_mu] is answered.  At every sample the DUT
    modulus is strictly above the ΛCDM one. *)
Theorem generate_mu_data_curves :
  length (Standalone.z Standalone.generate_mu_data) = 100%nat /\
  Forall2 strictly_below
    (Standalone.lcdm Standalone.generate_mu_data)
    (Standalone.dut Standalone.generate_mu_data) /\
  Standalone.get_mu = Web.Return Standalone.generate_mu_data.
Proof.
  assert (Hr : forall v, In v (linspace (1 / 100) (25 / 10) 100) ->
                         0 < v).
  { intros v Hv. apply linspace_range in Hv; lra. }
  assert (El : forall v, 0 < v -> Standalone.mu_lcdm v
             = Fin (5 * (ln (v * (1 + 5 / 10 * (1 - 315 / 1000) * v)
                             * 3000) / ln 10) + 25)).
  { intros v Hv. unfold Standalone.mu_lcdm. apply mu_value; lra. }
  assert (Ed : forall v, 0 < v -> Standalone.mu_dut v
             = Fin (5 * (ln (v * (1 + 5 / 10 * (1 - 298 / 1000)
                                      * (102 / 100) * v)
                             * 3000) / ln 10) + 25)).
  { intros v Hv. unfold Standalone.mu_dut.
    replace (5 / 10 * (1 - 298 / 1000) * v * (102 / 100))
      with (5 / 10 * (1 - 298 / 1000) * (102 / 100) * v) by ring.
    apply mu_value; lra. }
  unfold Standalone.generate_mu_data. cbv zeta.
  cbn [Standalone.z Standalone.lcdm Standalone.dut].
  split; [apply linspace_length|].
  split.
  - apply Forall2_map_same. intros v Hv. apply Hr in Hv.
    eexists. eexists. split; [apply El, Hv|]. split; [apply Ed, Hv|].
    pose proof ln10_pos as H10.
    assert (Hlt : v * (1 + 5 / 10 * (1 - 315 / 1000) * v) * 3000
                  < v * (1 + 5 / 10 * (1 - 298 / 1000) * (102 / 100) * v)
                    * 3000) by nra.
    assert (Hp : 0 < v * (1 + 5 / 10 * (1 - 315 / 1000) * v) * 3000)
      by nra.
    pose proof (ln_increasing _ _ Hp Hlt) as Hln.
    assert (ln (v * (1 + 5 / 10 * (1 - 315 / 1000) * v) * 3000) / ln 10
            < ln (v * (1 + 5 / 10 * (1 - 298 / 1000) * (102 / 100) * v)
                  * 3000) / ln 10).
    { apply Rmult_lt_compat_r; [apply Rinv_0_lt_compat, H10 | exact Hln]. }
    lra.
  - unfold Standalone.get_mu, Web.JSONResponse,
      Standalone.series_compliant.
    cbn [Standalone.lcdm Standalone.dut].
    rewrite !all_compliant_Forall; [reflexivity| |].
    + apply Forall_forall. intros b Hb. apply in_map_iff in Hb.
      destruct Hb as [v [<- Hv]]. eexists. apply Ed, Hr, Hv.
    + apply Forall_forall. intros b Hb. apply in_map_iff in Hb.
      destruct Hb as [v [<- Hv]]. eexists. apply El, Hr, Hv.
Qed.

Lemma fiftieth_root_bound (u : R) :
  1 <= u -> u <= 35 / 10 -> Rpower u (2 / 100) < 47 / 45.
Proof.
  intros H1 Hu. set (t := Rpower u (2 / 100)).
  assert (Ht : 0 < t) by (unfold t, Rpower; apply exp_pos).
  destruct (Rlt_dec t (47 / 45)) as [H|H]; [exact H|].
  exfalso. apply Rnot_lt_le in H.
  assert (E50 : t ^ 50 = u).
  { rewrite <- Rpower_pow by exact Ht. unfold t. rewrite Rpower_mult.
    replace (2 / 100 * INR 50) with 1 by (simpl; field).
    apply Rpower_1. lra. }
  assert (Hq : 0 <= 47 / 45) by lra.
  pose proof (pow_incr _ _ 50 (conj Hq H)) as Hp.
  rewrite E50 in Hp.
  change (47 / 45) with (IZR 47 / IZR 45) in Hp.
  rewrite pow_ratio in Hp by lia.
  change (Z.of_nat 50) with 50%Z in Hp.
  assert (Hb : 0 < IZR (45 ^ 50)) by (apply IZR_lt; reflexivity).
  assert (Hz : (35 * 45 ^ 50 < 10 * 47 ^ 50)%Z) by (vm_compute; reflexivity).
  apply IZR_lt in Hz. rewrite !mult_IZR in Hz.
  assert (Hle : IZR (47 ^ 50) <= u * IZR (45 ^ 50)).
  { apply Rmult_le_reg_r with (/ IZR (45 ^ 50));
      [apply Rinv_0_lt_compat, Hb|].
    rewrite Rmult_assoc, Rinv_r by lra. unfold Rdiv in Hp. lra. }
  assert (u * IZR (45 ^ 50) <= 35 / 10 * IZR (45 ^ 50))
    by (apply Rmult_le_compat_r; lra).
  lra.
Qed.

(** X18.  In [generate_fs8_data] all 100 entries of both curves are
    finite, and at every sample the DUT curve 0.45·(1+z)^(−0.08) lies
    strictly below the ΛCDM curve 0.47·(1+z)^(−0.1), as the comment in
    the source says: the two would only cross at 1+z = (47/45)^50. *)
Theorem generate_fs8_data_curves :
  length (Standalone.z (fst Standalone.generate_fs8_data)) = 100%nat /\
  Forall2 strictly_below
    (Standalone.dut (fst Standalone.generate_fs8_data))
    (Standalone.lcdm (fst Standalone.generate_fs8_data)) /\
  Standalone.get_fs8 = Web.Return Standalone.generate_fs8_data.
Proof.
  assert (Hr : forall v, In v (linspace 0 (25 / 10) 100) ->
                         0 <= v <= 25 / 10).
  { intros v Hv. apply linspace_range in Hv; lra. }
  assert (El : forall v, 0 <= v -> Standalone.fs8_lcdm v
             = Fin (47 / 100 * Rpower (1 + v) (- (1 / 10)))).
  { intros v Hv. unfold Standalone.fs8_lcdm. cbn [np_add].
    rewrite fin_pow_pos by lra. reflexivity. }
  assert (Ed : forall v, 0 <= v -> Standalone.fs8_dut v
             = Fin (45 / 100 * Rpower (1 + v) (- (8 / 100)))).
  { intros v Hv. unfold Standalone.fs8_dut. cbn [np_add].
    rewrite fin_pow_pos by lra. reflexivity. }
  unfold Standalone.generate_fs8_data. cbv zeta.
  cbn [fst Standalone.z Standalone.lcdm Standalone.dut].
  split; [apply linspace_length|].
  split.
  - apply Forall2_map_same. intros v Hv. apply Hr in Hv.
    eexists. eexists. split; [apply Ed; lra|]. split; [apply El; lra|].
    replace (- (8 / 100)) with (- (1 / 10) + 2 / 100) by field.
    rewrite Rpower_plus.
    assert (Hb : Rpower (1 + v) (2 / 100) < 47 / 45)
      by (apply fiftieth_root_bound; lra).
    assert (Hp : 0 < Rpower (1 + v) (- (1 / 10)))
      by (unfold Rpower; apply exp_pos).
    set (p := Rpower (1 + v) (- (1 / 10))) in *.
    set (q := Rpower (1 + v) (2 / 100)) in *.
    assert (p * q < p * (47 / 45)) by (apply Rmult_lt_compat_l; assumption).
    lra.
  - unfold Standalone.get_fs8, Web.JSONResponse,
      Standalone.series_compliant.
    cbn [fst Standalone.lcdm Standalone.dut].
    rewrite !all_compliant_Forall; [reflexivity| |].
    + apply Forall_forall. intros b Hb. apply in_map_iff in Hb.
      destruct Hb as [v [<- Hv]]. eexists. apply Ed. apply Hr in Hv. lra.
    + apply Forall_forall. intros b Hb. apply in_map_iff in Hb.
      destruct Hb as [v [<- Hv]]. eexists. apply El. apply Hr in Hv. lra.
Qed.

(** X19.  In [generate_dv_data] both curves start at 0 (at z = 0), and at
    a sample z > 0 the DUT distance 1520·z·(1+0.18z) exceeds the ΛCDM
    distance 1500·z·(1+0.2z) exactly when z < 25/33: the two curves cross
    inside the plotted range. *)
Theorem generate_dv_data_curves :
  hd NaN (Standalone.lcdm Standalone.generate_dv_data) = Fin 0 /\
  hd NaN (Standalone.dut Standalone.generate_dv_data) = Fin 0 /\
  Forall2 (fun l d => exists v,
             0 <= v <= 25 / 10 /\
             l = Fin (Standalone.dv_lcdm v) /\
             d = Fin (Standalone.dv_dut v) /\
             (0 < v ->
              (Standalone.dv_lcdm v < Standalone.dv_dut v <-> v < 25 / 33)))
    (Standalone.lcdm Standalone.generate_dv_data)
    (Standalone.dut Standalone.generate_dv_data) /\
  Standalone.get_dv = Web.Return Standalone.generate_dv_data.
Proof.
  unfold Standalone.generate_dv_data. cbv zeta.
  cbn [Standalone.lcdm Standalone.dut].
  split.
  { destruct (linspace_head 0 (25 / 10) 99) as [l ->]. cbn [map hd].
    unfold Standalone.dv_lcdm. f_equal. ring. }
  split.
  { destruct (linspace_head 0 (25 / 10) 99) as [l ->]. cbn [map hd].
    unfold Standalone.dv_dut. f_equal. ring. }
  split.
  - apply Forall2_map_same. intros v Hv.
    apply linspace_range in Hv; [|lra].
    exists v. split; [exact Hv|]. split; [reflexivity|].
    split; [reflexivity|]. intros Hpos.
    unfold Standalone.dv_lcdm, Standalone.dv_dut.
    split; intros H.
    + destruct (Rlt_dec v (25 / 33)) as [Hlt|Hge]; [exact Hlt|].
      exfalso. apply Rnot_lt_le in Hge.
      assert (0 <= v * (v - 25 / 33)) by (apply Rmult_le_pos; lra).
      lra.
    + assert (0 < v * (25 / 33 - v)) by (apply Rmult_lt_0_compat; lra).
      lra.
  - unfold Standalone.get_dv, Web.JSONResponse,
      Standalone.series_compliant.
    cbn [Standalone.lcdm Standalone.dut].
    rewrite !all_compliant_Forall; [reflexivity| |];
      apply Forall_forall; intros b Hb; apply in_map_iff in Hb;
      destruct Hb as [v [<- _]]; eexists; reflexivity.
Qed.

(** * The first grid point *)




(** * Distances and the Hubble constant *)

Lemma diff_scale (k : R) (y : list R) :
  diff (map (fun v => k * v) y) = map (fun v => k * v) (diff y).
Proof.
  induction y as [|y0 [|y1 y] IH]; try reflexivity.
  change (map (fun v => k * v) (y0 :: y1 :: y))
    with (k * y0 :: map (fun v => k * v) (y1 :: y)).
  change (map (fun v => k * v) (y1 :: y))
    with (k * y1 :: map (fun v => k * v) y) at 1.
  rewrite !diff_cons.
  change (k * y1 :: map (fun v => k * v) y)
    with (map (fun v => k * v) (y1 :: y)).
  rewrite IH. cbn [map]. f_equal. ring.
Qed.

Lemma zip_with_Rdiv_scale (k : R) (a b : list R) :
  zip_with Rdiv (map (fun v => k * v) a) b
  = map (fun v => k * v) (zip_with Rdiv a b).
Proof.
  revert b. induction a as [|a0 a IH]; intros [|b0 b]; try reflexivity.
  cbn [map zip_with]. rewrite IH. f_equal. unfold Rdiv. ring.
Qed.

Lemma np_sign_scale (k r : R) : 0 < k -> np_sign (k * r) = np_sign r.
Proof.
  intros Hk. unfold np_sign.
  destruct (Rlt_dec 0 r) as [Hp|Hnp].
  - assert (0 < k * r) by (apply Rmult_lt_0_compat; assumption).
    destruct (Rlt_dec 0 (k * r)); [reflexivity | contradiction].
  - destruct (Rlt_dec r 0) as [Hn|Hnn].
    + assert (k * r < 0) by nra.
      destruct (Rlt_dec 0 (k * r)); [lra|].
      destruct (Rlt_dec (k * r) 0); [reflexivity | contradiction].
    + assert (r = 0) by lra. subst r. rewrite Rmult_0_r.
      destruct (Rlt_dec 0 0); [lra|]. reflexivity.
Qed.

Lemma edge_case_scale (k h0 h1 m0 m1 : R) :
  0 < k ->
  edge_case h0 h1 (k * m0) (k * m1) = k * edge_case h0 h1 m0 m1.
Proof.
  intros Hk. unfold edge_case. cbv zeta.
  replace (((2 * h0 + h1) * (k * m0) - h0 * (k * m1)) / (h0 + h1))
    with (k * (((2 * h0 + h1) * m0 - h0 * m1) / (h0 + h1)))
    by (unfold Rdiv; ring).
  set (d := ((2 * h0 + h1) * m0 - h0 * m1) / (h0 + h1)).
  rewrite !np_sign_scale by exact Hk.
  rewrite !Rabs_mult, (Rabs_pos_eq k) by lra.
  assert (Eg : Rgtb (k * Rabs d) (3 * (k * Rabs m0))
               = Rgtb (Rabs d) (3 * Rabs m0)).
  { unfold Rgtb.
    destruct (Rlt_dec (3 * Rabs m0) (Rabs d)) as [H|H];
      destruct (Rlt_dec (3 * (k * Rabs m0)) (k * Rabs d)) as [H'|H'];
      try reflexivity; exfalso.
    - apply H'. replace (3 * (k * Rabs m0)) with (k * (3 * Rabs m0)) by ring.
      apply Rmult_lt_compat_l; assumption.
    - apply H. apply Rmult_lt_reg_l with k; [exact Hk|]. lra. }
  rewrite Eg.
  destruct (Rneqb (np_sign d) (np_sign m0)); [ring|].
  destruct (Rneqb (np_sign m0) (np_sign m1) && Rgtb (Rabs d) (3 * Rabs m0));
    ring.
Qed.

Lemma Reqb_scale (k m : R) : 0 < k -> Reqb (k * m) 0 = Reqb m 0.
Proof.
  intros Hk. unfold Reqb.
  destruct (Req_dec_T m 0) as [->|Hm].
  - rewrite Rmult_0_r. destruct (Req_dec_T 0 0); [reflexivity | lra].
  - destruct (Req_dec_T (k * m) 0) as [E|_]; [|reflexivity].
    exfalso. apply Rmult_integral in E. destruct E; [lra | contradiction].
Qed.

Lemma interior_derivative_scale (k h0 h1 m0 m1 : R) :
  0 < k ->
  interior_derivative h0 h1 (k * m0) (k * m1)
  = k * interior_derivative h0 h1 m0 m1.
Proof.
  intros Hk. unfold interior_derivative. cbv zeta.
  rewrite !np_sign_scale, !Reqb_scale by exact Hk.
  destruct (Rneqb (np_sign m1) (np_sign m0) || Reqb m1 0 || Reqb m0 0);
    [ring|].
  assert (E : ((2 * h1 + h0) / (k * m0) + (h1 + 2 * h0) / (k * m1))
              / (2 * h1 + h0 + (h1 + 2 * h0))
              = / k * (((2 * h1 + h0) / m0 + (h1 + 2 * h0) / m1)
                       / (2 * h1 + h0 + (h1 + 2 * h0)))).
  { unfold Rdiv. rewrite !(Rinv_mult k). ring. }
  rewrite E.
  set (w := ((2 * h1 + h0) / m0 + (h1 + 2 * h0) / m1)
            / (2 * h1 + h0 + (h1 + 2 * h0))).
  unfold Rdiv. rewrite Rinv_mult, Rinv_inv. ring.
Qed.

Lemma interior_derivatives_scale (k : R) (hk mk : list R) :
  0 < k ->
  interior_derivatives hk (map (fun v => k * v) mk)
  = map (fun v => k * v) (interior_derivatives hk mk).
Proof.
  intros Hk. revert mk. induction hk as [|h0 hk IH]; intros mk.
  { destruct mk; reflexivity. }
  destruct hk as [|h1 hk].
  { destruct mk as [|m0 [|m1 mk]]; reflexivity. }
  destruct mk as [|m0 [|m1 mk]]; try reflexivity.
  change (map (fun v => k * v) (m0 :: m1 :: mk))
    with (k * m0 :: k * m1 :: map (fun v => k * v) mk).
  rewrite !interior_derivatives_cons.
  change (k * m1 :: map (fun v => k * v) mk)
    with (map (fun v => k * v) (m1 :: mk)).
  rewrite IH. cbn [map]. f_equal.
  apply interior_derivative_scale, Hk.
Qed.

(** The PCHIP derivatives of a table scaled by [k > 0] are the derivatives
    of the table, scaled by [k]. *)
Lemma find_derivatives_scale (k : R) (x y : list R) :
  0 < k ->
  find_derivatives x (map (fun v => k * v) y)
  = map (fun v => k * v) (find_derivatives x y).
Proof.
  intros Hk. unfold find_derivatives. cbv zeta.
  rewrite diff_scale, zip_with_Rdiv_scale.
  generalize (zip_with Rdiv (diff y) (diff x)) as mk.
  generalize (diff x) as hk. intros hk mk.
  destruct hk as [|h0 [|h1 hk]].
  - reflexivity.
  - destruct mk as [|m0 [|m1 mk]]; reflexivity.
  - destruct mk as [|m0 [|m1 mk]]; try reflexivity.
    rewrite <- map_rev.
    remember (h0 :: h1 :: hk) as hs eqn:Ehs.
    remember (m0 :: m1 :: mk) as ms eqn:Ems.
    assert (Em : map (fun v => k * v) ms
                 = k * m0 :: k * m1 :: map (fun v => k * v) mk)
      by (rewrite Ems; reflexivity).
    rewrite Em.
    destruct (rev hs) as [|hl [|hl2 rh]].
    + reflexivity.
    + destruct (rev ms) as [|ml [|ml2 rm]]; reflexivity.
    + destruct (rev ms) as [|ml [|ml2 rm]]; try reflexivity.
      cbn [map]. rewrite !edge_case_scale by exact Hk.
      rewrite <- Em, interior_derivatives_scale by exact Hk.
      rewrite map_app. reflexivity.
Qed.

Lemma hermite_coeffs_scale (k : R) (x y d : list R) :
  hermite_coeffs x (map (fun v => k * v) y) (map (fun v => k * v) d)
  = map (scale_piece k) (hermite_coeffs x y d).
Proof.
  revert y d. induction x as [|x0 x IH]; intros y d.
  { reflexivity. }
  destruct x as [|x1 x].
  { destruct y as [|y0 [|y1 y]]; destruct d as [|d0 [|d1 d]]; reflexivity. }
  destruct y as [|y0 [|y1 y]]; try reflexivity.
  destruct d as [|d0 [|d1 d]]; try reflexivity.
  change (map (fun v => k * v) (y0 :: y1 :: y))
    with (k * y0 :: k * y1 :: map (fun v => k * v) y).
  change (map (fun v => k * v) (d0 :: d1 :: d))
    with (k * d0 :: k * d1 :: map (fun v => k * v) d).
  rewrite !hermite_coeffs_cons.
  change (k * y1 :: map (fun v => k * v) y)
    with (map (fun v => k * v) (y1 :: y)).
  change (k * d1 :: map (fun v => k * v) d)
    with (map (fun v => k * v) (d1 :: d)).
  rewrite IH. cbn [map]. f_equal.
  unfold hermite_piece, scale_piece. cbv zeta.
  apply f_equal2; [apply f_equal2; [apply f_equal2|]|]; unfold Rdiv; ring.
Qed.

Lemma cubic_scale (k : R) (p : R * R * R * R) (s : R) :
  cubic (scale_piece k p) s = k * cubic p s.
Proof. destruct p as [[[c0 c1] c2] c3]. unfold cubic, scale_piece. ring. Qed.

Lemma ppoly_eval_scale (k : R) (x : list R) (cs : list (R * R * R * R))
  (v : R) :
  ppoly_eval x (map (scale_piece k) cs) v = k * ppoly_eval x cs v.
Proof.
  revert cs. induction x as [|x0 x IH]; intros cs.
  { simpl. ring. }
  destruct x as [|x1 x].
  { destruct cs; simpl; ring. }
  destruct cs as [|p [|p' cs]].
  - simpl. ring.
  - cbn [map]. rewrite !ppoly_eval_last. apply cubic_scale.
  - change (map (scale_piece k) (p :: p' :: cs))
      with (scale_piece k p :: scale_piece k p'
              :: map (scale_piece k) cs).
    rewrite !ppoly_eval_cons.
    destruct (Rlt_dec v x1); [apply cubic_scale|].
    change (scale_piece k p' :: map (scale_piece k) cs)
      with (map (scale_piece k) (p' :: cs)).
    apply IH.
Qed.

Lemma trapz_accR_scale (k acc : R) (x y : list R) :
  trapz_accR (k * acc) x (map (fun v => k * v) y)
  = map (fun v => k * v) (trapz_accR acc x y).
Proof.
  revert acc y. induction x as [|x0 x IH]; intros acc y.
  { reflexivity. }
  destruct x as [|x1 x].
  { destruct y as [|y0 [|y1 y]]; reflexivity. }
  destruct y as [|y0 [|y1 y]]; try reflexivity.
  change (map (fun v => k * v) (y0 :: y1 :: y))
    with (k * y0 :: k * y1 :: map (fun v => k * v) y).
  rewrite !trapz_accR_cons.
  change (k * y1 :: map (fun v => k * v) y)
    with (map (fun v => k * v) (y1 :: y)).
  replace (k * acc + (x1 - x0) * (k * y1 + k * y0) / 2)
    with (k * (acc + (x1 - x0) * (y1 + y0) / 2)) by (unfold Rdiv; ring).
  rewrite IH. reflexivity.
Qed.

Lemma d_c_gridR_scale (H0 Om w0 wa xi : R) :
  d_c_gridR H0 Om w0 wa xi
  = map (fun v => / H0 * v) (d_c_gridR 1 Om w0 wa xi).
Proof.
  unfold d_c_gridR. rewrite hz_gridR_scale, map_map.
  cbn [map]. rewrite Rmult_0_r. f_equal.
  rewrite <- (Rmult_0_r (/ H0)) at 1.
  rewrite <- trapz_accR_scale. f_equal.
  rewrite map_map. apply map_ext. intros h.
  unfold Rdiv. rewrite Rinv_mult. ring.
Qed.

Lemma zip_with_scale_r {A : Type} (f : A -> R -> R) (k : R) (l1 : list A)
  (l2 : list R) :
  (forall a v, f a (k * v) = k * f a v) ->
  zip_with f l1 (map (fun v => k * v) l2)
  = map (fun v => k * v) (zip_with f l1 l2).
Proof.
  intros Hf. revert l2.
  induction l1 as [|a l1 IH]; intros [|b l2]; try reflexivity.
  cbn [map zip_with]. rewrite IH, Hf. reflexivity.
Qed.

Lemma d_l_gridR_scale (H0 Om w0 wa xi : R) :
  d_l_gridR H0 Om w0 wa xi
  = map (fun v => / H0 * v) (d_l_gridR 1 Om w0 wa xi).
Proof.
  unfold d_l_gridR. rewrite d_c_gridR_scale.
  apply zip_with_scale_r. intros a v. unfold Rdiv. ring.
Qed.

Lemma DcR_scale (H0 Om w0 wa xi z : R) :
  0 < H0 -> DcR H0 Om w0 wa xi z = / H0 * DcR 1 Om w0 wa xi z.
Proof.
  intros HH. unfold DcR. cbv zeta.
  assert (Hk : 0 < / H0) by (apply Rinv_0_lt_compat, HH).
  rewrite d_c_gridR_scale, find_derivatives_scale by exact Hk.
  rewrite hermite_coeffs_scale. apply ppoly_eval_scale.
Qed.

Lemma DLR_scale (H0 Om w0 wa xi z : R) :
  0 < H0 -> DLR H0 Om w0 wa xi z = / H0 * DLR 1 Om w0 wa xi z.
Proof.
  intros HH. unfold DLR. cbv zeta.
  assert (Hk : 0 < / H0) by (apply Rinv_0_lt_compat, HH).
  rewrite d_l_gridR_scale, find_derivatives_scale by exact Hk.
  rewrite hermite_coeffs_scale. apply ppoly_eval_scale.
Qed.

(** X21.  In exact arithmetic, distances scale as 1/H0: for two engines
    built with Hubble constants H0 and H0' and the same Ωm in (0,1), w0,
    wa, ξ, all of moderate size, the products H0·Dc(z) and H0·DL(z) are the
    same at every redshift of moderate size (|z| ≤ 10⁶), between grid
    points and outside the grid as well; the bounds keep every double the
    code computes inside the floating-point range.  The trapezoid sum and the PCHIP
    interpolant are both homogeneous in the table. *)
Theorem distances_scale_with_inverse_H0 (H0 H0' Om w0 wa xi z : R)
  (m m' : BaseModel.t) :
  valid_parameters H0 Om -> valid_parameters H0' Om ->
  moderate_H0 H0 -> moderate_H0 H0' ->
  moderate_dark_energy w0 wa xi -> moderate_redshift z ->
  BaseModel.init H0 Om data w0 wa xi = Ok m ->
  BaseModel.init H0' Om data w0 wa xi = Ok m' ->
  exists dc dc' dl dl',
    BaseModel.Dc m z = Ok (Fin dc) /\ BaseModel.Dc m' z = Ok (Fin dc') /\
    BaseModel.DL m z = Ok (Fin dl) /\ BaseModel.DL m' z = Ok (Fin dl') /\
    H0 * dc = H0' * dc' /\ H0 * dl = H0' * dl'.
Proof.
  intros [HH _] [HH' _] _ _ _ _ E E'.
  apply init_Ok_engine in E. apply init_Ok_engine in E'. subst m m'.
  exists (DcR H0 Om w0 wa xi z), (DcR H0' Om w0 wa xi z).
  exists (DLR H0 Om w0 wa xi z), (DLR H0' Om w0 wa xi z).
  split; [apply Dc_engine|]. split; [apply Dc_engine|].
  split; [apply DL_engine|]. split; [apply DL_engine|].
  rewrite (DcR_scale H0), (DcR_scale H0'), (DLR_scale H0), (DLR_scale H0')
    by assumption.
  split; field; lra.
Qed.

Lemma distances_scale_with_inverse_H0_witness :
  exists dc dc' dl dl',
    BaseModel.Dc (engine (678 / 10) (315 / 1000) (-1) 0 0) (38 / 100)
    = Ok (Fin dc) /\
    BaseModel.Dc (engine (7304 / 100) (315 / 1000) (-1) 0 0) (38 / 100)
    = Ok (Fin dc') /\
    BaseModel.DL (engine (678 / 10) (315 / 1000) (-1) 0 0) (38 / 100)
    = Ok (Fin dl) /\
    BaseModel.DL (engine (7304 / 100) (315 / 1000) (-1) 0 0) (38 / 100)
    = Ok (Fin dl') /\
    678 / 10 * dc = 7304 / 100 * dc' /\
    678 / 10 * dl = 7304 / 100 * dl'.
Proof.
  assert (HH : valid_parameters (678 / 10) (315 / 1000))
    by (unfold valid_parameters; lra).
  assert (HH' : valid_parameters (7304 / 100) (315 / 1000))
    by (unfold valid_parameters; lra).
  assert (Hm : moderate_H0 (678 / 10)) by (unfold moderate_H0; lra).
  assert (Hm' : moderate_H0 (7304 / 100)) by (unfold moderate_H0; lra).
  assert (Hd : moderate_dark_energy (-1) 0 0)
    by (unfold moderate_dark_energy; lra).
  assert (Hz : moderate_redshift (38 / 100))
    by (unfold moderate_redshift; lra).
  assert (Hok : hubble_ok (678 / 10) (315 / 1000) (-1) 0 0)
    by (apply baseline_hubble_ok; lra).
  assert (Hok' : hubble_ok (7304 / 100) (315 / 1000) (-1) 0 0)
    by (apply baseline_hubble_ok; lra).
  exact (distances_scale_with_inverse_H0 (678 / 10) (7304 / 100)
           (315 / 1000) (-1) 0 0 (38 / 100) _ _ HH HH' Hm Hm' Hd Hz
           (init_succeeds _ _ _ _ _ Hok) (init_succeeds _ _ _ _ _ Hok')).
Defined.

(** * The grids of the data object *)

(** X22.  The data object's redshift grid has 1000 points, starts at
    0.001 and ends at 5 to within 10⁻⁹ (the end point is computed as
    10^log10(5), which a double rounds in its last place), and is
    geometric: each point is between 1.008 and 1.009 times the previous
    one.  The scale-factor grid holds the finite numbers 1/(1+z), all
    below 1 and not below 1/6 by more than 10⁻⁹. *)
Theorem data_grids_shape :
  length (NinjaDataVectorized.z_grid data) = 1000%nat /\
  nth 0 (NinjaDataVectorized.z_grid data) 0 = / 1000 /\
  Rabs (nth 999 (NinjaDataVectorized.z_grid data) 0 - 5)
  <= / 1000000000 /\
  (forall i, (S i < 1000)%nat ->
     1008 / 1000 * nth i (NinjaDataVectorized.z_grid data) 0
     < nth (S i) (NinjaDataVectorized.z_grid data) 0
     < 1009 / 1000 * nth i (NinjaDataVectorized.z_grid data) 0) /\
  (exists a,
      NinjaDataVectorized.a_grid data = map Fin a /\
      a = map (fun z => 1 / (1 + z)) (NinjaDataVectorized.z_grid data) /\
      Forall (fun v => / 6 - / 1000000000 <= v < 1) a).
Proof.
  assert (Heps : 0 < / 1000000000) by (apply Rinv_0_lt_compat; lra).
  split; [apply z_grid_length|].
  split; [apply z_grid_first|].
  split.
  { rewrite z_grid_nth by (unfold N_Z_GRID_POINTS; lia).
    rewrite grid_point_999. replace (5 - 5) with 0 by ring.
    rewrite Rabs_R0. lra. }
  split.
  { intros i Hi.
    rewrite !z_grid_nth by (unfold N_Z_GRID_POINTS; lia).
    rewrite grid_point_succ. pose proof (grid_point_pos i).
    pose proof grid_ratio_bounds. split; nra. }
  exists a_gridR. split; [apply a_grid_finite|]. split; [reflexivity|].
  unfold a_gridR. apply Forall_forall. intros a Ha.
  apply in_map_iff in Ha. destruct Ha as [z [<- Hz]].
  pose proof z_grid_positive as Hpos. rewrite Forall_forall in Hpos.
  pose proof (Hpos z Hz) as Hz0.
  destruct (scale_factor_range z Hz0) as [_ Hlt]. split; [|exact Hlt].
  apply In_nth with (d := 0) in Hz. destruct Hz as [i [Hi <-]].
  pose proof (increasing_nth_le_last (NinjaDataVectorized.z_grid data) i
                z_grid_increasing Hi) as Hle.
  rewrite z_grid_last in Hle.
  assert (/ 6 <= scale_factor (nth i (NinjaDataVectorized.z_grid data) 0)).
  { unfold scale_factor, Rdiv. rewrite Rmult_1_l.
    apply Rinv_le_contravar; lra. }
  lra.
Qed.

(** * The interaction parameter *)

Lemma radicandR_xi_monotone (Om w0 wa xi xi' a : R) :
  0 < Om < 1 -> 0 < a < 1 -> xi < xi' ->
  radicandR Om w0 wa xi a < radicandR Om w0 wa xi' a.
Proof.
  intros HOm Ha Hxi. unfold radicandR.
  assert (Hln : ln a < 0) by (rewrite <- ln_1; apply ln_increasing; lra).
  assert (Hp : Rpower a (-3 * (1 + (w0 + wa * (1 - a)) + xi))
               < Rpower a (-3 * (1 + (w0 + wa * (1 - a)) + xi'))).
  { unfold Rpower. apply exp_increasing. nra. }
  assert ((1 - Om) * Rpower a (-3 * (1 + (w0 + wa * (1 - a)) + xi))
          < (1 - Om) * Rpower a (-3 * (1 + (w0 + wa * (1 - a)) + xi')))
    by (apply Rmult_lt_compat_l; lra).
  lra.
Qed.

Lemma hubbleR_xi_monotone (H0 Om w0 wa xi xi' a : R) :
  valid_parameters H0 Om -> 0 < a < 1 -> xi < xi' ->
  hubbleR H0 Om w0 wa xi a < hubbleR H0 Om w0 wa xi' a.
Proof.
  intros [HH HOm] Ha Hxi. unfold hubbleR.
  apply Rmult_lt_compat_l; [exact HH|].
  apply sqrt_lt_1_alt. split.
  - apply Rlt_le, radicandR_pos; [exact HOm | lra].
  - apply radicandR_xi_monotone; assumption.
Qed.

Lemma segmentR_minus (x0 x1 y0 y1 y0' y1' v : R) :
  segmentR x0 x1 y0' y1' v - segmentR x0 x1 y0 y1 v
  = segmentR x0 x1 (y0' - y0) (y1' - y1) v.
Proof. unfold segmentR, Rdiv. ring. Qed.

(** Between the first and the last abscissa, linear interpolation keeps
    the strict order of two tables. *)
Lemma call_linearR_lt (x y y' : list R) (v : R) :
  increasing x -> Forall2 Rlt y y' -> length y = length x ->
  (2 <= length x)%nat -> hd 0 x <= v -> v <= last x 0 ->
  call_linearR x y v < call_linearR x y' v.
Proof.
  revert y y' v.
  induction x as [|x0 x IH]; intros y y' v Hx Hy Hl H2 Hv Hv'.
  { simpl in H2. lia. }
  destruct x as [|x1 x]; [simpl in H2; lia|].
  destruct y as [|y0 [|y1 y]]; try discriminate.
  inversion Hy as [|? y0' ? t' Hy0 Hy']; subst.
  inversion Hy' as [|? y1' ? t'' Hy1 Hy'']; subst.
  rewrite increasing_cons in Hx. destruct Hx as [Hx01 Hx].
  cbn [hd] in Hv. rewrite last_cons2 in Hv'.
  assert (Hseg : forall w, x0 <= w -> w <= x1 ->
            segmentR x0 x1 y0 y1 w < segmentR x0 x1 y0' y1' w).
  { intros w Hw Hw'.
    pose proof (segmentR_positive x0 x1 (y0' - y0) (y1' - y1) w) as Hp.
    rewrite <- segmentR_minus in Hp.
    assert (0 < segmentR x0 x1 y0' y1' w - segmentR x0 x1 y0 y1 w)
      by (apply Hp; lra).
    lra. }
  destruct x as [|x2 x].
  - assert (y = []) by (destruct y; [reflexivity | discriminate]). subst y.
    inversion Hy''; subst.
    rewrite !call_linearR_last. cbn [last] in Hv'. apply Hseg; assumption.
  - destruct y as [|y2 y]; [discriminate|].
    inversion Hy'' as [|? y2' ? t3 Hy2 Hy3]; subst.
    rewrite !call_linearR_cons.
    destruct (Rle_dec v x1) as [Hle|Hgt]; [apply Hseg; assumption|].
    apply IH; simpl in *; auto; try lia; lra.
Qed.

Lemma Forall2_nth_R (P : R -> R -> Prop) (l l' : list R) (i : nat) :
  Forall2 P l l' -> (i < length l)%nat -> P (nth i l 0) (nth i l' 0).
Proof.
  intros H. revert i. induction H as [|a b l l' Hab _ IH]; intros i Hi.
  - simpl in Hi. lia.
  - destruct i as [|i]; [exact Hab|]. cbn [nth]. apply IH. simpl in Hi. lia.
Qed.

(** The running trapezoid sum keeps the strict order of two integrands. *)
Lemma trapz_accR_lt (acc acc' : R) (x y y' : list R) :
  increasing x -> Forall2 Rlt y' y -> acc' <= acc ->
  Forall2 Rlt (trapz_accR acc' x y') (trapz_accR acc x y).
Proof.
  revert acc acc' y y'.
  induction x as [|x0 x IH]; intros acc acc' y y' Hx Hy Hacc.
  { constructor. }
  destruct x as [|x1 x].
  { destruct y' as [|? [|? ?]]; destruct y as [|? [|? ?]]; constructor. }
  inversion Hy as [|y0' y0 t' t Hy0 Hy1]; subst.
  { constructor. }
  inversion Hy1 as [|y1' y1 t2' t2 Hy1' Hy2]; subst.
  { constructor. }
  rewrite increasing_cons in Hx. destruct Hx as [Hx01 Hx].
  rewrite !trapz_accR_cons.
  assert (Hstep : acc' + (x1 - x0) * (y1' + y0') / 2
                  < acc + (x1 - x0) * (y1 + y0) / 2).
  { assert ((x1 - x0) * (y1' + y0') < (x1 - x0) * (y1 + y0))
      by (apply Rmult_lt_compat_l; lra).
    lra. }
  constructor; [exact Hstep|].
  apply IH; [exact Hx | exact Hy1 | lra].
Qed.

Lemma hz_gridR_xi_monotone (H0 Om w0 wa xi xi' : R) :
  valid_parameters H0 Om -> xi < xi' ->
  Forall2 Rlt (hz_gridR H0 Om w0 wa xi) (hz_gridR H0 Om w0 wa xi').
Proof.
  intros Hv Hxi. unfold hz_gridR. apply Forall2_map_same.
  intros a Ha. apply hubbleR_xi_monotone; try assumption.
  pose proof a_gridR_range as Hr. rewrite Forall_forall in Hr.
  apply Hr, Ha.
Qed.

Lemma inverse_hz_gridR_xi_monotone (H0 Om w0 wa xi xi' : R) :
  valid_parameters H0 Om -> xi < xi' ->
  Forall2 Rlt (map (fun h => 1 / h) (hz_gridR H0 Om w0 wa xi'))
    (map (fun h => 1 / h) (hz_gridR H0 Om w0 wa xi)).
Proof.
  intros Hv Hxi. unfold hz_gridR. rewrite !map_map.
  apply Forall2_map_same. intros a Ha.
  pose proof a_gridR_range as Hr. rewrite Forall_forall in Hr.
  specialize (Hr a Ha). pose proof Hv as [HH HOm].
  assert (0 < hubbleR H0 Om w0 wa xi a)
    by (apply hubbleR_pos; [exact HH | apply radicandR_pos; [exact HOm|lra]]).
  pose proof (hubbleR_xi_monotone H0 Om w0 wa xi xi' a Hv Hr Hxi).
  unfold Rdiv. rewrite !Rmult_1_l.
  apply Rinv_0_lt_contravar; [assumption | assumption].
Qed.

(** X23.  In exact arithmetic, a larger interaction parameter ξ means
    faster expansion and shorter distances: for valid H0 and Ωm, the same
    w0 and wa, and ξ < ξ', all of moderate size (no double the code
    computes then leaves the floating-point range), the Hubble rate of the engine built with ξ' is strictly larger
    at every redshift inside the grid bounds, and its comoving distance is
    strictly smaller at every grid point after the first. *)
Theorem interaction_raises_expansion_rate (H0 Om w0 wa xi xi' : R)
  (m m' : BaseModel.t) :
  valid_parameters H0 Om -> moderate_H0 H0 ->
  moderate_dark_energy w0 wa xi -> moderate_dark_energy w0 wa xi' ->
  xi < xi' ->
  BaseModel.init H0 Om data w0 wa xi = Ok m ->
  BaseModel.init H0 Om data w0 wa xi' = Ok m' ->
  (forall z, / 1000 <= z -> z <= 5 ->
     exists h h',
       BaseModel.H m z = Ok (Fin h) /\ BaseModel.H m' z = Ok (Fin h') /\
       h < h') /\
  (forall i, (1 <= i < N_Z_GRID_POINTS)%nat ->
     exists dc dc',
       BaseModel.Dc m (nth i (NinjaDataVectorized.z_grid data) 0)
       = Ok (Fin dc) /\
       BaseModel.Dc m' (nth i (NinjaDataVectorized.z_grid data) 0)
       = Ok (Fin dc') /\
       dc' < dc).
Proof.
  intros Hv _ _ _ Hxi E E'.
  apply init_Ok_engine in E. apply init_Ok_engine in E'. subst m m'.
  split.
  - intros z Hz Hz'.
    exists (HR H0 Om w0 wa xi z), (HR H0 Om w0 wa xi' z).
    split; [apply H_engine|]. split; [apply H_engine|].
    unfold HR. apply call_linearR_lt.
    + apply z_grid_increasing.
    + apply hz_gridR_xi_monotone; assumption.
    + rewrite hz_gridR_length, z_grid_length. reflexivity.
    + apply z_grid_two.
    + rewrite z_grid_hd. exact Hz.
    + rewrite z_grid_last. exact Hz'.
  - intros i Hi. rewrite z_grid_nth by lia.
    exists (DcR H0 Om w0 wa xi (grid_point i)),
      (DcR H0 Om w0 wa xi' (grid_point i)).
    split; [apply Dc_engine|]. split; [apply Dc_engine|].
    rewrite !DcR_grid by lia. unfold d_c_gridR.
    destruct i as [|i]; [lia|]. rewrite !nth_S_cons.
    apply Forall2_nth_R.
    + apply trapz_accR_lt; [apply z_grid_increasing| |lra].
      apply inverse_hz_gridR_xi_monotone; assumption.
    + rewrite trapz_accR_length
        by (rewrite length_map, hz_gridR_length, z_grid_length;
            reflexivity).
      rewrite z_grid_length. lia.
Qed.

Lemma interaction_raises_expansion_rate_witness :
  (forall z, / 1000 <= z -> z <= 5 ->
     exists h h',
       BaseModel.H (engine (692 / 10) (298 / 1000) (-105 / 100) (8 / 100) 0)
         z = Ok (Fin h) /\
       BaseModel.H (engine (692 / 10) (298 / 1000) (-105 / 100) (8 / 100)
                      (35 / 1000)) z = Ok (Fin h') /\
       h < h') /\
  (forall i, (1 <= i < N_Z_GRID_POINTS)%nat ->
     exists dc dc',
       BaseModel.Dc (engine (692 / 10) (298 / 1000) (-105 / 100) (8 / 100) 0)
         (nth i (NinjaDataVectorized.z_grid data) 0) = Ok (Fin dc) /\
       BaseModel.Dc (engine (692 / 10) (298 / 1000) (-105 / 100) (8 / 100)
                       (35 / 1000))
         (nth i (NinjaDataVectorized.z_grid data) 0) = Ok (Fin dc') /\
       dc' < dc).
Proof.
  assert (Hm : moderate_H0 (692 / 10)) by (unfold moderate_H0; lra).
  assert (Hd : moderate_dark_energy (-105 / 100) (8 / 100) 0)
    by (unfold moderate_dark_energy; lra).
  assert (Hd' : moderate_dark_energy (-105 / 100) (8 / 100) (35 / 1000))
    by (unfold moderate_dark_energy; lra).
  assert (Hxi : 0 < 35 / 1000) by lra.
  exact (interaction_raises_expansion_rate (692 / 10) (298 / 1000)
           (-105 / 100) (8 / 100) 0 (35 / 1000) _ _ best_fit_dut_valid Hm Hd
           Hd' Hxi
           (init_succeeds _ _ _ _ _
              (valid_parameters_hubble_ok _ _ _ _ _ best_fit_dut_valid))
           (init_succeeds _ _ _ _ _
              (valid_parameters_hubble_ok _ _ _ _ _ best_fit_dut_valid))).
Defined.

(** * The baseline growth rate across the grid *)

(** The matter fraction of the baseline model at a grid point. *)
Lemma baseline_matter_fraction (H0 Om : R) (i : nat) :
  valid_parameters H0 Om -> (i < N_Z_GRID_POINTS)%nat ->
  Omega_m_z Om H0 (HR H0 Om (-1) 0 0 (grid_point i)) (grid_point i)
  = Om * (1 + grid_point i) ^ 3
    / (Om * (1 + grid_point i) ^ 3 + (1 - Om)).
Proof.
  intros [HH HOm] Hi. pose proof (grid_point_pos i) as Hz.
  rewrite HR_grid by exact Hi. unfold Omega_m_z, hubbleR.
  set (z := grid_point i) in *.
  assert (Ha : 0 < scale_factor z) by (apply scale_factor_range, Hz).
  assert (Er : radicandR Om (-1) 0 0 (scale_factor z)
               = Om * (1 + z) ^ 3 + (1 - Om)).
  { rewrite radicandR_baseline by exact Ha.
    unfold scale_factor. field. lra. }
  rewrite Er.
  assert (Hr : 0 < Om * (1 + z) ^ 3 + (1 - Om)).
  { assert (0 < (1 + z) ^ 3) by (apply pow_lt; lra).
    assert (0 < Om * (1 + z) ^ 3) by (apply Rmult_lt_0_compat; lra).
    lra. }
  replace (H0 * sqrt (Om * (1 + z) ^ 3 + (1 - Om)) / H0)
    with (sqrt (Om * (1 + z) ^ 3 + (1 - Om))) by (field; lra).
  replace (sqrt (Om * (1 + z) ^ 3 + (1 - Om)) ^ 2)
    with (sqrt (Om * (1 + z) ^ 3 + (1 - Om))
          * sqrt (Om * (1 + z) ^ 3 + (1 - Om))) by ring.
  rewrite sqrt_sqrt by lra. field. lra.
Qed.

Lemma matter_fraction_increasing (Om z z' : R) :
  0 < Om < 1 -> 0 < z -> z < z' ->
  Om * (1 + z) ^ 3 / (Om * (1 + z) ^ 3 + (1 - Om))
  < Om * (1 + z') ^ 3 / (Om * (1 + z') ^ 3 + (1 - Om)).
Proof.
  intros HOm Hz Hlt.
  assert (Hc : (1 + z) ^ 3 < (1 + z') ^ 3) by (apply cube_increasing; lra).
  assert (Hp : 0 < (1 + z) ^ 3) by (apply pow_lt; lra).
  set (u := Om * (1 + z) ^ 3). set (u' := Om * (1 + z') ^ 3).
  assert (Hu : 0 < u) by (unfold u; apply Rmult_lt_0_compat; lra).
  assert (Huu : u < u') by (unfold u, u'; apply Rmult_lt_compat_l; lra).
  apply Rmult_lt_reg_r with ((u + (1 - Om)) * (u' + (1 - Om))).
  { apply Rmult_lt_0_compat; lra. }
  replace (u / (u + (1 - Om)) * ((u + (1 - Om)) * (u' + (1 - Om))))
    with (u * (u' + (1 - Om))) by (field; lra).
  replace (u' / (u' + (1 - Om)) * ((u + (1 - Om)) * (u' + (1 - Om))))
    with (u' * (u + (1 - Om))) by (field; lra).
  assert (u * (1 - Om) < u' * (1 - Om))
    by (apply Rmult_lt_compat_r; lra).
  lra.
Qed.

(** X24.  In exact arithmetic, for valid parameters with H0 and σ8 of
    moderate size (no double the code computes then leaves the
    floating-point range), the baseline growth-rate observable increases
    strictly from each grid point to the next ones:
    there the matter fraction is Ωm(1+z)³/(Ωm(1+z)³ + 1 − Ωm), which grows
    with z, and fσ8 = Ωm(z)^0.55 · Ωm(z)^(3/7) · σ8 grows with it. *)
Theorem baseline_fs8_increasing_on_grid (H0 Om s8 : R)
  (l : LCDM_Vectorized.t) (i j : nat) :
  valid_parameters H0 Om -> moderate_H0 H0 -> moderate_sigma8 s8 ->
  LCDM_Vectorized.init H0 Om s8 data = Ok l ->
  (i < j < N_Z_GRID_POINTS)%nat ->
  exists z z' f g,
    nth i (NinjaDataVectorized.z_grid data) 0 = z /\
    nth j (NinjaDataVectorized.z_grid data) 0 = z' /\
    LCDM_Vectorized.fs8_model l z = Ok (Fin f) /\
    LCDM_Vectorized.fs8_model l z' = Ok (Fin g) /\
    f = Rpower (Om * (1 + z) ^ 3 / (Om * (1 + z) ^ 3 + (1 - Om)))
          (55 / 100)
        * Rpower (Om * (1 + z) ^ 3 / (Om * (1 + z) ^ 3 + (1 - Om)))
            (3 / 7)
        * s8 /\
    f < g.
Proof.
  intros Hv _ Hs E Hij. apply moderate_sigma8_pos in Hs.
  apply LCDM_init_Ok in E. destruct E as [_ ->].
  pose proof Hv as [HH HOm].
  assert (Hi : (i < N_Z_GRID_POINTS)%nat) by lia.
  assert (Hj : (j < N_Z_GRID_POINTS)%nat) by lia.
  assert (Hrange : forall k, (k < N_Z_GRID_POINTS)%nat ->
            / 1000 <= grid_point k <= 5).
  { intros k Hk. rewrite <- (z_grid_nth k Hk). split.
    - rewrite <- z_grid_hd.
      pose proof z_grid_increasing as Hinc.
      pose proof (z_grid_length) as Hlen.
      destruct (NinjaDataVectorized.z_grid data) as [|x0 x];
        [simpl in Hlen; unfold N_Z_GRID_POINTS in Hlen; lia|].
      cbn [hd]. apply increasing_head_le_nth; [exact Hinc|].
      rewrite Hlen. exact Hk.
    - rewrite <- z_grid_last. apply increasing_nth_le_last;
        [apply z_grid_increasing | rewrite z_grid_length; exact Hk]. }
  exists (grid_point i), (grid_point j).
  eexists. eexists.
  split; [apply z_grid_nth, Hi|]. split; [apply z_grid_nth, Hj|].
  split; [apply fs8_engine_LCDM; [exact Hv | apply Hrange, Hi
                                 | apply Hrange, Hi]|].
  split; [apply fs8_engine_LCDM; [exact Hv | apply Hrange, Hj
                                 | apply Hrange, Hj]|].
  unfold fsigma8_spec.
  rewrite !baseline_matter_fraction by assumption.
  split; [reflexivity|].
  pose proof (grid_point_pos i) as Hz.
  pose proof (grid_point_increasing i j (proj1 Hij)) as Hlt.
  pose proof (matter_fraction_increasing Om _ _ HOm Hz Hlt) as Hx.
  set (x := Om * (1 + grid_point i) ^ 3
            / (Om * (1 + grid_point i) ^ 3 + (1 - Om))) in *.
  set (x' := Om * (1 + grid_point j) ^ 3
             / (Om * (1 + grid_point j) ^ 3 + (1 - Om))) in *.
  assert (Hx0 : 0 < x).
  { unfold x. assert (0 < (1 + grid_point i) ^ 3) by (apply pow_lt; lra).
    assert (0 < Om * (1 + grid_point i) ^ 3)
      by (apply Rmult_lt_0_compat; lra).
    apply Rdiv_lt_0_compat; lra. }
  assert (H1 : Rpower x (55 / 100) < Rpower x' (55 / 100))
    by (apply Rlt_Rpower_l; lra).
  assert (H2 : Rpower x (3 / 7) < Rpower x' (3 / 7))
    by (apply Rlt_Rpower_l; lra).
  assert (P1 : 0 < Rpower x (55 / 100)) by (unfold Rpower; apply exp_pos).
  assert (P2 : 0 < Rpower x (3 / 7)) by (unfold Rpower; apply exp_pos).
  apply Rmult_lt_compat_r; [exact Hs|].
  apply Rmult_gt_0_lt_compat; lra.
Qed.

Lemma baseline_fs8_increasing_on_grid_witness :
  exists z z' f g,
    nth 100 (NinjaDataVectorized.z_grid data) 0 = z /\
    nth 900 (NinjaDataVectorized.z_grid data) 0 = z' /\
    LCDM_Vectorized.fs8_model
      {| LCDM_Vectorized.base := engine (678 / 10) (315 / 1000) (-1) 0 0;
         LCDM_Vectorized.s8 := 811 / 1000 |} z = Ok (Fin f) /\
    LCDM_Vectorized.fs8_model
      {| LCDM_Vectorized.base := engine (678 / 10) (315 / 1000) (-1) 0 0;
         LCDM_Vectorized.s8 := 811 / 1000 |} z' = Ok (Fin g) /\
    f = Rpower (315 / 1000 * (1 + z) ^ 3
                / (315 / 1000 * (1 + z) ^ 3 + (1 - 315 / 1000)))
          (55 / 100)
        * Rpower (315 / 1000 * (1 + z) ^ 3
                  / (315 / 1000 * (1 + z) ^ 3 + (1 - 315 / 1000)))
            (3 / 7)
        * (811 / 1000) /\
    f < g.
Proof.
  assert (Hm : moderate_H0 (678 / 10)) by (unfold moderate_H0; lra).
  assert (Hs : moderate_sigma8 (811 / 1000))
    by (unfold moderate_sigma8; lra).
  assert (Hij : (100 < 900 < N_Z_GRID_POINTS)%nat)
    by (unfold N_Z_GRID_POINTS; lia).
  exact (baseline_fs8_increasing_on_grid (678 / 10) (315 / 1000)
           (811 / 1000) _ 100 900 best_fit_lcdm_valid Hm Hs
           (LCDM_init_succeeds _ _ _
              (valid_parameters_hubble_ok _ _ _ _ _ best_fit_lcdm_valid))
           Hij).
Defined.

(** * The engine at the ends of the floating-point range *)

Lemma max_float_IZR : IEEE.max_float = IZR ((2 ^ 53 - 1) * 2 ^ 971).
Proof.
  unfold IEEE.max_float. rewrite mult_IZR. f_equal.
  change 2 with (IZR 2). rewrite pow_IZR. reflexivity.
Qed.

Lemma max_float_lower :
  1000000000000000000000000000000000000000000000000000000000000
  <= IEEE.max_float.
Proof.
  rewrite max_float_IZR. apply IZR_le. vm_compute. discriminate.
Qed.

Lemma max_float_upper : IEEE.max_float < 18 * 10 ^ 307.
Proof.
  rewrite max_float_IZR.
  change 18 with (IZR 18). change 10 with (IZR 10).
  rewrite pow_IZR, <- mult_IZR. apply IZR_lt. vm_compute. reflexivity.
Qed.

Lemma overflow_in_range (r : R) :
  - IEEE.max_float <= r <= IEEE.max_float -> IEEE.overflow (Fin r) = Fin r.
Proof.
  intros [Hlo Hhi]. unfold IEEE.overflow.
  destruct (Rlt_dec IEEE.max_float r); [lra|].
  destruct (Rlt_dec r (- IEEE.max_float)); [lra | reflexivity].
Qed.

Lemma overflow_above (r : R) :
  IEEE.max_float < r -> IEEE.overflow (Fin r) = PInf.
Proof.
  intros H. unfold IEEE.overflow.
  destruct (Rlt_dec IEEE.max_float r); [reflexivity | contradiction].
Qed.

(** Numbers of at most sixty digits are far inside the range. *)
Lemma overflow_moderate (r : R) :
  Rabs r
  <= 1000000000000000000000000000000000000000000000000000000000000 ->
  IEEE.overflow (Fin r) = Fin r.
Proof.
  intros H. apply overflow_in_range. pose proof max_float_lower.
  unfold Rabs in H. destruct (Rcase_abs r); lra.
Qed.

Lemma a_gridR_lower : Forall (fun a => / 6 <= a < 1) a_gridR.
Proof.
  unfold a_gridR. apply Forall_forall. intros a Ha.
  apply in_map_iff in Ha. destruct Ha as [z [<- Hz]].
  pose proof z_grid_positive as Hpos. rewrite Forall_forall in Hpos.
  pose proof (Hpos z Hz) as Hz0.
  destruct (scale_factor_range z Hz0) as [_ Hlt]. split; [|exact Hlt].
  apply In_nth with (d := 0) in Hz. destruct Hz as [i [Hi <-]].
  pose proof (increasing_nth_le_last (NinjaDataVectorized.z_grid data) i
                z_grid_increasing Hi) as Hle.
  rewrite z_grid_last in Hle.
  unfold scale_factor, Rdiv. rewrite Rmult_1_l.
  apply Rinv_le_contravar; lra.
Qed.

Lemma inv_cube_bounds (a : R) : / 6 <= a < 1 -> 1 < 1 / a ^ 3 <= 216.
Proof.
  intros [Hlo Hhi].
  assert (Ha : 0 < a) by lra.
  split; [apply inv_cube_gt_1; lra|].
  pose proof (inv_cube_decreasing a (/ 6)) as H.
  replace (1 / (/ 6) ^ 3) with 216 in H by field.
  apply H; lra.
Qed.

Lemma radicandR_baseline_bounds (Om a : R) :
  0 < Om < 1 -> / 6 <= a < 1 ->
  1 < radicandR Om (-1) 0 0 a <= 216.
Proof.
  intros HOm Ha. rewrite radicandR_baseline by lra.
  destruct (inv_cube_bounds a Ha) as [H1 H2].
  replace (Om / a ^ 3) with (Om * (1 / a ^ 3)) by (unfold Rdiv; ring).
  split; nra.
Qed.

Lemma IEEE_add_fin (a b : R) :
  Rabs (a + b) <= 1000000000000000000000000000000000000000000000000000000000000 ->
  IEEE.add (Fin a) (Fin b) = Fin (a + b).
Proof. intros H. unfold IEEE.add. cbn [np_add]. apply overflow_moderate, H. Qed.

Lemma IEEE_sub_fin (a b : R) :
  Rabs (a - b) <= 1000000000000000000000000000000000000000000000000000000000000 ->
  IEEE.sub (Fin a) (Fin b) = Fin (a - b).
Proof. intros H. unfold IEEE.sub. cbn [np_sub]. apply overflow_moderate, H. Qed.

Lemma IEEE_mul_fin (a b : R) :
  Rabs (a * b) <= 1000000000000000000000000000000000000000000000000000000000000 ->
  IEEE.mul (Fin a) (Fin b) = Fin (a * b).
Proof. intros H. unfold IEEE.mul. cbn [np_mul]. apply overflow_moderate, H. Qed.

Lemma IEEE_div_fin (a b : R) :
  b <> 0 -> Rabs (a / b) <= 1000000000000000000000000000000000000000000000000000000000000 ->
  IEEE.div (Fin a) (Fin b) = Fin (a / b).
Proof.
  intros Hb H. unfold IEEE.div. rewrite fin_div by exact Hb.
  apply overflow_moderate, H.
Qed.

Lemma IEEE_cube_fin (a : R) :
  Rabs (a ^ 3) <= 1000000000000000000000000000000000000000000000000000000000000 ->
  IEEE.power (Fin a) (Fin 3) = Fin (a ^ 3).
Proof.
  intros H. unfold IEEE.power. rewrite fin_pow3. apply overflow_moderate, H.
Qed.

Lemma IEEE_power_fin (a y : R) :
  0 < a -> Rabs (Rpower a y) <= 1000000000000000000000000000000000000000000000000000000000000 ->
  IEEE.power (Fin a) (Fin y) = Fin (Rpower a y).
Proof.
  intros Ha H. unfold IEEE.power. rewrite fin_pow_pos by exact Ha.
  apply overflow_moderate, H.
Qed.

(** In the baseline model the quantity under the root never leaves the
    range, whatever Ωm in (0,1). *)
Lemma IEEE_radicand_baseline (Om a : R) :
  0 < Om < 1 -> / 6 <= a < 1 ->
  IEEE.BaseModel.radicand Om (-1) 0 0 (Fin a)
  = Fin (radicandR Om (-1) 0 0 a).
Proof.
  intros HOm Ha. assert (Ha0 : 0 < a) by lra.
  destruct (inv_cube_bounds a Ha) as [Hc1 Hc2].
  assert (Hp3 : 0 < a ^ 3 <= 1).
  { split; [apply pow_lt; lra|].
    replace 1 with (1 ^ 3) by ring. apply pow_incr; lra. }
  assert (HOa : 0 < Om / a ^ 3 <= 216).
  { replace (Om / a ^ 3) with (Om * (1 / a ^ 3)) by (unfold Rdiv; ring).
    split; nra. }
  assert (Ee : -3 * (1 + (-1 + 0 * (1 - a)) + 0) = 0) by ring.
  unfold IEEE.BaseModel.radicand, IEEE.BaseModel.rho_de, IEEE.BaseModel.w_de.
  rewrite IEEE_cube_fin by (apply Rabs_le; lra).
  rewrite IEEE_div_fin by (try apply Rabs_le; lra).
  rewrite IEEE_sub_fin by (apply Rabs_le; lra).
  rewrite IEEE_mul_fin by (apply Rabs_le; lra).
  rewrite !IEEE_add_fin by (apply Rabs_le; lra).
  rewrite IEEE_mul_fin by (apply Rabs_le; lra).
  assert (Er : Rpower a (-3 * (1 + (-1 + 0 * (1 - a)) + 0)) = 1)
    by (rewrite Ee; apply Rpower_O, Ha0).
  rewrite IEEE_power_fin by (try (rewrite Er; apply Rabs_le); lra).
  rewrite IEEE_mul_fin by (rewrite Er; apply Rabs_le; lra).
  rewrite IEEE_add_fin; [reflexivity|].
  rewrite Er. apply Rabs_le. lra.
Qed.

Lemma IEEE_hubble_baseline (H0 Om a : R) :
  0 < Om < 1 -> / 6 <= a < 1 ->
  IEEE.BaseModel.hubble H0 Om (-1) 0 0 (Fin a)
  = IEEE.overflow (Fin (hubbleR H0 Om (-1) 0 0 a)).
Proof.
  intros HOm Ha. unfold IEEE.BaseModel.hubble.
  rewrite IEEE_radicand_baseline by assumption.
  pose proof (radicandR_baseline_bounds Om a HOm Ha).
  rewrite fin_sqrt by lra. reflexivity.
Qed.

Lemma IEEE_trapz_acc_cons (acc : npfloat) (x0 x1 : R) (x : list R)
  (y0 y1 : npfloat) (y : list npfloat) :
  IEEE.trapz_acc acc (x0 :: x1 :: x) (y0 :: y1 :: y) =
  (acc + Fin (x1 - x0) * (y1 + y0) / Fin 2)%ieee
    :: IEEE.trapz_acc (acc + Fin (x1 - x0) * (y1 + y0) / Fin 2)%ieee
         (x1 :: x) (y1 :: y).
Proof. reflexivity. Qed.

Lemma increasing_hd_le_last (x0 : R) (x : list R) :
  increasing (x0 :: x) -> x0 <= last (x0 :: x) 0.
Proof.
  intros Hinc.
  pose proof (increasing_nth_le_last (x0 :: x) 0 Hinc) as H.
  cbn [nth length] in H. apply H. lia.
Qed.

(** The running trapezoid sum of a bounded, non-negative integrand stays
    in range, and is then the exact sum. *)
Lemma IEEE_trapz_acc_fin (B acc : R) (x ys : list R) :
  increasing x -> Forall (fun y => 0 <= y <= B) ys ->
  0 <= acc -> 2 * B <= 1000000000000000000000000000000000000000000000000000000000000 ->
  acc + 2 * (last x 0 - hd 0 x) * B <= 1000000000000000000000000000000000000000000000000000000000000 ->
  IEEE.trapz_acc (Fin acc) x (map Fin ys) = map Fin (trapz_accR acc x ys)
  /\ Forall (fun d => 0 <= d <= acc + 2 * (last x 0 - hd 0 x) * B)
       (trapz_accR acc x ys).
Proof.
  revert acc ys. induction x as [|x0 x IH]; intros acc ys Hx Hy Hacc HB Hsum.
  { split; [reflexivity | constructor]. }
  destruct x as [|x1 x]; [split; [reflexivity | constructor]|].
  destruct ys as [|y0 [|y1 ys]]; try (split; [reflexivity | constructor]).
  rewrite increasing_cons in Hx. destruct Hx as [Hx01 Hx].
  inversion Hy as [|? ? Hy0 Hy']; subst.
  pose proof Hy' as Hy''. inversion Hy'' as [|? ? Hy1 _]; subst.
  pose proof (increasing_hd_le_last x1 x Hx) as Hlast.
  rewrite last_cons2 in Hsum |- *. cbn [hd] in Hsum |- *.
  set (l := last (x1 :: x) 0) in *.
  assert (HBnn : 0 <= B) by lra.
  assert (Hdx : 0 < x1 - x0) by lra.
  assert (Hs : 0 <= y1 + y0 <= 2 * B) by lra.
  assert (Hm : 0 <= (x1 - x0) * (y1 + y0) <= 2 * (x1 - x0) * B).
  { split; [apply Rmult_le_pos; lra|].
    replace (2 * (x1 - x0) * B) with ((x1 - x0) * (2 * B)) by ring.
    apply Rmult_le_compat_l; lra. }
  assert (Hrest : 0 <= 2 * (l - x1) * B)
    by (apply Rmult_le_pos; [lra | exact HBnn]).
  assert (Hsplit : 2 * (l - x0) * B
                   = 2 * (x1 - x0) * B + 2 * (l - x1) * B) by ring.
  change (map Fin (y0 :: y1 :: ys)) with (Fin y0 :: Fin y1 :: map Fin ys).
  rewrite IEEE_trapz_acc_cons, trapz_accR_cons.
  assert (E : (Fin acc + Fin (x1 - x0) * (Fin y1 + Fin y0) / Fin 2)%ieee
              = Fin (acc + (x1 - x0) * (y1 + y0) / 2)).
  { rewrite IEEE_add_fin by (apply Rabs_le; lra).
    rewrite IEEE_mul_fin by (apply Rabs_le; lra).
    rewrite IEEE_div_fin by (try apply Rabs_le; lra).
    rewrite IEEE_add_fin by (apply Rabs_le; lra).
    reflexivity. }
  rewrite E. change (Fin y1 :: map Fin ys) with (map Fin (y1 :: ys)).
  destruct (IH (acc + (x1 - x0) * (y1 + y0) / 2) (y1 :: ys))
    as [IH1 IH2]; try assumption; try lra.
  { cbn [hd]. fold l. lra. }
  rewrite IH1. split; [reflexivity|].
  constructor; [lra|].
  cbn [hd] in IH2. fold l in IH2.
  eapply Forall_impl; [|exact IH2]. cbn beta. intros d Hd. lra.
Qed.

Lemma zip_with_fin_pointwise (f : R -> npfloat -> npfloat)
  (g : R -> R -> R) (x d : list R) :
  (forall a b, In a x -> In b d -> f a (Fin b) = Fin (g a b)) ->
  zip_with f x (map Fin d) = map Fin (zip_with g x d).
Proof.
  revert d. induction x as [|x0 x IH]; intros [|d0 d] H; try reflexivity.
  cbn [map zip_with]. rewrite H by (left; reflexivity).
  rewrite IH; [reflexivity|].
  intros a b Ha Hb. apply H; right; assumption.
Qed.

Lemma z_grid_range (z : R) :
  In z (NinjaDataVectorized.z_grid data) -> / 1000 <= z <= 5.
Proof.
  intros Hz. apply In_nth with (d := 0) in Hz. destruct Hz as [i [Hi <-]].
  split.
  - rewrite <- z_grid_hd.
    pose proof z_grid_increasing as Hinc.
    destruct (NinjaDataVectorized.z_grid data) as [|x0 x];
      [simpl in Hi; lia|].
    cbn [hd]. apply increasing_head_le_nth; assumption.
  - rewrite <- z_grid_last.
    apply increasing_nth_le_last; [apply z_grid_increasing | exact Hi].
Qed.

(** Construction, given the reciprocals of the Hubble table: when they
    are non-negative and moderate, both distance tables are finite and the
    checks of [PchipInterpolator] pass. *)
Lemma IEEE_init_tables (H0 Om w0 wa xi B : R) (hz : list npfloat)
  (ys : list R) :
  map (IEEE.BaseModel.hubble H0 Om w0 wa xi)
    (NinjaDataVectorized.a_grid data) = hz ->
  map (fun h => (Fin 1 / h)%ieee) hz = map Fin ys ->
  Forall (fun y => 0 <= y <= B) ys -> B <= 1000000 ->
  let zg := NinjaDataVectorized.z_grid data in
  let d_c := 0 :: trapz_accR 0 zg ys in
  let d_l :=
    zip_with (fun z d => (1 + z) * NinjaDataVectorized.c data * d / 100000)
      zg d_c in
  IEEE.BaseModel.init H0 Om data w0 wa xi =
  Ok {| BaseModel.H0 := H0; BaseModel.Om := Om; BaseModel.w0 := w0;
        BaseModel.wa := wa; BaseModel.xi := xi; BaseModel.data := data;
        BaseModel.hz_grid := hz;
        BaseModel.Dc_interp :=
          {| pp_x := zg;
             pp_c := hermite_coeffs zg d_c (find_derivatives zg d_c);
             pp_extrapolate := true |};
        BaseModel.DL_interp :=
          {| pp_x := zg;
             pp_c := hermite_coeffs zg d_l (find_derivatives zg d_l);
             pp_extrapolate := true |};
        BaseModel.Hz_interp :=
          {| i1_x := zg; i1_y := hz;
             i1_bounds_error := false; i1_fill := FillExtrapolate |} |}.
Proof.
  intros Ehz Einv Hy HB. cbv zeta.
  assert (Hlen : length ys = N_Z_GRID_POINTS).
  { pose proof (f_equal (@length npfloat) Einv) as E.
    rewrite !length_map in E. rewrite <- E, <- Ehz, length_map.
    rewrite a_grid_finite, length_map. apply a_gridR_length. }
  assert (HB0 : 0 <= B).
  { destruct ys as [|y0 ys]; [discriminate|].
    inversion Hy; subst. lra. }
  destruct (IEEE_trapz_acc_fin B 0 (NinjaDataVectorized.z_grid data) ys)
    as [Et Hbound]; try assumption; try lra.
  { apply z_grid_increasing. }
  { rewrite z_grid_hd, z_grid_last. lra. }
  rewrite z_grid_hd, z_grid_last in Hbound.
  unfold IEEE.BaseModel.init. cbv zeta.
  rewrite Ehz, Einv. unfold IEEE.cumulative_trapezoid. rewrite Et.
  change (Fin 0 :: map Fin (trapz_accR 0 (NinjaDataVectorized.z_grid data) ys))
    with (map Fin (0 :: trapz_accR 0 (NinjaDataVectorized.z_grid data) ys)).
  set (d_c := 0 :: trapz_accR 0 (NinjaDataVectorized.z_grid data) ys).
  assert (Hdc : Forall (fun d => 0 <= d <= 10 * B) d_c).
  { unfold d_c. constructor; [lra|].
    eapply Forall_impl; [|exact Hbound]. cbn beta. intros d Hd.
    assert (/ 1000 > 0) by (apply Rinv_0_lt_compat; lra). nra. }
  assert (Ldc : length d_c = length (NinjaDataVectorized.z_grid data)).
  { unfold d_c. cbn [length].
    rewrite trapz_accR_length by (rewrite Hlen, z_grid_length; reflexivity).
    rewrite z_grid_length. reflexivity. }
  rewrite PchipInterpolator_finite;
    [ | rewrite z_grid_length; unfold N_Z_GRID_POINTS; lia
      | exact Ldc | apply z_grid_increasing ].
  cbn [bind].
  rewrite (zip_with_fin_pointwise _
             (fun z d => (1 + z) * NinjaDataVectorized.c data * d / 100000)).
  2:{ intros z d Hz Hd. apply z_grid_range in Hz.
      rewrite Forall_forall in Hdc. specialize (Hdc d Hd).
      rewrite c_data.
      assert (0 <= (1 + z) * (299792458 / 1000) <= 6 * (299792458 / 1000))
        by (split; nra).
      assert (0 <= (1 + z) * (299792458 / 1000) * d
              <= 6 * (299792458 / 1000) * (10 * B)).
      { split; [apply Rmult_le_pos; lra|].
        apply Rmult_le_compat; lra. }
      rewrite IEEE_mul_fin by (apply Rabs_le; lra).
      rewrite IEEE_mul_fin by (apply Rabs_le; lra).
      rewrite IEEE_div_fin by (try apply Rabs_le; lra).
      reflexivity. }
  rewrite PchipInterpolator_finite;
    [ | rewrite z_grid_length; unfold N_Z_GRID_POINTS; lia
      | rewrite zip_with_length by (symmetry; exact Ldc); reflexivity
      | apply z_grid_increasing ].
  cbn [bind]. unfold interp1d.
  assert (Lhz : length hz = length (NinjaDataVectorized.z_grid data)).
  { rewrite <- Ehz, length_map, a_grid_finite, length_map, a_gridR_length.
    rewrite z_grid_length. reflexivity. }
  rewrite Lhz, Nat.eqb_refl. reflexivity.
Qed.

(** The reciprocal of a Hubble rate that may have overflowed. *)
Lemma IEEE_inverse_hubble (H0 h : R) :
  / 1000000 <= H0 -> H0 <= h ->
  exists y,
    (Fin 1 / IEEE.overflow (Fin h))%ieee = Fin y /\ 0 <= y <= 1000000 /\
    (h <= IEEE.max_float -> y = 1 / h).
Proof.
  intros HH Hh.
  assert (H0pos : 0 < H0).
  { assert (0 < / 1000000) by (apply Rinv_0_lt_compat; lra). lra. }
  assert (Hinv : 0 < 1 / h <= 1000000).
  { unfold Rdiv. rewrite Rmult_1_l. split.
    - apply Rinv_0_lt_compat. lra.
    - replace 1000000 with (/ / 1000000) by (apply Rinv_inv; lra).
      apply Rinv_le_contravar; [apply Rinv_0_lt_compat; lra | lra]. }
  destruct (Rlt_dec IEEE.max_float h) as [Hover|Hin].
  - exists 0. rewrite overflow_above by exact Hover.
    split; [|split; [lra | intros; lra]].
    unfold IEEE.div. cbn [np_div]. apply overflow_moderate.
    rewrite Rabs_R0. lra.
  - exists (1 / h). pose proof max_float_lower.
    rewrite overflow_in_range by lra.
    split; [|split; [lra | reflexivity]].
    apply IEEE_div_fin; [lra | apply Rabs_le; lra].
Qed.

Lemma baseline_hubbleR_lower (H0 Om a : R) :
  0 < H0 -> 0 < Om < 1 -> / 6 <= a < 1 ->
  H0 <= hubbleR H0 Om (-1) 0 0 a <= 15 * H0.
Proof.
  intros HH HOm Ha. unfold hubbleR.
  destruct (radicandR_baseline_bounds Om a HOm Ha) as [H1 H2].
  assert (Hs1 : 1 <= sqrt (radicandR Om (-1) 0 0 a)).
  { rewrite <- sqrt_1 at 1. apply sqrt_le_1_alt. lra. }
  assert (Hs2 : sqrt (radicandR Om (-1) 0 0 a) <= 15).
  { rewrite <- (sqrt_pow2 15) by lra. apply sqrt_le_1_alt. lra. }
  split; nra.
Qed.

(** The tables of the baseline engine, for every H0 ≥ 10⁻⁶: the Hubble
    table may hold infinities, the table of reciprocals does not. *)
Lemma IEEE_baseline_tables (H0 Om : R) :
  / 1000000 <= H0 -> 0 < Om < 1 ->
  exists ys,
    map (fun h => (Fin 1 / h)%ieee)
      (map (fun a => IEEE.overflow (Fin (hubbleR H0 Om (-1) 0 0 a))) a_gridR)
    = map Fin ys /\
    Forall (fun y => 0 <= y <= 1000000) ys /\
    (15 * H0 <= IEEE.max_float ->
     ys = map (fun h => 1 / h) (hz_gridR H0 Om (-1) 0 0)).
Proof.
  intros HH HOm.
  assert (H0pos : 0 < H0).
  { assert (0 < / 1000000) by (apply Rinv_0_lt_compat; lra). lra. }
  pose proof a_gridR_lower as Hr. unfold hz_gridR.
  induction a_gridR as [|a l IH].
  - exists []. split; [reflexivity|]. split; [constructor | reflexivity].
  - inversion Hr as [|? ? Ha Hl]; subst.
    destruct (IH Hl) as [ys [E [Hy Hex]]].
    destruct (baseline_hubbleR_lower H0 Om a H0pos HOm Ha) as [Hlo Hhi].
    destruct (IEEE_inverse_hubble H0 (hubbleR H0 Om (-1) 0 0 a) HH Hlo)
      as [y [Ey [Hyb Hyx]]].
    exists (y :: ys). cbn [map]. rewrite Ey, E.
    split; [reflexivity|]. split; [constructor; assumption|].
    intros Hmax. rewrite Hyx by lra. rewrite Hex by exact Hmax. reflexivity.
Qed.

Lemma IEEE_hz_baseline (H0 Om : R) :
  0 < Om < 1 ->
  map (IEEE.BaseModel.hubble H0 Om (-1) 0 0)
    (NinjaDataVectorized.a_grid data)
  = map (fun a => IEEE.overflow (Fin (hubbleR H0 Om (-1) 0 0 a))) a_gridR.
Proof.
  intros HOm. rewrite a_grid_finite, map_map.
  apply map_ext_in. intros a Ha.
  pose proof a_gridR_lower as Hr. rewrite Forall_forall in Hr.
  apply IEEE_hubble_baseline; [exact HOm | apply Hr, Ha].
Qed.

(** The baseline engine is constructed for every H0 ≥ 10⁻⁶, however
    large: an overflowed Hubble rate has the reciprocal 0, and the distance
    tables stay finite. *)
Lemma IEEE_init_baseline (H0 Om : R) :
  / 1000000 <= H0 -> 0 < Om < 1 ->
  exists m,
    IEEE.BaseModel.init H0 Om data (-1) 0 0 = Ok m /\
    BaseModel.Hz_interp m =
    {| i1_x := NinjaDataVectorized.z_grid data;
       i1_y := map (fun a => IEEE.overflow (Fin (hubbleR H0 Om (-1) 0 0 a)))
                 a_gridR;
       i1_bounds_error := false; i1_fill := FillExtrapolate |}.
Proof.
  intros HH HOm.
  destruct (IEEE_baseline_tables H0 Om HH HOm) as [ys [E [Hy _]]].
  eexists. split.
  - apply (IEEE_init_tables H0 Om (-1) 0 0 1000000 _ ys
             (IEEE_hz_baseline H0 Om HOm) E Hy). lra.
  - reflexivity.
Qed.

(** In the moderate range the range-checked construction is the exact
    one. *)
Lemma IEEE_init_moderate (H0 Om : R) :
  moderate_H0 H0 -> 0 < Om < 1 ->
  IEEE.BaseModel.init H0 Om data (-1) 0 0 = Ok (engine H0 Om (-1) 0 0).
Proof.
  intros [HH HH'] HOm.
  assert (H0pos : 0 < H0).
  { assert (0 < / 1000000) by (apply Rinv_0_lt_compat; lra). lra. }
  pose proof max_float_lower as Hmax.
  destruct (IEEE_baseline_tables H0 Om HH HOm) as [ys [E [Hy Hex]]].
  assert (Eys : ys = map (fun h => 1 / h) (hz_gridR H0 Om (-1) 0 0))
    by (apply Hex; lra).
  assert (Ehz : map (IEEE.BaseModel.hubble H0 Om (-1) 0 0)
                  (NinjaDataVectorized.a_grid data)
                = map Fin (hz_gridR H0 Om (-1) 0 0)).
  { rewrite IEEE_hz_baseline by exact HOm. unfold hz_gridR.
    rewrite map_map. apply map_ext_in. intros a Ha.
    pose proof a_gridR_lower as Hr. rewrite Forall_forall in Hr.
    destruct (baseline_hubbleR_lower H0 Om a H0pos HOm (Hr a Ha)).
    apply overflow_in_range. lra. }
  rewrite <- IEEE_hz_baseline in E by exact HOm.
  rewrite Ehz in E.
  pose proof (IEEE_init_tables H0 Om (-1) 0 0 1000000 _ ys Ehz E Hy) as Hi.
  cbv zeta in Hi. rewrite Hi by lra. rewrite Eys. reflexivity.
Qed.

Lemma Rabs_le_bounds (r b : R) : Rabs r <= b -> - b <= r <= b.
Proof. unfold Rabs. destruct (Rcase_abs r); lra. Qed.

Lemma IEEE_call_linear_last (x0 x1 : R) (y0 y1 : npfloat)
  (y : list npfloat) (v : R) :
  IEEE.call_linear [x0; x1] (y0 :: y1 :: y) v = IEEE.segment x0 x1 y0 y1 v.
Proof. reflexivity. Qed.

Lemma IEEE_call_linear_cons (x0 x1 x2 : R) (x : list R) (y0 y1 : npfloat)
  (y : list npfloat) (v : R) :
  IEEE.call_linear (x0 :: x1 :: x2 :: x) (y0 :: y1 :: y) v =
  if Rle_dec v x1 then IEEE.segment x0 x1 y0 y1 v
  else IEEE.call_linear (x1 :: x2 :: x) (y1 :: y) v.
Proof. reflexivity. Qed.

(** A segment between finite ordinates, evaluated inside it, stays in
    range when the ordinates are small against the width of the segment. *)
Lemma IEEE_segment_fin (B gap x0 x1 y0 y1 v : R) :
  0 < gap -> gap <= x1 - x0 -> x0 <= v <= x1 ->
  0 <= y0 <= B -> 0 <= y1 <= B ->
  2 * B <= IEEE.max_float -> B / gap <= IEEE.max_float ->
  IEEE.segment x0 x1 (Fin y0) (Fin y1) v = Fin (segmentR x0 x1 y0 y1 v).
Proof.
  intros Hg Hdx Hv Hy0 Hy1 HB HBg.
  assert (Hdx0 : 0 < x1 - x0) by lra.
  assert (Hinv : 0 < / (x1 - x0) <= / gap).
  { split; [apply Rinv_0_lt_compat; lra|].
    apply Rinv_le_contravar; lra. }
  assert (Hig : 0 < / gap) by (apply Rinv_0_lt_compat; lra).
  unfold Rdiv in HBg.
  assert (Hslope : Rabs ((y1 - y0) / (x1 - x0)) <= B * / gap).
  { unfold Rdiv. rewrite Rabs_mult.
    rewrite (Rabs_pos_eq (/ (x1 - x0))) by lra.
    assert (Rabs (y1 - y0) <= B) by (apply Rabs_le; lra).
    pose proof (Rabs_pos (y1 - y0)).
    apply Rmult_le_compat; lra. }
  assert (Hprod : Rabs ((y1 - y0) / (x1 - x0) * (v - x0)) <= B).
  { unfold Rdiv. rewrite !Rabs_mult.
    rewrite (Rabs_pos_eq (/ (x1 - x0))) by lra.
    rewrite (Rabs_pos_eq (v - x0)) by lra.
    assert (Hd : Rabs (y1 - y0) <= B) by (apply Rabs_le; lra).
    pose proof (Rabs_pos (y1 - y0)) as Hp.
    assert (Hq : / (x1 - x0) * (v - x0) <= 1).
    { replace 1 with (/ (x1 - x0) * (x1 - x0)) by (field; lra).
      apply Rmult_le_compat_l; lra. }
    assert (Hq0 : 0 <= / (x1 - x0) * (v - x0)).
    { apply Rmult_le_pos; lra. }
    rewrite Rmult_assoc.
    replace B with (B * 1) by ring.
    apply Rmult_le_compat; lra. }
  apply Rabs_le_bounds in Hslope. apply Rabs_le_bounds in Hprod.
  unfold IEEE.segment, segmentR.
  unfold IEEE.sub. cbn [np_sub np_neg np_add].
  rewrite overflow_in_range by lra.
  unfold IEEE.div. rewrite fin_div by lra.
  replace (y1 + - y0) with (y1 - y0) by ring.
  rewrite overflow_in_range by lra.
  unfold IEEE.mul. cbn [np_mul]. rewrite overflow_in_range by lra.
  unfold IEEE.add. cbn [np_add]. apply overflow_in_range. lra.
Qed.

Lemma IEEE_call_linear_fin (B gap : R) (x y : list R) (v : R) :
  increasing x -> spaced gap x -> length y = length x ->
  (2 <= length x)%nat ->
  Forall (fun h => 0 <= h <= B) y ->
  0 < gap -> 2 * B <= IEEE.max_float -> B / gap <= IEEE.max_float ->
  hd 0 x <= v <= last x 0 ->
  IEEE.call_linear x (map Fin y) v = Fin (call_linearR x y v).
Proof.
  intros Hinc Hsp Hl H2 Hy Hg HB HBg. revert y Hinc Hsp Hl H2 Hy.
  induction x as [|x0 x IH]; intros y Hinc Hsp Hl H2 Hy Hv.
  { simpl in H2. lia. }
  destruct x as [|x1 x]; [simpl in H2; lia|].
  destruct y as [|y0 [|y1 y]]; try discriminate.
  destruct Hinc as [Hlt Hinc]. destruct Hsp as [Hgap Hsp].
  inversion Hy as [|? ? Hy0 Hy']; subst.
  inversion Hy' as [|? ? Hy1 Hy'']; subst.
  change (map Fin (y0 :: y1 :: y)) with (Fin y0 :: Fin y1 :: map Fin y).
  cbn [hd] in Hv.
  destruct x as [|x2 x].
  - rewrite IEEE_call_linear_last, call_linearR_last.
    cbn [last] in Hv.
    apply (IEEE_segment_fin B gap); auto.
  - rewrite IEEE_call_linear_cons, call_linearR_cons.
    destruct (Rle_dec v x1) as [Hle|Hgt].
    + apply (IEEE_segment_fin B gap); auto. lra.
    + change (Fin y1 :: map Fin y) with (map Fin (y1 :: y)).
      apply IH;
        [exact Hinc | exact Hsp | simpl in *; lia | simpl; lia | exact Hy'|].
      cbn [hd]. split; [lra|].
      change (last (x0 :: x1 :: x2 :: x) 0)
        with (last (x1 :: x2 :: x) 0) in Hv. lra.
Qed.

Lemma spaced_map_seq (gap : R) (f : nat -> R) (n s : nat) :
  (forall i, gap <= f (S i) - f i) -> spaced gap (map f (seq s n)).
Proof.
  intros Hf. revert s. induction n as [|n IH]; intros s; [exact I|].
  destruct n as [|n]; [exact I|].
  change (map f (seq s (S (S n))))
    with (f s :: f (S s) :: map f (seq (S (S s)) n)).
  split; [apply Hf|].
  change (f (S s) :: map f (seq (S (S s)) n)) with (map f (seq (S s) (S n))).
  apply IH.
Qed.

Lemma max_float_lower_307 : 10 ^ 307 <= IEEE.max_float.
Proof.
  rewrite max_float_IZR. change 10 with (IZR 10). rewrite pow_IZR.
  apply IZR_le. vm_compute. discriminate.
Qed.

Lemma grid_point_lower (i : nat) : / 1000 <= grid_point i.
Proof.
  rewrite <- grid_point_first. destruct i as [|i]; [lra|].
  apply Rlt_le, grid_point_increasing. lia.
Qed.

Lemma z_grid_spaced : spaced (8 / 1000000) (NinjaDataVectorized.z_grid data).
Proof.
  rewrite z_grid_closed_form. apply spaced_map_seq. intros i.
  rewrite grid_point_succ. pose proof (grid_point_lower i).
  pose proof grid_ratio_bounds. nra.
Qed.

Lemma a_gridR_nth (i : nat) :
  (i < N_Z_GRID_POINTS)%nat ->
  nth i a_gridR 0 = scale_factor (grid_point i).
Proof.
  intros Hi. unfold a_gridR.
  rewrite (nth_indep _ 0 (scale_factor 0))
    by (rewrite length_map, z_grid_length; exact Hi).
  rewrite map_nth, z_grid_nth by exact Hi. reflexivity.
Qed.

Lemma bind_Ok_inv {A B : Type} (r : result A) (k : A -> result B) (b : B) :
  bind r k = Ok b -> exists a, r = Ok a /\ k a = Ok b.
Proof.
  destruct r as [a|e]; [|discriminate]. intros E. exists a. auto.
Qed.

Lemma interp1d_Ok_inv (x : list R) (y : list npfloat) (f : Interp1d) :
  interp1d x y false FillExtrapolate = Ok f ->
  f = {| i1_x := x; i1_y := y; i1_bounds_error := false;
         i1_fill := FillExtrapolate |}.
Proof.
  unfold interp1d. destruct (negb (length x =? length y)%nat);
    [discriminate|]. intros E. injection E as <-. reflexivity.
Qed.

(** Whatever engine the range-checked constructor returns, its Hubble-rate
    interpolator holds the grid and the range-checked table. *)
Lemma IEEE_init_Ok_Hz (H0 Om w0 wa xi : R) (m : BaseModel.t) :
  IEEE.BaseModel.init H0 Om data w0 wa xi = Ok m ->
  BaseModel.Hz_interp m =
  {| i1_x := NinjaDataVectorized.z_grid data;
     i1_y := map (IEEE.BaseModel.hubble H0 Om w0 wa xi)
               (NinjaDataVectorized.a_grid data);
     i1_bounds_error := false; i1_fill := FillExtrapolate |}.
Proof.
  unfold IEEE.BaseModel.init. cbv zeta. intros E.
  apply bind_Ok_inv in E. destruct E as [dc [_ E]].
  apply bind_Ok_inv in E. destruct E as [dl [_ E]].
  apply bind_Ok_inv in E. destruct E as [hz [Ehz E]].
  apply interp1d_Ok_inv in Ehz. injection E as <-.
  cbn [BaseModel.Hz_interp]. exact Ehz.
Qed.

Lemma IEEE_LCDM_init_Ok (H0 Om s8 : R) (m : LCDM_Vectorized.t) :
  IEEE.LCDM_Vectorized.init H0 Om s8 data = Ok m ->
  IEEE.BaseModel.init H0 Om data (-1) 0 0 = Ok (LCDM_Vectorized.base m).
Proof.
  unfold IEEE.LCDM_Vectorized.init. intros E.
  apply bind_Ok_inv in E. destruct E as [b [Eb E]].
  injection E as <-. exact Eb.
Qed.

(** The baseline Hubble table is finite as long as H0 ≤ 10³⁰⁰. *)
Lemma IEEE_hz_baseline_finite (H0 Om : R) :
  0 < H0 <= 10 ^ 300 -> 0 < Om < 1 ->
  map (IEEE.BaseModel.hubble H0 Om (-1) 0 0)
    (NinjaDataVectorized.a_grid data)
  = map Fin (hz_gridR H0 Om (-1) 0 0) /\
  Forall (fun h => 0 <= h <= 15 * H0) (hz_gridR H0 Om (-1) 0 0).
Proof.
  intros [HH HH'] HOm.
  pose proof max_float_lower_307 as Hmax.
  assert (H307 : 15 * 10 ^ 300 <= 10 ^ 307).
  { replace (10 ^ 307) with (10 ^ 7 * 10 ^ 300)
      by (rewrite <- pow_add; reflexivity).
    assert (0 < 10 ^ 300) by (apply pow_lt; lra).
    assert (15 <= 10 ^ 7) by (simpl; lra). nra. }
  pose proof a_gridR_lower as Hr. rewrite Forall_forall in Hr.
  split.
  - rewrite IEEE_hz_baseline by exact HOm. unfold hz_gridR.
    rewrite map_map. apply map_ext_in. intros a Ha.
    destruct (baseline_hubbleR_lower H0 Om a HH HOm (Hr a Ha)).
    apply overflow_in_range. lra.
  - unfold hz_gridR. apply Forall_forall. intros h Hh.
    apply in_map_iff in Hh. destruct Hh as [a [<- Ha]].
    destruct (baseline_hubbleR_lower H0 Om a HH HOm (Hr a Ha)). lra.
Qed.

(** On the grid range the range-checked [H] of a baseline engine is the
    exact one. *)
Lemma IEEE_H_baseline (H0 Om : R) (m : BaseModel.t) (z : R) :
  0 < H0 <= 10 ^ 300 -> 0 < Om < 1 ->
  IEEE.BaseModel.init H0 Om data (-1) 0 0 = Ok m ->
  / 1000 <= z <= 5 ->
  IEEE.BaseModel.H m z = Ok (Fin (HR H0 Om (-1) 0 0 z)).
Proof.
  intros HH HOm E Hz.
  destruct (IEEE_hz_baseline_finite H0 Om HH HOm) as [Ehz Hb].
  unfold IEEE.BaseModel.H, IEEE.interp1d_call.
  rewrite (IEEE_init_Ok_Hz _ _ _ _ _ _ E). cbn [i1_fill i1_x i1_y].
  rewrite Ehz. f_equal. unfold HR.
  pose proof max_float_lower_307 as Hmax.
  assert (H300 : 0 < 10 ^ 300) by (apply pow_lt; lra).
  assert (H307 : 10 ^ 307 = 10 ^ 7 * 10 ^ 300)
    by (rewrite <- pow_add; reflexivity).
  assert (H7 : 10 ^ 7 = 10000000) by (simpl; lra).
  apply (IEEE_call_linear_fin (15 * H0) (8 / 1000000)).
  - apply z_grid_increasing.
  - apply z_grid_spaced.
  - rewrite hz_gridR_length, z_grid_length. reflexivity.
  - apply z_grid_two.
  - exact Hb.
  - lra.
  - nra.
  - replace (15 * H0 / (8 / 1000000)) with (1875000 * H0) by field. nra.
  - rewrite z_grid_hd, z_grid_last. exact Hz.
Qed.

Lemma nth_map_default {A B : Type} (f : A -> B) (l : list A) (i : nat)
  (d : A) (e : B) :
  (i < length l)%nat -> nth i (map f l) e = f (nth i l d).
Proof.
  intros Hi. rewrite (nth_indep _ e (f d)) by (rewrite length_map; exact Hi).
  apply map_nth.
Qed.

(** At the last abscissa [call_linear] evaluates the last segment, between
    the last two ordinates. *)
Lemma IEEE_call_linear_at_last (x : list R) (y : list npfloat) :
  increasing x -> length y = length x -> (2 <= length x)%nat ->
  exists x_lo,
    IEEE.call_linear x y (last x 0)
    = IEEE.segment x_lo (last x 0)
        (nth (length x - 2) y NaN) (nth (length x - 1) y NaN) (last x 0).
Proof.
  revert y. induction x as [|x0 x IH]; intros y Hinc Hl H2.
  { simpl in H2. lia. }
  destruct x as [|x1 x]; [simpl in H2; lia|].
  destruct y as [|y0 [|y1 y]]; try discriminate.
  destruct Hinc as [Hlt Hinc].
  destruct x as [|x2 x].
  - exists x0. reflexivity.
  - rewrite IEEE_call_linear_cons.
    change (last (x0 :: x1 :: x2 :: x) 0) with (last (x1 :: x2 :: x) 0).
    assert (Hlast : x1 < last (x1 :: x2 :: x) 0).
    { destruct Hinc as [Hlt' Hinc'].
      pose proof (increasing_hd_le_last x2 x Hinc') as Hle.
      change (last (x1 :: x2 :: x) 0) with (last (x2 :: x) 0). lra. }
    destruct (Rle_dec (last (x1 :: x2 :: x) 0) x1) as [Hc|_]; [lra|].
    destruct (IH (y1 :: y)) as [x_lo E].
    + exact Hinc.
    + simpl in *. lia.
    + simpl. lia.
    + exists x_lo. rewrite E.
      cbn [length].
      replace (S (S (S (length x))) - 2)%nat with (S (S (length x) - 1))
        by lia.
      replace (S (S (S (length x))) - 1)%nat with (S (S (S (length x)) - 1))
        by lia.
      replace (S (S (length x)) - 2)%nat with (S (length x) - 1)%nat by lia.
      rewrite !nth_S_cons. reflexivity.
Qed.

Lemma IEEE_segment_between_infinities (x_lo x_hi v : R) :
  IEEE.segment x_lo x_hi PInf PInf v = NaN.
Proof. reflexivity. Qed.

(** Above redshift 2 the baseline rate exceeds 3·H0 when Ωm = 0.315. *)
Lemma best_fit_hubbleR_above_2 (H0 a : R) :
  0 < H0 -> 0 < a <= / 3 ->
  3 * H0 <= hubbleR H0 (315 / 1000) (-1) 0 0 a.
Proof.
  intros HH [Ha Ha3]. unfold hubbleR. rewrite radicandR_baseline by lra.
  pose proof (inv_cube_decreasing (/ 3) a Ha Ha3) as Hc.
  replace (1 / (/ 3) ^ 3) with 27 in Hc by field.
  assert (Hr : 3 ^ 2 <= 315 / 1000 / a ^ 3 + (1 - 315 / 1000)).
  { replace (315 / 1000 / a ^ 3) with (315 / 1000 * (1 / a ^ 3))
      by (unfold Rdiv; ring). lra. }
  apply sqrt_le_1_alt in Hr. rewrite sqrt_pow2 in Hr by lra. nra.
Qed.

Lemma grid_point_998_above_2 : 2 <= grid_point 998.
Proof.
  pose proof (grid_point_succ 998) as E. rewrite grid_point_999 in E.
  pose proof grid_ratio_bounds. pose proof (grid_point_pos 998). nra.
Qed.

(** With H0 = 10³⁰⁸ the last two entries of the baseline Hubble table
    are beyond the largest double. *)
Lemma huge_H0_table_end (i : nat) :
  (998 <= i < N_Z_GRID_POINTS)%nat ->
  nth i
    (map (fun a => IEEE.overflow
                     (Fin (hubbleR (10 ^ 308) (315 / 1000) (-1) 0 0 a)))
       a_gridR) NaN = PInf.
Proof.
  intros Hi.
  rewrite (nth_map_default _ _ _ 0) by (rewrite a_gridR_length; lia).
  rewrite a_gridR_nth by lia.
  apply overflow_above.
  assert (H308 : 0 < 10 ^ 308) by (apply pow_lt; lra).
  assert (Hz : 2 <= grid_point i).
  { pose proof grid_point_998_above_2.
    destruct (Nat.eq_dec i 998) as [->|Hne]; [assumption|].
    assert (grid_point 998 < grid_point i)
      by (apply grid_point_increasing; lia). lra. }
  assert (Ha : 0 < scale_factor (grid_point i) <= / 3).
  { unfold scale_factor, Rdiv. rewrite Rmult_1_l. split.
    - apply Rinv_0_lt_compat. lra.
    - apply Rinv_le_contravar; lra. }
  pose proof (best_fit_hubbleR_above_2 (10 ^ 308) _ H308 Ha) as Hh.
  pose proof max_float_upper as Hmax.
  replace (10 ^ 308) with (10 * 10 ^ 307) in Hh at 1 by reflexivity.
  assert (0 < 10 ^ 307) by (apply pow_lt; lra). lra.
Qed.

(** C7 as stated fails.  H0 = 10³⁰⁸ and Ωm = 0.315 are valid parameters and
    the baseline engine is constructed, but the Hubble rates of the upper
    grid points exceed the largest double: the table ends in infinities,
    the slope of the last segment is ∞ − ∞, and H at the last grid point is
    NaN, which is not ≥ H at the point before it. *)
Lemma baseline_H_is_nan_for_huge_H0 :
  valid_parameters (10 ^ 308) (315 / 1000) /\
  exists m,
    IEEE.LCDM_Vectorized.init (10 ^ 308) (315 / 1000) (811 / 1000) data
    = Ok m /\
    nth 998 (NinjaDataVectorized.z_grid data) 0
    < nth 999 (NinjaDataVectorized.z_grid data) 0 /\
    IEEE.BaseModel.H (LCDM_Vectorized.base m)
      (nth 999 (NinjaDataVectorized.z_grid data) 0) = Ok NaN /\
    ~ (exists h h',
          IEEE.BaseModel.H (LCDM_Vectorized.base m)
            (nth 998 (NinjaDataVectorized.z_grid data) 0) = Ok (Fin h) /\
          IEEE.BaseModel.H (LCDM_Vectorized.base m)
            (nth 999 (NinjaDataVectorized.z_grid data) 0) = Ok (Fin h') /\
          h <= h').
Proof.
  assert (H308 : 1 <= 10 ^ 308) by (apply pow_R1_Rle; lra).
  split; [unfold valid_parameters; lra|].
  destruct (IEEE_init_baseline (10 ^ 308) (315 / 1000)) as [b [E Hz]];
    [lra | lra |].
  exists {| LCDM_Vectorized.base := b; LCDM_Vectorized.s8 := 811 / 1000 |}.
  cbn [LCDM_Vectorized.base].
  assert (HNaN : IEEE.BaseModel.H b
                   (nth 999 (NinjaDataVectorized.z_grid data) 0) = Ok NaN).
  { unfold IEEE.BaseModel.H, IEEE.interp1d_call. rewrite Hz.
    cbn [i1_fill i1_x i1_y]. f_equal.
    replace (nth 999 (NinjaDataVectorized.z_grid data) 0)
      with (last (NinjaDataVectorized.z_grid data) 0)
      by (rewrite last_nth_R, z_grid_length; reflexivity).
    destruct (IEEE_call_linear_at_last (NinjaDataVectorized.z_grid data)
                (map (fun a => IEEE.overflow
                        (Fin (hubbleR (10 ^ 308) (315 / 1000) (-1) 0 0 a)))
                   a_gridR)) as [x_lo Eq].
    - apply z_grid_increasing.
    - rewrite length_map, a_gridR_length, z_grid_length. reflexivity.
    - apply z_grid_two.
    - rewrite Eq, z_grid_length.
      rewrite !huge_H0_table_end by (unfold N_Z_GRID_POINTS; lia).
      apply IEEE_segment_between_infinities. }
  split; [|split; [|split]].
  - unfold IEEE.LCDM_Vectorized.init. rewrite E. reflexivity.
  - rewrite !z_grid_nth by (unfold N_Z_GRID_POINTS; lia).
    apply grid_point_lt_succ.
  - exact HNaN.
  - intros [h [h' [_ [E' _]]]]. rewrite HNaN in E'. discriminate.
Qed.

(** C7, amended.  For every Ωm in (0,1) and every H0 with 0 < H0 ≤ 10³⁰⁰,
    the Hubble rate of a constructed baseline engine does not decrease
    along the grid: at two neighbouring grid points z_i < z_{i+1} both
    values are finite and H(z_i) ≤ H(z_{i+1}).  The bound keeps the whole
    Hubble table, and every slope computed from it, inside the range of a
    double. *)
Theorem baseline_H_nondecreasing_on_grid (H0 Om s8 : R)
  (m : LCDM_Vectorized.t) (i : nat) :
  0 < H0 <= 10 ^ 300 -> 0 < Om < 1 ->
  IEEE.LCDM_Vectorized.init H0 Om s8 data = Ok m ->
  (S i < N_Z_GRID_POINTS)%nat ->
  exists zi zi' h h',
    nth i (NinjaDataVectorized.z_grid data) 0 = zi /\
    nth (S i) (NinjaDataVectorized.z_grid data) 0 = zi' /\
    zi < zi' /\
    IEEE.BaseModel.H (LCDM_Vectorized.base m) zi = Ok (Fin h) /\
    IEEE.BaseModel.H (LCDM_Vectorized.base m) zi' = Ok (Fin h') /\
    h <= h'.
Proof.
  intros HH HOm E Hi. apply IEEE_LCDM_init_Ok in E.
  assert (Hrange : forall j, (j < N_Z_GRID_POINTS)%nat ->
                     / 1000 <= grid_point j <= 5).
  { intros j Hj. split; [apply grid_point_lower|].
    rewrite <- grid_point_last.
    destruct (Nat.eq_dec j (N_Z_GRID_POINTS - 1)) as [->|Hne]; [lra|].
    apply Rlt_le, grid_point_increasing. lia. }
  exists (grid_point i), (grid_point (S i)).
  exists (HR H0 Om (-1) 0 0 (grid_point i)).
  exists (HR H0 Om (-1) 0 0 (grid_point (S i))).
  split; [apply z_grid_nth; lia|]. split; [apply z_grid_nth; exact Hi|].
  split; [apply grid_point_lt_succ|].
  split; [apply (IEEE_H_baseline H0 Om _ _ HH HOm E), Hrange; lia|].
  split; [apply (IEEE_H_baseline H0 Om _ _ HH HOm E), Hrange; exact Hi|].
  rewrite !HR_grid by lia.
  apply baseline_hubbleR_monotone; try tauto.
  - apply scale_factor_range, grid_point_pos.
  - apply Rlt_le, scale_factor_decreasing;
      [apply grid_point_pos | apply grid_point_lt_succ].
Qed.

Lemma baseline_H_nondecreasing_on_grid_witness :
  exists zi zi' h h',
    nth 0 (NinjaDataVectorized.z_grid data) 0 = zi /\
    nth 1 (NinjaDataVectorized.z_grid data) 0 = zi' /\
    zi < zi' /\
    IEEE.BaseModel.H
      (LCDM_Vectorized.base
         {| LCDM_Vectorized.base := engine (678 / 10) (315 / 1000) (-1) 0 0;
            LCDM_Vectorized.s8 := 811 / 1000 |}) zi = Ok (Fin h) /\
    IEEE.BaseModel.H
      (LCDM_Vectorized.base
         {| LCDM_Vectorized.base := engine (678 / 10) (315 / 1000) (-1) 0 0;
            LCDM_Vectorized.s8 := 811 / 1000 |}) zi' = Ok (Fin h') /\
    h <= h'.
Proof.
  assert (HH : 0 < 678 / 10 <= 10 ^ 300).
  { split; [lra|]. apply Rle_trans with (10 ^ 2); [simpl; lra|].
    apply Rle_pow; [lra | lia]. }
  assert (HOm : 0 < 315 / 1000 < 1) by lra.
  assert (Hm : moderate_H0 (678 / 10)) by (unfold moderate_H0; lra).
  assert (Hi : (1 < N_Z_GRID_POINTS)%nat) by (unfold N_Z_GRID_POINTS; lia).
  assert (E : IEEE.LCDM_Vectorized.init (678 / 10) (315 / 1000)
                (811 / 1000) data
              = Ok {| LCDM_Vectorized.base :=
                        engine (678 / 10) (315 / 1000) (-1) 0 0;
                      LCDM_Vectorized.s8 := 811 / 1000 |}).
  { unfold IEEE.LCDM_Vectorized.init.
    rewrite (IEEE_init_moderate _ _ Hm HOm). reflexivity. }
  exact (baseline_H_nondecreasing_on_grid (678 / 10) (315 / 1000)
           (811 / 1000) _ 0 HH HOm E Hi).
Defined.
